(** * Synthetic label generator with tree-structured dependencies

    A shallow embedding of [synthetic/generate.py]
    ([SingleTaskTreeDepsGenerator]) and the verification of its
    specification.

    Conventions of the embedding.
    - Python [int]s that are node indices, label values, classes and
      flattened indices are natural numbers: every call site draws them from
      [range(...)] or from the random source.
    - Python and numpy floating-point numbers are idealised as real numbers
      ([R]); [np.exp] is the real exponential.
    - Python dictionaries are finite maps ([gmap]); a [defaultdict(float)] is
      a finite map read through a default-valued lookup; dictionaries whose
      insertion order is observed ([popitem]) are association lists.
    - numpy arrays are lists; an out-of-range index raises [IndexError].
    - Code that can raise returns a [result]; the random source is an
      explicit stream threaded through the code that draws from it. *)

From Stdlib Require Import Reals Lra Lia ZArith List Permutation.
From stdpp Require Import base option list gmap.
Import ListNotations.

Local Open Scope R_scope.

(** ** Exceptions and the error monad *)

Inductive exn : Type :=
| KeyError
| TypeError
| IndexError
| ZeroDivisionError
| ValueError
| LinAlgError.

Inductive result (A : Type) : Type :=
| Ok (a : A)
| Err (e : exn).
Arguments Ok {A} a.
Arguments Err {A} e.

Definition rbind {A B} (m : result A) (f : A -> result B) : result B :=
  match m with
  | Ok a => f a
  | Err e => Err e
  end.

#[global] Instance result_bind : MBind result := fun A B f m => rbind m f.
#[global] Instance result_ret : MRet result := fun A a => Ok a.

(** ** Numeric helpers *)

(** [np.sum] of a vector. *)
Definition sumR (l : list R) : R := fold_right Rplus 0 l.

(** The product accumulated by [mess_prod *= ...] starting from 1. *)
Definition prodR (l : list R) : R := fold_right Rmult 1 l.

(** [a[i] = x] on a numpy vector. *)
Definition setitem {A} (l : list A) (i : nat) (x : A) : result (list A) :=
  if decide (i < length l)%nat then Ok (<[i:=x]> l) else Err IndexError.

(** [a[i]] on a numpy vector or a Python list, for [i >= 0]. *)
Definition getitem {A} (l : list A) (i : nat) : result A :=
  match l !! i with
  | Some x => Ok x
  | None => Err IndexError
  end.

(** ** Flattened moment-matrix indices: [_get_node_index] *)

(** An insertion-ordered dictionary from nodes to label values. *)
Definition odict := list (nat * nat).

Fixpoint od_set (d : odict) (key v : nat) : odict :=
  match d with
  | [] => [(key, v)]
  | (k', v') :: d' =>
      if Nat.eqb k' key then (k', v) :: d' else (k', v') :: od_set d' key v
  end.

Fixpoint od_get (d : odict) (key : nat) : option nat :=
  match d with
  | [] => None
  | (k', v') :: d' => if Nat.eqb k' key then Some v' else od_get d' key
  end.

Section NodeIndex.
Variables m k : nat.
Variable E_order : gmap nat (nat * nat).

  (** [int(idx1 / 2)] is the quotient [idx1 / 2] on naturals, and
      [rem % 2] the remainder. *)
Definition _get_node_index (idx1 : nat) : result odict :=
    if decide (idx1 < m * k)%nat then
      let i := (idx1 / 2)%nat in
      Ok (od_set [] i ((idx1 - 2 * i) + 1)%nat)
    else
      let e_idx := ((idx1 - m * k) / 4)%nat in
      match E_order !! e_idx with
      | None => Err KeyError
      | Some e =>
          let rem := ((idx1 - m * k) - 4 * e_idx)%nat in
          let nodes_1 := od_set [] (fst e) (rem / 2 + 1)%nat in
          Ok (od_set nodes_1 (snd e) (rem mod 2 + 1)%nat)
      end.
End NodeIndex.

(** ** The sampling distribution of one label (label sampler, inner loop) *)

(** [p = np.ones(k+1) * (1 - prob_y - prob_0) / (k - 1); p[0] = prob_0;
    p[y] = prob_y]. *)
Definition label_distribution (k y : nat) (prob_y prob_0 : R)
  : result (list R) :=
  let p := replicate (k + 1)
             (1 * (1 - prob_y - prob_0) / IZR (Z.of_nat k - 1)) in
  p ← setitem p 0 prob_0;
  setitem p y prob_y.

(** ** The random source *)

(** The process-wide pseudorandom generator is a stream of draws read at a
    cursor.  The draw at position [n] is [uniform n] when it is consumed by
    [random()], and [index n a] when it is consumed by [choice(a)] or
    [choice(a, p=p)]. *)
Record source : Type := {
  uniform : nat -> R;
  index : nat -> nat -> nat
}.

(** The contract of numpy's generator: [random()] lies in [[0,1)] and
    [choice(a)] in [range(a)]. *)
Definition source_ok (s : source) : Prop :=
  (forall n, 0 <= uniform s n < 1)
  /\ (forall n a, (0 < a)%nat -> (index s n a < a)%nat).

(** [random()] *)
Definition random (s : source) (pos : nat) : R * nat :=
  (uniform s pos, S pos).

(** [random(k)]: a vector of [k] draws. *)
Definition random_vec (s : source) (k pos : nat) : list R * nat :=
  (map (uniform s) (seq pos k), (pos + k)%nat).

(** [choice(a)] *)
Definition choice (s : source) (a pos : nat) : nat * nat :=
  (index s pos a, S pos).

(** ** The dependency graph *)

(** A networkx [Graph]: each node with its neighbours in insertion order. *)
Definition add_nbr (u v : nat) (G : gmap nat (list nat)) : gmap nat (list nat) :=
  let nb := default [] (G !! u) in
  <[u := if bool_decide (v ∈ nb) then nb else nb ++ [v]]> G.

(** [G.add_edge(u, v)] *)
Definition add_edge (u v : nat) (G : gmap nat (list nat)) : gmap nat (list nat) :=
  add_nbr v u (add_nbr u v G).

(** The correlation structure held by the generator: [self.G], [self.E],
    [self.parent], [self.E_order] and [self.n_edges]. *)
Record deps : Type := {
  G : gmap nat (list nat);
  E : list (nat * nat);
  parent : gmap nat nat;
  E_order : gmap nat (nat * nat);
  n_edges : nat
}.

(** The five statements that record the edge [(p_i, i)]; [idx] is
    [length E] throughout, as it starts at 0 and grows with [E]. *)
Definition record_edge (p_i i : nat) (st : deps * nat) : deps * nat :=
  let '(d, idx) := st in
  ({| G := add_edge i p_i (G d);
      E := E d ++ [(p_i, i)];
      parent := <[i := p_i]> (parent d);
      E_order := <[idx := (p_i, i)]> (E_order d);
      n_edges := n_edges d |}, S idx).

Definition deps_init : deps :=
  {| G := ∅; E := []; parent := ∅; E_order := ∅; n_edges := 0 |}.

Definition set_n_edges (d : deps) : deps :=
  {| G := G d; E := E d; parent := parent d; E_order := E_order d;
     n_edges := length (E d) |}.

(** One iteration of the loop of [_generate_edges]: the state is the
    structure, the counter [idx] and the cursor of the random source. *)
Definition edges_step (s : source) (edge_prob : R) (st : deps * nat * nat)
    (i : nat) : deps * nat * nat :=
  let '(d, idx, pos) := st in
  let '(r, pos) := random s pos in
  if Rlt_dec r edge_prob then
    if decide (0 < i)%nat then
      let '(p_i, pos) := choice s i pos in
      (record_edge p_i i (d, idx), pos)
    else (d, idx, pos)
  else (d, idx, pos).

Definition _generate_edges (s : source) (m : nat) (edge_prob : R) (pos : nat)
  : deps * nat :=
  let '(d, _, pos) :=
    fold_left (edges_step s edge_prob) (seq 0 m) (deps_init, 0%nat, pos) in
  (set_n_edges d, pos).

Definition _generate_edges_from_list (edges_list : list (nat * nat)) : deps :=
  let '(d, _) :=
    fold_left (fun st edge => record_edge (fst edge) (snd edge) st)
      edges_list (deps_init, 0%nat) in
  set_n_edges d.

(** The graph that the recorded edges build, one [add_edge] per edge. *)
Definition graph_of (El : list (nat * nat)) : gmap nat (list nat) :=
  fold_left (fun g e => add_edge (snd e) (fst e) g) El ∅.

(** ** Parameters: [_generate_params] *)

(** Keys of [theta]: [(i, y)] for a source and [((i, j), y1, y2)] for an
    edge. *)
Definition tkey : Type := (nat * nat) + (nat * nat * nat * nat).
Definition node_key (i y : nat) : tkey := inl (i, y).
Definition edge_key (e : nat * nat) (y1 y2 : nat) : tkey := inr (e, y1, y2).

Section Params.
Variable s : source.
Variables m k : nat.

  (** [(hi - lo) * random(k) + lo] *)
Definition draw_theta (lo hi : R) (pos : nat) : list R * nat :=
    let '(v, pos) := random_vec s k pos in
    (map (fun r => (hi - lo) * r + lo) v, pos).

Definition store_theta (lo hi : R) (st : gmap tkey (list R) * nat)
      (key : tkey) : gmap tkey (list R) * nat :=
    let '(theta, pos) := st in
    let '(v, pos) := draw_theta lo hi pos in
    (<[key := v]> theta, pos).

Definition _generate_params (El : list (nat * nat))
      (theta_range theta_edge_range : R * R) (pos : nat)
    : gmap tkey (list R) * nat :=
    let st :=
      fold_left (fun st i =>
        fold_left (fun st y =>
          let t_min := Rmin (fst theta_range) (snd theta_range) in
          let t_max := Rmax (fst theta_range) (snd theta_range) in
          store_theta t_min t_max st (node_key i y))
          (seq 1 k) st)
        (seq 0 m) (∅, pos) in
    let te_min := Rmin (fst theta_edge_range) (snd theta_edge_range) in
    let te_max := Rmax (fst theta_edge_range) (snd theta_edge_range) in
    fold_left (fun st e =>
      fold_left (fun st y1 =>
        fold_left (fun st y2 =>
          store_theta te_min te_max st (edge_key e y1 y2))
          (seq 1 k) st)
        (seq 1 k) st)
      El st.
End Params.

(** The keys written by the two loop nests of [_generate_params], in the
    order in which they are written. *)
Definition node_keys (m k : nat) : list tkey :=
  concat (map (fun i => map (node_key i) (seq 1 k)) (seq 0 m)).

Definition edge_keys (k : nat) (El : list (nat * nat)) : list tkey :=
  concat (map (fun e =>
    concat (map (fun y1 => map (edge_key e y1) (seq 1 k)) (seq 1 k))) El).

(** ** The graph queries of networkx used by the sum-product engine *)

(** Loops whose body can raise. *)
Fixpoint foldM {A B} (f : A -> B -> result A) (l : list B) (a : A) : result A :=
  match l with
  | [] => Ok a
  | b :: l => a' ← f a b; foldM f l a'
  end.

Definition neighbors (g : gmap nat (list nat)) (v : nat) : list nat :=
  default [] (g !! v).

(** Breadth-first search.  [scan] goes through the neighbours of [p] and
    turns each neighbour not yet visited into a tree edge; [expand] scans the
    nodes of one level in order; [bfs_levels] iterates level by level, which
    yields the tree edges in the order of a queue-based search. *)
Fixpoint scan (p : nat) (nbrs visited : list nat) : list (nat * nat) * list nat :=
  match nbrs with
  | [] => ([], visited)
  | c :: nbrs =>
      if bool_decide (c ∈ visited) then scan p nbrs visited
      else let '(es, vis) := scan p nbrs (c :: visited) in ((p, c) :: es, vis)
  end.

Fixpoint expand (g : gmap nat (list nat)) (frontier visited : list nat)
  : list (nat * nat) * list nat :=
  match frontier with
  | [] => ([], visited)
  | p :: frontier =>
      let '(es1, vis1) := scan p (neighbors g p) visited in
      let '(es2, vis2) := expand g frontier vis1 in
      (es1 ++ es2, vis2)
  end.

Fixpoint bfs_levels (fuel : nat) (g : gmap nat (list nat))
    (frontier visited : list nat) : list (nat * nat) :=
  match fuel with
  | O => []
  | S fuel =>
      match frontier with
      | [] => []
      | _ =>
          let '(es, vis) := expand g frontier visited in
          es ++ bfs_levels fuel g (map snd es) vis
      end
  end.

(** [nx.bfs_tree(G.subgraph(nx.node_connected_component(G, i)), i)]: the
    edges (parent, child) of the breadth-first tree of the component of [i],
    in the order in which the search adds them.  The search from [i] never
    leaves the component of [i], so it is run on [G] itself; every level but
    the last visits a new node, so the number of nodes bounds the number of
    levels.  [node_connected_component] raises [KeyError] when [i] is not a
    node of [G]. *)
Definition bfs_tree (g : gmap nat (list nat)) (i : nat) : result (list (nat * nat)) :=
  match g !! i with
  | None => Err KeyError
  | Some _ => Ok (bfs_levels (size g) g [i] [i])
  end.

(** [nx.edges(T, node)]: the edges of the directed tree leaving [node]. *)
Definition out_edges (T : list (nat * nat)) (node : nat) : list (nat * nat) :=
  filter (fun e => e.1 = node) T.

(** [nx.predecessor(T, i)[node]]: the predecessors of [node] in the tree. *)
Definition predecessor (T : list (nat * nat)) (node : nat) : list nat :=
  map fst (filter (fun e => e.2 = node) T).

Fixpoint dist_of (dl : list (nat * nat)) (node : nat) : nat :=
  match dl with
  | [] => 0
  | (x, d) :: dl => if Nat.eqb x node then d else dist_of dl node
  end.

(** [nx.shortest_path_length(T, source=i)]: every node of the tree with its
    distance from the root.  The root is at distance 0 and each tree edge
    [(p, c)], listed after the edge that reaches [p], puts [c] one level
    below [p]. *)
Definition dist_step (dl : list (nat * nat)) (e : nat * nat) : list (nat * nat) :=
  dl ++ [(e.2, S (dist_of dl e.1))].

Definition shortest_path_length (T : list (nat * nat)) (i : nat) : list (nat * nat) :=
  fold_left dist_step T [(i, 0%nat)].

(** ** The sum-product engine: [naive_SPA] *)

(** A value read from [theta]: a stored vector or the default float. *)
Inductive pyval : Type :=
| PyFloat (x : R)
| PyVec (v : list R).

Section Engine.
Variable g : gmap nat (list nat).
Variable El : list (nat * nat).
Variable theta : gmap tkey (list R).
Variable k : nat.

(** [self.theta[key]].  [theta] is a [defaultdict(float)]: a key that was
    never stored reads as the float 0.0. *)
Definition theta_read (key : tkey) : pyval :=
  match theta !! key with
  | Some v => PyVec v
  | None => PyFloat 0
  end.

(** [self.theta[key][y-1]].  The subscript of a float raises [TypeError];
    a stored vector is indexed from its end when [y - 1] is negative. *)
Definition theta_at (key : tkey) (y : nat) : result R :=
  match theta_read key with
  | PyFloat _ => Err TypeError
  | PyVec v =>
      match y with
      | O => match last v with Some x => Ok x | None => Err IndexError end
      | S y' => getitem v y'
      end
  end.

  (** [messages[c][val]] *)
Definition message_at (messages : gmap nat (list R)) (c val : nat) : result R :=
    match messages !! c with
    | None => Err KeyError
    | Some v => getitem v val
    end.

  (** [parents[node][0]] *)
Definition parent0 (T : list (nat * nat)) (node : nat) : result nat :=
    getitem (predecessor T node) 0.

  (** The first loop: [messages[node] = np.zeros(k+1)] and the table
      [depths] of the nodes at each distance, with the largest distance. *)
Definition init_step (st : gmap nat (list R) * gmap nat (list nat) * nat)
      (nd : nat * nat) : gmap nat (list R) * gmap nat (list nat) * nat :=
    let '(messages, depths, max_depth) := st in
    let '(node, d) := nd in
    let messages := <[node := replicate (k + 1) 0]> messages in
    match depths !! d with
    | None =>
        (messages, <[d := [node]]> depths,
         if decide (max_depth < d)%nat then d else max_depth)
    | Some l => (messages, <[d := l ++ [node]]> depths, max_depth)
    end.

Section Run.
Variable T : list (nat * nat).
Variable y : nat.
Variable other_nodes : option (gmap nat nat).

    (** The local unary term of [node] at value [val]. *)
Definition mess_local (node val : nat) : result R :=
      if decide (0 < val)%nat then
        t ← theta_at (node_key node val) y; Ok (exp t)
      else Ok 1.

    (** The edge term between [node] at [val] and its parent at [val_p],
        read under the orientation in which the edge is recorded in [E]. *)
Definition mess_edge (node val_p val : nat) : result R :=
      if decide (0 < val /\ 0 < val_p)%nat then
        par ← parent0 T node;
        if bool_decide ((par, node) ∈ El) then
          t ← theta_at (edge_key (par, node) val_p val) y; Ok (exp t)
        else
          t ← theta_at (edge_key (node, par) val val_p) y; Ok (exp t)
      else Ok 1.

    (** The product of the incoming messages at a node below the root. *)
Definition mess_prod (messages : gmap nat (list R)) (node val : nat)
      : result R :=
      foldM (fun acc edge =>
               par ← parent0 T node;
               if decide (edge.2 <> par) then
                 x ← message_at messages edge.2 val; Ok (acc * x)
               else Ok acc)
        (out_edges T node) 1.

    (** The values over which the message of [node] sums. *)
Definition val_range (node : nat) : list nat :=
      match other_nodes with
      | Some o =>
          match o !! node with
          | Some v => [v]
          | None => seq 0 (k + 1)
          end
      | None => seq 0 (k + 1)
      end.

    (** The message from [node] to its parent at parent value [val_p]. *)
Definition mess (messages : gmap nat (list R)) (node val_p : nat)
      : result R :=
      foldM (fun acc val =>
               l ← mess_local node val;
               e ← mess_edge node val_p val;
               p ← mess_prod messages node val;
               Ok (acc + l * e * p))
        (val_range node) 0.

    (** [messages[node][val_p] = mess] *)
Definition store_message (messages : gmap nat (list R)) (node val_p : nat)
        (x : R) : result (gmap nat (list R)) :=
      match messages !! node with
      | None => Err KeyError
      | Some v => v' ← setitem v val_p x; Ok (<[node := v']> messages)
      end.

Definition node_step (messages : gmap nat (list R)) (node : nat)
      : result (gmap nat (list R)) :=
      foldM (fun messages val_p =>
               x ← mess messages node val_p;
               store_message messages node val_p x)
        (seq 0 (k + 1)) messages.

    (** One turn of the [while] loop, at depth [d]. *)
Definition depth_step (depths : gmap nat (list nat))
        (messages : gmap nat (list R)) (d : nat) : result (gmap nat (list R)) :=
      match depths !! d with
      | None => Err KeyError
      | Some nodes => foldM node_step nodes messages
      end.

    (** The final marginal at the root [i]. *)
Definition root_entry (messages : gmap nat (list R)) (i val : nat)
      : result R :=
      l ← mess_local i val;
      p ← foldM (fun acc edge =>
                   x ← message_at messages edge.2 val; Ok (acc * x))
             (out_edges T i) 1;
      Ok (l * p).

Definition root_marginal (messages : gmap nat (list R)) (i : nat)
      : result (list R) :=
      foldM (fun message_i val =>
               x ← root_entry messages i val;
               setitem message_i val x)
        (seq 0 (k + 1)) (replicate (k + 1) 0).
End Run.

Definition naive_SPA (i y : nat) (other_nodes : option (gmap nat nat))
    : result (list R) :=
    T ← bfs_tree g i;
    let dist_list := shortest_path_length T i in
    let '(messages, depths, max_depth) :=
      fold_left init_step dist_list (∅, ∅, 0%nat) in
    messages ← foldM (depth_step T y other_nodes depths) (rev (seq 1 max_depth))
                     messages;
    root_marginal T y messages i.

  (** [get_Z] *)
Definition get_Z (y : nat) : result R :=
    v ← naive_SPA 0 y None; Ok (sumR v).
End Engine.

(** ** The probability cache *)

(** A number read from a [defaultdict(float)]: a stored value, which is a
    numpy float here, or the Python float 0.0 that the default factory makes
    for a key that was never stored.  (The read of a missing key also stores
    the default under that key; no code reads the key set of these tables
    afterwards, and the tables below are not updated by reads.) *)
Inductive dd_val : Type :=
| Stored (x : R)
| Default.

Definition dd_read {K} `{Countable K} (t : gmap K R) (key : K) : dd_val :=
  match t !! key with
  | Some x => Stored x
  | None => Default
  end.

(** The number that a read yields. *)
Definition dd_float (v : dd_val) : R :=
  match v with
  | Stored x => x
  | Default => 0
  end.

Definition dd_get {K} `{Countable K} (t : gmap K R) (key : K) : R :=
  dd_float (dd_read t key).

(** A floating-point result: a number, or one of [inf], [-inf], [nan]. *)
Inductive fp : Type :=
| Fin (x : R)
| NonFinite.

(** [a / b] on two numbers read from the tables.  Python raises
    [ZeroDivisionError] when it divides one of its own floats by its own 0.0;
    as soon as one operand is a numpy float the division is numpy's, which
    yields [inf] or [nan] on a zero divisor and raises nothing. *)
Definition true_div (a b : dd_val) : result fp :=
  match a, b with
  | Default, Default => Err ZeroDivisionError
  | Stored _, Default => Ok NonFinite
  | _, Stored d =>
      if Req_dec_T d 0 then Ok NonFinite else Ok (Fin (dd_float a / d))
  end.

Section Cache.
Variable g : gmap nat (list nat).
Variable El : list (nat * nat).
Variable theta : gmap tkey (list R).
Variables m k : nat.

(** [P_vals_true].  The division by [Z] is numpy's. *)
Definition P_vals_true : result (gmap (nat * nat * nat) R) :=
  foldM (fun p_solo y =>
    Z ← get_Z g El theta k y;
    foldM (fun p_solo i =>
      foldM (fun p_solo val =>
        v ← naive_SPA g El theta k i y None;
        x ← getitem v val;
        Ok (<[(i, val, y) := x / Z]> p_solo))
        (seq 0 (k + 1)) p_solo)
      (seq 0 m) p_solo)
    (seq 1 k) ∅.

(** [P_joints_true] *)
Definition P_joints_true : result (gmap (nat * nat * nat * nat * nat) R) :=
  foldM (fun p_joints y =>
    Z ← get_Z g El theta k y;
    foldM (fun p_joints i =>
      foldM (fun p_joints j =>
        foldM (fun p_joints val1 =>
          foldM (fun p_joints val2 =>
            let other_nodes : gmap nat nat := <[j := val2]> ∅ in
            v ← naive_SPA g El theta k i y (Some other_nodes);
            x ← getitem v val1;
            let p_joints := <[(i, val1, j, val2, y) := x / Z]> p_joints in
            Ok (<[(j, val2, i, val1, y) := dd_get p_joints (i, val1, j, val2, y)]>
                  p_joints))
            (seq 0 (k + 1)) p_joints)
          (seq 0 (k + 1)) p_joints)
        (seq (i + 1) (m - (i + 1))) p_joints)
      (seq 0 m) p_joints)
    (seq 1 k) ∅.

(** [P_fours_true] *)
Definition P_fours_true (a b c d val1 val2 val3 val4 y : nat) : result R :=
  Z ← get_Z g El theta k y;
  let other_nodes : gmap nat nat := <[d := val4]> (<[c := val3]> (<[b := val2]> ∅)) in
  v ← naive_SPA g El theta k a y (Some other_nodes);
  x ← getitem v val1;
  Ok (x / Z).
End Cache.

(** [P_conditional] *)
Definition P_conditional (p_solo : gmap (nat * nat * nat) R)
    (p_joints : gmap (nat * nat * nat * nat * nat) R)
    (i li j lj y : nat) : result fp :=
  true_div (dd_read p_joints (i, li, j, lj, y)) (dd_read p_solo (j, lj, y)).

(** ** Matrices *)

(** [np.zeros([r, c])] *)
Definition zeros (r c : nat) : list (list R) := replicate r (replicate c 0).

(** [M[i, j]] and [M[i, j] = x] *)
Definition get2 {A} (M : list (list A)) (i j : nat) : result A :=
  row ← getitem M i; getitem row j.

Definition set2 {A} (M : list (list A)) (i j : nat) (x : A)
  : result (list (list A)) :=
  row ← getitem M i; row ← setitem row j x; setitem M i row.

(** ** The moment matrices *)

(** [{**nodes_1, **nodes_2}], the consistency test on the common keys, and
    [popitem], which removes the entry inserted last. *)
Definition od_merge (d1 d2 : odict) : odict :=
  fold_left (fun d kv => od_set d kv.1 kv.2) d2 d1.

Definition od_consistent (d1 d2 : odict) : bool :=
  forallb (fun kv => match od_get d2 kv.1 with
                     | Some v => Nat.eqb kv.2 v
                     | None => true
                     end) d1.

Definition od_popitem (d : odict) : result (nat * nat * odict) :=
  match last d with
  | Some kv => Ok (kv, removelast d)
  | None => Err KeyError
  end.

Section Moments.
Variable g : gmap nat (list nat).
Variable El : list (nat * nat).
Variable E_order : gmap nat (nat * nat).
Variable n_edges : nat.
Variable theta : gmap tkey (list R).
Variables m k : nat.
Variable p : list R.
Variable p_solo : gmap (nat * nat * nat) R.
Variable p_joints : gmap (nat * nat * nat * nat * nat) R.

Definition moment_size (higher_order : bool) : nat :=
  if higher_order then (m * k + n_edges * k ^ 2)%nat else (m * k)%nat.

(** [_generate_true_mu] *)
Definition _generate_true_mu (higher_order : bool) : result (list (list R)) :=
  let sz := moment_size higher_order in
  mu ← foldM (fun mu i =>
         foldM (fun mu val1 =>
           foldM (fun mu y =>
             set2 mu (i * k + val1 - 1) (y - 1) (dd_get p_solo (i, val1, y)))
             (seq 1 k) mu)
           (seq 1 k) mu)
         (seq 0 m) (zeros sz k);
  if higher_order then
    st ← foldM (fun st e =>
           foldM (fun st val1 =>
             foldM (fun st val2 =>
               mu ← foldM (fun mu y =>
                      set2 mu st.2 (y - 1)
                        (dd_get p_joints (e.1, val1, e.2, val2, y)))
                      (seq 1 k) st.1;
               Ok (mu, S st.2))
               (seq 1 k) st)
             (seq 1 k) st)
           El (mu, (m * k)%nat);
    Ok st.1
  else Ok mu.

(** The body of the double loop of [_generate_true_O]: the entry at
    [(idx1, idx2)]. *)
Definition O_entry (Z_vals : gmap nat R) (idx1 idx2 : nat) : result R :=
  nodes_1 ← _get_node_index m k E_order idx1;
  nodes_2 ← _get_node_index m k E_order idx2;
  if od_consistent nodes_1 nodes_2 then
    popped ← od_popitem (od_merge nodes_1 nodes_2);
    let nv := popped.1 in
    let nodes := popped.2 in
    foldM (fun sm y =>
      if decide (length nodes = 0)%nat then
        let x := dd_get p_solo (nv.1, nv.2, y) in
        py ← getitem p (y - 1);
        Ok (sm + x * py)
      else
        v ← naive_SPA g El theta k nv.1 y (Some (list_to_map nodes));
        x ← getitem v nv.2;
        Z ← match Z_vals !! y with Some Z => Ok Z | None => Err KeyError end;
        py ← getitem p (y - 1);
        Ok (sm + x / Z * py))
      (seq 1 k) 0
  else Ok 0.

(** [_generate_true_O] *)
Definition _generate_true_O (higher_order : bool) : result (list (list R)) :=
  Z_vals ← foldM (fun Z_vals y =>
              Z ← get_Z g El theta k y; Ok (<[y := Z]> Z_vals))
              (seq 1 k) (∅ : gmap nat R);
  let sz := moment_size higher_order in
  foldM (fun O idx1 =>
    foldM (fun O idx2 =>
      sm ← O_entry Z_vals idx1 idx2;
      set2 O idx1 idx2 sm)
      (seq 0 sz) O)
    (seq 0 sz) (zeros sz sz).

(** [O_true - mu_true @ np.diag(p) @ mu_true.T]; the product raises
    [ValueError] when [p] does not have one entry per column of [mu_true]. *)
Definition sigma_matrix (O mu : list (list R)) : result (list (list R)) :=
  if decide (length p = k) then
    Ok (imap (fun a row =>
          imap (fun b o =>
            o - sumR (map (fun y =>
                  nth y (nth a mu []) 0 * nth y p 0 * nth y (nth b mu []) 0)
                  (seq 0 k)))
            row)
          O)
  else Err ValueError.
End Moments.

(** ** The label sampler *)

Definition nonneg (p : list R) : bool :=
  forallb (fun x => if Rle_dec 0 x then true else false) p.

(** [choice(a, p=p)]: numpy raises [ValueError] unless [a] is positive and
    [p] has [a] entries, none negative or [nan], that sum to 1 (up to a
    tolerance, which the idealisation of floats drops). *)
Definition choice_p (s : source) (a : nat) (p : list R) (pos : nat)
  : result (nat * nat) :=
  if decide (a = 0)%nat then Err ValueError
  else if decide (length p = a) then
    if nonneg p then
      if Req_dec_T (sumR p) 1 then Ok (index s pos a, S pos) else Err ValueError
    else Err ValueError
  else Err ValueError.

Section Sampler.
Variable s : source.
Variables n m k : nat.
Variable parent : gmap nat nat.
Variable p : list R.
Variable p_solo : gmap (nat * nat * nat) R.
Variable p_joints : gmap (nat * nat * nat * nat * nat) R.

(** [prob_y] and [prob_0] of source [j] in row [i]. *)
Definition sample_probs (L : list (list nat)) (i j y : nat) : result (fp * fp) :=
  match parent !! j with
  | Some p_j =>
      l ← get2 L i p_j;
      prob_y ← P_conditional p_solo p_joints j y p_j l y;
      l ← get2 L i p_j;
      prob_0 ← P_conditional p_solo p_joints j 0%nat p_j l y;
      Ok (prob_y, prob_0)
  | None =>
      Ok (Fin (dd_get p_solo (j, y, y)), Fin (dd_get p_solo (j, 0%nat, y)))
  end.

(** The body of the inner loop: [L[i, j]] is drawn.  A probability that is
    not finite makes the vector invalid for [choice]. *)
Definition sample_entry (i y : nat) (st : list (list nat) * nat) (j : nat)
  : result (list (list nat) * nat) :=
  probs ← sample_probs st.1 i j y;
  match probs with
  | (Fin prob_y, Fin prob_0) =>
      pv ← label_distribution k y prob_y prob_0;
      drawn ← choice_p s (k + 1) pv st.2;
      L ← set2 st.1 i j drawn.1;
      Ok (L, drawn.2)
  | _ => Err ValueError
  end.

(** The body of the outer loop: row [i]. *)
Definition sample_row (st : list (list nat) * list nat * nat) (i : nat)
  : result (list (list nat) * list nat * nat) :=
  let '(L, Y, pos) := st in
  drawn ← choice_p s k p pos;
  let y := (drawn.1 + 1)%nat in
  Y ← setitem Y i y;
  st' ← foldM (sample_entry i y) (seq 0 m) (L, drawn.2);
  Ok (st'.1, Y, st'.2).

Definition sample_rows (L : list (list nat)) (Y : list nat) (pos : nat)
  : result (list (list nat) * list nat * nat) :=
  foldM sample_row (seq 0 n) (L, Y, pos).
End Sampler.

(** ** The generator *)

(** The attributes of a constructed generator.  [c_probs] is left out:
    [_get_conditional_probs] reads [L] and [Y], writes [c_probs] only and
    raises nothing; [L] is the content of the sparse matrix. *)
Record generator : Type := {
  self_deps : deps;
  self_theta : gmap tkey (list R);
  self_p : list R;
  self_p_solo : gmap (nat * nat * nat) R;
  self_p_joints : gmap (nat * nat * nat * nat * nat) R;
  self_mu_true : list (list R);
  self_O_true : list (list R);
  self_sig_inv : list (list R);
  self_L : list (list nat);
  self_Y : list nat
}.

(** The argument [class_balance]: [None], ['random'] or a vector. *)
Inductive balance : Type :=
| BalanceNone
| BalanceRandom
| BalanceGiven (p : list R).

(** What [_generate_label_matrix] computes before it samples. *)
Record moments : Type := {
  mo_p_solo : gmap (nat * nat * nat) R;
  mo_p_joints : gmap (nat * nat * nat * nat * nat) R;
  mo_mu_true : list (list R);
  mo_O_true : list (list R);
  mo_sig : list (list R)
}.

Section Generator.
(** [np.linalg.cond] and [np.linalg.inv] are numpy's: each returns its
    result or raises. *)
Variable linalg_cond : list (list R) -> result R.
Variable linalg_inv : list (list R) -> result (list (list R)).
Variable s : source.

(** The first part of [_generate_label_matrix], up to the matrix [sig]. *)
Definition moment_phase (d : deps) (theta : gmap tkey (list R)) (m k : nat)
    (p : list R) : result moments :=
  p_solo ← P_vals_true (G d) (E d) theta m k;
  p_joints ← P_joints_true (G d) (E d) theta m k;
  _ ← P_fours_true (G d) (E d) theta k 1 2 3 4 1 1 1 1 1;
  mu ← _generate_true_mu (E d) (n_edges d) m k p_solo p_joints true;
  O ← _generate_true_O (G d) (E d) (E_order d) (n_edges d) theta m k p p_solo true;
  _ ← linalg_cond O;
  sig ← sigma_matrix k p O mu;
  _ ← linalg_cond sig;
  Ok {| mo_p_solo := p_solo; mo_p_joints := p_joints; mo_mu_true := mu;
        mo_O_true := O; mo_sig := sig |}.

(** [_generate_label_matrix] *)
Definition _generate_label_matrix (d : deps) (theta : gmap tkey (list R))
    (n m k : nat) (p : list R) (pos : nat) : result generator :=
  let L := replicate n (replicate m 0%nat) in
  let Y := replicate n 0%nat in
  mo ← moment_phase d theta m k p;
  sig_inv ← linalg_inv (mo_sig mo);
  st ← sample_rows s n m k (parent d) p (mo_p_solo mo) (mo_p_joints mo) L Y pos;
  Ok {| self_deps := d; self_theta := theta; self_p := p;
        self_p_solo := mo_p_solo mo; self_p_joints := mo_p_joints mo;
        self_mu_true := mo_mu_true mo; self_O_true := mo_O_true mo;
        self_sig_inv := sig_inv; self_L := st.1.1; self_Y := st.1.2 |}.

(** The class balance [self.p]. *)
Definition class_balance_vector (k : nat) (class_balance : balance) (pos : nat)
  : result (list R * nat) :=
  match class_balance with
  | BalanceNone =>
      if decide (k = 0)%nat then Err ZeroDivisionError
      else Ok (replicate k (1 / INR k), pos)
  | BalanceRandom =>
      let '(v, pos) := random_vec s k pos in
      Ok (map (fun x => x / sumR v) v, pos)
  | BalanceGiven p => Ok (p, pos)
  end.

(** The first part of [__init__]: the dependency structure, [theta] and
    [self.p], with the cursor of the random source after them. *)
Definition init_attributes (m k : nat) (class_balance : balance)
    (theta_range : R * R) (edge_prob : R) (theta_edge_range : R * R)
    (edges_list : option (list (nat * nat)))
  : result (deps * gmap tkey (list R) * list R * nat) :=
  let '(d, pos) :=
    match edges_list with
    | Some l => (_generate_edges_from_list l, 0%nat)
    | None => _generate_edges s m edge_prob 0
    end in
  let '(theta, pos) := _generate_params s m k (E d) theta_range theta_edge_range pos in
  bal ← class_balance_vector k class_balance pos;
  Ok (d, theta, bal.1, bal.2).

(** [SingleTaskTreeDepsGenerator.__init__] *)
Definition __init__ (n m k : nat) (class_balance : balance) (theta_range : R * R)
    (edge_prob : R) (theta_edge_range : R * R)
    (edges_list : option (list (nat * nat))) : result generator :=
  st ← init_attributes m k class_balance theta_range edge_prob theta_edge_range
         edges_list;
  let '(d, theta, p, pos) := st in
  _generate_label_matrix d theta n m k p pos.
End Generator.

(** ** Notions used to state the properties of the engine *)

(** [grows g vs T]: the list [T] grows a tree from the reached nodes [vs],
    each edge [(p, c)] attaching a node [c] not yet reached to a reached
    node [p] of which it is a neighbour. *)
Inductive grows (g : gmap nat (list nat)) : list nat -> list (nat * nat) -> Prop :=
| grows_nil vs : grows g vs []
| grows_cons vs p c T :
    p ∈ vs -> c ∉ vs -> c ∈ neighbors g p ->
    grows g (c :: vs) T -> grows g vs ((p, c) :: T).

(** Neighbourhood is symmetric and without repetition, as in every graph
    built by [add_edge]. *)
Definition graph_wf (g : gmap nat (list nat)) : Prop :=
  (forall u v, v ∈ neighbors g u -> u ∈ neighbors g v)
  /\ (forall u, NoDup (neighbors g u)).

(** The factors and messages of the sum-product recursion, as real-valued
    functions. *)
Section Factors.
Variable El : list (nat * nat).
Variable theta : gmap tkey (list R).
Variable k y : nat.

Definition is_Ok {A} (m : result A) : Prop := exists a, m = Ok a.

  (** The number read by [theta[key][y-1]] (0 when the read raises). *)
Definition theta_val (key : tkey) : R :=
    match theta_at theta key y with Ok t => t | Err _ => 0 end.

  (** The unary factor of node [x] at value [v]. *)
Definition phi (x v : nat) : R :=
    if decide (0 < v)%nat then exp (theta_val (node_key x v)) else 1.

  (** The factor of the edge between [a] at value [va] and [b] at value
      [vb], read under the orientation recorded in [E]. *)
Definition psi (a b va vb : nat) : R :=
    if decide (0 < vb /\ 0 < va)%nat then
      if bool_decide ((a, b) ∈ El) then exp (theta_val (edge_key (a, b) va vb))
      else exp (theta_val (edge_key (b, a) vb va))
    else 1.

  (** Every parameter that the engine reads on the graph [g] is stored. *)
Definition theta_ok (g : gmap nat (list nat)) : Prop :=
    (forall x v, x ∈ dom g -> (1 <= v <= k)%nat ->
       is_Ok (theta_at theta (node_key x v) y))
    /\ (forall e va vb, e ∈ El -> (1 <= va <= k)%nat -> (1 <= vb <= k)%nat ->
       is_Ok (theta_at theta (edge_key e va vb) y)).

Variable T : list (nat * nat).

Definition children (x : nat) : list nat := map snd (out_edges T x).

  (** The entry [messages[c][v]] (0 when the read raises). *)
Definition mget (messages : gmap nat (list R)) (c v : nat) : R :=
    match message_at messages c v with Ok x => x | Err _ => 0 end.

  (** The message of [x] to its parent [par] at parent value [vp], from the
      messages of the children of [x]. *)
Definition message_value (messages : gmap nat (list R)) (par x vp : nat) : R :=
    sumR (map (fun v =>
                 phi x v * psi par x vp v
                 * prodR (map (fun c => mget messages c v) (children x)))
            (seq 0 (k + 1))).

  (** The marginal at the root [r] and value [v]. *)
Definition root_value (messages : gmap nat (list R)) (r v : nat) : R :=
    phi r v * prodR (map (fun c => mget messages c v) (children r)).
End Factors.

(** The nodes at distance [d] in a distance table. *)
Definition nodes_at (dl : list (nat * nat)) (d : nat) : list nat :=
  map fst (filter (fun nd => nd.2 = d) dl).

(** The nodes of the tree [T] rooted at [r], and the well-formed message
    tables: one vector of length [k + 1] per node of the tree. *)
Definition in_tree (r : nat) (T : list (nat * nat)) (x : nat) : Prop :=
  x = r \/ x ∈ map snd T.

Definition table_ok (k r : nat) (T : list (nat * nat))
    (messages : gmap nat (list R)) : Prop :=
  forall x, in_tree r T x ->
    exists vec, messages !! x = Some vec /\ length vec = (k + 1)%nat.

(** [equations_on P messages]: the table holds, at every node below the
    root that satisfies [P], the message that the recursion computes from the
    entries of its children. *)
Definition equations_on (El : list (nat * nat)) (theta : gmap tkey (list R))
    (k y : nat) (T : list (nat * nat)) (P : nat -> Prop)
    (messages : gmap nat (list R)) : Prop :=
  forall par x vp, P x -> (par, x) ∈ T -> (vp <= k)%nat ->
    mget messages x vp = message_value El theta k y T messages par x vp.

(** The data model of the dependency graph: [E] holds (parent, child)
    pairs, every child has one parent, and the parents can be ranked below
    their children, so that the edges form a forest. *)
Definition forest_edges (El : list (nat * nat)) : Prop :=
  NoDup (map snd El)
  /\ exists rank : nat -> nat, forall p c, (p, c) ∈ El -> (rank p < rank c)%nat.

(** [anc El r x]: [x] is [r] or an ancestor of [r] along the parent links of
    [E]. *)
Inductive anc (El : list (nat * nat)) (r : nat) : nat -> Prop :=
| anc_refl : anc El r r
| anc_step z x : anc El r z -> (x, z) ∈ El -> anc El r x.

(** The orientation of the edge between [p] and [c] in the tree rooted at
    [r]: away from [r], that is along [E] off the ancestors of [r] and
    against [E] on them. *)
Definition oriented (El : list (nat * nat)) (r p c : nat) : Prop :=
  ((p, c) ∈ El /\ ~ anc El r c) \/ ((c, p) ∈ El /\ anc El r p).

(** Two nodes are connected when a path of edges joins them. *)
Definition adjacent (g : gmap nat (list nat)) (u v : nat) : Prop :=
  v ∈ neighbors g u.

Definition connected (g : gmap nat (list nat)) : nat -> nat -> Prop :=
  rtc (adjacent g).

(** The invariant of the loop of [_generate_edges] before iteration
    [bound]. *)
Definition edges_inv (bound : nat) (d : deps) (idx : nat) : Prop :=
  idx = length (E d)
  /\ NoDup (map snd (E d))
  /\ (forall p i, (p, i) ∈ E d -> (p < i)%nat /\ (i < bound)%nat)
  /\ (forall i p, parent d !! i = Some p <-> (p, i) ∈ E d)
  /\ (forall j, E_order d !! j = E d !! j)
  /\ G d = graph_of (E d).

(** A drawn vector has length [k] and entries between the bounds. *)
Definition theta_vec_ok (k : nat) (lo hi : R) (v : list R) : Prop :=
  length v = k /\ Forall (fun x => lo <= x <= hi) v.

(** The facts about the search tree of a root and its distance table on
    which the elimination order relies. *)
Record search_tree (g : gmap nat (list nat)) (r : nat) (T : list (nat * nat))
    (dl : list (nat * nat)) : Prop := {
  st_grows : grows g [r] T;
  st_nodes : map fst dl = r :: map snd T;
  st_root : dist_of dl r = 0%nat;
  st_edge : forall p c, (p, c) ∈ T -> dist_of dl c = S (dist_of dl p);
  st_dist : forall x d, (x, d) ∈ dl -> d = dist_of dl x;
  st_closed : forall x c, x = r \/ x ∈ map snd T -> c ∈ neighbors g x ->
                c = r \/ c ∈ map snd T
}.

(** A matrix of [n] rows of [m] entries that all satisfy [Q]. *)
Definition matrix_ok {A} (n m : nat) (Q : A -> Prop) (M : list (list A)) : Prop :=
  length M = n /\ Forall (fun row => length row = m /\ Forall Q row) M.

(** The state of the outer sampling loop before row [i]: the matrix holds
    labels, and the first [i] entries of [Y] hold classes. *)
Definition rows_inv (n m k i : nat) (st : list (list nat) * list nat * nat) : Prop :=
  matrix_ok n m (fun v => (v <= k)%nat) st.1.1
  /\ length st.1.2 = n
  /\ (forall i', (i' < i)%nat ->
        exists y, st.1.2 !! i' = Some y /\ (1 <= y <= k)%nat).

(** ** The multi-task generator *)

Section Hierarchical.
Variable linalg_cond : list (list R) -> result R.
Variable linalg_inv : list (list R) -> result (list (list R)).
Variable s : source.
(** [TaskHierarchy(edges=[(0,1), (0,2)], cardinalities=[2,2,2])] belongs to
    the metal package: its number of tasks [t] and the list made of its
    feasible set are parameters. *)
Variable task_t : nat.
Variable feasible_set : list (list nat).

(** The body of the conversion loop at [(i, j)]. *)
Definition convert_entry (L : list (list nat)) (L_mt : list (list (list nat)))
    (i j : nat) : result (list (list (list nat))) :=
  l ← get2 L i j;
  if decide (0 < l)%nat then
    y ← getitem feasible_set (l - 1);
    foldM (fun L_mt t =>
             yt ← getitem y t;
             Lt ← getitem L_mt t;
             Lt ← set2 Lt i j yt;
             setitem L_mt t Lt)
      (seq 0 task_t) L_mt
  else Ok L_mt.

(** [HierarchicalMultiTaskTreeDepsGenerator.__init__]: the single-task
    constructor with [k = 4] in random mode, then the conversion of the
    label matrix into one matrix per task. *)
Definition Hierarchical__init__ (n m : nat) (theta_range : R * R) (edge_prob : R)
    (theta_edge_range : R * R)
  : result (generator * list (list (list nat))) :=
  gen ← __init__ linalg_cond linalg_inv s n m 4 BalanceRandom theta_range
          edge_prob theta_edge_range None;
  L_mt ← foldM (fun L_mt i =>
            foldM (fun L_mt j => convert_entry (self_L gen) L_mt i j)
              (seq 0 m) L_mt)
          (seq 0 n) (replicate task_t (replicate n (replicate m 0%nat)));
  Ok (gen, L_mt).
End Hierarchical.

(** ** Notions used to state further properties *)

(** The value at which [other_nodes] fixes a node, if it does. *)
Definition clamp (other_nodes : option (gmap nat nat)) (node : nat) : option nat :=
  o ← other_nodes; o !! node.

(** The keys that [P_vals_true] writes, in the order of its loops. *)
Definition solo_keys (m k : nat) : list (nat * nat * nat) :=
  concat (map (fun y =>
    concat (map (fun i => map (fun val => (i, val, y)) (seq 0 (k + 1))) (seq 0 m)))
    (seq 1 k)).

(** The number that [P_vals_true] stores under a key. *)
Definition solo_entry (g : gmap nat (list nat)) (El : list (nat * nat))
    (theta : gmap tkey (list R)) (k : nat) (key : nat * nat * nat) : R :=
  let '(i, val, y) := key in
  match naive_SPA g El theta k i y None, get_Z g El theta k y with
  | Ok v, Ok Z => nth val v 0 / Z
  | _, _ => 0
  end.

(** ** Notions used to state the properties of the moment matrices *)

(** The rows of [mu_true] in the order of the loops that write them: one row
    per source and label value, then, with [higher_order], one row per edge
    and pair of label values; each row runs over the classes. *)
Definition solo_row_keys (m k : nat) : list (nat * nat) :=
  concat (map (fun i => map (fun val1 => (i, val1)) (seq 1 k)) (seq 0 m)).

Definition joint_row_keys (El : list (nat * nat)) (k : nat)
  : list (nat * nat * nat * nat) :=
  concat (map (fun e : nat * nat =>
    concat (map (fun val1 => map (fun val2 => (e, val1, val2)) (seq 1 k)) (seq 1 k)))
    El).

Definition mu_rows_solo (m k : nat) (p_solo : gmap (nat * nat * nat) R)
  : list (list R) :=
  map (fun key : nat * nat =>
         map (fun y => dd_get p_solo (key.1, key.2, y)) (seq 1 k))
    (solo_row_keys m k).

Definition mu_rows_joint (El : list (nat * nat)) (k : nat)
    (p_joints : gmap (nat * nat * nat * nat * nat) R) : list (list R) :=
  map (fun key : nat * nat * nat * nat =>
         map (fun y => dd_get p_joints (key.1.1.1, key.1.2, key.1.1.2, key.2, y))
           (seq 1 k))
    (joint_row_keys El k).

(** ** The empirical conditional probabilities: [_get_conditional_probs] *)

(** [self.L[self.Y == y]]: the rows of [L] whose true label is [y]. *)
Definition rows_of_class (L : list (list nat)) (Y : list nat) (y : nat)
  : list (list nat) :=
  map fst (filter (fun ry : list nat * nat => ry.2 = y) (zip L Y)).

(** [np.where(Ly == ly, 1, 0).sum(axis=0)] at column [j]. *)
Definition column_count (Ly : list (list nat)) (j ly : nat) : nat :=
  length (filter (fun row : list nat => row !! j = Some ly) Ly).

(** The quotient of a count by the number of rows, as numpy computes it: a
    zero divisor gives [nan] and raises nothing. *)
Definition count_ratio (c n : nat) : fp :=
  if decide (n = 0)%nat then NonFinite else Fin (INR c / INR n).

(** [_get_conditional_probs]: the slice [ly::(k+1)] of column [y-1] receives
    one number per source.  The boolean mask [self.Y == y] must have one
    entry per row of [L]. *)
Definition _get_conditional_probs (L : list (list nat)) (Y : list nat) (m k : nat)
  : result (list (list fp)) :=
  if decide (length Y = length L) then
    foldM (fun c_probs y =>
      let Ly := rows_of_class L Y y in
      foldM (fun c_probs ly =>
        foldM (fun c_probs j =>
          set2 c_probs (ly + j * (k + 1)) (y - 1)
            (count_ratio (column_count Ly j ly) (length Ly)))
          (seq 0 m) c_probs)
        (seq 0 (k + 1)) c_probs)
      (seq 1 k) (replicate (m * (k + 1)) (replicate k (Fin 0)))
  else Err IndexError.

(** The number in a cell of [c_probs] (0 for [nan]). *)
Definition c_prob (c_probs : list (list fp)) (row col : nat) : R :=
  match get2 c_probs row col with
  | Ok (Fin x) => x
  | _ => 0
  end.

(** The cells written by [_get_conditional_probs], in the order of its
    loops, as (class, label value, source). *)
Definition c_prob_keys (m k : nat) : list (nat * nat * nat) :=
  concat (map (fun y =>
    concat (map (fun ly => map (fun j => (y, ly, j)) (seq 0 m)) (seq 0 (k + 1))))
    (seq 1 k)).

(** ** Bags of words: [bags_to_counts] *)

(** [X[i, word] += 1] *)
Definition count_word (i : nat) (X : list (list R)) (word : nat)
  : result (list (list R)) :=
  x ← get2 X i word; set2 X i word (x + 1).

(** [bags_to_counts]: tokens are indices into the vocabulary. *)
Definition bags_to_counts (bags : list (list nat)) (vocab_size : nat)
  : result (list (list R)) :=
  foldM (fun X ib => foldM (count_word ib.1) ib.2 X)
    (zip (seq 0 (length bags)) bags)
    (replicate (length bags) (replicate vocab_size 0)).

(** The number of occurrences of a token in a bag. *)
Definition occurrences (bag : list nat) (word : nat) : nat :=
  length (filter (fun w => w = word) bag).

(** ** Bags of words: [gaussian_bags_of_words] and [singletask_synthetic] *)

(** A vector of word probabilities: numbers, or [nan]s after a division of
    zeros by zero. *)
Inductive dist : Type :=
| Probs (p : list R)
| NotNumbers.

(** [min(l)] and [max(l)] of a Python list, which raise on an empty list. *)
Definition list_min (l : list nat) : result nat :=
  match l with
  | [] => Err ValueError
  | x :: l => Ok (fold_left Nat.min l x)
  end.

Definition list_max (l : list nat) : result nat :=
  match l with
  | [] => Err ValueError
  | x :: l => Ok (fold_left Nat.max l x)
  end.

(** [' '.join(words)] *)
Definition space : String.string :=
  String.String (Ascii.Ascii false false false false false true false false)
    String.EmptyString.

Definition join (words : list String.string) : String.string :=
  String.concat space words.

(** [np.random.choice(range(lo, hi), size)]: numpy raises [ValueError] on an
    empty range unless no sample is taken. *)
Definition choice_range (s : source) (lo hi size pos : nat)
  : result (list nat * nat) :=
  if decide (hi <= lo)%nat then
    if decide (size = 0)%nat then Ok ([], pos) else Err ValueError
  else
    Ok (map (fun i => (lo + index s (pos + i) (hi - lo))%nat) (seq 0 size),
        (pos + size)%nat).

(** [np.random.choice(a, size, p=p)]: the checks of [choice_p], then [size]
    draws. *)
Definition choice_vec_p (s : source) (a size : nat) (d : dist) (pos : nat)
  : result (list nat * nat) :=
  match d with
  | NotNumbers => Err ValueError
  | Probs p =>
      if decide (a = 0)%nat then Err ValueError
      else if decide (length p = a) then
        if nonneg p then
          if Req_dec_T (sumR p) 1 then
            Ok (map (fun i => index s (pos + i) a) (seq 0 size), (pos + size)%nat)
          else Err ValueError
        else Err ValueError
      else Err ValueError
  end.

Section Text.
Variable s : source.
(** The standard normal draws of the generator, read at the same cursor. *)
Variable normal : nat -> R.
(** The order in which Python iterates over [set(Y)]. *)
Variable set_iter : list nat -> list nat.
(** [vocab1k], the vocabulary of the package. *)
Variable vocab : list String.string.

(** [make_distribution]: [np.random.normal] raises on a negative scale; the
    division by a zero sum is numpy's and gives [nan]s. *)
Definition make_distribution (sigma : R) (num_words pos : nat)
  : result (dist * nat) :=
  if Rlt_dec sigma 0 then Err ValueError
  else
    let p := map (fun i => Rabs (0 + sigma * normal (pos + i))) (seq 0 num_words) in
    let total := sumR p in
    Ok (if Req_dec_T total 0 then NotNumbers else Probs (map (fun x => x / total) p),
        (pos + num_words)%nat).

(** The body of the loop over the rows: one bag and its sentence. *)
Definition make_bag (word_dists : gmap nat dist)
    (st : list (list nat) * list String.string * nat) (yl : nat * nat)
  : result (list (list nat) * list String.string * nat) :=
  d ← match word_dists !! yl.1 with
      | Some d => Ok d
      | None => Err KeyError
      end;
  x ← choice_vec_p s (length vocab) yl.2 d st.2;
  words ← foldM (fun acc j => w ← getitem vocab j; Ok (acc ++ [w])) x.1 [];
  Ok (st.1.1 ++ [x.1], st.1.2 ++ [join words], x.2).

(** [gaussian_bags_of_words], with the cursor of the random source. *)
Definition gaussian_bags_of_words (Y : list nat) (sigma : R) (bag_size : list nat)
    (pos : nat) : result (list (list nat) * list String.string * nat) :=
  wd ← foldM (fun st y =>
          d ← make_distribution sigma (length vocab) st.2;
          Ok (<[y := d.1]> st.1, d.2))
        (set_iter Y) (∅, pos);
  lo ← list_min bag_size;
  hi ← list_max bag_size;
  sizes ← choice_range s lo hi (length Y) wd.2;
  foldM (make_bag wd.1) (zip Y sizes.1) ([], [], sizes.2).

(** [singletask_synthetic]: the keyword arguments are those of the
    constructor and of [gaussian_bags_of_words]; [pos] is the cursor of the
    random source when the constructor returns. *)
Definition singletask_synthetic (linalg_cond : list (list R) -> result R)
    (linalg_inv : list (list R) -> result (list (list R)))
    (n m k : nat) (class_balance : balance) (theta_range : R * R) (edge_prob : R)
    (theta_edge_range : R * R) (edges_list : option (list (nat * nat)))
    (sigma : R) (bag_size : list nat) (pos : nat)
  : result (list String.string * list (list nat) * list (list R) * list nat
            * list (nat * nat)) :=
  data ← __init__ linalg_cond linalg_inv s n m k class_balance theta_range
           edge_prob theta_edge_range edges_list;
  bags ← gaussian_bags_of_words (self_Y data) sigma bag_size pos;
  X ← bags_to_counts bags.1.1 (length vocab);
  Ok (bags.1.2, self_L data, X, self_Y data, E (self_deps data)).
End Text.

(** A vocabulary of two words, and normal draws that are all 1. *)
Definition demo_vocab : list String.string :=
  [String.String (Ascii.Ascii true false false false false true true false)
     String.EmptyString;
   String.String (Ascii.Ascii false true false false false true true false)
     String.EmptyString].

Definition demo_normal (n : nat) : R := 1.

(** ** Notions used to state the properties of runs with fixed nodes *)

(** The message of [x] to its parent [par] when [other_nodes] fixes some
    nodes: the sum runs over [val_range]. *)
Definition message_value_at (El : list (nat * nat)) (theta : gmap tkey (list R))
    (k y : nat) (T : list (nat * nat)) (o : option (gmap nat nat))
    (messages : gmap nat (list R)) (par x vp : nat) : R :=
  sumR (map (fun v =>
               phi theta y x v * psi El theta y par x vp v
               * prodR (map (fun c => mget messages c v) (children T x)))
          (val_range k o x)).

(** [equations_at o P messages]: the table holds, at every node below the
    root that satisfies [P], the message that the recursion computes under
    [other_nodes = o]. *)
Definition equations_at (El : list (nat * nat)) (theta : gmap tkey (list R))
    (k y : nat) (T : list (nat * nat)) (o : option (gmap nat nat))
    (P : nat -> Prop) (messages : gmap nat (list R)) : Prop :=
  forall par x vp, P x -> (par, x) ∈ T -> (vp <= k)%nat ->
    mget messages x vp = message_value_at El theta k y T o messages par x vp.

(** The fixed values are label values. *)
Definition clamp_ok (k : nat) (o : option (gmap nat nat)) : Prop :=
  forall x v, clamp o x = Some v -> (v <= k)%nat.

(** The entry [val] of [naive_SPA(i, y, other_nodes)] (0 when the call
    raises). *)
Definition spa_entry (g : gmap nat (list nat)) (El : list (nat * nat))
    (theta : gmap tkey (list R)) (k y i : nat) (o : option (gmap nat nat))
    (val : nat) : R :=
  match naive_SPA g El theta k i y o with
  | Ok v => nth val v 0
  | Err _ => 0
  end.

(** The keys that [P_joints_true] writes, in the order of its loops: each
    turn of the innermost loop writes a key and its mirror image. *)
Definition joint_keys (m k : nat) : list (nat * nat * nat * nat * nat) :=
  concat (map (fun y =>
    concat (map (fun i =>
      concat (map (fun j =>
        concat (map (fun val1 =>
          concat (map (fun val2 => [(i, val1, j, val2, y); (j, val2, i, val1, y)])
                    (seq 0 (k + 1))))
          (seq 0 (k + 1))))
        (seq (i + 1) (m - (i + 1)))))
      (seq 0 m)))
    (seq 1 k)).

(** The number that [P_joints_true] stores under a key: the engine runs from
    the source of smaller index, the other source fixed. *)
Definition joint_entry (g : gmap nat (list nat)) (El : list (nat * nat))
    (theta : gmap tkey (list R)) (k : nat) (key : nat * nat * nat * nat * nat) : R :=
  let '(a, va, b, vb, y) := key in
  match get_Z g El theta k y with
  | Ok Z =>
      if decide (a < b)%nat
      then spa_entry g El theta k y a (Some (<[b := vb]> ∅)) va / Z
      else spa_entry g El theta k y b (Some (<[a := va]> ∅)) vb / Z
  | Err _ => 0
  end.

(** ** Notions used to state that a tree of sources can be sampled *)

(** A dependency structure that joins the [m] sources in one tree. *)
Definition tree_deps (m : nat) (d : deps) : Prop :=
  forest_edges (E d)
  /\ (forall p c, (p, c) ∈ E d -> (p < m)%nat /\ (c < m)%nat)
  /\ (forall i p, parent d !! i = Some p <-> (p, i) ∈ E d)
  /\ (forall j, E_order d !! j = E d !! j)
  /\ n_edges d = length (E d)
  /\ G d = graph_of (E d)
  /\ 0%nat ∈ dom (graph_of (E d))
  /\ (forall i, (i < m)%nat -> connected (graph_of (E d)) 0 i).

(** A vector of [k] probabilities. *)
Definition dist_ok (k : nat) (p : list R) : Prop :=
  length p = k /\ Forall (fun x => 0 <= x) p /\ sumR p = 1.

(** An edge list that joins the [m] sources in one tree: [(parent, child)]
    pairs among the sources, every source joined to source 0. *)
Definition tree_list (m : nat) (l : list (nat * nat)) : Prop :=
  forest_edges l
  /\ (forall p c, (p, c) ∈ l -> (p < m)%nat /\ (c < m)%nat)
  /\ (forall i, (i < m)%nat -> connected (graph_of l) 0 i).

(** The argument [class_balance] yields a vector of probabilities: with
    ['random'], the [k] draws must not all be 0. *)
Definition balance_ok (s : source) (k : nat) (class_balance : balance) : Prop :=
  match class_balance with
  | BalanceNone => True
  | BalanceRandom => forall pos, 0 < sumR (random_vec s k pos).1
  | BalanceGiven p => dist_ok k p
  end.

(** ** Concrete inputs used by the examples *)

(** A random source whose every uniform draw is 0 and whose every choice is
    the first alternative. *)
Definition demo_source : source :=
  {| uniform := fun _ => 0; index := fun _ _ => 0%nat |}.

(** The chain 0 - 1 - 2 with the parameters drawn for it from the demo
    source, with [m = 3], [k = 2] and the default ranges. *)
Definition chain_edges : list (nat * nat) := [(0, 1); (1, 2)]%nat.

Definition chain_theta : gmap tkey (list R) :=
  (_generate_params demo_source 3 2 chain_edges (1/10, 1) (1/10, 1) 0).1.

(** The parameters that [_generate_params] stores when every draw makes the
    same number [t]. *)
Definition const_theta (m k : nat) (El : list (nat * nat)) (t : R)
  : gmap tkey (list R) :=
  list_to_map (map (fun key => (key, replicate k t)) (node_keys m k ++ edge_keys k El)).

(** Two components: the edge 0 - 1 and the star of 2 with 3 and 4. *)
Definition split_edges : list (nat * nat) := [(0, 1); (2, 3); (2, 4)]%nat.

(** The generator's structures for these edges in explicit mode, with
    [m = 5], [k = 2], the default ranges and the demo source. *)
Definition split_deps : deps := _generate_edges_from_list split_edges.

Definition split_theta : gmap tkey (list R) :=
  (_generate_params demo_source 5 2 (E split_deps) (1/10, 1) (1/10, 1) 0).1.

(** One edge 0 - 1, two sources, two classes, in explicit mode; every
    parameter is drawn from the range [(0, 0)]. *)
Definition pair_edges : list (nat * nat) := [(0, 1)]%nat.

Definition pair_deps : deps := _generate_edges_from_list pair_edges.

Definition pair_theta : gmap tkey (list R) := const_theta 2 2 pair_edges 0.

(** Stand-ins for numpy's [cond] and [inv] that raise nothing, and an [inv]
    that always meets a singular matrix. *)
Definition cond_quiet (M : list (list R)) : result R := Ok 0.

Definition inv_quiet (M : list (list R)) : result (list (list R)) := Ok M.

Definition inv_singular (M : list (list R)) : result (list (list R)) :=
  Err LinAlgError.

(** * Verification *)

(** ** Helper lemmas: the error monad and sums *)

Lemma rbind_Ok {A B} (m : result A) (f : A -> result B) b :
  rbind m f = Ok b -> exists a, m = Ok a /\ f a = Ok b.
Proof. destruct m as [a|e]; simpl; [eauto | discriminate]. Qed.

Lemma sumR_app l1 l2 : sumR (l1 ++ l2) = sumR l1 + sumR l2.
Proof. induction l1 as [|x l1 IH]; simpl; [lra | rewrite IH; lra]. Qed.

Lemma sumR_replicate n (x : R) : sumR (replicate n x) = INR n * x.
Proof.
  induction n as [|n IH]; [simpl; lra|].
  rewrite S_INR. simpl. rewrite IH. lra.
Qed.

Lemma sumR_insert (l : list R) i x y :
  l !! i = Some y -> sumR (<[i:=x]> l) = sumR l - y + x.
Proof.
  revert i. induction l as [|a l IH]; intros [|i] H; simpl in *; try discriminate.
  - injection H as ->. lra.
  - rewrite (IH i H). lra.
Qed.


(** C8: for a flattened index below [m * k] the index function returns the
    single-entry mapping from node [idx / 2] to value [idx mod 2 + 1], with
    the divisor 2 whatever [k] is. *)
Theorem get_node_index_singleton (m k : nat) (E_order : gmap nat (nat * nat))
    (idx : nat) :
  (idx < m * k)%nat ->
  _get_node_index m k E_order idx = Ok [((idx / 2)%nat, (idx mod 2 + 1)%nat)]
  /\ ((idx - 2 * (idx / 2)) + 1 = idx mod 2 + 1)%nat.
Proof.
  intros Hlt. unfold _get_node_index.
  destruct (decide (idx < m * k)%nat) as [_|Hn]; [|contradiction].
  assert (Hmod : (idx - 2 * (idx / 2) = idx mod 2)%nat).
  { pose proof (Nat.div_mod_eq idx 2). lia. }
  cbn [od_set]. rewrite Hmod. split; reflexivity.
Qed.

Lemma get_node_index_singleton_witness :
  _get_node_index 3 3 ∅ 5 = Ok [(2%nat, 2%nat)]
  /\ ((5 - 2 * (5 / 2)) + 1 = 5 mod 2 + 1)%nat.
Proof. apply (get_node_index_singleton 3 3 ∅ 5). lia. Defined.



(** ** The dependency graph builder *)

Lemma graph_of_snoc El e :
  graph_of (El ++ [e]) = add_edge (snd e) (fst e) (graph_of El).
Proof. unfold graph_of. rewrite fold_left_app. reflexivity. Qed.

Lemma edges_inv_init : edges_inv 0 deps_init 0.
Proof.
  unfold edges_inv. simpl. repeat split; try constructor.
  - apply elem_of_nil in H. contradiction.
  - apply elem_of_nil in H. contradiction.
  - intros H. rewrite lookup_empty in H. discriminate.
  - intros H. apply elem_of_nil in H. contradiction.
Qed.

Lemma edges_inv_weaken b d idx :
  edges_inv b d idx -> edges_inv (S b) d idx.
Proof.
  intros (H1 & H2 & H3 & H4 & H5 & H6). repeat split; try assumption;
    try (apply H4); try (apply H3 in H; lia).
Qed.

Lemma edges_inv_record b d idx p_i :
  (p_i < b)%nat -> edges_inv b d idx ->
  edges_inv (S b) (record_edge p_i b (d, idx)).1 (record_edge p_i b (d, idx)).2.
Proof.
  intros Hp (H1 & H2 & H3 & H4 & H5 & H6). unfold edges_inv. simpl.
  assert (Hfresh : forall q, (q, b) ∉ E d).
  { intros q Hq. apply H3 in Hq. lia. }
  split; [rewrite length_app; simpl; lia|].
  split.
  { rewrite map_app. simpl. apply NoDup_app. split; [assumption|]. split.
    - intros x Hx Hx'. apply list_elem_of_singleton in Hx'. subst x.
      apply list_elem_of_fmap in Hx as ([q c] & Hc & Hin). simpl in Hc. subst c.
      exact (Hfresh q Hin).
    - apply NoDup_singleton. }
  split.
  { intros p i Hin. apply elem_of_app in Hin as [Hin|Hin].
    - apply H3 in Hin. lia.
    - apply list_elem_of_singleton in Hin. injection Hin as -> ->. lia. }
  split.
  { intros i p. rewrite elem_of_app, list_elem_of_singleton.
    destruct (decide (i = b)) as [->|Hne].
    - rewrite lookup_insert_eq. split.
      + intros [= ->]. right. reflexivity.
      + intros [Hin|[= ->]]; [exfalso; exact (Hfresh p Hin) | reflexivity].
    - rewrite lookup_insert_ne by congruence. rewrite H4. split.
      + intros Hin. left. exact Hin.
      + intros [Hin|[= _ Hb]]; [exact Hin | congruence]. }
  split.
  { intros j. destruct (decide (j = idx)) as [->|Hne].
    - rewrite lookup_insert_eq. subst idx.
      rewrite lookup_app_r by lia. rewrite Nat.sub_diag. reflexivity.
    - rewrite lookup_insert_ne by congruence. rewrite H5.
      destruct (decide (j < length (E d))%nat) as [Hlt|Hge].
      + rewrite lookup_app_l by assumption. reflexivity.
      + rewrite lookup_app_r by lia.
        rewrite (lookup_ge_None_2 (E d)) by lia.
        destruct (j - length (E d))%nat as [|j'] eqn:Hj; [lia|reflexivity]. }
  rewrite graph_of_snoc. simpl. rewrite H6. reflexivity.
Qed.

Lemma edges_step_inv s edge_prob b d idx pos :
  source_ok s -> edges_inv b d idx ->
  let st' := edges_step s edge_prob (d, idx, pos) b in
  edges_inv (S b) st'.1.1 st'.1.2.
Proof.
  intros [_ Hidx] Hinv. unfold edges_step, random, choice. simpl.
  destruct (Rlt_dec (uniform s pos) edge_prob); [|apply edges_inv_weaken, Hinv].
  destruct (decide (0 < b)%nat) as [Hb|Hb]; [|apply edges_inv_weaken, Hinv].
  apply (edges_inv_record b d idx (index s (S pos) b)); [|exact Hinv].
  apply Hidx, Hb.
Qed.

Lemma edges_loop_inv s edge_prob len : forall b d idx pos,
  source_ok s -> edges_inv b d idx ->
  let st' := fold_left (edges_step s edge_prob) (seq b len) (d, idx, pos) in
  edges_inv (b + len) st'.1.1 st'.1.2.
Proof.
  induction len as [|len IH]; intros b d idx pos Hs Hinv.
  - simpl. rewrite Nat.add_0_r. exact Hinv.
  - pose proof (edges_step_inv s edge_prob b d idx pos Hs Hinv) as Hstep.
    change (seq b (S len)) with (b :: seq (S b) len). cbn [fold_left].
    destruct (edges_step s edge_prob (d, idx, pos) b) as [[d1 idx1] pos1].
    simpl in Hstep. replace (b + S len)%nat with (S b + len)%nat by lia.
    exact (IH (S b) d1 idx1 pos1 Hs Hstep).
Qed.

(** C6: in random mode the recorded edges are pairwise distinct, every edge
    [(p, i)] has [p < i] (so node 0 is never a child), every child has one
    parent entry, which is its edge, and [E_order] enumerates [E] in
    insertion order over the indices [0 .. n_edges - 1]. *)
Theorem generate_edges_invariants (s : source) (m : nat) (edge_prob : R)
    (pos : nat) :
  source_ok s ->
  let d := (_generate_edges s m edge_prob pos).1 in
  NoDup (E d)
  /\ (forall p i, (p, i) ∈ E d -> (0 <= p < i)%nat /\ (i < m)%nat)
  /\ NoDup (map snd (E d))
  /\ (forall i p, parent d !! i = Some p <-> (p, i) ∈ E d)
  /\ (forall i p q, parent d !! i = Some p -> (q, i) ∈ E d -> q = p)
  /\ n_edges d = length (E d)
  /\ (forall j, (j < n_edges d)%nat -> exists e, E_order d !! j = Some e /\ E d !! j = Some e)
  /\ (forall j, (n_edges d <= j)%nat -> E_order d !! j = None)
  /\ G d = graph_of (E d).
Proof.
  intros Hs. unfold _generate_edges.
  pose proof (edges_loop_inv s edge_prob m 0 deps_init 0 pos Hs edges_inv_init)
    as Hinv.
  destruct (fold_left (edges_step s edge_prob) (seq 0 m) (deps_init, 0%nat, pos))
    as [[d idx] pos'].
  simpl in Hinv. destruct Hinv as (H1 & H2 & H3 & H4 & H5 & H6). simpl.
  split. { eapply NoDup_fmap_1. exact H2. }
  split. { intros p i Hin. apply H3 in Hin. lia. }
  split; [exact H2|].
  split; [exact H4|].
  split.
  { intros i p q Hp Hq. apply H4 in Hq. congruence. }
  split; [reflexivity|].
  split.
  { intros j Hj. destruct (lookup_lt_is_Some_2 (E d) j Hj) as [e He].
    exists e. rewrite H5. split; exact He. }
  split.
  { intros j Hj. rewrite H5. apply lookup_ge_None_2. exact Hj. }
  exact H6.
Qed.

Lemma generate_edges_invariants_witness :
  source_ok demo_source
  /\ let d := (_generate_edges demo_source 3 (1/2) 0).1 in
     NoDup (E d)
     /\ (forall p i, (p, i) ∈ E d -> (0 <= p < i)%nat /\ (i < 3)%nat)
     /\ NoDup (map snd (E d))
     /\ (forall i p, parent d !! i = Some p <-> (p, i) ∈ E d)
     /\ (forall i p q, parent d !! i = Some p -> (q, i) ∈ E d -> q = p)
     /\ n_edges d = length (E d)
     /\ (forall j, (j < n_edges d)%nat -> exists e, E_order d !! j = Some e /\ E d !! j = Some e)
     /\ (forall j, (n_edges d <= j)%nat -> E_order d !! j = None)
     /\ G d = graph_of (E d).
Proof.
  assert (Hs : source_ok demo_source).
  { split; intros; simpl; [lra | lia]. }
  split; [exact Hs|].
  apply (generate_edges_invariants demo_source 3 (1/2) 0 Hs).
Defined.

(** ** The parameter sampler *)

Lemma fold_left_concat {A B} (h : A -> B -> A) (ls : list (list B)) : forall a,
  fold_left h (concat ls) a = fold_left (fun a l => fold_left h l a) ls a.
Proof.
  induction ls as [|l ls IH]; intros a; simpl; [reflexivity|].
  rewrite fold_left_app. apply IH.
Qed.

Lemma elem_of_concat {A} (x : A) (ls : list (list A)) :
  x ∈ concat ls <-> exists l, x ∈ l /\ l ∈ ls.
Proof.
  induction ls as [|l0 ls IH]; simpl.
  - split; [intros H; apply elem_of_nil in H; contradiction|].
    intros (l & _ & H). apply elem_of_nil in H. contradiction.
  - rewrite elem_of_app, IH. split.
    + intros [H|(l & H1 & H2)].
      * exists l0. split; [exact H | apply elem_of_cons; left; reflexivity].
      * exists l. split; [exact H1 | apply elem_of_cons; right; exact H2].
    + intros (l & H1 & H2). apply elem_of_cons in H2 as [->|H2]; [left; exact H1|].
      right. exists l. split; assumption.
Qed.

Lemma fold_left_fmap {A B C} (h : A -> C -> A) (f : B -> C) (l : list B) :
  forall a, fold_left h (map f l) a = fold_left (fun a b => h a (f b)) l a.
Proof. induction l as [|b l IH]; intros a; simpl; [reflexivity|apply IH]. Qed.

Lemma fold_left_ext_in {A B} (f g : A -> B -> A) (l : list B) :
  (forall a b, f a b = g a b) -> forall a, fold_left f l a = fold_left g l a.
Proof.
  intros Hfg. induction l as [|b l IH]; intros a; simpl; [reflexivity|].
  rewrite Hfg. apply IH.
Qed.

Lemma draw_theta_ok s k lo hi pos :
  source_ok s -> lo <= hi -> theta_vec_ok k lo hi (draw_theta s k lo hi pos).1.
Proof.
  intros [Hu _] Hle. unfold draw_theta, random_vec. simpl. split.
  - rewrite !length_map, length_seq. reflexivity.
  - apply Forall_forall. intros x Hx.
    apply list_elem_of_fmap in Hx as (r & -> & Hr).
    apply list_elem_of_fmap in Hr as (n & -> & _).
    specialize (Hu n). nra.
Qed.

Lemma store_loop_gen s k lo hi (Q : list R -> Prop) keys : forall theta pos,
  (forall pos, Q (draw_theta s k lo hi pos).1) ->
  let theta' := (fold_left (store_theta s k lo hi) keys (theta, pos)).1 in
  (forall key, key ∈ keys -> exists v, theta' !! key = Some v /\ Q v)
  /\ (forall key, key ∉ keys -> theta' !! key = theta !! key).
Proof.
  induction keys as [|key0 keys IH] using rev_ind; intros theta pos HQ.
  - simpl. split.
    + intros key Hin. apply elem_of_nil in Hin. contradiction.
    + reflexivity.
  - rewrite fold_left_app. cbn [fold_left].
    specialize (IH theta pos HQ). cbv zeta in IH.
    destruct (fold_left (store_theta s k lo hi) keys (theta, pos)) as [th1 pos1].
    simpl in IH. destruct IH as [IHin IHout].
    unfold store_theta.
    pose proof (HQ pos1) as Hv.
    destruct (draw_theta s k lo hi pos1) as [v pos2]. simpl in Hv. simpl.
    split.
    + intros key Hin. destruct (decide (key = key0)) as [->|Hne].
      * exists v. rewrite lookup_insert_eq. split; [reflexivity|exact Hv].
      * rewrite lookup_insert_ne by congruence. apply IHin.
        apply elem_of_app in Hin as [Hin|Hin]; [exact Hin|].
        apply list_elem_of_singleton in Hin. contradiction.
    + intros key Hnin. rewrite elem_of_app, list_elem_of_singleton in Hnin.
      rewrite lookup_insert_ne by (intros ->; tauto).
      apply IHout. tauto.
Qed.

Lemma store_loop_spec s k lo hi keys theta pos :
  source_ok s -> lo <= hi ->
  let theta' := (fold_left (store_theta s k lo hi) keys (theta, pos)).1 in
  (forall key, key ∈ keys ->
     exists v, theta' !! key = Some v /\ theta_vec_ok k lo hi v)
  /\ (forall key, key ∉ keys -> theta' !! key = theta !! key).
Proof.
  intros Hs Hle. apply store_loop_gen. intros pos'.
  exact (draw_theta_ok s k lo hi pos' Hs Hle).
Qed.

Lemma draw_theta_length s k lo hi pos : length (draw_theta s k lo hi pos).1 = k.
Proof.
  unfold draw_theta, random_vec. simpl. rewrite !length_map, length_seq. reflexivity.
Qed.



Lemma node_keys_loop s m k lo hi st :
  fold_left (store_theta s k lo hi) (node_keys m k) st =
  fold_left (fun st i =>
    fold_left (fun st y => store_theta s k lo hi st (node_key i y)) (seq 1 k) st)
    (seq 0 m) st.
Proof.
  unfold node_keys. rewrite fold_left_concat, fold_left_fmap.
  apply fold_left_ext_in. intros a i. apply fold_left_fmap.
Qed.

Lemma edge_keys_loop s k El lo hi st :
  fold_left (store_theta s k lo hi) (edge_keys k El) st =
  fold_left (fun st e =>
    fold_left (fun st y1 =>
      fold_left (fun st y2 => store_theta s k lo hi st (edge_key e y1 y2))
        (seq 1 k) st)
      (seq 1 k) st)
    El st.
Proof.
  unfold edge_keys. rewrite fold_left_concat, fold_left_fmap.
  apply fold_left_ext_in. intros a e.
  rewrite fold_left_concat, fold_left_fmap.
  apply fold_left_ext_in. intros a' y1. apply fold_left_fmap.
Qed.

Lemma generate_params_flat s m k El tr ter pos :
  _generate_params s m k El tr ter pos =
  fold_left (store_theta s k (Rmin (fst ter) (snd ter)) (Rmax (fst ter) (snd ter)))
    (edge_keys k El)
    (fold_left (store_theta s k (Rmin (fst tr) (snd tr)) (Rmax (fst tr) (snd tr)))
       (node_keys m k) (∅, pos)).
Proof.
  rewrite edge_keys_loop, node_keys_loop. reflexivity.
Qed.

Lemma elem_of_node_keys m k key :
  key ∈ node_keys m k <->
  exists i y, key = node_key i y /\ (i < m)%nat /\ (1 <= y <= k)%nat.
Proof.
  unfold node_keys. rewrite elem_of_concat. split.
  - intros (l & Hkey & Hl). apply list_elem_of_fmap in Hl as (i & -> & Hi).
    apply list_elem_of_fmap in Hkey as (y & -> & Hy).
    apply elem_of_seq in Hi. apply elem_of_seq in Hy.
    exists i, y. repeat split; lia.
  - intros (i & y & -> & Hi & Hy). exists (map (node_key i) (seq 1 k)). split.
    + apply list_elem_of_fmap. exists y. split; [reflexivity|].
      apply elem_of_seq. lia.
    + apply list_elem_of_fmap. exists i. split; [reflexivity|].
      apply elem_of_seq. lia.
Qed.

Lemma elem_of_edge_keys k El key :
  key ∈ edge_keys k El <->
  exists e y1 y2, key = edge_key e y1 y2 /\ e ∈ El
                  /\ (1 <= y1 <= k)%nat /\ (1 <= y2 <= k)%nat.
Proof.
  unfold edge_keys. rewrite elem_of_concat. split.
  - intros (l & Hkey & Hl). apply list_elem_of_fmap in Hl as (e & -> & He).
    apply elem_of_concat in Hkey as (l & Hkey & Hl).
    apply list_elem_of_fmap in Hl as (y1 & -> & Hy1).
    apply list_elem_of_fmap in Hkey as (y2 & -> & Hy2).
    apply elem_of_seq in Hy1. apply elem_of_seq in Hy2.
    exists e, y1, y2. repeat split; solve [assumption | lia].
  - intros (e & y1 & y2 & -> & He & Hy1 & Hy2).
    exists (concat (map (fun y1 => map (edge_key e y1) (seq 1 k)) (seq 1 k))).
    split.
    + apply elem_of_concat. exists (map (edge_key e y1) (seq 1 k)). split.
      * apply list_elem_of_fmap. exists y2. split; [reflexivity|].
        apply elem_of_seq. lia.
      * apply list_elem_of_fmap. exists y1. split; [reflexivity|].
        apply elem_of_seq. lia.
    + apply list_elem_of_fmap. exists e. split; [reflexivity|exact He].
Qed.

(** Whatever the draws, the stored vectors have length [k]. *)
Lemma generate_params_length s m k El tr ter pos key :
  key ∈ node_keys m k \/ key ∈ edge_keys k El ->
  exists v, (_generate_params s m k El tr ter pos).1 !! key = Some v /\ length v = k.
Proof.
  intros Hkey. rewrite generate_params_flat.
  set (lo := Rmin tr.1 tr.2). set (hi := Rmax tr.1 tr.2).
  set (elo := Rmin ter.1 ter.2). set (ehi := Rmax ter.1 ter.2).
  pose proof (store_loop_gen s k lo hi (fun v => length v = k) (node_keys m k) ∅ pos
                (draw_theta_length s k lo hi)) as H1.
  cbv zeta in H1.
  destruct (fold_left (store_theta s k lo hi) (node_keys m k) (∅, pos)) as [th1 pos1].
  pose proof (store_loop_gen s k elo ehi (fun v => length v = k) (edge_keys k El) th1 pos1
                (draw_theta_length s k elo ehi)) as H2.
  cbv zeta in H2.
  destruct (fold_left (store_theta s k elo ehi) (edge_keys k El) (th1, pos1)) as [th2 pos2].
  simpl in *. destruct H1 as [H1in H1out]. destruct H2 as [H2in H2out].
  destruct (decide (key ∈ edge_keys k El)) as [Hin|Hnin]; [exact (H2in key Hin)|].
  destruct Hkey as [Hkey|Hkey]; [|contradiction].
  rewrite (H2out key Hnin). exact (H1in key Hkey).
Qed.

(** C7: after [_generate_params], [theta] holds a length-[k] vector within
    the unary range at every key [(i, y)], a length-[k] vector within the
    edge range at every key [((i, j), y1, y2)] of an edge of [E], and no
    other key. *)
Theorem generate_params_spec (s : source) (m k : nat) (El : list (nat * nat))
    (theta_range theta_edge_range : R * R) (pos : nat) :
  source_ok s ->
  let theta := (_generate_params s m k El theta_range theta_edge_range pos).1 in
  let t_min := Rmin (fst theta_range) (snd theta_range) in
  let t_max := Rmax (fst theta_range) (snd theta_range) in
  let te_min := Rmin (fst theta_edge_range) (snd theta_edge_range) in
  let te_max := Rmax (fst theta_edge_range) (snd theta_edge_range) in
  (forall i y, (i < m)%nat -> (1 <= y <= k)%nat ->
     exists v, theta !! node_key i y = Some v /\ length v = k
               /\ Forall (fun x => t_min <= x <= t_max) v)
  /\ (forall i j y1 y2, (i, j) ∈ El -> (1 <= y1 <= k)%nat -> (1 <= y2 <= k)%nat ->
     exists v, theta !! edge_key (i, j) y1 y2 = Some v /\ length v = k
               /\ Forall (fun x => te_min <= x <= te_max) v)
  /\ (forall key, is_Some (theta !! key) ->
        (exists i y, key = node_key i y /\ (i < m)%nat /\ (1 <= y <= k)%nat)
        \/ (exists i j y1 y2, key = edge_key (i, j) y1 y2 /\ (i, j) ∈ El
              /\ (1 <= y1 <= k)%nat /\ (1 <= y2 <= k)%nat)).
Proof.
  intros Hs. cbv zeta. rewrite generate_params_flat.
  set (lo := Rmin (fst theta_range) (snd theta_range)).
  set (hi := Rmax (fst theta_range) (snd theta_range)).
  set (elo := Rmin (fst theta_edge_range) (snd theta_edge_range)).
  set (ehi := Rmax (fst theta_edge_range) (snd theta_edge_range)).
  assert (Hle : lo <= hi).
  { unfold lo, hi. eapply Rle_trans; [apply Rmin_l | apply Rmax_l]. }
  assert (Hele : elo <= ehi).
  { unfold elo, ehi. eapply Rle_trans; [apply Rmin_l | apply Rmax_l]. }
  pose proof (store_loop_spec s k lo hi (node_keys m k) ∅ pos Hs Hle) as H1.
  cbv zeta in H1.
  destruct (fold_left (store_theta s k lo hi) (node_keys m k) (∅, pos))
    as [th1 pos1].
  simpl in H1. destruct H1 as [H1in H1out].
  pose proof (store_loop_spec s k elo ehi (edge_keys k El) th1 pos1 Hs Hele) as H2.
  cbv zeta in H2.
  destruct (fold_left (store_theta s k elo ehi) (edge_keys k El) (th1, pos1))
    as [th2 pos2].
  simpl in H2. destruct H2 as [H2in H2out]. simpl.
  split.
  { intros i y Hi Hy.
    assert (Hnk : node_key i y ∈ node_keys m k).
    { apply elem_of_node_keys. eauto. }
    destruct (H1in _ Hnk) as (v & Hv & Hlen & Hall).
    exists v. split; [|split; assumption].
    rewrite H2out; [exact Hv|].
    intros Hin. apply elem_of_edge_keys in Hin as (e & y1 & y2 & Heq & _).
    discriminate. }
  split.
  { intros i j y1 y2 He Hy1 Hy2.
    assert (Hek : edge_key (i, j) y1 y2 ∈ edge_keys k El).
    { apply elem_of_edge_keys. exists (i, j), y1, y2. auto. }
    destruct (H2in _ Hek) as (v & Hv & Hlen & Hall). eauto. }
  intros key [v Hv].
  destruct (decide (key ∈ edge_keys k El)) as [Hin|Hnin].
  { right. apply elem_of_edge_keys in Hin as ([i j] & y1 & y2 & -> & He & Hy).
    exists i, j, y1, y2. tauto. }
  left. rewrite (H2out _ Hnin) in Hv.
  destruct (decide (key ∈ node_keys m k)) as [Hin|Hnin1].
  { apply elem_of_node_keys. exact Hin. }
  rewrite (H1out _ Hnin1), lookup_empty in Hv. discriminate.
Qed.

Lemma generate_params_spec_witness :
  source_ok demo_source
  /\ let theta := (_generate_params demo_source 2 2 [(0, 1)%nat] (1/10, 1) (1/10, 1) 0).1 in
  let t_min := Rmin (fst (1/10, 1)) (snd (1/10, 1)) in
  let t_max := Rmax (fst (1/10, 1)) (snd (1/10, 1)) in
  let te_min := Rmin (fst (1/10, 1)) (snd (1/10, 1)) in
  let te_max := Rmax (fst (1/10, 1)) (snd (1/10, 1)) in
  (forall i y, (i < 2)%nat -> (1 <= y <= 2)%nat ->
     exists v, theta !! node_key i y = Some v /\ length v = 2%nat
               /\ Forall (fun x => t_min <= x <= t_max) v)
  /\ (forall i j y1 y2, (i, j) ∈ [(0, 1)%nat] -> (1 <= y1 <= 2)%nat -> (1 <= y2 <= 2)%nat ->
     exists v, theta !! edge_key (i, j) y1 y2 = Some v /\ length v = 2%nat
               /\ Forall (fun x => te_min <= x <= te_max) v)
  /\ (forall key, is_Some (theta !! key) ->
        (exists i y, key = node_key i y /\ (i < 2)%nat /\ (1 <= y <= 2)%nat)
        \/ (exists i j y1 y2, key = edge_key (i, j) y1 y2 /\ (i, j) ∈ [(0, 1)%nat]
              /\ (1 <= y1 <= 2)%nat /\ (1 <= y2 <= 2)%nat)).
Proof.
  assert (Hs : source_ok demo_source).
  { split; intros; simpl; [lra | lia]. }
  split; [exact Hs|].
  apply (generate_params_spec demo_source 2 2 [(0, 1)%nat] (1/10, 1) (1/10, 1) 0 Hs).
Defined.

(** ** Breadth-first search *)

Lemma elem_of_rev {A} (x : A) (l : list A) : x ∈ rev l <-> x ∈ l.
Proof. rewrite !list_elem_of_In. symmetry. apply in_rev. Qed.

Lemma scan_spec p nbrs : forall visited es vis,
  scan p nbrs visited = (es, vis) ->
  vis = rev (map snd es) ++ visited
  /\ NoDup (map snd es)
  /\ (forall q c, (q, c) ∈ es -> q = p /\ c ∈ nbrs /\ c ∉ visited)
  /\ (forall c, c ∈ nbrs -> c ∈ vis).
Proof.
  induction nbrs as [|c nbrs IH]; intros visited es vis H; simpl in H.
  - injection H as <- <-. simpl. repeat split; try constructor.
    + apply elem_of_nil in H. contradiction.
    + apply elem_of_nil in H. contradiction.
    + apply elem_of_nil in H. contradiction.
    + intros c H. apply elem_of_nil in H. contradiction.
  - destruct (bool_decide (c ∈ visited)) eqn:Hc.
    + apply bool_decide_eq_true in Hc.
      destruct (IH _ _ _ H) as (Hv & Hnd & Hes & Hcl).
      split; [exact Hv|]. split; [exact Hnd|]. split.
      * intros q c' Hin. destruct (Hes q c' Hin) as (-> & Hc' & Hn).
        repeat split; [right; exact Hc' | exact Hn].
      * intros c' Hin. apply elem_of_cons in Hin as [->|Hin]; [|exact (Hcl _ Hin)].
        subst vis. apply elem_of_app. right. exact Hc.
    + apply bool_decide_eq_false in Hc.
      destruct (scan p nbrs (c :: visited)) as [es' vis'] eqn:Hs.
      injection H as <- <-.
      destruct (IH _ _ _ Hs) as (Hv & Hnd & Hes & Hcl).
      split. { rewrite Hv. simpl. rewrite <- app_assoc. reflexivity. }
      split.
      { simpl. apply NoDup_cons. split; [|exact Hnd].
        intros Hin. apply list_elem_of_fmap in Hin as ([q c'] & Heq & Hin).
        simpl in Heq. subst c'. destruct (Hes q c Hin) as (_ & _ & Hn).
        apply Hn. left. }
      split.
      { intros q c' Hin. apply elem_of_cons in Hin as [[= -> ->]|Hin].
        - repeat split; [left | exact Hc].
        - destruct (Hes q c' Hin) as (-> & Hc' & Hn).
          repeat split; [right; exact Hc' |].
          intros Hin'. apply Hn. right. exact Hin'. }
      intros c' Hin. apply elem_of_cons in Hin as [->|Hin]; [|exact (Hcl _ Hin)].
      rewrite Hv. apply elem_of_app. right. left.
Qed.

Lemma expand_spec g frontier : forall visited es vis,
  expand g frontier visited = (es, vis) ->
  vis = rev (map snd es) ++ visited
  /\ NoDup (map snd es)
  /\ (forall q c, (q, c) ∈ es ->
        q ∈ frontier /\ c ∈ neighbors g q /\ c ∉ visited)
  /\ (forall q c, q ∈ frontier -> c ∈ neighbors g q -> c ∈ vis).
Proof.
  induction frontier as [|p frontier IH]; intros visited es vis H; simpl in H.
  - injection H as <- <-. simpl. repeat split; try constructor.
    + apply elem_of_nil in H. contradiction.
    + apply elem_of_nil in H. contradiction.
    + apply elem_of_nil in H. contradiction.
    + intros q c H. apply elem_of_nil in H. contradiction.
  - destruct (scan p (neighbors g p) visited) as [es1 vis1] eqn:Hs.
    destruct (expand g frontier vis1) as [es2 vis2] eqn:He.
    injection H as <- <-.
    destruct (scan_spec _ _ _ _ _ Hs) as (Hv1 & Hnd1 & Hes1 & Hcl1).
    destruct (IH _ _ _ He) as (Hv2 & Hnd2 & Hes2 & Hcl2).
    split. { rewrite Hv2, Hv1, map_app, rev_app_distr, <- app_assoc. reflexivity. }
    split.
    { rewrite map_app. apply NoDup_app. split; [exact Hnd1|]. split; [|exact Hnd2].
      intros c Hc1 Hc2.
      apply list_elem_of_fmap in Hc2 as ([q c'] & Heq & Hin). simpl in Heq. subst c'.
      destruct (Hes2 q c Hin) as (_ & _ & Hn). apply Hn. rewrite Hv1.
      apply elem_of_app. left. rewrite elem_of_rev. exact Hc1. }
    split.
    { intros q c Hin. apply elem_of_app in Hin as [Hin|Hin].
      - destruct (Hes1 q c Hin) as (-> & Hc & Hn). repeat split; [left|exact Hc|exact Hn].
      - destruct (Hes2 q c Hin) as (Hq & Hc & Hn).
        repeat split; [right; exact Hq | exact Hc |].
        intros Hin'. apply Hn. rewrite Hv1. apply elem_of_app. right. exact Hin'. }
    intros q c Hq Hc. apply elem_of_cons in Hq as [->|Hq].
    + rewrite Hv2. apply elem_of_app. right. exact (Hcl1 c Hc).
    + exact (Hcl2 q c Hq Hc).
Qed.

Lemma grows_ext g vs vs' T :
  (forall x, x ∈ vs <-> x ∈ vs') -> grows g vs T -> grows g vs' T.
Proof.
  intros Hext Hg. revert vs' Hext.
  induction Hg as [vs|vs p c T Hp Hc Hn Hg IH]; intros vs' Hext.
  - constructor.
  - constructor; [apply Hext, Hp | rewrite <- Hext; exact Hc | exact Hn |].
    apply IH. intros x. rewrite !elem_of_cons, Hext. reflexivity.
Qed.

Lemma grows_app g vs T1 T2 :
  grows g vs T1 -> grows g (rev (map snd T1) ++ vs) T2 -> grows g vs (T1 ++ T2).
Proof.
  intros Hg. revert T2.
  induction Hg as [vs|vs p c T Hp Hc Hn Hg IH]; intros T2 H2; simpl in *.
  - exact H2.
  - constructor; try assumption. apply IH.
    rewrite <- app_assoc in H2. exact H2.
Qed.

Lemma scan_grows g p nbrs : forall visited es vis,
  scan p nbrs visited = (es, vis) ->
  p ∈ visited -> (forall c, c ∈ nbrs -> c ∈ neighbors g p) ->
  grows g visited es.
Proof.
  induction nbrs as [|c nbrs IH]; intros visited es vis H Hp Hn; simpl in H.
  - injection H as <- <-. constructor.
  - assert (Hn' : forall c', c' ∈ nbrs -> c' ∈ neighbors g p).
    { intros c' Hc'. apply Hn. right. exact Hc'. }
    destruct (bool_decide (c ∈ visited)) eqn:Hc.
    + exact (IH _ _ _ H Hp Hn').
    + apply bool_decide_eq_false in Hc.
      destruct (scan p nbrs (c :: visited)) as [es' vis'] eqn:Hs.
      injection H as <- <-.
      constructor; [exact Hp | exact Hc | apply Hn; left |].
      apply (IH _ _ _ Hs); [right; exact Hp | exact Hn'].
Qed.

Lemma expand_grows g frontier : forall visited es vis,
  expand g frontier visited = (es, vis) ->
  (forall q, q ∈ frontier -> q ∈ visited) ->
  grows g visited es.
Proof.
  induction frontier as [|p frontier IH]; intros visited es vis H Hf; simpl in H.
  - injection H as <- <-. constructor.
  - destruct (scan p (neighbors g p) visited) as [es1 vis1] eqn:Hs.
    destruct (expand g frontier vis1) as [es2 vis2] eqn:He.
    injection H as <- <-.
    destruct (scan_spec _ _ _ _ _ Hs) as (Hv1 & _).
    apply grows_app.
    + apply (scan_grows g _ _ _ _ _ Hs); [apply Hf; left | auto].
    + rewrite <- Hv1. apply (IH _ _ _ He).
      intros q Hq. rewrite Hv1. apply elem_of_app. right. apply Hf. right. exact Hq.
Qed.

Lemma bfs_levels_grows g fuel : forall frontier visited,
  (forall q, q ∈ frontier -> q ∈ visited) ->
  grows g visited (bfs_levels fuel g frontier visited).
Proof.
  induction fuel as [|fuel IH]; intros frontier visited Hf; simpl.
  - constructor.
  - destruct frontier as [|p frontier]; [constructor|].
    destruct (expand g (p :: frontier) visited) as [es vis] eqn:He.
    destruct (expand_spec _ _ _ _ _ He) as (Hv & _).
    apply grows_app; [exact (expand_grows _ _ _ _ _ He Hf)|].
    rewrite <- Hv. apply IH. intros q Hq. rewrite Hv.
    apply elem_of_app. left. apply elem_of_rev. exact Hq.
Qed.

Lemma bfs_levels_nil fuel g visited : bfs_levels fuel g [] visited = [].
Proof. destruct fuel; reflexivity. Qed.

Lemma neighbors_dom g u v : v ∈ neighbors g u -> u ∈ dom g.
Proof.
  unfold neighbors. intros H. apply elem_of_dom.
  destruct (g !! u); [eauto|]. simpl in H. apply elem_of_nil in H. contradiction.
Qed.

Lemma NoDup_dom_length (g : gmap nat (list nat)) (l : list nat) :
  NoDup l -> (forall x, x ∈ l -> x ∈ dom g) -> (length l <= size g)%nat.
Proof.
  intros Hnd Hsub.
  rewrite <- (size_dom g), <- (size_list_to_set (C:=gset nat) l Hnd).
  apply subseteq_size. intros x Hx. apply elem_of_list_to_set in Hx. auto.
Qed.

(** With enough fuel the search is closed: every neighbour of a node of the
    frontier or of a node reached later is reached. *)
Lemma bfs_levels_closed g : graph_wf g -> forall fuel frontier visited,
  (forall q, q ∈ frontier -> q ∈ visited) ->
  NoDup visited -> (forall x, x ∈ visited -> x ∈ dom g) ->
  (size g - length visited < fuel)%nat ->
  let T := bfs_levels fuel g frontier visited in
  forall x c, x ∈ frontier \/ x ∈ map snd T -> c ∈ neighbors g x ->
    c ∈ visited \/ c ∈ map snd T.
Proof.
  intros [Hsym _]. induction fuel as [|fuel IH];
    intros frontier visited Hf Hnd Hdom Hfuel; [lia|].
  simpl. destruct frontier as [|p frontier].
  { intros x c [Hx|Hx] _; apply elem_of_nil in Hx; contradiction. }
  destruct (expand g (p :: frontier) visited) as [es vis] eqn:He.
  destruct (expand_spec _ _ _ _ _ He) as (Hv & Hnde & Hes & Hcl).
  assert (Hvis : forall x, x ∈ vis <-> x ∈ map snd es \/ x ∈ visited).
  { intros x. rewrite Hv, elem_of_app, elem_of_rev. reflexivity. }
  assert (Hndv : NoDup vis).
  { rewrite Hv. apply NoDup_app. split; [|split; [|exact Hnd]].
    - apply NoDup_ListNoDup, NoDup_rev, NoDup_ListNoDup, Hnde.
    - intros x Hx1 Hx2. rewrite elem_of_rev in Hx1.
      apply list_elem_of_fmap in Hx1 as ([q c'] & Heq & Hin). simpl in Heq. subst c'.
      destruct (Hes q x Hin) as (_ & _ & Hn). exact (Hn Hx2). }
  assert (Hdomv : forall x, x ∈ vis -> x ∈ dom g).
  { intros x Hx. apply Hvis in Hx as [Hx|Hx]; [|exact (Hdom x Hx)].
    apply list_elem_of_fmap in Hx as ([q c'] & Heq & Hin). simpl in Heq. subst c'.
    destruct (Hes q x Hin) as (_ & Hc & _). apply Hsym in Hc.
    exact (neighbors_dom _ _ _ Hc). }
  assert (Hfr' : forall q, q ∈ map snd es -> q ∈ vis).
  { intros q Hq. apply Hvis. left. exact Hq. }
  intros x c Hx Hc. rewrite map_app, elem_of_app.
  destruct Hx as [Hx|Hx].
  { specialize (Hcl x c Hx Hc). apply Hvis in Hcl. tauto. }
  rewrite map_app, elem_of_app in Hx.
  destruct es as [|e es'] eqn:Hes'.
  { simpl in Hx. rewrite bfs_levels_nil in Hx. simpl in Hx.
    destruct Hx as [Hx|Hx]; apply elem_of_nil in Hx; contradiction. }
  rewrite <- Hes' in *.
  assert (Hlen : (length vis = length es + length visited)%nat).
  { rewrite Hv, length_app, length_rev, length_map. reflexivity. }
  assert (Hle : (length vis <= size g)%nat) by (apply NoDup_dom_length; assumption).
  assert (Hpos : (0 < length es)%nat) by (rewrite Hes'; simpl; lia).
  assert (Hfuel' : (size g - length vis < fuel)%nat) by lia.
  specialize (IH (map snd es) vis Hfr' Hndv Hdomv Hfuel'). cbv zeta in IH.
  assert (Hx' : x ∈ map snd es \/ x ∈ map snd (bfs_levels fuel g (map snd es) vis))
    by tauto.
  specialize (IH x c Hx' Hc). rewrite Hvis in IH. tauto.
Qed.

(** ** Search trees *)

Lemma grows_child_fresh g vs T :
  grows g vs T -> forall c, c ∈ map snd T -> c ∉ vs.
Proof.
  induction 1 as [vs|vs p c T Hp Hc Hn Hg IH]; intros c' Hc'; simpl in Hc'.
  - apply elem_of_nil in Hc'. contradiction.
  - apply elem_of_cons in Hc' as [->|Hc']; [exact Hc|].
    intros Hin. apply (IH c' Hc'). right. exact Hin.
Qed.

Lemma grows_NoDup g vs T : grows g vs T -> NoDup (map snd T).
Proof.
  induction 1 as [vs|vs p c T Hp Hc Hn Hg IH]; simpl; [constructor|].
  apply NoDup_cons. split; [|exact IH].
  intros Hin. apply (grows_child_fresh _ _ _ Hg c Hin). left.
Qed.

Lemma grows_edge g vs T :
  grows g vs T -> forall p c, (p, c) ∈ T ->
    c ∈ neighbors g p /\ (p ∈ vs \/ p ∈ map snd T).
Proof.
  induction 1 as [vs|vs p c T Hp Hc Hn Hg IH]; intros p' c' Hin.
  - apply elem_of_nil in Hin. contradiction.
  - apply elem_of_cons in Hin as [[= -> ->]|Hin]; [tauto|].
    destruct (IH _ _ Hin) as [Hn' Hp']. split; [exact Hn'|]. simpl.
    rewrite elem_of_cons in Hp'. rewrite elem_of_cons. tauto.
Qed.

Lemma grows_parent_unique g vs T p p' c :
  grows g vs T -> (p, c) ∈ T -> (p', c) ∈ T -> p = p'.
Proof.
  intros Hg. apply grows_NoDup in Hg. revert Hg.
  induction T as [|[q d] T IH]; intros Hnd H1 H2.
  - apply elem_of_nil in H1. contradiction.
  - simpl in Hnd. apply NoDup_cons in Hnd as [Hd Hnd].
    assert (Hfresh : forall q', (q', d) ∉ T).
    { intros q' Hin. apply Hd. apply list_elem_of_fmap. exists (q', d). auto. }
    apply elem_of_cons in H1 as [Heq1|H1];
      apply elem_of_cons in H2 as [Heq2|H2].
    + congruence.
    + injection Heq1 as -> ->. exfalso. exact (Hfresh _ H2).
    + injection Heq2 as -> ->. exfalso. exact (Hfresh _ H1).
    + exact (IH Hnd H1 H2).
Qed.

Lemma grows_no_back g vs T p c :
  grows g vs T -> (p, c) ∈ T -> (c, p) ∉ T.
Proof.
  induction 1 as [vs|vs q d T Hq Hd Hn Hg IH]; intros H1 H2.
  - apply elem_of_nil in H1. contradiction.
  - assert (Hdq : (d, q) ∉ T).
    { intros Hin. apply (grows_child_fresh _ _ _ Hg q).
      - apply list_elem_of_fmap. exists (d, q). auto.
      - right. exact Hq. }
    apply elem_of_cons in H1 as [Heq1|H1];
      apply elem_of_cons in H2 as [Heq2|H2].
    + injection Heq1 as -> ->. injection Heq2 as ->. contradiction.
    + injection Heq1 as -> ->. contradiction.
    + injection Heq2 as -> ->. contradiction.
    + exact (IH H1 H2).
Qed.

Lemma grows_not_self g vs T p : grows g vs T -> (p, p) ∉ T.
Proof. intros Hg Hin. exact (grows_no_back _ _ _ _ _ Hg Hin Hin). Qed.

(** Distances. *)

Lemma dist_of_app_l dl dl' x :
  x ∈ map fst dl -> dist_of (dl ++ dl') x = dist_of dl x.
Proof.
  induction dl as [|[z d] dl IH]; simpl; intros Hin.
  - apply elem_of_nil in Hin. contradiction.
  - destruct (Nat.eqb_spec z x) as [->|Hne]; [reflexivity|].
    apply IH. apply elem_of_cons in Hin as [Hin|Hin]; [congruence|exact Hin].
Qed.

Lemma dist_of_app_r dl dl' x :
  x ∉ map fst dl -> dist_of (dl ++ dl') x = dist_of dl' x.
Proof.
  induction dl as [|[z d] dl IH]; simpl; intros Hin; [reflexivity|].
  destruct (Nat.eqb_spec z x) as [->|Hne].
  - exfalso. apply Hin. left.
  - apply IH. intros H. apply Hin. right. exact H.
Qed.

Lemma dist_list_spec g vs T :
  grows g vs T -> forall dl0,
  (forall x, x ∈ map fst dl0 <-> x ∈ vs) ->
  let dl := fold_left dist_step T dl0 in
  map fst dl = map fst dl0 ++ map snd T
  /\ (forall x, x ∈ vs -> dist_of dl x = dist_of dl0 x)
  /\ (forall p c, (p, c) ∈ T -> dist_of dl c = S (dist_of dl p))
  /\ (forall x d, (x, d) ∈ dl -> (x, d) ∈ dl0 \/ (x ∈ map snd T /\ d = dist_of dl x)).
Proof.
  induction 1 as [vs|vs p c T Hp Hc Hn Hg IH]; intros dl0 Hdl0; simpl.
  - rewrite app_nil_r. repeat split; auto.
    intros p c H. apply elem_of_nil in H. contradiction.
  - set (dl1 := dist_step dl0 (p, c)).
    assert (Hdl1 : forall x, x ∈ map fst dl1 <-> x ∈ c :: vs).
    { intros x. unfold dl1, dist_step. rewrite map_app, elem_of_app. simpl.
      rewrite list_elem_of_singleton, elem_of_cons, Hdl0. tauto. }
    destruct (IH dl1 Hdl1) as (H1 & H2 & H3 & H4).
    assert (Hc0 : c ∉ map fst dl0) by (rewrite Hdl0; exact Hc).
    assert (Hdc : dist_of dl1 c = S (dist_of dl0 p)).
    { unfold dl1, dist_step. rewrite dist_of_app_r by exact Hc0. simpl.
      rewrite Nat.eqb_refl. reflexivity. }
    assert (Hold : forall x, x ∈ vs -> dist_of dl1 x = dist_of dl0 x).
    { intros x Hx. unfold dl1, dist_step. apply dist_of_app_l. apply Hdl0, Hx. }
    split.
    { rewrite H1. unfold dl1, dist_step. rewrite map_app, <- app_assoc. reflexivity. }
    split.
    { intros x Hx. rewrite H2 by (right; exact Hx). apply Hold, Hx. }
    split.
    { intros p' c' Hin. apply elem_of_cons in Hin as [[= -> ->]|Hin].
      - rewrite (H2 c) by left. rewrite (H2 p) by (right; exact Hp).
        rewrite Hdc, (Hold p Hp). reflexivity.
      - exact (H3 _ _ Hin). }
    intros x d Hin. destruct (H4 x d Hin) as [Hin'|[Hx Hd]].
    + unfold dl1, dist_step in Hin'. apply elem_of_app in Hin' as [Hin'|Hin'].
      * left. exact Hin'.
      * apply list_elem_of_singleton in Hin'. injection Hin' as -> ->.
        right. split; [left|]. simpl. rewrite (H2 c) by left. rewrite Hdc. reflexivity.
    + right. split; [right; exact Hx | exact Hd].
Qed.

Lemma bfs_tree_search_tree g r T :
  graph_wf g -> bfs_tree g r = Ok T ->
  search_tree g r T (shortest_path_length T r).
Proof.
  intros Hwf HT. unfold bfs_tree in HT.
  destruct (g !! r) as [nb|] eqn:Hr; [|discriminate]. injection HT as <-.
  assert (Hgrow : grows g [r] (bfs_levels (size g) g [r] [r])).
  { apply bfs_levels_grows. auto. }
  set (T := bfs_levels (size g) g [r] [r]) in *.
  assert (Hdl0 : forall x, x ∈ map fst [(r, 0%nat)] <-> x ∈ [r]) by reflexivity.
  destruct (dist_list_spec g [r] T Hgrow [(r, 0%nat)] Hdl0) as (H1 & H2 & H3 & H4).
  fold (shortest_path_length T r) in *.
  assert (Hrdom : r ∈ dom g) by (apply elem_of_dom; eauto).
  assert (Hsize : (0 < size g)%nat).
  { destruct (decide (size g = 0)%nat) as [Hz|Hz]; [|lia].
    apply map_size_empty_iff in Hz. subst g. rewrite lookup_empty in Hr. discriminate. }
  split; try assumption.
  - rewrite (H2 r) by left. simpl. rewrite Nat.eqb_refl. reflexivity.
  - intros x d Hin. destruct (H4 x d Hin) as [Hin'|[_ Hd]]; [|exact Hd].
    apply list_elem_of_singleton in Hin'. injection Hin' as -> ->.
    rewrite (H2 r) by left. simpl. rewrite Nat.eqb_refl. reflexivity.
  - intros x c Hx Hc.
    assert (Hcl := bfs_levels_closed g Hwf (size g) [r] [r]).
    cbv zeta in Hcl. fold T in Hcl.
    rewrite <- list_elem_of_singleton. apply (Hcl) with (x := x).
    + auto.
    + apply NoDup_singleton.
    + intros z Hz. apply list_elem_of_singleton in Hz. subst z. exact Hrdom.
    + simpl. lia.
    + rewrite list_elem_of_singleton. exact Hx.
    + exact Hc.
Qed.

(** ** The first loop of [naive_SPA] *)

Lemma nodes_at_snoc dl x d d' :
  nodes_at (dl ++ [(x, d)]) d' =
  if decide (d = d') then nodes_at dl d' ++ [x] else nodes_at dl d'.
Proof.
  unfold nodes_at. rewrite filter_app, map_app.
  rewrite filter_cons, filter_nil. simpl.
  destruct (decide (d = d')) as [->|Hne]; simpl; [reflexivity|apply app_nil_r].
Qed.

Lemma elem_of_nodes_at dl d x : x ∈ nodes_at dl d <-> (x, d) ∈ dl.
Proof.
  unfold nodes_at. rewrite list_elem_of_fmap. split.
  - intros ([x' d'] & -> & Hin). apply list_elem_of_filter in Hin as [Hd Hin].
    simpl in *. subst d'. exact Hin.
  - intros Hin. exists (x, d). split; [reflexivity|].
    apply list_elem_of_filter. split; [reflexivity|exact Hin].
Qed.

Lemma init_loop_spec k dl :
  let '(messages, depths, max_depth) := fold_left (init_step k) dl (∅, ∅, 0%nat) in
  (forall x, messages !! x =
     if decide (x ∈ map fst dl) then Some (replicate (k + 1) 0) else None)
  /\ (forall d, depths !! d =
        match nodes_at dl d with [] => None | l => Some l end)
  /\ (forall x d, (x, d) ∈ dl -> (d <= max_depth)%nat)
  /\ (max_depth = 0%nat \/ exists x, (x, max_depth) ∈ dl).
Proof.
  induction dl as [|[x d] dl IH] using rev_ind.
  - simpl. repeat split; try (intros; apply lookup_empty).
    + intros x d H. apply elem_of_nil in H. contradiction.
    + left. reflexivity.
  - rewrite fold_left_app. cbn [fold_left].
    destruct (fold_left (init_step k) dl (∅, ∅, 0%nat)) as [[messages depths] max_depth].
    destruct IH as (H1 & H2 & H3 & H4). unfold init_step.
    assert (Hm : forall x', <[x := replicate (k + 1) 0]> messages !! x' =
       if decide (x' ∈ map fst (dl ++ [(x, d)])) then Some (replicate (k + 1) 0) else None).
    { intros x'. rewrite map_app. simpl. destruct (decide (x' = x)) as [->|Hne].
      - rewrite lookup_insert_eq. rewrite decide_True; [reflexivity|].
        apply elem_of_app. right. left.
      - rewrite lookup_insert_ne by congruence. rewrite H1.
        destruct (decide (x' ∈ map fst dl)) as [Hin|Hnin].
        + rewrite decide_True; [reflexivity|]. apply elem_of_app. left. exact Hin.
        + rewrite decide_False; [reflexivity|]. rewrite elem_of_app, list_elem_of_singleton.
          tauto. }
    assert (Hd : forall l0 d', <[d := l0 ++ [x]]> depths !! d' =
       match (if decide (d = d') then l0 ++ [x] else nodes_at dl d') with
       | [] => None | l => Some l end).
    { intros l0 d'. destruct (decide (d = d')) as [->|Hne].
      - rewrite lookup_insert_eq. destruct l0; reflexivity.
      - rewrite lookup_insert_ne by congruence. apply H2. }
    specialize (H2 d) as H2d.
    destruct (depths !! d) as [l|] eqn:Hdd.
    + assert (Hl' : nodes_at dl d = l /\ l <> []).
      { destruct (nodes_at dl d); [discriminate H2d|].
        injection H2d as ->. split; [reflexivity|congruence]. }
      destruct Hl' as [Hl Hlne].
      split; [exact Hm|]. split.
      { intros d'. rewrite nodes_at_snoc, (Hd l d').
        destruct (decide (d = d')) as [<-|Hne]; [rewrite Hl|]; reflexivity. }
      split.
      { intros x' d' Hin. apply elem_of_app in Hin as [Hin|Hin]; [exact (H3 _ _ Hin)|].
        apply list_elem_of_singleton in Hin. injection Hin as -> ->.
        assert (Hne : exists z, z ∈ nodes_at dl d).
        { rewrite Hl. destruct l as [|z l]; [contradiction|]. exists z. left. }
        destruct Hne as [z Hz]. apply elem_of_nodes_at in Hz. exact (H3 _ _ Hz). }
      destruct H4 as [H4|[z Hz]]; [left; exact H4|right].
      exists z. apply elem_of_app. left. exact Hz.
    + assert (Hl : nodes_at dl d = []).
      { destruct (nodes_at dl d); [reflexivity|discriminate H2d]. }
      split; [exact Hm|]. split.
      { intros d'. rewrite nodes_at_snoc. specialize (Hd [] d'). simpl in Hd.
        rewrite Hd. destruct (decide (d = d')) as [<-|Hne]; [rewrite Hl|]; reflexivity. }
      split.
      { intros x' d' Hin. apply elem_of_app in Hin as [Hin|Hin].
        - specialize (H3 _ _ Hin). destruct (decide (max_depth < d)%nat); lia.
        - apply list_elem_of_singleton in Hin. injection Hin as -> ->.
          destruct (decide (max_depth < d)%nat); lia. }
      destruct (decide (max_depth < d)%nat) as [Hlt|Hge].
      * right. exists x. apply elem_of_app. right. left.
      * destruct H4 as [H4|[z Hz]]; [left; exact H4|right].
        exists z. apply elem_of_app. left. exact Hz.
Qed.

(** ** Loops in the error monad *)

Lemma bind_Ok {A B} (a : A) (f : A -> result B) : (x ← Ok a; f x) = f a.
Proof. reflexivity. Qed.

Lemma foldM_ext_in {A B} (f h : A -> B -> result A) (l : list B) :
  (forall a b, b ∈ l -> f a b = h a b) -> forall a, foldM f l a = foldM h l a.
Proof.
  induction l as [|b l IH]; intros Hfh a; simpl; [reflexivity|].
  rewrite (Hfh a b) by left. destruct (h a b) as [a'|e]; simpl; [|reflexivity].
  apply IH. intros a0 b0 Hb0. apply Hfh. right. exact Hb0.
Qed.

Lemma foldM_pure {A B} (h : A -> B -> A) (l : list B) : forall a,
  foldM (fun a b => Ok (h a b)) l a = Ok (fold_left h l a).
Proof. induction l as [|b l IH]; intros a; simpl; [reflexivity|apply IH]. Qed.

Lemma foldM_app {A B} (f : A -> B -> result A) (l1 l2 : list B) : forall a,
  foldM f (l1 ++ l2) a = (a' ← foldM f l1 a; foldM f l2 a').
Proof.
  induction l1 as [|b l1 IH]; intros a; simpl; [reflexivity|].
  destruct (f a b) as [a'|e]; simpl; [apply IH|reflexivity].
Qed.

Lemma fold_left_mul {B} (f : B -> R) (l : list B) : forall a,
  fold_left (fun acc e => acc * f e) l a = a * prodR (map f l).
Proof.
  induction l as [|b l IH]; intros a; simpl; [lra|]. rewrite IH. lra.
Qed.

Lemma fold_left_add {B} (f : B -> R) (l : list B) : forall a,
  fold_left (fun acc e => acc + f e) l a = a + sumR (map f l).
Proof.
  induction l as [|b l IH]; intros a; simpl; [lra|]. rewrite IH. lra.
Qed.

Lemma foldM_prod {B} (body : R -> B -> result R) (f : B -> R) (l : list B) :
  (forall acc e, e ∈ l -> body acc e = Ok (acc * f e)) ->
  foldM body l 1 = Ok (prodR (map f l)).
Proof.
  intros H. rewrite (foldM_ext_in body (fun acc e => Ok (acc * f e))) by exact H.
  rewrite foldM_pure, fold_left_mul. f_equal. lra.
Qed.

Lemma foldM_sum {B} (body : R -> B -> result R) (f : B -> R) (l : list B) :
  (forall acc e, e ∈ l -> body acc e = Ok (acc + f e)) ->
  foldM body l 0 = Ok (sumR (map f l)).
Proof.
  intros H. rewrite (foldM_ext_in body (fun acc e => Ok (acc + f e))) by exact H.
  rewrite foldM_pure, fold_left_add. f_equal. lra.
Qed.

(** Filling a vector entry by entry. *)
Lemma fill_vector (f : nat -> result R) (F : nat -> R) n :
  (forall v, (v < n)%nat -> f v = Ok (F v)) ->
  forall j vec, length vec = n -> (j <= n)%nat ->
  foldM (fun acc v => x ← f v; setitem acc v x) (seq j (n - j)) vec
  = Ok (take j vec ++ map F (seq j (n - j))).
Proof.
  intros Hf j. remember (n - j)%nat as len eqn:Hlen.
  revert j Hlen. induction len as [|len IH]; intros j Hlen vec Hvec Hj.
  - simpl. rewrite app_nil_r, take_ge by lia. reflexivity.
  - simpl. rewrite Hf by lia. rewrite bind_Ok. unfold setitem.
    rewrite decide_True by lia. rewrite bind_Ok.
    rewrite (IH (S j)) by (rewrite ?length_insert; lia).
    f_equal. rewrite (take_S_r _ j (F j)).
    + rewrite take_insert_ge by lia. rewrite <- app_assoc. reflexivity.
    + apply list_lookup_insert_eq. lia.
Qed.

(** ** The messages computed by [naive_SPA] *)

Lemma filter_none {A} (P : A -> Prop) `{forall x, Decision (P x)} (l : list A) :
  (forall x, x ∈ l -> ~ P x) -> filter P l = [].
Proof.
  intros Hn. destruct (filter P l) as [|x l'] eqn:Hf; [reflexivity|].
  assert (Hx : x ∈ filter P l) by (rewrite Hf; left).
  apply list_elem_of_filter in Hx as [HP Hin]. exfalso. exact (Hn x Hin HP).
Qed.

Lemma predecessor_unique T p x :
  NoDup (map snd T) -> (p, x) ∈ T -> predecessor T x = [p].
Proof.
  unfold predecessor. induction T as [|[q d] T IH]; intros Hnd Hin.
  - apply elem_of_nil in Hin. contradiction.
  - simpl in Hnd. apply NoDup_cons in Hnd as [Hd Hnd].
    rewrite filter_cons. simpl.
    apply elem_of_cons in Hin as [Heq|Hin].
    + injection Heq as -> ->. rewrite decide_True by reflexivity. simpl. f_equal.
      assert (Hnil : filter (fun e : nat * nat => e.2 = d) T = []).
      { apply filter_none. intros [q' d'] Hq' Heq.
        simpl in Heq. subst d'. apply Hd. apply list_elem_of_fmap.
        exists (q', d). auto. }
      rewrite Hnil. reflexivity.
    + destruct (decide (d = x)) as [->|Hne].
      * exfalso. apply Hd. apply list_elem_of_fmap. exists (p, x). auto.
      * exact (IH Hnd Hin).
Qed.

Lemma predecessor_root T r :
  r ∉ map snd T -> predecessor T r = [].
Proof.
  unfold predecessor. intros Hr.
  assert (Hnil : filter (fun e : nat * nat => e.2 = r) T = []).
  { apply filter_none. intros [q d] Hq Heq.
    simpl in Heq. subst d. apply Hr. apply list_elem_of_fmap. exists (q, r). auto. }
  rewrite Hnil. reflexivity.
Qed.

Lemma elem_of_children T x c : c ∈ children T x <-> (x, c) ∈ T.
Proof.
  unfold children, out_edges. rewrite list_elem_of_fmap. split.
  - intros ([x' c'] & -> & Hin). apply list_elem_of_filter in Hin as [Hx Hin].
    simpl in *. subst x'. exact Hin.
  - intros Hin. exists (x, c). split; [reflexivity|].
    apply list_elem_of_filter. split; [reflexivity|exact Hin].
Qed.

Lemma theta_val_Ok theta y key :
  is_Ok (theta_at theta key y) -> theta_at theta key y = Ok (theta_val theta y key).
Proof. intros [t Ht]. unfold theta_val. rewrite Ht. reflexivity. Qed.

Section EngineRun.
Variables (g : gmap nat (list nat)) (El : list (nat * nat)).
Variables (theta : gmap tkey (list R)) (k y r : nat).
Variables (T dl : list (nat * nat)).
Hypothesis Hwf : graph_wf g.
Hypothesis Hst : search_tree g r T dl.
Hypothesis Hth : theta_ok El theta k y g.
Hypothesis Hadj : forall u v, v ∈ neighbors g u -> (u, v) ∈ El \/ (v, u) ∈ El.
Hypothesis Hr : r ∈ dom g.

Lemma in_tree_dom x : in_tree r T x -> x ∈ dom g.
Proof using Hwf Hst Hr.
    intros [->|Hx]; [exact Hr|].
    apply list_elem_of_fmap in Hx as ([p c] & -> & Hin). simpl.
    destruct (grows_edge _ _ _ (st_grows _ _ _ _ Hst) _ _ Hin) as [Hn _].
    apply (proj1 Hwf) in Hn. exact (neighbors_dom _ _ _ Hn).
Qed.

Lemma in_tree_child p c : (p, c) ∈ T -> in_tree r T c.
Proof. intros Hin. right. apply list_elem_of_fmap. exists (p, c). auto. Qed.

Lemma in_tree_parent p c : (p, c) ∈ T -> in_tree r T p.
Proof using Hst.
    intros Hin.
    destruct (grows_edge _ _ _ (st_grows _ _ _ _ Hst) _ _ Hin) as [_ [Hp|Hp]].
    - left. apply list_elem_of_singleton in Hp. exact Hp.
    - right. exact Hp.
Qed.

Lemma mess_local_ok x v :
    x ∈ dom g -> (v <= k)%nat -> mess_local theta y x v = Ok (phi theta y x v).
Proof using Hth.
    intros Hx Hv. unfold mess_local, phi.
    destruct (decide (0 < v)%nat) as [Hpos|Hz]; [|reflexivity].
    rewrite theta_val_Ok by (apply (proj1 Hth); [exact Hx|lia]). reflexivity.
Qed.

Lemma parent0_ok par x : (par, x) ∈ T -> parent0 T x = Ok par.
Proof using Hst.
    intros Hin. unfold parent0.
    rewrite (predecessor_unique T par x); [reflexivity| |exact Hin].
    exact (grows_NoDup _ _ _ (st_grows _ _ _ _ Hst)).
Qed.

Lemma mess_edge_ok par x vp v :
    (par, x) ∈ T -> (vp <= k)%nat -> (v <= k)%nat ->
    mess_edge El theta T y x vp v = Ok (psi El theta y par x vp v).
Proof using Hth Hst Hadj.
    intros Hin Hvp Hv. unfold mess_edge, psi.
    destruct (decide (0 < v /\ 0 < vp)%nat) as [[H1 H2]|Hz]; [|reflexivity].
    rewrite (parent0_ok par x Hin), bind_Ok.
    destruct (grows_edge _ _ _ (st_grows _ _ _ _ Hst) _ _ Hin) as [Hn _].
    destruct (bool_decide ((par, x) ∈ El)) eqn:Hb.
    - apply bool_decide_eq_true in Hb.
      rewrite theta_val_Ok by (apply (proj2 Hth); [exact Hb|lia|lia]). reflexivity.
    - apply bool_decide_eq_false in Hb.
      destruct (Hadj _ _ Hn) as [He|He]; [contradiction|].
      rewrite theta_val_Ok by (apply (proj2 Hth); [exact He|lia|lia]). reflexivity.
Qed.

Lemma message_at_ok messages c v :
    table_ok k r T messages -> in_tree r T c -> (v <= k)%nat ->
    message_at messages c v = Ok (mget messages c v).
Proof.
    intros Htab Hc Hv. unfold mget, message_at.
    destruct (Htab c Hc) as (vec & -> & Hlen). unfold getitem.
    destruct (lookup_lt_is_Some_2 vec v) as [x Hx]; [lia|]. rewrite Hx. reflexivity.
Qed.

Lemma mess_prod_ok messages par x v :
    table_ok k r T messages -> (par, x) ∈ T -> (v <= k)%nat ->
    mess_prod T messages x v
    = Ok (prodR (map (fun c => mget messages c v) (children T x))).
Proof using Hst.
    intros Htab Hin Hv. unfold mess_prod, children. rewrite map_map.
    apply foldM_prod. intros acc e He.
    apply list_elem_of_filter in He as [He1 He].
    destruct e as [x' c]. simpl in He1. subst x'. simpl.
    rewrite (parent0_ok par x Hin), bind_Ok.
    destruct (decide (c <> par)) as [Hne|Heq].
    - rewrite (message_at_ok messages c v Htab (in_tree_child _ _ He) Hv). reflexivity.
    - exfalso. assert (c = par) by (destruct (decide (c = par)); tauto). subst c.
      exact (grows_no_back _ _ _ _ _ (st_grows _ _ _ _ Hst) Hin He).
Qed.

Lemma mess_ok messages par x vp :
    table_ok k r T messages -> (par, x) ∈ T -> (vp <= k)%nat ->
    mess El theta k T y None messages x vp
    = Ok (message_value El theta k y T messages par x vp).
Proof using Hwf Hth Hst Hr Hadj.
    intros Htab Hin Hvp. unfold mess, message_value, val_range.
    apply foldM_sum. intros acc v Hv. apply elem_of_seq in Hv.
    rewrite mess_local_ok by (try apply in_tree_dom; try eapply in_tree_child; eauto; lia).
    rewrite bind_Ok, (mess_edge_ok par) by (auto; lia).
    rewrite bind_Ok, (mess_prod_ok messages par) by (auto; lia).
    reflexivity.
Qed.

Lemma message_value_ext messages messages' par x vp :
    (forall c, c ∈ children T x -> messages !! c = messages' !! c) ->
    message_value El theta k y T messages par x vp
    = message_value El theta k y T messages' par x vp.
Proof.
    intros Hext. unfold message_value. f_equal. apply map_ext. intros v.
    f_equal. f_equal. apply map_ext_in. intros c Hc. apply list_elem_of_In in Hc.
    unfold mget, message_at. rewrite (Hext c Hc). reflexivity.
Qed.

Lemma table_ok_insert messages x vec :
    table_ok k r T messages -> length vec = (k + 1)%nat ->
    table_ok k r T (<[x := vec]> messages).
Proof.
    intros Htab Hlen z Hz. destruct (decide (z = x)) as [->|Hne].
    - exists vec. rewrite lookup_insert_eq. auto.
    - rewrite lookup_insert_ne by congruence. exact (Htab z Hz).
Qed.

Lemma store_message_ok messages x vec vp v :
    messages !! x = Some vec -> (vp < length vec)%nat ->
    store_message messages x vp v = Ok (<[x := <[vp := v]> vec]> messages).
Proof.
    intros Hx Hvp. unfold store_message, setitem. rewrite Hx.
    rewrite decide_True by exact Hvp. reflexivity.
Qed.

Lemma node_step_ok messages par x :
    table_ok k r T messages -> (par, x) ∈ T ->
    node_step El theta k T y None messages x
    = Ok (<[x := map (message_value El theta k y T messages par x) (seq 0 (k + 1))]>
            messages).
Proof using Hwf Hth Hst Hr Hadj.
    intros Htab Hin.
    set (F := message_value El theta k y T messages par x).
    assert (Hself : x ∉ children T x).
    { rewrite elem_of_children. exact (grows_not_self _ _ _ _ (st_grows _ _ _ _ Hst)). }
    assert (Hloop : forall len j vec, len = (k + 1 - j)%nat ->
      length vec = (k + 1)%nat -> (j <= k + 1)%nat ->
      foldM (fun messages val_p =>
               x0 ← mess El theta k T y None messages x val_p;
               store_message messages x val_p x0)
        (seq j len) (<[x := vec]> messages)
      = Ok (<[x := take j vec ++ map F (seq j len)]> messages)).
    { induction len as [|len IH]; intros j vec Hlen Hvec Hj.
      - simpl. rewrite app_nil_r, take_ge by lia. reflexivity.
      - simpl.
        rewrite (mess_ok _ par) by (try apply table_ok_insert; auto; lia).
        rewrite bind_Ok.
        rewrite (message_value_ext _ messages).
        2:{ intros c Hc. rewrite lookup_insert_ne; [reflexivity|]. intros ->. auto. }
        fold F.
        rewrite (store_message_ok _ x vec) by (rewrite ?lookup_insert_eq; auto; lia).
        rewrite bind_Ok, insert_insert_eq.
        rewrite (IH (S j)) by (rewrite ?length_insert; lia).
        f_equal. f_equal. rewrite (take_S_r _ j (F j)).
        + rewrite take_insert_ge by lia. rewrite <- app_assoc. reflexivity.
        + apply list_lookup_insert_eq. lia. }
    destruct (Htab x (in_tree_child _ _ Hin)) as (vec & Hvec & Hlen).
    unfold node_step.
    rewrite <- (insert_id messages x vec Hvec) at 1.
    rewrite (Hloop (k + 1)%nat 0%nat vec) by (auto; lia).
    rewrite take_0. reflexivity.
Qed.

Lemma mget_insert_eq messages x (F : nat -> R) vp :
    (vp <= k)%nat -> mget (<[x := map F (seq 0 (k + 1))]> messages) x vp = F vp.
Proof.
    intros Hvp. unfold mget, message_at, getitem. rewrite lookup_insert_eq.
    rewrite list_lookup_fmap, lookup_seq_lt by lia. reflexivity.
Qed.

Lemma mget_insert_ne messages x vec z vp :
    z <> x -> mget (<[x := vec]> messages) z vp = mget messages z vp.
Proof.
    intros Hne. unfold mget, message_at. rewrite lookup_insert_ne by congruence.
    reflexivity.
Qed.

Lemma process_node (P : nat -> Prop) messages par x :
    table_ok k r T messages ->
    equations_on El theta k y T P messages ->
    (par, x) ∈ T -> ~ P x -> (forall z, P z -> (z, x) ∉ T) ->
    exists messages',
      node_step El theta k T y None messages x = Ok messages'
      /\ table_ok k r T messages'
      /\ equations_on El theta k y T (fun z => P z \/ z = x) messages'.
Proof using Hwf Hth Hst Hr Hadj.
    intros Htab Heq Hin HnP Hch.
    eexists. split; [apply (node_step_ok messages par x Htab Hin)|].
    split. { apply table_ok_insert; [exact Htab|]. rewrite length_map, length_seq. reflexivity. }
    intros par' z vp [Hz| ->] Hin' Hvp.
    - assert (Hne : z <> x) by (intros ->; contradiction).
      rewrite mget_insert_ne by exact Hne.
      rewrite (Heq par' z vp Hz Hin' Hvp). apply message_value_ext.
      intros c Hc. rewrite lookup_insert_ne; [reflexivity|].
      intros <-. apply elem_of_children in Hc. exact (Hch z Hz Hc).
    - rewrite mget_insert_eq by exact Hvp.
      assert (par' = par).
      { exact (grows_parent_unique _ _ _ _ _ _ (st_grows _ _ _ _ Hst) Hin' Hin). }
      subst par'. apply message_value_ext.
      intros c Hc. rewrite lookup_insert_ne; [reflexivity|].
      intros <-. apply elem_of_children in Hc.
      exact (grows_not_self _ _ _ _ (st_grows _ _ _ _ Hst) Hc).
Qed.

Lemma equations_on_iff (P Q : nat -> Prop) messages :
    (forall z, Q z -> P z) ->
    equations_on El theta k y T P messages -> equations_on El theta k y T Q messages.
Proof. intros HPQ Heq par x vp Hx. apply Heq, HPQ, Hx. Qed.

Lemma level_ok d nodes : forall done messages,
    table_ok k r T messages ->
    equations_on El theta k y T
      (fun z => (d < dist_of dl z)%nat \/ z ∈ done) messages ->
    NoDup (done ++ nodes) ->
    (forall x, x ∈ done ++ nodes -> dist_of dl x = d /\ x ∈ map snd T) ->
    exists messages',
      foldM (node_step El theta k T y None) nodes messages = Ok messages'
      /\ table_ok k r T messages'
      /\ equations_on El theta k y T
           (fun z => (d < dist_of dl z)%nat \/ z ∈ done ++ nodes) messages'.
Proof using Hwf Hth Hst Hr Hadj.
    induction nodes as [|x nodes IH]; intros done messages Htab Heq Hnd Hall.
    - exists messages. rewrite app_nil_r. simpl. auto.
    - destruct (Hall x) as [Hdx Hx]; [apply elem_of_app; right; left|].
      apply list_elem_of_fmap in Hx as ([par x'] & Heqx & Hin). simpl in Heqx. subst x'.
      apply NoDup_app in Hnd as (Hnd1 & Hdisj & Hnd2).
      apply NoDup_cons in Hnd2 as [Hxn Hnd2].
      destruct (process_node _ messages par x Htab Heq Hin) as (m1 & Hm1 & Htab1 & Heq1).
      { intros [Hlt|Hd]; [lia|]. exact (Hdisj x Hd ltac:(left)). }
      { intros z [Hlt|Hd] Hzx; pose proof (st_edge _ _ _ _ Hst _ _ Hzx) as Hs; [lia|].
        destruct (Hall z) as [Hdz _]; [apply elem_of_app; left; exact Hd|]. lia. }
      destruct (IH (done ++ [x]) m1 Htab1) as (m2 & Hm2 & Htab2 & Heq2).
      + eapply equations_on_iff; [|exact Heq1]. intros z [Hz|Hz]; [left; left; exact Hz|].
        apply elem_of_app in Hz as [Hz|Hz]; [left; right; exact Hz|].
        apply list_elem_of_singleton in Hz. right. exact Hz.
      + rewrite <- app_assoc. simpl. apply NoDup_app. repeat split; try assumption.
        apply NoDup_cons. split; assumption.
      + intros z Hz. apply Hall. rewrite <- app_assoc in Hz. exact Hz.
      + exists m2. simpl. rewrite Hm1, bind_Ok. split; [exact Hm2|]. split; [exact Htab2|].
        rewrite <- app_assoc in Heq2. exact Heq2.
Qed.

Lemma dist_of_elem (l : list (nat * nat)) x :
    x ∈ map fst l -> (x, dist_of l x) ∈ l.
Proof.
    induction l as [|[z d] l IH]; simpl; intros Hin.
    - apply elem_of_nil in Hin. contradiction.
    - destruct (Nat.eqb_spec z x) as [->|Hne]; [left|].
      right. apply IH. apply elem_of_cons in Hin as [Hin|Hin]; [congruence|exact Hin].
Qed.

Lemma nodes_at_NoDup (l : list (nat * nat)) d :
    NoDup (map fst l) -> NoDup (nodes_at l d).
Proof.
    unfold nodes_at. induction l as [|[z d'] l IH]; simpl; intros Hnd; [constructor|].
    apply NoDup_cons in Hnd as [Hz Hnd]. rewrite filter_cons. simpl.
    destruct (decide (d' = d)) as [->|Hne]; [|exact (IH Hnd)].
    simpl. apply NoDup_cons. split; [|exact (IH Hnd)].
    intros Hin. apply Hz. apply list_elem_of_fmap in Hin as ([z' d''] & -> & Hin).
    apply list_elem_of_filter in Hin as [_ Hin]. apply list_elem_of_fmap.
    exists (z', d''). auto.
Qed.

Lemma dl_NoDup : NoDup (map fst dl).
Proof using Hst.
    rewrite (st_nodes _ _ _ _ Hst). apply NoDup_cons. split.
    - intros Hin. apply (grows_child_fresh _ _ _ (st_grows _ _ _ _ Hst) r Hin). left.
    - exact (grows_NoDup _ _ _ (st_grows _ _ _ _ Hst)).
Qed.

Lemma in_tree_dl x : in_tree r T x <-> x ∈ map fst dl.
Proof using Hst.
    rewrite (st_nodes _ _ _ _ Hst), elem_of_cons. reflexivity.
Qed.

Lemma level_inhabited n : forall x,
    in_tree r T x -> dist_of dl x = n ->
    forall d, (d <= n)%nat -> exists z, in_tree r T z /\ dist_of dl z = d.
Proof using Hst.
    induction n as [|n IH]; intros x Hx Hdx d Hd.
    - exists x. split; [exact Hx|lia].
    - destruct (decide (d = S n)) as [->|Hne]; [exists x; auto|].
      destruct Hx as [->|Hx].
      + rewrite (st_root _ _ _ _ Hst) in Hdx. discriminate.
      + apply list_elem_of_fmap in Hx as ([p x'] & Heq & Hin). simpl in Heq. subst x'.
        pose proof (st_edge _ _ _ _ Hst _ _ Hin) as Hs.
        apply (IH p (in_tree_parent _ _ Hin)); lia.
Qed.

Section Levels.
Variable depths : gmap nat (list nat).
Variable max_depth : nat.
Hypothesis Hdepths : forall d,
      depths !! d = match nodes_at dl d with [] => None | l => Some l end.
Hypothesis Hmax : max_depth = 0%nat \/ exists x, (x, max_depth) ∈ dl.
Hypothesis Hbound : forall x d, (x, d) ∈ dl -> (d <= max_depth)%nat.

Lemma depths_lookup d :
      (1 <= d <= max_depth)%nat ->
      depths !! d = Some (nodes_at dl d) /\ nodes_at dl d <> [].
Proof using Hst Hmax Hdepths.
      intros Hd. destruct Hmax as [Hz|[x Hx]]; [lia|].
      assert (Hxt : in_tree r T x).
      { apply in_tree_dl, list_elem_of_fmap. exists (x, max_depth). auto. }
      pose proof (st_dist _ _ _ _ Hst _ _ Hx) as Hdx.
      destruct (level_inhabited max_depth x Hxt (eq_sym Hdx) d) as (z & Hz & Hdz); [lia|].
      assert (Hin : z ∈ nodes_at dl d).
      { apply elem_of_nodes_at. rewrite <- Hdz. apply dist_of_elem, in_tree_dl, Hz. }
      rewrite Hdepths. destruct (nodes_at dl d) as [|a l].
      - apply elem_of_nil in Hin. contradiction.
      - split; [reflexivity|discriminate].
Qed.

Lemma depth_step_eq messages d nodes :
      depths !! d = Some nodes ->
      depth_step El theta k T y None depths messages d
      = foldM (node_step El theta k T y None) nodes messages.
Proof. intros H. unfold depth_step. rewrite H. reflexivity. Qed.

Lemma levels_ok n : forall messages,
      (n <= max_depth)%nat ->
      table_ok k r T messages ->
      equations_on El theta k y T (fun z => (n < dist_of dl z)%nat) messages ->
      exists messages',
        foldM (depth_step El theta k T y None depths) (rev (seq 1 n)) messages
        = Ok messages'
        /\ table_ok k r T messages'
        /\ equations_on El theta k y T (fun z => (0 < dist_of dl z)%nat) messages'.
Proof using Hwf Hth Hst Hr Hadj Hmax Hdepths.
      induction n as [|n IH]; intros messages Hn Htab Heq.
      - exists messages. simpl. auto.
      - rewrite seq_S, rev_unit. simpl.
        destruct (depths_lookup (S n)) as [Hlook Hne]; [lia|].
        destruct (level_ok (S n) (nodes_at dl (S n)) [] messages Htab)
          as (m1 & Hm1 & Htab1 & Heq1).
        + eapply equations_on_iff; [|exact Heq]. intros z [Hz|Hz]; [exact Hz|].
          apply elem_of_nil in Hz. contradiction.
        + simpl. apply nodes_at_NoDup, dl_NoDup.
        + simpl. intros x Hx. apply elem_of_nodes_at in Hx.
          pose proof (st_dist _ _ _ _ Hst _ _ Hx) as Hdx. split; [auto|].
          assert (Hxt : in_tree r T x).
          { apply in_tree_dl, list_elem_of_fmap. exists (x, S n). auto. }
          destruct Hxt as [->|Hxt]; [|exact Hxt].
          rewrite (st_root _ _ _ _ Hst) in Hdx. discriminate.
        + destruct (IH m1) as (m2 & Hm2 & Htab2 & Heq2); [lia|exact Htab1| |].
          2:{ exists m2. split; [|auto].
              rewrite (depth_step_eq _ _ _ Hlook), Hm1, bind_Ok. exact Hm2. }
          eapply equations_on_iff; [|exact Heq1]. simpl. intros z Hz.
          destruct (decide (dist_of dl z = S n)) as [Hd|Hd]; [|left; lia].
          right. apply elem_of_nodes_at. rewrite <- Hd.
          (* a node whose distance is positive lies in the table *)
          destruct (decide (z ∈ map fst dl)) as [Hin|Hout].
          * apply dist_of_elem, Hin.
          * exfalso. clear -Hout Hd. induction dl as [|[a b] l IHl]; simpl in *.
            { discriminate. }
            { destruct (Nat.eqb_spec a z) as [->|Hne].
              - apply Hout. left.
              - apply IHl; [exact Hd|]. intros H. apply Hout. right. exact H. }
Qed.
End Levels.

Lemma root_entry_ok messages v :
    table_ok k r T messages -> (v <= k)%nat ->
    root_entry theta T y messages r v = Ok (root_value theta y T messages r v).
Proof using Hth Hr.
    intros Htab Hv. unfold root_entry, root_value.
    rewrite mess_local_ok, bind_Ok by (auto; lia).
    unfold children. rewrite map_map.
    rewrite (foldM_prod _ (fun e : nat * nat => mget messages e.2 v)); [reflexivity|].
    intros acc [x c] He. apply list_elem_of_filter in He as [He1 He].
    simpl in He1. subst x. simpl.
    rewrite (message_at_ok messages c v Htab (in_tree_child _ _ He) Hv). reflexivity.
Qed.

Lemma root_marginal_ok messages :
    table_ok k r T messages ->
    root_marginal theta k T y messages r
    = Ok (map (root_value theta y T messages r) (seq 0 (k + 1))).
Proof using Hth Hr.
    intros Htab. unfold root_marginal.
    pose proof (fill_vector (root_entry theta T y messages r)
                  (root_value theta y T messages r) (k + 1)) as Hfill.
    specialize (Hfill (fun v Hv => root_entry_ok messages v Htab ltac:(lia))).
    specialize (Hfill 0%nat (replicate (k + 1) 0)).
    rewrite Nat.sub_0_r in Hfill. rewrite Hfill by (rewrite ?length_replicate; lia).
    rewrite take_0. reflexivity.
Qed.
End EngineRun.

(** A run of [naive_SPA] without fixed nodes succeeds at every node of the
    graph; it returns the root formula over a table of messages that
    satisfies the message equation at every node below the root. *)
Lemma naive_SPA_run g El theta k y r :
  graph_wf g -> theta_ok El theta k y g ->
  (forall u v, v ∈ neighbors g u -> (u, v) ∈ El \/ (v, u) ∈ El) ->
  r ∈ dom g ->
  exists T messages,
    bfs_tree g r = Ok T
    /\ search_tree g r T (shortest_path_length T r)
    /\ table_ok k r T messages
    /\ equations_on El theta k y T (fun _ => True) messages
    /\ naive_SPA g El theta k r y None
       = Ok (map (root_value theta y T messages r) (seq 0 (k + 1))).
Proof.
  intros Hwf Hth Hadj Hr.
  assert (HT : exists T, bfs_tree g r = Ok T).
  { unfold bfs_tree. apply elem_of_dom in Hr as [nb ->]. eauto. }
  destruct HT as [T HT].
  pose proof (bfs_tree_search_tree g r T Hwf HT) as Hst.
  set (dl := shortest_path_length T r) in *.
  pose proof (init_loop_spec k dl) as Hinit.
  destruct (fold_left (init_step k) dl (∅, ∅, 0%nat)) as [[messages0 depths] max_depth] eqn:Hfold.
  destruct Hinit as (Hm0 & Hdepths & Hbound & Hmax).
  assert (Htab0 : table_ok k r T messages0).
  { intros x Hx. exists (replicate (k + 1) 0). rewrite length_replicate. split; [|reflexivity].
    rewrite Hm0. rewrite decide_True; [reflexivity|].
    apply (in_tree_dl g r T dl Hst). exact Hx. }
  destruct (levels_ok g El theta k y r T dl Hwf Hst Hth Hadj Hr depths max_depth
              Hdepths Hmax max_depth messages0) as (messages & Hloop & Htab & Heq).
  { lia. }
  { exact Htab0. }
  { intros par x vp Hlt Hin _. exfalso.
    assert (Hx : x ∈ map fst dl).
    { apply (in_tree_dl g r T dl Hst). right. apply list_elem_of_fmap. exists (par, x). auto. }
    apply dist_of_elem in Hx. apply Hbound in Hx. lia. }
  exists T, messages. split; [exact HT|]. split; [exact Hst|]. split; [exact Htab|].
  split.
  { intros par x vp _ Hin Hvp. apply (Heq par x vp); [|exact Hin|exact Hvp].
    rewrite (st_edge _ _ _ _ Hst _ _ Hin). lia. }
  unfold naive_SPA. rewrite HT, bind_Ok. fold dl. rewrite Hfold.
  rewrite Hloop, bind_Ok.
  apply (root_marginal_ok g El theta k y r T Hth Hr messages Htab).
Qed.

(** ** Graphs built by [add_edge] *)

Lemma neighbors_add_nbr u v g w :
  neighbors (add_nbr u v g) w =
  if decide (w = u) then
    (if bool_decide (v ∈ neighbors g u) then neighbors g u else neighbors g u ++ [v])
  else neighbors g w.
Proof.
  unfold add_nbr, neighbors. destruct (decide (w = u)) as [->|Hne].
  - rewrite lookup_insert_eq. reflexivity.
  - rewrite lookup_insert_ne by congruence. reflexivity.
Qed.

Lemma elem_of_neighbors_add_nbr u v g w x :
  x ∈ neighbors (add_nbr u v g) w <-> x ∈ neighbors g w \/ (w = u /\ x = v).
Proof.
  rewrite neighbors_add_nbr. destruct (decide (w = u)) as [->|Hne]; [|tauto].
  destruct (bool_decide (v ∈ neighbors g u)) eqn:Hb.
  - apply bool_decide_eq_true in Hb. split; [tauto|].
    intros [H|[_ ->]]; assumption.
  - rewrite elem_of_app, list_elem_of_singleton. tauto.
Qed.

Lemma NoDup_neighbors_add_nbr u v g w :
  NoDup (neighbors g w) -> NoDup (neighbors (add_nbr u v g) w).
Proof.
  intros Hnd. rewrite neighbors_add_nbr. destruct (decide (w = u)) as [->|Hne]; [|exact Hnd].
  destruct (bool_decide (v ∈ neighbors g u)) eqn:Hb; [exact Hnd|].
  apply bool_decide_eq_false in Hb. apply NoDup_app. split; [exact Hnd|].
  split; [|apply NoDup_singleton].
  intros x Hx Hx'. apply list_elem_of_singleton in Hx'. subst x. contradiction.
Qed.

Lemma elem_of_neighbors_graph_of El u v :
  v ∈ neighbors (graph_of El) u <-> (u, v) ∈ El \/ (v, u) ∈ El.
Proof.
  induction El as [|[p c] El IH] using rev_ind.
  - unfold graph_of, neighbors. simpl. rewrite lookup_empty. simpl.
    rewrite !elem_of_nil. tauto.
  - rewrite graph_of_snoc. unfold add_edge. simpl.
    rewrite !elem_of_neighbors_add_nbr, IH, !elem_of_app, !list_elem_of_singleton.
    split.
    + intros [[H|[-> ->]]|[-> ->]]; tauto.
    + intros [[H|[= -> ->]]|[H|[= -> ->]]]; tauto.
Qed.

Lemma graph_of_wf El : graph_wf (graph_of El).
Proof.
  split.
  - intros u v. rewrite !elem_of_neighbors_graph_of. tauto.
  - intros u. induction El as [|[p c] El IH] using rev_ind.
    + unfold graph_of, neighbors. simpl. rewrite lookup_empty. constructor.
    + rewrite graph_of_snoc. unfold add_edge.
      apply NoDup_neighbors_add_nbr, NoDup_neighbors_add_nbr, IH.
Qed.

Lemma dom_add_nbr u v g x : x ∈ dom (add_nbr u v g) <-> x = u \/ x ∈ dom g.
Proof. unfold add_nbr. rewrite dom_insert, elem_of_union, elem_of_singleton. reflexivity. Qed.

Lemma elem_of_dom_graph_of El x :
  x ∈ dom (graph_of El) <-> exists e, e ∈ El /\ (x = e.1 \/ x = e.2).
Proof.
  induction El as [|[p c] El IH] using rev_ind.
  - unfold graph_of. simpl. rewrite dom_empty, elem_of_empty. split; [tauto|].
    intros (e & He & _). apply elem_of_nil in He. contradiction.
  - rewrite graph_of_snoc. unfold add_edge. simpl.
    rewrite !dom_add_nbr, IH. split.
    + intros [->|[->|(e & He & Hx)]].
      * exists (p, c). rewrite elem_of_app, list_elem_of_singleton. auto.
      * exists (p, c). rewrite elem_of_app, list_elem_of_singleton. auto.
      * exists e. rewrite elem_of_app. auto.
    + intros (e & He & Hx). apply elem_of_app in He as [He|He].
      * right. right. exists e. auto.
      * apply list_elem_of_singleton in He. subst e. simpl in Hx. tauto.
Qed.

Lemma adjacent_dom El u v :
  adjacent (graph_of El) u v -> u ∈ dom (graph_of El) /\ v ∈ dom (graph_of El).
Proof.
  unfold adjacent. intros H. split.
  - exact (neighbors_dom _ _ _ H).
  - apply (proj1 (graph_of_wf El)) in H. exact (neighbors_dom _ _ _ H).
Qed.

(** ** Finite sums and products *)

Lemma prodR_Permutation l l' : l ≡ₚ l' -> prodR l = prodR l'.
Proof.
  induction 1 as [|x l l' _ IH|x z l|l l' l'' _ IH1 _ IH2]; simpl;
    [reflexivity | rewrite IH; reflexivity | ring | rewrite IH1; exact IH2].
Qed.

Lemma prodR_map_ext_in {A} (f h : A -> R) (l : list A) :
  (forall x, x ∈ l -> f x = h x) -> prodR (map f l) = prodR (map h l).
Proof.
  induction l as [|x l IH]; intros Hfh; simpl; [reflexivity|].
  rewrite (Hfh x) by left. rewrite IH; [reflexivity|].
  intros z Hz. apply Hfh. right. exact Hz.
Qed.

Lemma sumR_map_ext_in {A} (f h : A -> R) (l : list A) :
  (forall x, x ∈ l -> f x = h x) -> sumR (map f l) = sumR (map h l).
Proof.
  induction l as [|x l IH]; intros Hfh; simpl; [reflexivity|].
  rewrite (Hfh x) by left. rewrite IH; [reflexivity|].
  intros z Hz. apply Hfh. right. exact Hz.
Qed.

Lemma sumR_scal_l {A} (c : R) (f : A -> R) (l : list A) :
  c * sumR (map f l) = sumR (map (fun x => c * f x) l).
Proof. induction l as [|x l IH]; simpl; [lra|]. rewrite <- IH. lra. Qed.

Lemma sumR_map_plus {A} (f h : A -> R) (l : list A) :
  sumR (map (fun x => f x + h x) l) = sumR (map f l) + sumR (map h l).
Proof. induction l as [|x l IH]; simpl; [lra|]. rewrite IH. lra. Qed.

Lemma sumR_swap {A B} (f : A -> B -> R) (l1 : list A) (l2 : list B) :
  sumR (map (fun v => sumR (map (fun w => f v w) l2)) l1)
  = sumR (map (fun w => sumR (map (fun v => f v w) l1)) l2).
Proof.
  induction l1 as [|v l1 IH]; simpl.
  - induction l2 as [|w l2 IH2]; simpl; [reflexivity|]. rewrite <- IH2. lra.
  - rewrite IH, <- sumR_map_plus. reflexivity.
Qed.

(** ** Forests *)

Lemma NoDup_snd_unique (El : list (nat * nat)) p p' c :
  NoDup (map snd El) -> (p, c) ∈ El -> (p', c) ∈ El -> p = p'.
Proof.
  induction El as [|[q d] El IH]; intros Hnd H1 H2.
  - apply elem_of_nil in H1. contradiction.
  - simpl in Hnd. apply NoDup_cons in Hnd as [Hd Hnd].
    assert (Hfresh : forall q', (q', d) ∉ El).
    { intros q' Hin. apply Hd. apply list_elem_of_fmap. exists (q', d). auto. }
    apply elem_of_cons in H1 as [Heq1|H1];
      apply elem_of_cons in H2 as [Heq2|H2].
    + congruence.
    + injection Heq1 as -> ->. exfalso. exact (Hfresh _ H2).
    + injection Heq2 as -> ->. exfalso. exact (Hfresh _ H1).
    + exact (IH Hnd H1 H2).
Qed.

Section Forest.
Variable El : list (nat * nat).
Variable rank : nat -> nat.
Hypothesis Hchild : NoDup (map snd El).
Hypothesis Hrank : forall p c, (p, c) ∈ El -> (rank p < rank c)%nat.

Lemma anc_rank r x : anc El r x -> (rank x <= rank r)%nat.
Proof using Hrank.
    induction 1 as [|z x Hz IH Hin]; [lia|]. apply Hrank in Hin. lia.
Qed.

Lemma anc_trans a b c : anc El a b -> anc El b c -> anc El a c.
Proof.
    intros Hab Hbc. induction Hbc as [|z x Hz IH Hin]; [exact Hab|].
    exact (anc_step _ _ _ _ IH Hin).
Qed.

Lemma anc_inv a b :
    anc El a b -> b = a \/ exists w, (w, a) ∈ El /\ anc El w b.
Proof.
    induction 1 as [|z x Hz IH Hin]; [left; reflexivity|]. right.
    destruct IH as [->|(w & Hw & Hwz)].
    - exists x. split; [exact Hin|constructor].
    - exists w. split; [exact Hw|]. exact (anc_step _ _ _ _ Hwz Hin).
Qed.

Lemma anc_parent w u z :
    (w, u) ∈ El -> (anc El u z <-> z = u \/ anc El w z).
Proof using Hchild.
    intros Hwu. split.
    - intros H. apply anc_inv in H as [->|(w' & Hw' & H)]; [left; reflexivity|].
      right. rewrite (NoDup_snd_unique El w w' u Hchild Hwu Hw'). exact H.
    - intros [->|H]; [constructor|].
      apply (anc_trans u w z); [|exact H].
      exact (anc_step _ _ _ _ (anc_refl El u) Hwu).
Qed.

Lemma anc_comparable r x x' :
    anc El r x -> anc El r x' -> anc El x x' \/ anc El x' x.
Proof using Hchild.
    intros Hx. revert x'. induction Hx as [|z x Hz IH Hin]; intros x' Hx'.
    - left. exact Hx'.
    - destruct (IH x' Hx') as [H|H].
      + apply (anc_parent x z x' Hin) in H as [->|H].
        * right. exact (anc_step _ _ _ _ (anc_refl El z) Hin).
        * left. exact H.
      + right. exact (anc_step _ _ _ _ H Hin).
Qed.

Lemma anc_sibling r x x' w :
    anc El r x -> anc El r x' -> (w, x) ∈ El -> (w, x') ∈ El -> x = x'.
Proof using Hchild Hrank.
    intros Hx Hx' Hw Hw'.
    destruct (anc_comparable r x x' Hx Hx') as [H|H].
    - apply (anc_parent w x x' Hw) in H as [->|H]; [reflexivity|].
      apply anc_rank in H. apply Hrank in Hw'. lia.
    - apply (anc_parent w x' x Hw') in H as [->|H]; [reflexivity|].
      apply anc_rank in H. apply Hrank in Hw. lia.
Qed.

Lemma oriented_unique r p p' x :
    oriented El r p x -> oriented El r p' x -> p = p'.
Proof using Hchild Hrank.
    intros [[H1 N1]|[H1 A1]] [[H2 N2]|[H2 A2]].
    - exact (NoDup_snd_unique El p p' x Hchild H1 H2).
    - exfalso. apply N1. exact (anc_step _ _ _ _ A2 H2).
    - exfalso. apply N2. exact (anc_step _ _ _ _ A1 H1).
    - exact (anc_sibling r p p' x A1 A2 H1 H2).
Qed.

Let g := graph_of El.

  (** Every edge of a search tree is oriented away from the root. *)
Lemma grows_oriented r vs T :
    grows g vs T ->
    r ∈ vs -> (forall z, z ∈ vs -> z <> r -> exists q, q ∈ vs /\ oriented El r q z) ->
    forall p c, (p, c) ∈ T -> oriented El r p c.
Proof using Hchild Hrank.
    induction 1 as [vs|vs p c T Hp Hc Hn Hg IH]; intros Hr Hvs p' c' Hin.
    - apply elem_of_nil in Hin. contradiction.
    - assert (Hor : oriented El r p c).
      { apply elem_of_neighbors_graph_of in Hn as [He|He].
        - left. split; [exact He|]. intros Hanc.
          assert (Hpa : anc El r p) by exact (anc_step _ _ _ _ Hanc He).
          assert (Hpr : p <> r).
          { intros ->. apply anc_rank in Hanc. apply Hrank in He. lia. }
          destruct (Hvs p Hp Hpr) as (q & Hq & [[_ Hn']|[Hpq Hqa]]); [contradiction|].
          assert (c = q) by exact (anc_sibling r c q p Hanc Hqa He Hpq).
          subst q. contradiction.
        - right. split; [exact He|].
          destruct (decide (p = r)) as [->|Hpr]; [constructor|].
          destruct (Hvs p Hp Hpr) as (q & Hq & [[Hqp _]|[Hpq Hqa]]).
          + assert (c = q) by exact (NoDup_snd_unique El c q p Hchild He Hqp).
            subst q. contradiction.
          + exact (anc_step _ _ _ _ Hqa Hpq). }
      apply elem_of_cons in Hin as [Heq|Hin]; [injection Heq as -> ->; exact Hor|].
      apply IH; [right; exact Hr| |exact Hin].
      intros z Hz Hzr. apply elem_of_cons in Hz as [->|Hz].
      + exists p. split; [right; exact Hp|exact Hor].
      + destruct (Hvs z Hz Hzr) as (q & Hq & Hoq). exists q. split; [right; exact Hq|exact Hoq].
Qed.

Lemma forest_no_loop a : (a, a) ∉ El.
Proof using Hrank. intros H. apply Hrank in H. lia. Qed.

Lemma forest_one_way a b : (a, b) ∈ El -> (b, a) ∉ El.
Proof using Hrank. intros H1 H2. apply Hrank in H1. apply Hrank in H2. lia. Qed.

Section Tree.
Variables (r : nat) (T dl : list (nat * nat)).
Hypothesis Hst : search_tree g r T dl.

Lemma tree_oriented p c : (p, c) ∈ T -> oriented El r p c.
Proof using Hst Hchild Hrank.
      apply (grows_oriented r [r] T (st_grows _ _ _ _ Hst)); [left|].
      intros z Hz Hzr. apply list_elem_of_singleton in Hz. contradiction.
Qed.

Lemma tree_parent x : in_tree r T x -> x <> r -> exists p, (p, x) ∈ T.
Proof.
      intros [->|Hx] Hxr; [contradiction|].
      apply list_elem_of_fmap in Hx as ([p x'] & -> & Hin). exists p. exact Hin.
Qed.

Lemma tree_root_no_parent p : (p, r) ∉ T.
Proof using Hst.
      intros Hin. apply (grows_child_fresh _ _ _ (st_grows _ _ _ _ Hst) r); [|left].
      apply list_elem_of_fmap. exists (p, r). auto.
Qed.

    (** In a forest the search tree contains every edge of the component. *)
Lemma tree_covers a b :
      in_tree r T a -> in_tree r T b -> (a, b) ∈ El -> (a, b) ∈ T \/ (b, a) ∈ T.
Proof using Hst Hchild Hrank.
      intros Ha Hb He.
      assert (Hup : anc El r b -> (b, a) ∈ T).
      { intros Hanc.
        assert (Har : a <> r).
        { intros ->. apply anc_rank in Hanc. apply Hrank in He. lia. }
        destruct (tree_parent a Ha Har) as [q Hq].
        destruct (tree_oriented q a Hq) as [[_ Hn]|[Haq Hqa]].
        - exfalso. apply Hn. exact (anc_step _ _ _ _ Hanc He).
        - assert (b = q) by exact (anc_sibling r b q a Hanc Hqa He Haq).
          subst q. exact Hq. }
      destruct (decide (b = r)) as [->|Hbr]; [right; apply Hup; constructor|].
      destruct (tree_parent b Hb Hbr) as [q Hq].
      destruct (tree_oriented q b Hq) as [[Hqb _]|[Hbq Hqa]].
      - left. rewrite (NoDup_snd_unique El a q b Hchild He Hqb). exact Hq.
      - right. apply Hup. exact (anc_step _ _ _ _ Hqa Hbq).
Qed.

Lemma children_spec x c :
      in_tree r T x ->
      (c ∈ children T x <-> c ∈ neighbors g x /\ (c, x) ∉ T).
Proof using Hst Hchild Hrank.
      intros Hx. rewrite elem_of_children. split.
      - intros Hin. split.
        + exact (proj1 (grows_edge _ _ _ (st_grows _ _ _ _ Hst) _ _ Hin)).
        + exact (grows_no_back _ _ _ _ _ (st_grows _ _ _ _ Hst) Hin).
      - intros [Hn Hback].
        assert (Hc : in_tree r T c) by exact (st_closed _ _ _ _ Hst x c Hx Hn).
        apply elem_of_neighbors_graph_of in Hn as [He|He].
        + destruct (tree_covers x c Hx Hc He) as [H|H]; [exact H|contradiction].
        + destruct (tree_covers c x Hc Hx He) as [H|H]; [contradiction|exact H].
Qed.

Lemma children_NoDup x : NoDup (children T x).
Proof using Hst.
      pose proof (grows_NoDup _ _ _ (st_grows _ _ _ _ Hst)) as Hnd.
      unfold children, out_edges. clear Hst. induction T as [|[p c] T' IH]; [constructor|].
      simpl in Hnd. apply NoDup_cons in Hnd as [Hc Hnd]. rewrite filter_cons. simpl.
      destruct (decide (p = x)) as [->|Hne]; [|exact (IH Hnd)].
      simpl. apply NoDup_cons. split; [|exact (IH Hnd)].
      intros Hin. apply Hc. apply list_elem_of_fmap in Hin as ([p' c'] & -> & Hin).
      apply list_elem_of_filter in Hin as [_ Hin]. apply list_elem_of_fmap.
      exists (p', c'). auto.
Qed.

Lemma children_root : children T r ≡ₚ neighbors g r.
Proof using Hst Hchild Hrank.
      apply NoDup_Permutation; [apply children_NoDup|apply (proj2 (graph_of_wf El))|].
      intros c. rewrite (children_spec r c) by (left; reflexivity).
      split; [tauto|]. intros Hn. split; [exact Hn|apply tree_root_no_parent].
Qed.

Lemma children_node par x :
      (par, x) ∈ T ->
      children T x ≡ₚ filter (fun c => c <> par) (neighbors g x).
Proof using Hst Hchild Hrank.
      intros Hin.
      assert (Hx : in_tree r T x).
      { right. apply list_elem_of_fmap. exists (par, x). auto. }
      apply NoDup_Permutation;
        [apply children_NoDup|apply NoDup_filter, (proj2 (graph_of_wf El))|].
      intros c. rewrite (children_spec x c Hx), list_elem_of_filter.
      split; intros [H1 H2]; split; try assumption.
      - intros ->. contradiction.
      - intros Hcx. apply H1.
        exact (grows_parent_unique _ _ _ _ _ _ (st_grows _ _ _ _ Hst) Hcx Hin).
Qed.

    (** The nodes of the tree fill every set that holds the root and is
        closed under adjacency. *)
Lemma tree_within (S : nat -> Prop) :
      S r -> (forall u v, S u -> v ∈ neighbors g u -> S v) ->
      forall x, in_tree r T x -> S x.
Proof using Hst.
      intros Hr Hcl.
      assert (Hgen : forall vs T', grows g vs T' -> (forall z, z ∈ vs -> S z) ->
                forall c, c ∈ map snd T' -> S c).
      { induction 1 as [vs|vs p c T' Hp Hc Hn Hg IH]; intros Hvs c' Hc'.
        - apply elem_of_nil in Hc'. contradiction.
        - assert (Sc : S c) by exact (Hcl p c (Hvs p Hp) Hn).
          simpl in Hc'. apply elem_of_cons in Hc' as [->|Hc']; [exact Sc|].
          apply IH; [|exact Hc']. intros z Hz.
          apply elem_of_cons in Hz as [->|Hz]; [exact Sc|exact (Hvs z Hz)]. }
      intros x [->|Hx]; [exact Hr|].
      apply (Hgen [r] T (st_grows _ _ _ _ Hst)); [|exact Hx].
      intros z Hz. apply list_elem_of_singleton in Hz. subst z. exact Hr.
Qed.

Lemma dist_bounded : exists D, forall x, in_tree r T x -> (dist_of dl x <= D)%nat.
Proof using Hst.
      assert (Hb : exists D, forall x d, (x, d) ∈ dl -> (d <= D)%nat).
      { clear Hst. induction dl as [|[x d] l IH].
        - exists 0%nat. intros x d H. apply elem_of_nil in H. contradiction.
        - destruct IH as [D HD]. exists (Nat.max d D). intros x' d' Hin.
          apply elem_of_cons in Hin as [[= -> ->]|Hin]; [lia|].
          specialize (HD _ _ Hin). lia. }
      destruct Hb as [D HD]. exists D. intros x Hx.
      apply (HD x). apply dist_of_elem. rewrite (st_nodes _ _ _ _ Hst).
      apply elem_of_cons. exact Hx.
Qed.
End Tree.

Lemma extract_Permutation (l : list nat) x :
    NoDup l -> x ∈ l -> l ≡ₚ x :: filter (fun c => c <> x) l.
Proof.
    intros Hnd Hx. apply NoDup_Permutation; [exact Hnd| |].
    - apply NoDup_cons. split; [|apply NoDup_filter, Hnd].
      rewrite list_elem_of_filter. tauto.
    - intros c. rewrite elem_of_cons, list_elem_of_filter.
      destruct (decide (c = x)) as [->|Hne]; tauto.
Qed.

  (** The marginal at the root, unfolded along the edge to a neighbour
      [s] of the root. *)
Lemma root_value_expand theta k y r s T dl messages v :
    search_tree g r T dl ->
    equations_on El theta k y T (fun _ => True) messages ->
    adjacent g r s -> (v <= k)%nat ->
    root_value theta y T messages r v
    = sumR (map (fun w =>
          phi theta y r v * phi theta y s w * psi El theta y r s v w
          * prodR (map (fun c => mget messages c v)
                     (filter (fun c => c <> s) (neighbors g r)))
          * prodR (map (fun c => mget messages c w)
                     (filter (fun c => c <> r) (neighbors g s))))
        (seq 0 (k + 1))).
Proof using Hchild Hrank.
    intros Hst Heq Hrs Hv. unfold root_value.
    assert (Hperm : children T r ≡ₚ s :: filter (fun c => c <> s) (neighbors g r)).
    { rewrite (children_root r T dl Hst).
      apply extract_Permutation; [apply (proj2 (graph_of_wf El))|exact Hrs]. }
    assert (Hin : (r, s) ∈ T).
    { apply elem_of_children. rewrite Hperm. left. }
    rewrite (prodR_Permutation _ _ (Permutation_map (fun c => mget messages c v) Hperm)).
    simpl. rewrite (Heq r s v I Hin Hv). unfold message_value.
    set (PA := prodR (map (fun c => mget messages c v)
                        (filter (fun c => c <> s) (neighbors g r)))).
    transitivity ((phi theta y r v * PA) *
      sumR (map (fun w => phi theta y s w * psi El theta y r s v w
                          * prodR (map (fun c => mget messages c w) (children T s)))
              (seq 0 (k + 1)))); [ring|].
    rewrite sumR_scal_l. apply sumR_map_ext_in. intros w _.
    rewrite (prodR_Permutation _ _
      (Permutation_map (fun c => mget messages c w) (children_node r T dl Hst r s Hin))).
    ring.
Qed.

  (** Moving the root along an edge keeps the orientation of the edges
      into every other node. *)
Lemma oriented_transfer a b p x :
    adjacent g a b -> x <> a -> x <> b ->
    oriented El a p x -> oriented El b p x.
Proof using Hchild.
    intros Hab Hxa Hxb Hor. apply elem_of_neighbors_graph_of in Hab as [He|He].
    - (* [a] is the parent of [b] *)
      destruct Hor as [[Hpx Hn]|[Hxp Hanc]].
      + left. split; [exact Hpx|]. intros H.
        apply (anc_parent a b x He) in H as [->|H]; [congruence|contradiction].
      + right. split; [exact Hxp|]. apply (anc_parent a b p He). right. exact Hanc.
    - (* [b] is the parent of [a] *)
      destruct Hor as [[Hpx Hn]|[Hxp Hanc]].
      + left. split; [exact Hpx|]. intros H. apply Hn.
        apply (anc_parent b a x He). right. exact H.
      + right. split; [exact Hxp|].
        apply (anc_parent b a p He) in Hanc as [->|Hanc]; [|exact Hanc].
        exfalso. apply Hxb. exact (NoDup_snd_unique El x b a Hchild Hxp He).
Qed.
End Forest.

(** ** Moving the root of the sum-product along an edge *)

Section Reroot.
Variable El : list (nat * nat).
Variable rank : nat -> nat.
Hypothesis Hchild : NoDup (map snd El).
Hypothesis Hrank : forall p c, (p, c) ∈ El -> (rank p < rank c)%nat.
Variable theta : gmap tkey (list R).
Variables k y : nat.
Let g := graph_of El.

Variables (a b : nat) (Ta Tb dla dlb : list (nat * nat)).
Variables (ma mb : gmap nat (list R)).
Hypothesis Hab : adjacent g a b.
Hypothesis Hsta : search_tree g a Ta dla.
Hypothesis Hstb : search_tree g b Tb dlb.
Hypothesis Heqa : equations_on El theta k y Ta (fun _ => True) ma.
Hypothesis Heqb : equations_on El theta k y Tb (fun _ => True) mb.

Lemma adjacent_sym : adjacent g b a.
Proof using Hab. exact (proj1 (graph_of_wf El) a b Hab). Qed.

Lemma tree_a_in_b x : in_tree a Ta x -> in_tree b Tb x.
Proof using Hab Hsta Hstb.
    apply (tree_within El a Ta dla Hsta (in_tree b Tb)).
    - apply (st_closed _ _ _ _ Hstb b a); [left; reflexivity|exact adjacent_sym].
    - intros u v Hu Hv. exact (st_closed _ _ _ _ Hstb u v Hu Hv).
Qed.

Lemma parents_agree x p p' :
    x <> a -> x <> b -> (p, x) ∈ Ta -> (p', x) ∈ Tb -> p = p'.
Proof using Hab Hsta Hstb Hchild Hrank.
    intros Hxa Hxb Hp Hp'.
    apply (oriented_unique El rank Hchild Hrank b p p' x).
    - apply (oriented_transfer El Hchild a b p x Hab Hxa Hxb).
      exact (tree_oriented El rank Hchild Hrank a Ta dla Hsta p x Hp).
    - exact (tree_oriented El rank Hchild Hrank b Tb dlb Hstb p' x Hp').
Qed.

Lemma messages_agree x vp :
    in_tree a Ta x -> x <> a -> x <> b -> (vp <= k)%nat ->
    mget ma x vp = mget mb x vp.
Proof using Hab Hsta Hstb Heqa Heqb Hchild Hrank.
    destruct (dist_bounded El a Ta dla Hsta) as [D HD].
    assert (Hgen : forall n x vp, (D - dist_of dla x < n)%nat ->
              in_tree a Ta x -> x <> a -> x <> b -> (vp <= k)%nat ->
              mget ma x vp = mget mb x vp).
    { clear x vp. induction n as [|n IH]; intros x vp Hn Hx Hxa Hxb Hvp; [lia|].
      destruct (tree_parent a Ta x Hx Hxa) as [p Hp].
      destruct (tree_parent b Tb x (tree_a_in_b x Hx) Hxb) as [p' Hp'].
      assert (p' = p) by (symmetry; exact (parents_agree x p p' Hxa Hxb Hp Hp')).
      subst p'.
      rewrite (Heqa p x vp I Hp Hvp), (Heqb p x vp I Hp' Hvp).
      unfold message_value. apply sumR_map_ext_in. intros v Hv.
      apply elem_of_seq in Hv. f_equal.
      assert (Hperm : children Ta x ≡ₚ children Tb x).
      { rewrite (children_node El rank Hchild Hrank a Ta dla Hsta p x Hp).
        rewrite (children_node El rank Hchild Hrank b Tb dlb Hstb p x Hp').
        reflexivity. }
      rewrite <- (prodR_Permutation _ _ (Permutation_map (fun c => mget mb c v) Hperm)).
      apply prodR_map_ext_in. intros c Hc.
      assert (Hca : (x, c) ∈ Ta) by (apply elem_of_children; exact Hc).
      assert (Hcb : (x, c) ∈ Tb) by (apply elem_of_children; rewrite <- Hperm; exact Hc).
      assert (Hct : in_tree a Ta c).
      { right. apply list_elem_of_fmap. exists (x, c). auto. }
      apply IH; [| exact Hct | | | lia].
      - pose proof (st_edge _ _ _ _ Hsta _ _ Hca) as Hd. specialize (HD c Hct). lia.
      - intros ->. exact (tree_root_no_parent El a Ta dla Hsta x Hca).
      - intros ->. exact (tree_root_no_parent El b Tb dlb Hstb x Hcb). }
    intros Hx Hxa Hxb Hvp. apply (Hgen (S (D - dist_of dla x))); auto.
Qed.

Lemma psi_sym va vb :
    psi El theta y a b va vb = psi El theta y b a vb va.
Proof using Hab Hrank.
    unfold psi.
    destruct (decide (0 < vb /\ 0 < va)%nat) as [H|H];
      destruct (decide (0 < va /\ 0 < vb)%nat) as [H'|H']; try tauto.
    apply elem_of_neighbors_graph_of in Hab as [He|He].
    - rewrite (bool_decide_eq_true_2 _ He).
      rewrite bool_decide_eq_false_2; [reflexivity|].
      exact (forest_one_way El rank Hrank a b He).
    - rewrite (bool_decide_eq_true_2 _ He).
      rewrite bool_decide_eq_false_2; [reflexivity|].
      exact (forest_one_way El rank Hrank b a He).
Qed.

Lemma side_agree_a v c :
    (v <= k)%nat -> c ∈ filter (fun c => c <> b) (neighbors g a) ->
    mget ma c v = mget mb c v.
Proof using Hab Hsta Hstb Heqa Heqb Hchild Hrank.
    intros Hv Hc. apply list_elem_of_filter in Hc as [Hcb Hc].
    apply messages_agree; [|intros ->|exact Hcb|exact Hv].
    - exact (st_closed _ _ _ _ Hsta a c ltac:(left; reflexivity) Hc).
    - apply elem_of_neighbors_graph_of in Hc.
      destruct Hc as [Hc|Hc]; exact (forest_no_loop El rank Hrank a Hc).
Qed.

Lemma side_agree_b v c :
    (v <= k)%nat -> c ∈ filter (fun c => c <> a) (neighbors g b) ->
    mget ma c v = mget mb c v.
Proof using Hab Hsta Hstb Heqa Heqb Hchild Hrank.
    intros Hv Hc. apply list_elem_of_filter in Hc as [Hca Hc].
    apply messages_agree; [|exact Hca|intros ->|exact Hv].
    - apply (st_closed _ _ _ _ Hsta b c); [|exact Hc].
      exact (st_closed _ _ _ _ Hsta a b ltac:(left; reflexivity) Hab).
    - apply elem_of_neighbors_graph_of in Hc.
      destruct Hc as [Hc|Hc]; exact (forest_no_loop El rank Hrank b Hc).
Qed.

  (** The two roots of an edge see the same partition function. *)
Lemma reroot_adjacent :
    sumR (map (root_value theta y Ta ma a) (seq 0 (k + 1)))
    = sumR (map (root_value theta y Tb mb b) (seq 0 (k + 1))).
Proof using Hab Hsta Hstb Heqa Heqb Hchild Hrank.
    set (FA := fun v w =>
      phi theta y a v * phi theta y b w * psi El theta y a b v w
      * prodR (map (fun c => mget ma c v) (filter (fun c => c <> b) (neighbors g a)))
      * prodR (map (fun c => mget ma c w) (filter (fun c => c <> a) (neighbors g b)))).
    set (FB := fun w v =>
      phi theta y b w * phi theta y a v * psi El theta y b a w v
      * prodR (map (fun c => mget mb c w) (filter (fun c => c <> a) (neighbors g b)))
      * prodR (map (fun c => mget mb c v) (filter (fun c => c <> b) (neighbors g a)))).
    assert (HA : forall v, v ∈ seq 0 (k + 1) ->
              root_value theta y Ta ma a v = sumR (map (FA v) (seq 0 (k + 1)))).
    { intros v Hv. apply elem_of_seq in Hv.
      apply (root_value_expand El rank Hchild Hrank theta k y a b Ta dla ma v
               Hsta Heqa Hab). lia. }
    assert (HB : forall w, w ∈ seq 0 (k + 1) ->
              root_value theta y Tb mb b w = sumR (map (FB w) (seq 0 (k + 1)))).
    { intros w Hw. apply elem_of_seq in Hw.
      apply (root_value_expand El rank Hchild Hrank theta k y b a Tb dlb mb w
               Hstb Heqb adjacent_sym). lia. }
    rewrite (sumR_map_ext_in _ _ _ HA), (sumR_map_ext_in _ _ _ HB).
    rewrite (sumR_swap FA).
    apply sumR_map_ext_in. intros w Hw. apply sumR_map_ext_in. intros v Hv.
    apply elem_of_seq in Hw. apply elem_of_seq in Hv. unfold FA, FB.
    rewrite (psi_sym v w).
    rewrite (prodR_map_ext_in (fun c => mget ma c v) (fun c => mget mb c v))
      by (intros c Hc; apply side_agree_a; [lia|exact Hc]).
    rewrite (prodR_map_ext_in (fun c => mget ma c w) (fun c => mget mb c w))
      by (intros c Hc; apply side_agree_b; [lia|exact Hc]).
    ring.
Qed.
End Reroot.

(** ** The partition function does not depend on the root *)

Lemma generate_params_theta_ok s m k El tr ter pos y :
  (forall p c, (p, c) ∈ El -> (p < m)%nat /\ (c < m)%nat) ->
  (1 <= y <= k)%nat ->
  theta_ok El (_generate_params s m k El tr ter pos).1 k y (graph_of El).
Proof.
  intros Hm Hy.
  assert (Hread : forall key,
    key ∈ node_keys m k \/ key ∈ edge_keys k El ->
    is_Ok (theta_at (_generate_params s m k El tr ter pos).1 key y)).
  { intros key Hkey.
    destruct (generate_params_length s m k El tr ter pos key Hkey) as (v & Hv & Hlen).
    unfold theta_at, theta_read. rewrite Hv. destruct y as [|y']; [lia|].
    unfold getitem. destruct (lookup_lt_is_Some_2 v y') as [x Hx]; [lia|].
    rewrite Hx. exists x. reflexivity. }
  split.
  - intros x v Hx Hv. apply Hread. left. apply elem_of_node_keys.
    exists x, v. split; [reflexivity|]. split; [|exact Hv].
    apply elem_of_dom_graph_of in Hx as ([p c] & He & Hx). simpl in Hx.
    destruct (Hm p c He) as [Hp Hc]. destruct Hx as [->| ->]; assumption.
  - intros e va vb He Hva Hvb. apply Hread. right. apply elem_of_edge_keys.
    exists e, va, vb. auto.
Qed.

Section RootInvariance.
Variable El : list (nat * nat).
Variable theta : gmap tkey (list R).
Variables k y : nat.
Hypothesis Hforest : forest_edges El.
Hypothesis Hth : theta_ok El theta k y (graph_of El).

Lemma spa_adjacent a b va vb :
    adjacent (graph_of El) a b ->
    naive_SPA (graph_of El) El theta k a y None = Ok va ->
    naive_SPA (graph_of El) El theta k b y None = Ok vb ->
    sumR va = sumR vb.
Proof using Hforest Hth.
    intros Hab Ha Hb. destruct Hforest as [Hchild [rank Hrank]].
    destruct (adjacent_dom El a b Hab) as [Hda Hdb].
    assert (Hadj : forall u v, v ∈ neighbors (graph_of El) u -> (u, v) ∈ El \/ (v, u) ∈ El).
    { intros u v. apply elem_of_neighbors_graph_of. }
    destruct (naive_SPA_run _ El theta k y a (graph_of_wf El) Hth Hadj Hda)
      as (Ta & ma & _ & Hsta & _ & Heqa & Hra).
    destruct (naive_SPA_run _ El theta k y b (graph_of_wf El) Hth Hadj Hdb)
      as (Tb & mb & _ & Hstb & _ & Heqb & Hrb).
    rewrite Hra in Ha. rewrite Hrb in Hb. injection Ha as <-. injection Hb as <-.
    exact (reroot_adjacent El rank Hchild Hrank theta k y a b Ta Tb _ _ ma mb
             Hab Hsta Hstb Heqa Heqb).
Qed.

Lemma spa_total r :
    r ∈ dom (graph_of El) ->
    exists v, naive_SPA (graph_of El) El theta k r y None = Ok v.
Proof using Hth.
    intros Hr.
    assert (Hadj : forall u v, v ∈ neighbors (graph_of El) u -> (u, v) ∈ El \/ (v, u) ∈ El).
    { intros u v. apply elem_of_neighbors_graph_of. }
    destruct (naive_SPA_run _ El theta k y r (graph_of_wf El) Hth Hadj Hr)
      as (T & m & _ & _ & _ & _ & Hrun).
    eauto.
Qed.

Lemma connected_dom r r' :
    connected (graph_of El) r r' -> r ∈ dom (graph_of El) -> r' ∈ dom (graph_of El).
Proof.
    induction 1 as [|a b c Hab _ IH]; intros Hr; [exact Hr|].
    apply IH. exact (proj2 (adjacent_dom El a b Hab)).
Qed.

Lemma spa_connected r r' v v' :
    connected (graph_of El) r r' ->
    naive_SPA (graph_of El) El theta k r y None = Ok v ->
    naive_SPA (graph_of El) El theta k r' y None = Ok v' ->
    sumR v = sumR v'.
Proof using Hforest Hth.
    intros Hc. revert v. induction Hc as [a|a b c Hab _ IH]; intros v Hv Hv'.
    - congruence.
    - destruct (spa_total b (proj2 (adjacent_dom El a b Hab))) as [vb Hvb].
      rewrite (spa_adjacent a b v vb Hab Hv Hvb). exact (IH vb Hvb Hv').
Qed.
End RootInvariance.




(** ** Reads of the default-valued tables *)

Lemma dd_read_missing {K} `{Countable K} (t : gmap K R) (key : K) :
  t !! key = None -> dd_read t key = Default /\ dd_get t key = 0.
Proof. intros Hk. unfold dd_get, dd_read. rewrite Hk. split; reflexivity. Qed.

(** When only the joint key is missing the quotient is 0 and nothing is
    raised. *)
Lemma P_conditional_joint_missing p_solo p_joints i li j lj y d :
  p_joints !! (i, li, j, lj, y) = None -> p_solo !! (j, lj, y) = Some d -> d <> 0 ->
  P_conditional p_solo p_joints i li j lj y = Ok (Fin 0).
Proof.
  intros Hj Hs Hd. unfold P_conditional, dd_read, true_div. rewrite Hj, Hs.
  destruct (Req_dec_T d 0) as [Hz|_]; [contradiction|]. simpl.
  f_equal. f_equal. unfold Rdiv. ring.
Qed.

(** C10: a key that was never stored reads as 0.0 in [theta], [p_solo] and
    [p_joints], no missing-key error is raised; and [P_conditional] on
    arguments whose keys were never stored divides 0.0 by 0.0, which fails
    with a division by zero and not with a missing-key error. *)
Theorem default_valued_tables (theta : gmap tkey (list R))
    (p_solo : gmap (nat * nat * nat) R)
    (p_joints : gmap (nat * nat * nat * nat * nat) R)
    (key : tkey) (i li j lj y : nat) :
  theta !! key = None ->
  p_solo !! (j, lj, y) = None ->
  p_joints !! (i, li, j, lj, y) = None ->
  theta_read theta key = PyFloat 0
  /\ dd_read p_solo (j, lj, y) = Default /\ dd_get p_solo (j, lj, y) = 0
  /\ dd_read p_joints (i, li, j, lj, y) = Default
  /\ dd_get p_joints (i, li, j, lj, y) = 0
  /\ P_conditional p_solo p_joints i li j lj y = Err ZeroDivisionError
  /\ P_conditional p_solo p_joints i li j lj y <> Err KeyError.
Proof.
  intros Ht Hs Hj.
  destruct (dd_read_missing p_solo _ Hs) as [Hs1 Hs2].
  destruct (dd_read_missing p_joints _ Hj) as [Hj1 Hj2].
  assert (Hc : P_conditional p_solo p_joints i li j lj y = Err ZeroDivisionError).
  { unfold P_conditional. rewrite Hs1, Hj1. reflexivity. }
  repeat split; try assumption.
  - unfold theta_read. rewrite Ht. reflexivity.
  - rewrite Hc. discriminate.
Qed.

Lemma default_valued_tables_witness :
  theta_read ∅ (node_key 7 1) = PyFloat 0
  /\ dd_read (∅ : gmap (nat * nat * nat) R) (7, 0, 1)%nat = Default
  /\ dd_get (∅ : gmap (nat * nat * nat) R) (7, 0, 1)%nat = 0
  /\ dd_read (∅ : gmap (nat * nat * nat * nat * nat) R) (8, 0, 7, 0, 1)%nat = Default
  /\ dd_get (∅ : gmap (nat * nat * nat * nat * nat) R) (8, 0, 7, 0, 1)%nat = 0
  /\ P_conditional ∅ ∅ 8 0 7 0 1 = Err ZeroDivisionError
  /\ P_conditional ∅ ∅ 8 0 7 0 1 <> Err KeyError.
Proof.
  apply (default_valued_tables ∅ ∅ ∅ (node_key 7 1) 8 0 7 0 1); apply lookup_empty.
Defined.


(** ** The probability cache on a forest with two components *)

Lemma lookup_const_map {K} `{Countable K} {A} (keys : list K) (c : A) (key : K) :
  (list_to_map (map (fun key => (key, c)) keys) : gmap K A) !! key
  = if decide (key ∈ keys) then Some c else None.
Proof.
  induction keys as [|key0 keys IH].
  - rewrite decide_False by apply not_elem_of_nil. apply lookup_empty.
  - destruct (decide (key ∈ key0 :: keys)) as [Hin|Hnin];
      change (list_to_map (map (fun key => (key, c)) (key0 :: keys)) : gmap K A)
        with (<[key0 := c]> (list_to_map (map (fun key => (key, c)) keys) : gmap K A)).
    + destruct (decide (key = key0)) as [->|Hne]; [apply lookup_insert_eq|].
      rewrite lookup_insert_ne by congruence. rewrite IH.
      apply elem_of_cons in Hin as [Hin|Hin]; [contradiction|].
      rewrite decide_True by exact Hin. reflexivity.
    + rewrite elem_of_cons in Hnin.
      rewrite lookup_insert_ne by (intros ->; tauto). rewrite IH.
      rewrite decide_False by tauto. reflexivity.
Qed.

Lemma draw_theta_demo k lo hi pos :
  (draw_theta demo_source k lo hi pos).1 = replicate k lo.
Proof.
  unfold draw_theta, random_vec. simpl. revert pos.
  induction k as [|k IH]; intros pos; simpl; [reflexivity|].
  rewrite IH. f_equal. ring.
Qed.

(** With the demo source every stored vector repeats the lower bound of the
    range. *)
Lemma generate_params_demo m k El a b pos :
  (_generate_params demo_source m k El (a, b) (a, b) pos).1
  = const_theta m k El (Rmin a b).
Proof.
  apply map_eq. intros key. unfold const_theta. rewrite lookup_const_map.
  rewrite generate_params_flat. cbn [fst snd].
  set (lo := Rmin a b). set (hi := Rmax a b).
  pose proof (store_loop_gen demo_source k lo hi (fun v => v = replicate k lo)
                (node_keys m k) ∅ pos (draw_theta_demo k lo hi)) as H1.
  cbv zeta in H1.
  destruct (fold_left (store_theta demo_source k lo hi) (node_keys m k) (∅, pos))
    as [th1 pos1].
  pose proof (store_loop_gen demo_source k lo hi (fun v => v = replicate k lo)
                (edge_keys k El) th1 pos1 (draw_theta_demo k lo hi)) as H2.
  cbv zeta in H2.
  destruct (fold_left (store_theta demo_source k lo hi) (edge_keys k El) (th1, pos1))
    as [th2 pos2].
  cbn [fst] in *. destruct H1 as [H1in H1out]. destruct H2 as [H2in H2out].
  destruct (decide (key ∈ edge_keys k El)) as [Hin|Hnin].
  - rewrite decide_True by (apply elem_of_app; right; exact Hin).
    destruct (H2in key Hin) as (v & -> & ->). reflexivity.
  - rewrite (H2out key Hnin).
    destruct (decide (key ∈ node_keys m k)) as [Hin1|Hnin1].
    + rewrite decide_True by (apply elem_of_app; left; exact Hin1).
      destruct (H1in key Hin1) as (v & -> & ->). reflexivity.
    + rewrite decide_False by (rewrite elem_of_app; tauto).
      rewrite (H1out key Hnin1). apply lookup_empty.
Qed.

Lemma split_deps_eq : G split_deps = graph_of split_edges /\ E split_deps = split_edges.
Proof. split; vm_compute; reflexivity. Qed.

Lemma split_theta_eq : split_theta = const_theta 5 2 split_edges (1/10).
Proof.
  unfold split_theta. rewrite (proj2 split_deps_eq), generate_params_demo.
  rewrite Rmin_left by lra. reflexivity.
Qed.

Lemma exp_tenth : 1 < exp (1/10).
Proof.
  pose proof (exp_increasing 0 (1/10) ltac:(lra)) as H. rewrite exp_0 in H. exact H.
Qed.

Lemma three_quotients_eq x y z m w :
  0 < w -> x * / w + (y * / w + (z * / w + R0)) = m * / w -> x + y + z = m.
Proof.
  intros Hw H.
  replace (x + y + z) with ((x * / w + (y * / w + (z * / w + R0))) * w)
    by (change R0 with 0; field; lra).
  rewrite H. field. lra.
Qed.

Lemma three_quotients_one x y z w :
  0 < w -> x * / w + (y * / w + (z * / w + R0)) = R1 -> x + y + z = w.
Proof.
  intros Hw H. apply (three_quotients_eq x y z w w Hw). rewrite H.
  change R1 with 1. field. lra.
Qed.

Lemma split_p_solo_sum :
  match P_vals_true (graph_of split_edges) split_edges
          (const_theta 5 2 split_edges (1/10)) 5 2 with
  | Ok p_solo =>
      1 < sumR (map (fun val => dd_get p_solo (2, val, 1)%nat) (seq 0 (2 + 1)))
  | Err _ => False
  end.
Proof.
  vm_compute.
  let e := eval vm_compute in (exp (1/10)) in change e with (exp (1/10)).
  pose proof exp_tenth as Ha. set (a := exp (1/10)) in *. clearbody a.
  match goal with |- context [ / ?z ] => set (Z := z) end.
  assert (HZ : 0 < Z) by (unfold Z; nra).
  match goal with |- Rlt R1 (?x * _ + (?y * _ + (?z * _ + R0))) =>
    replace (x * / Z + (y * / Z + (z * / Z + R0))) with ((x + y + z) * / Z)
      by (change R0 with 0; ring);
    assert (Hgt : Z < x + y + z)
  end.
  { unfold Z. assert (H2 : 0 < a * a) by nra. assert (H3 : 0 < a * a * a) by nra.
    assert (H5 : 0 < a * a * a * (a * a)) by nra. nra. }
  change R1 with 1. apply (Rmult_lt_reg_r Z); [exact HZ|].
  rewrite Rmult_assoc, Rinv_l by lra. lra.
Qed.

Lemma split_p_joints_sum :
  match P_vals_true (graph_of split_edges) split_edges
          (const_theta 5 2 split_edges (1/10)) 5 2,
        P_joints_true (graph_of split_edges) split_edges
          (const_theta 5 2 split_edges (1/10)) 5 2 with
  | Ok p_solo, Ok p_joints =>
      sumR (map (fun vi => dd_get p_joints (0, vi, 2, 0, 1)%nat) (seq 0 (2 + 1)))
      <> dd_get p_solo (2, 0, 1)%nat
  | _, _ => False
  end.
Proof.
  vm_compute.
  let e := eval vm_compute in (exp (1/10)) in change e with (exp (1/10)).
  pose proof exp_tenth as Ha. set (a := exp (1/10)) in *. clearbody a.
  intros Heq. apply three_quotients_eq in Heq.
  - ring_simplify in Heq.
    assert (H2 : 0 < a * a * (a - 1)) by (apply Rmult_lt_0_compat; nra). nra.
  - nra.
Qed.

(** C2 fails on a forest: with the edges 0 - 1, 2 - 3 and 2 - 4, node 2 lies
    outside the component of node 0 and the entries of [p_solo] at node 2
    sum to more than 1. *)
Theorem P_vals_true_forest_unnormalised :
  exists p_solo,
    P_vals_true (G split_deps) (E split_deps) split_theta 5 2 = Ok p_solo
    /\ 1 < sumR (map (fun val => dd_get p_solo (2, val, 1)%nat) (seq 0 (2 + 1))).
Proof.
  rewrite split_theta_eq, (proj1 split_deps_eq), (proj2 split_deps_eq).
  pose proof split_p_solo_sum as H.
  destruct (P_vals_true (graph_of split_edges) split_edges
              (const_theta 5 2 split_edges (1/10)) 5 2) as [p_solo|e];
    [|contradiction].
  exists p_solo. split; [reflexivity|exact H].
Qed.

(** C3 fails on the same forest: over the values of node 0 the joint
    entries with node 2 at value 0 do not sum to the marginal entry of node
    2 at value 0. *)
Theorem P_joints_true_forest_inconsistent :
  exists p_solo p_joints,
    P_vals_true (G split_deps) (E split_deps) split_theta 5 2 = Ok p_solo
    /\ P_joints_true (G split_deps) (E split_deps) split_theta 5 2 = Ok p_joints
    /\ sumR (map (fun vi => dd_get p_joints (0, vi, 2, 0, 1)%nat) (seq 0 (2 + 1)))
       <> dd_get p_solo (2, 0, 1)%nat.
Proof.
  rewrite split_theta_eq, (proj1 split_deps_eq), (proj2 split_deps_eq).
  pose proof split_p_joints_sum as H.
  destruct (P_vals_true (graph_of split_edges) split_edges
              (const_theta 5 2 split_edges (1/10)) 5 2) as [p_solo|e];
    [|contradiction].
  destruct (P_joints_true (graph_of split_edges) split_edges
              (const_theta 5 2 split_edges (1/10)) 5 2) as [p_joints|e];
    [|contradiction].
  exists p_solo, p_joints. split; [reflexivity|]. split; [reflexivity|exact H].
Qed.


(** ** The label sampler *)

Lemma bind_Ok_inv {A B} (m : result A) (f : A -> result B) b :
  (x ← m; f x) = Ok b -> exists a, m = Ok a /\ f a = Ok b.
Proof. destruct m as [a|e]; simpl; [eauto | discriminate]. Qed.

Lemma foldM_invariant {A B} (Inv : A -> Prop) (f : A -> B -> result A) (l : list B) :
  (forall a b a', Inv a -> b ∈ l -> f a b = Ok a' -> Inv a') ->
  forall a a', Inv a -> foldM f l a = Ok a' -> Inv a'.
Proof.
  induction l as [|b l IH]; intros Hstep a a' Ha Hf; simpl in Hf.
  - injection Hf as <-. exact Ha.
  - apply bind_Ok_inv in Hf as (a1 & H1 & H2).
    apply (IH (fun a0 b0 a0' Ha0 Hb0 => Hstep a0 b0 a0' Ha0 (list_elem_of_further _ _ _ Hb0))
              a1 a'); [|exact H2].
    apply (Hstep a b a1 Ha); [left|exact H1].
Qed.

Lemma foldM_invariant_seq {A} (Inv : nat -> A -> Prop) (f : A -> nat -> result A) len :
  forall b a a',
  (forall i a a', (b <= i < b + len)%nat -> Inv i a -> f a i = Ok a' -> Inv (S i) a') ->
  Inv b a -> foldM f (seq b len) a = Ok a' -> Inv (b + len)%nat a'.
Proof.
  induction len as [|len IH]; intros b a a' Hstep Ha Hf; simpl in Hf.
  - injection Hf as <-. rewrite Nat.add_0_r. exact Ha.
  - apply bind_Ok_inv in Hf as (a1 & H1 & H2).
    replace (b + S len)%nat with (S b + len)%nat by lia.
    apply (IH (S b) a1 a'); [| |exact H2].
    + intros i a0 a0' Hi. apply Hstep. lia.
    + apply (Hstep b a a1); [lia|exact Ha|exact H1].
Qed.

Lemma choice_p_range s a p pos c pos' :
  source_ok s -> choice_p s a p pos = Ok (c, pos') -> (c < a)%nat.
Proof.
  intros [_ Hidx] H. unfold choice_p in H.
  destruct (decide (a = 0)%nat) as [|Ha]; [discriminate|].
  destruct (decide (length p = a)); [|discriminate].
  destruct (nonneg p); [|discriminate].
  destruct (Req_dec_T (sumR p) 1); [|discriminate].
  injection H as <- _. apply Hidx. lia.
Qed.

Lemma setitem_Ok {A} (l : list A) i x l' :
  setitem l i x = Ok l' -> l' = <[i := x]> l /\ (i < length l)%nat.
Proof.
  unfold setitem. destruct (decide (i < length l)%nat); [|discriminate].
  intros [= <-]. auto.
Qed.

Lemma getitem_Ok {A} (l : list A) i x :
  getitem l i = Ok x -> l !! i = Some x.
Proof. unfold getitem. destruct (l !! i); [intros [= ->]; reflexivity|discriminate]. Qed.

Lemma set2_matrix_ok {A} n m (Q : A -> Prop) (M M' : list (list A)) i j x :
  matrix_ok n m Q M -> Q x -> set2 M i j x = Ok M' -> matrix_ok n m Q M'.
Proof.
  intros [Hlen Hall] Hx H. unfold set2 in H.
  apply bind_Ok_inv in H as (row & Hrow & H).
  apply bind_Ok_inv in H as (row' & Hrow' & H).
  apply getitem_Ok in Hrow. apply setitem_Ok in Hrow' as [-> Hj].
  apply setitem_Ok in H as [-> Hi].
  split; [rewrite length_insert; exact Hlen|].
  apply Forall_insert; [exact Hall|].
  pose proof (Forall_lookup_1 _ _ _ _ Hall Hrow) as [Hl Hq].
  split; [rewrite length_insert; exact Hl|].
  apply Forall_insert; assumption.
Qed.

Section SamplerFacts.
Variable s : source.
Variables n m k : nat.
Variable parent : gmap nat nat.
Variable p : list R.
Variable p_solo : gmap (nat * nat * nat) R.
Variable p_joints : gmap (nat * nat * nat * nat * nat) R.
Hypothesis Hs : source_ok s.

Lemma sample_entry_ok i y st j st' :
  matrix_ok n m (fun v => (v <= k)%nat) st.1 ->
  sample_entry s k parent p_solo p_joints i y st j = Ok st' ->
  matrix_ok n m (fun v => (v <= k)%nat) st'.1.
Proof using Hs.
  intros HL H. unfold sample_entry in H.
  apply bind_Ok_inv in H as ([py p0] & _ & H).
  destruct py as [prob_y|]; [|discriminate]. destruct p0 as [prob_0|]; [|discriminate].
  apply bind_Ok_inv in H as (pv & _ & H).
  apply bind_Ok_inv in H as ([c pos'] & Hc & H).
  apply bind_Ok_inv in H as (L' & HL' & H).
  injection H as <-. simpl in *.
  apply (set2_matrix_ok n m _ _ _ _ _ _ HL) in HL'; [exact HL'|].
  apply (choice_p_range s _ _ _ _ _ Hs) in Hc. lia.
Qed.

Lemma sample_row_ok i st st' :
  (i < n)%nat -> rows_inv n m k i st ->
  sample_row s m k parent p p_solo p_joints st i = Ok st' ->
  rows_inv n m k (S i) st'.
Proof using Hs.
  intros Hi (HL & HY & Hpre) H. destruct st as [[L Y] pos]. simpl in *.
  apply bind_Ok_inv in H as ([c pos1] & Hc & H).
  apply bind_Ok_inv in H as (Y' & HY' & H).
  apply bind_Ok_inv in H as (st1 & Hloop & H).
  injection H as <-. simpl in *.
  apply setitem_Ok in HY' as [-> _].
  apply (choice_p_range s _ _ _ _ _ Hs) in Hc.
  split; [|split].
  - simpl. revert Hloop.
    apply (foldM_invariant (fun st => matrix_ok n m (fun v => (v <= k)%nat) st.1));
      [|exact HL].
    intros a b a' Ha _ Hstep. exact (sample_entry_ok i (c + 1) a b a' Ha Hstep).
  - simpl. rewrite length_insert. exact HY.
  - simpl. intros i' Hi'. destruct (decide (i' = i)) as [->|Hne].
    + exists (c + 1)%nat. split; [|lia]. apply list_lookup_insert_eq. lia.
    + rewrite list_lookup_insert_ne by congruence. apply Hpre. lia.
Qed.

Lemma sample_rows_ok L Y pos st :
  matrix_ok n m (fun v => (v <= k)%nat) L -> length Y = n ->
  sample_rows s n m k parent p p_solo p_joints L Y pos = Ok st ->
  matrix_ok n m (fun v => (v <= k)%nat) st.1.1
  /\ length st.1.2 = n
  /\ Forall (fun y => (1 <= y <= k)%nat) st.1.2.
Proof using Hs.
  intros HL HY H. unfold sample_rows in H.
  pose proof (foldM_invariant_seq (rows_inv n m k)
                (sample_row s m k parent p p_solo p_joints) n 0 (L, Y, pos) st) as Hinv.
  destruct Hinv as (H1 & H2 & H3); [| |exact H|].
  - intros i a a' Hi. apply sample_row_ok. lia.
  - split; [exact HL|]. split; [exact HY|]. intros i' Hi'. lia.
  - split; [exact H1|]. split; [exact H2|].
    apply Forall_lookup. intros i y Hy.
    destruct (H3 i) as (y' & Hy' & Hr).
    + simpl. rewrite <- H2. exact (lookup_lt_Some _ _ _ Hy).
    + congruence.
Qed.
End SamplerFacts.

Lemma zero_matrix_ok n m k :
  matrix_ok n m (fun v => (v <= k)%nat) (replicate n (replicate m 0%nat)).
Proof.
  split; [apply length_replicate|]. apply Forall_replicate.
  split; [apply length_replicate|]. apply Forall_replicate. lia.
Qed.

(** C5: a constructed generator has a label matrix of [n] rows of [m]
    entries, all in [0 .. k], and a vector of [n] true labels, all in
    [1 .. k]. *)
Theorem constructed_shapes (linalg_cond : list (list R) -> result R)
    (linalg_inv : list (list R) -> result (list (list R))) (s : source)
    (n m k : nat) (class_balance : balance) (theta_range : R * R) (edge_prob : R)
    (theta_edge_range : R * R) (edges_list : option (list (nat * nat)))
    (gen : generator) :
  source_ok s ->
  __init__ linalg_cond linalg_inv s n m k class_balance theta_range edge_prob
    theta_edge_range edges_list = Ok gen ->
  length (self_L gen) = n
  /\ Forall (fun row => length row = m /\ Forall (fun v => (0 <= v <= k)%nat) row)
       (self_L gen)
  /\ length (self_Y gen) = n
  /\ Forall (fun y => (1 <= y <= k)%nat) (self_Y gen).
Proof.
  intros Hs H. unfold __init__ in H.
  apply bind_Ok_inv in H as ([[[d theta] pv] pos] & _ & H).
  unfold _generate_label_matrix in H.
  apply bind_Ok_inv in H as (mo & _ & H).
  apply bind_Ok_inv in H as (sig_inv & _ & H).
  apply bind_Ok_inv in H as (st & Hst & H).
  injection H as <-. simpl.
  destruct (sample_rows_ok s n m k (parent d) pv (mo_p_solo mo) (mo_p_joints mo) Hs
              _ _ _ _ (zero_matrix_ok n m k) (length_replicate n 0%nat) Hst)
    as ([HL1 HL2] & HY1 & HY2).
  split; [exact HL1|]. split; [|split; assumption].
  eapply Forall_impl; [exact HL2|]. intros row [Hl Hq]. split; [exact Hl|].
  eapply Forall_impl; [exact Hq|]. intros v Hv. cbv beta in *. lia.
Qed.

(** *** A construction that succeeds: one edge, two classes, one row *)

Lemma pair_moments :
  match moment_phase cond_quiet pair_deps pair_theta 2 2 [1/2; 1/2] with
  | Ok mo =>
      dd_read (mo_p_solo mo) (0, 1, 1)%nat = Stored (1/3)
      /\ dd_read (mo_p_solo mo) (0, 0, 1)%nat = Stored (1/3)
      /\ dd_read (mo_p_joints mo) (1, 1, 0, 0, 1)%nat = Stored (1/9)
      /\ dd_read (mo_p_joints mo) (1, 0, 0, 0, 1)%nat = Stored (1/9)
  | Err _ => False
  end.
Proof.
  vm_compute.
  let e := eval vm_compute in (exp 0) in change e with (exp 0).
  rewrite exp_0.
  repeat split; f_equal; change R0 with 0; change R1 with 1; field.
Qed.

Lemma demo_source_ok : source_ok demo_source.
Proof. split; intros; simpl; [lra | lia]. Qed.

Lemma nonneg_Forall p : Forall (fun x => 0 <= x) p -> nonneg p = true.
Proof.
  induction 1 as [|x p Hx _ IH]; [reflexivity|].
  unfold nonneg in *. simpl. rewrite IH.
  destruct (Rle_dec 0 x); [reflexivity|contradiction].
Qed.

(** With the demo source a valid probability vector always yields the first
    alternative. *)
Lemma choice_p_demo a p pos :
  a <> 0%nat -> length p = a -> Forall (fun x => 0 <= x) p -> sumR p = 1 ->
  choice_p demo_source a p pos = Ok (0%nat, S pos).
Proof.
  intros Ha Hl Hp Hs. unfold choice_p.
  rewrite decide_False by exact Ha. rewrite decide_True by exact Hl.
  rewrite (nonneg_Forall p Hp).
  destruct (Req_dec_T (sumR p) 1); [reflexivity|contradiction].
Qed.

Lemma true_div_stored a d :
  d <> 0 -> true_div (Stored a) (Stored d) = Ok (Fin (a / d)).
Proof.
  intros Hd. unfold true_div.
  destruct (Req_dec_T d 0); [contradiction|reflexivity].
Qed.

Section DemoSampler.
Variables m k : nat.
Variable parent : gmap nat nat.
Variable p_solo : gmap (nat * nat * nat) R.
Variable p_joints : gmap (nat * nat * nat * nat * nat) R.

Lemma sample_entry_root L L' pos i j y pv :
  parent !! j = None ->
  label_distribution k y (dd_get p_solo (j, y, y)) (dd_get p_solo (j, 0%nat, y)) = Ok pv ->
  length pv = (k + 1)%nat -> Forall (fun x => 0 <= x) pv -> sumR pv = 1 ->
  set2 L i j 0%nat = Ok L' ->
  sample_entry demo_source k parent p_solo p_joints i y (L, pos) j = Ok (L', S pos).
Proof.
  intros Hpar Hpv Hl Hp Hs HL. unfold sample_entry, sample_probs. cbn [fst snd].
  rewrite Hpar. rewrite bind_Ok. rewrite Hpv, bind_Ok.
  rewrite (choice_p_demo (k + 1) pv pos) by (assumption || lia).
  rewrite bind_Ok. cbn [fst snd]. rewrite HL. reflexivity.
Qed.

Lemma sample_entry_child L L' pos i j y p_j l prob_y prob_0 pv :
  parent !! j = Some p_j ->
  get2 L i p_j = Ok l ->
  P_conditional p_solo p_joints j y p_j l y = Ok (Fin prob_y) ->
  P_conditional p_solo p_joints j 0 p_j l y = Ok (Fin prob_0) ->
  label_distribution k y prob_y prob_0 = Ok pv ->
  length pv = (k + 1)%nat -> Forall (fun x => 0 <= x) pv -> sumR pv = 1 ->
  set2 L i j 0%nat = Ok L' ->
  sample_entry demo_source k parent p_solo p_joints i y (L, pos) j = Ok (L', S pos).
Proof.
  intros Hpar Hl Hy H0 Hpv Hlen Hp Hs HL. unfold sample_entry, sample_probs. cbn [fst snd].
  rewrite Hpar, Hl, !bind_Ok, Hy, !bind_Ok, H0, !bind_Ok, Hpv, bind_Ok.
  rewrite (choice_p_demo (k + 1) pv pos) by (assumption || lia).
  rewrite bind_Ok. cbn [fst snd]. rewrite HL. reflexivity.
Qed.
End DemoSampler.

Lemma pair_parent : parent pair_deps !! 0%nat = None /\ parent pair_deps !! 1%nat = Some 0%nat.
Proof. split; vm_compute; reflexivity. Qed.

Lemma pair_rows p_solo p_joints pos :
  dd_read p_solo (0, 1, 1)%nat = Stored (1/3) ->
  dd_read p_solo (0, 0, 1)%nat = Stored (1/3) ->
  dd_read p_joints (1, 1, 0, 0, 1)%nat = Stored (1/9) ->
  dd_read p_joints (1, 0, 0, 0, 1)%nat = Stored (1/9) ->
  sample_rows demo_source 1 2 2 (parent pair_deps) [1/2; 1/2] p_solo p_joints
    (replicate 1 (replicate 2 0%nat)) (replicate 1 0%nat) pos
  = Ok ([[0; 0]]%nat, [1%nat], (pos + 3)%nat).
Proof.
  intros H1 H2 H3 H4. destruct pair_parent as [Hp0 Hp1].
  unfold sample_rows. cbn [seq replicate foldM]. unfold sample_row.
  rewrite (choice_p_demo 2 [1/2; 1/2] pos); [|lia|reflexivity| |simpl; lra].
  2:{ repeat (apply Forall_cons_2; [lra|]). apply Forall_nil_2. }
  rewrite bind_Ok. cbn [fst snd Nat.add].
  change (setitem [0%nat] 0 1%nat) with (Ok [1%nat] : result (list nat)).
  rewrite bind_Ok.
  cbn [seq foldM].
  rewrite (sample_entry_root 2 (parent pair_deps) p_solo p_joints
             [[0; 0]]%nat [[0; 0]]%nat (S pos) 0 0 1
             [1/3; 1/3; 1 * (1 - 1/3 - 1/3) / IZR (Z.of_nat 2 - 1)]).
  - rewrite bind_Ok.
    rewrite (sample_entry_child 2 (parent pair_deps) p_solo p_joints
             [[0; 0]]%nat [[0; 0]]%nat (S (S pos)) 0 1 1 0 0 (1/9 / (1/3)) (1/9 / (1/3))
             [1/9 / (1/3); 1/9 / (1/3);
              1 * (1 - 1/9 / (1/3) - 1/9 / (1/3)) / IZR (Z.of_nat 2 - 1)]).
    + rewrite !bind_Ok. cbn [fst snd]. repeat f_equal. lia.
    + exact Hp1.
    + reflexivity.
    + unfold P_conditional. rewrite H3, H2. apply true_div_stored. lra.
    + unfold P_conditional. rewrite H4, H2. apply true_div_stored. lra.
    + reflexivity.
    + reflexivity.
    + change (IZR (Z.of_nat 2 - 1)) with 1.
      repeat (apply Forall_cons_2; [lra|]). apply Forall_nil_2.
    + change (IZR (Z.of_nat 2 - 1)) with 1. simpl. lra.
    + reflexivity.
  - exact Hp0.
  - unfold dd_get. rewrite H1, H2. reflexivity.
  - reflexivity.
  - change (IZR (Z.of_nat 2 - 1)) with 1.
    repeat (apply Forall_cons_2; [lra|]). apply Forall_nil_2.
  - change (IZR (Z.of_nat 2 - 1)) with 1. simpl. lra.
  - reflexivity.
Qed.

Lemma pair_label_matrix pos :
  exists gen,
    _generate_label_matrix cond_quiet inv_quiet demo_source pair_deps pair_theta
      1 2 2 [1/2; 1/2] pos = Ok gen
    /\ self_L gen = [[0; 0]]%nat /\ self_Y gen = [1%nat].
Proof.
  unfold _generate_label_matrix. pose proof pair_moments as H.
  destruct (moment_phase cond_quiet pair_deps pair_theta 2 2 [1/2; 1/2]) as [mo|e];
    [|contradiction].
  destruct H as (H1 & H2 & H3 & H4).
  rewrite bind_Ok. unfold inv_quiet at 1. rewrite bind_Ok.
  rewrite (pair_rows _ _ pos H1 H2 H3 H4), bind_Ok.
  eexists. split; [reflexivity|]. split; reflexivity.
Qed.

Lemma pair_attributes :
  init_attributes demo_source 2 2 (BalanceGiven [1/2; 1/2]) (0, 0) 0 (0, 0)
    (Some pair_edges)
  = Ok (pair_deps, pair_theta, [1/2; 1/2],
        (_generate_params demo_source 2 2 pair_edges (0, 0) (0, 0) 0).2).
Proof.
  unfold init_attributes. fold pair_deps.
  change (E pair_deps) with pair_edges.
  pose proof (generate_params_demo 2 2 pair_edges 0 0 0) as H.
  rewrite Rmin_left in H by lra. fold pair_theta in H.
  destruct (_generate_params demo_source 2 2 pair_edges (0, 0) (0, 0) 0) as [theta pos].
  cbn [fst snd] in *. subst theta. reflexivity.
Qed.

Lemma pair_construction :
  exists gen,
    __init__ cond_quiet inv_quiet demo_source 1 2 2 (BalanceGiven [1/2; 1/2])
      (0, 0) 0 (0, 0) (Some pair_edges) = Ok gen
    /\ self_L gen = [[0; 0]]%nat /\ self_Y gen = [1%nat].
Proof.
  unfold __init__. rewrite pair_attributes, bind_Ok. apply pair_label_matrix.
Qed.

Lemma constructed_shapes_witness :
  source_ok demo_source
  /\ exists gen,
       __init__ cond_quiet inv_quiet demo_source 1 2 2 (BalanceGiven [1/2; 1/2])
         (0, 0) 0 (0, 0) (Some pair_edges) = Ok gen
       /\ length (self_L gen) = 1%nat
       /\ Forall (fun row => length row = 2%nat
                              /\ Forall (fun v => (0 <= v <= 2)%nat) row) (self_L gen)
       /\ length (self_Y gen) = 1%nat
       /\ Forall (fun y => (1 <= y <= 2)%nat) (self_Y gen).
Proof.
  split; [exact demo_source_ok|].
  destruct pair_construction as (gen & Hgen & _).
  exists gen. split; [exact Hgen|].
  exact (constructed_shapes cond_quiet inv_quiet demo_source 1 2 2
           (BalanceGiven [1/2; 1/2]) (0, 0) 0 (0, 0) (Some pair_edges) gen
           demo_source_ok Hgen).
Defined.


(** ** The moment matrices come before the sampling *)

Lemma zeros_ok r c : matrix_ok r c (fun _ : R => True) (zeros r c).
Proof.
  split; [apply length_replicate|]. apply Forall_replicate.
  split; [apply length_replicate|]. apply Forall_replicate. exact I.
Qed.

Lemma generate_true_mu_shape El n_edges m k p_solo p_joints higher_order mu :
  _generate_true_mu El n_edges m k p_solo p_joints higher_order = Ok mu ->
  matrix_ok (moment_size n_edges m k higher_order) k (fun _ => True) mu.
Proof.
  unfold _generate_true_mu. set (sz := moment_size n_edges m k higher_order).
  set (Inv := matrix_ok sz k (fun _ : R => True)).
  intros H. apply bind_Ok_inv in H as (mu0 & H0 & H).
  assert (Hmu0 : Inv mu0).
  { revert H0. apply (foldM_invariant Inv); [|apply zeros_ok].
    intros a1 i b1 Ha1 _. apply (foldM_invariant Inv); [|exact Ha1].
    intros a2 val1 b2 Ha2 _. apply (foldM_invariant Inv); [|exact Ha2].
    intros a3 y b3 Ha3 _ Hset.
    exact (set2_matrix_ok sz k _ _ _ _ _ _ Ha3 I Hset). }
  destruct higher_order; [|injection H as <-; exact Hmu0].
  apply bind_Ok_inv in H as (st & Hst & H). injection H as <-.
  set (Inv2 := fun st : list (list R) * nat => Inv st.1).
  change (Inv2 st). revert Hst.
  apply (foldM_invariant Inv2); [|exact Hmu0].
  intros a1 e b1 Ha1 _. apply (foldM_invariant Inv2); [|exact Ha1].
  intros a2 val1 b2 Ha2 _. apply (foldM_invariant Inv2); [|exact Ha2].
  intros a3 val2 b3 Ha3 _ Hstep.
  apply bind_Ok_inv in Hstep as (mu1 & Hmu1 & Hstep). injection Hstep as <-.
  unfold Inv2. cbn [fst]. revert Hmu1.
  apply (foldM_invariant Inv); [|exact Ha3].
  intros a4 y b4 Ha4 _ Hset.
  exact (set2_matrix_ok sz k _ _ _ _ _ _ Ha4 I Hset).
Qed.

Lemma generate_true_O_shape g El E_order n_edges theta m k p p_solo higher_order O :
  _generate_true_O g El E_order n_edges theta m k p p_solo higher_order = Ok O ->
  matrix_ok (moment_size n_edges m k higher_order)
    (moment_size n_edges m k higher_order) (fun _ => True) O.
Proof.
  unfold _generate_true_O. set (sz := moment_size n_edges m k higher_order).
  set (Inv := matrix_ok sz sz (fun _ : R => True)).
  intros H. apply bind_Ok_inv in H as (Z_vals & _ & H). revert H.
  apply (foldM_invariant Inv); [|apply zeros_ok].
  intros a1 idx1 b1 Ha1 _. apply (foldM_invariant Inv); [|exact Ha1].
  intros a2 idx2 b2 Ha2 _ Hstep.
  apply bind_Ok_inv in Hstep as (sm & _ & Hset).
  exact (set2_matrix_ok sz sz _ _ _ _ _ _ Ha2 I Hset).
Qed.

Lemma moment_phase_spec linalg_cond d theta m k p mo :
  moment_phase linalg_cond d theta m k p = Ok mo ->
  P_vals_true (G d) (E d) theta m k = Ok (mo_p_solo mo)
  /\ P_joints_true (G d) (E d) theta m k = Ok (mo_p_joints mo)
  /\ _generate_true_mu (E d) (n_edges d) m k (mo_p_solo mo) (mo_p_joints mo) true
     = Ok (mo_mu_true mo)
  /\ _generate_true_O (G d) (E d) (E_order d) (n_edges d) theta m k p (mo_p_solo mo) true
     = Ok (mo_O_true mo)
  /\ sigma_matrix k p (mo_O_true mo) (mo_mu_true mo) = Ok (mo_sig mo).
Proof.
  unfold moment_phase. intros H.
  apply bind_Ok_inv in H as (p_solo & H1 & H).
  apply bind_Ok_inv in H as (p_joints & H2 & H).
  apply bind_Ok_inv in H as (x & _ & H).
  apply bind_Ok_inv in H as (mu & H3 & H).
  apply bind_Ok_inv in H as (O & H4 & H).
  apply bind_Ok_inv in H as (c1 & _ & H).
  apply bind_Ok_inv in H as (sig & H5 & H).
  apply bind_Ok_inv in H as (c2 & _ & H).
  injection H as <-. cbn. auto.
Qed.

(** C9: construction computes the moment matrices with [higher_order = True],
    of size [m * k + n_edges * k ^ 2], and inverts
    [sig = O_true - mu_true @ diag(p) @ mu_true.T] before it samples: every
    constructed generator carries them; when the inversion raises, for a
    singular [sig], construction raises the same error and yields no
    generator, whatever the number of rows and the random source; and so it
    does when the computation of the moments raises. *)
Theorem moments_precede_sampling (linalg_cond : list (list R) -> result R)
    (linalg_inv : list (list R) -> result (list (list R))) (s : source)
    (n m k : nat) (class_balance : balance) (theta_range : R * R) (edge_prob : R)
    (theta_edge_range : R * R) (edges_list : option (list (nat * nat)))
    (d : deps) (theta : gmap tkey (list R)) (p : list R) (pos : nat) :
  init_attributes s m k class_balance theta_range edge_prob theta_edge_range
    edges_list = Ok (d, theta, p, pos) ->
  (forall gen,
     __init__ linalg_cond linalg_inv s n m k class_balance theta_range edge_prob
       theta_edge_range edges_list = Ok gen ->
     self_deps gen = d /\ self_theta gen = theta /\ self_p gen = p
     /\ _generate_true_mu (E d) (n_edges d) m k (self_p_solo gen) (self_p_joints gen)
          true = Ok (self_mu_true gen)
     /\ _generate_true_O (G d) (E d) (E_order d) (n_edges d) theta m k p
          (self_p_solo gen) true = Ok (self_O_true gen)
     /\ matrix_ok (m * k + n_edges d * k ^ 2) k (fun _ => True) (self_mu_true gen)
     /\ matrix_ok (m * k + n_edges d * k ^ 2) (m * k + n_edges d * k ^ 2)
          (fun _ => True) (self_O_true gen)
     /\ exists sig,
          sigma_matrix k p (self_O_true gen) (self_mu_true gen) = Ok sig
          /\ linalg_inv sig = Ok (self_sig_inv gen))
  /\ (forall mo e,
        moment_phase linalg_cond d theta m k p = Ok mo ->
        linalg_inv (mo_sig mo) = Err e ->
        sigma_matrix k p (mo_O_true mo) (mo_mu_true mo) = Ok (mo_sig mo)
        /\ __init__ linalg_cond linalg_inv s n m k class_balance theta_range
             edge_prob theta_edge_range edges_list = Err e)
  /\ (forall e,
        moment_phase linalg_cond d theta m k p = Err e ->
        __init__ linalg_cond linalg_inv s n m k class_balance theta_range
          edge_prob theta_edge_range edges_list = Err e).
Proof.
  intros Hattr. unfold __init__. rewrite Hattr, bind_Ok.
  unfold _generate_label_matrix. split; [|split].
  - intros gen H.
    apply bind_Ok_inv in H as (mo & Hmo & H).
    apply bind_Ok_inv in H as (sig_inv & Hinv & H).
    apply bind_Ok_inv in H as (st & _ & H).
    injection H as <-. cbn.
    destruct (moment_phase_spec _ _ _ _ _ _ _ Hmo) as (_ & _ & Hmu & HO & Hsig).
    split; [reflexivity|]. split; [reflexivity|]. split; [reflexivity|].
    split; [exact Hmu|]. split; [exact HO|].
    split; [exact (generate_true_mu_shape _ _ _ _ _ _ _ _ Hmu)|].
    split; [exact (generate_true_O_shape _ _ _ _ _ _ _ _ _ _ _ HO)|].
    exists (mo_sig mo). split; [exact Hsig|exact Hinv].
  - intros mo e Hmo Hinv.
    split; [exact (proj2 (proj2 (proj2 (proj2 (moment_phase_spec _ _ _ _ _ _ _ Hmo)))))|].
    rewrite Hmo, bind_Ok, Hinv. reflexivity.
  - intros e Hmo. rewrite Hmo. reflexivity.
Qed.

Lemma moments_precede_sampling_witness :
  (exists gen,
     __init__ cond_quiet inv_quiet demo_source 1 2 2 (BalanceGiven [1/2; 1/2])
       (0, 0) 0 (0, 0) (Some pair_edges) = Ok gen
     /\ matrix_ok 8 2 (fun _ => True) (self_mu_true gen)
     /\ matrix_ok 8 8 (fun _ => True) (self_O_true gen)
     /\ exists sig,
          sigma_matrix 2 [1/2; 1/2] (self_O_true gen) (self_mu_true gen) = Ok sig
          /\ inv_quiet sig = Ok (self_sig_inv gen))
  /\ __init__ cond_quiet inv_singular demo_source 1 2 2 (BalanceGiven [1/2; 1/2])
       (0, 0) 0 (0, 0) (Some pair_edges) = Err LinAlgError.
Proof.
  split.
  - destruct pair_construction as (gen & Hgen & _). exists gen.
    split; [exact Hgen|].
    destruct (moments_precede_sampling cond_quiet inv_quiet demo_source 1 2 2
                (BalanceGiven [1/2; 1/2]) (0, 0) 0 (0, 0) (Some pair_edges)
                _ _ _ _ pair_attributes) as (H & _ & _).
    destruct (H gen Hgen) as (_ & _ & _ & _ & _ & Hmu & HO & Hsig).
    split; [exact Hmu|]. split; [exact HO|exact Hsig].
  - pose proof pair_moments as Hm.
    destruct (moment_phase cond_quiet pair_deps pair_theta 2 2 [1/2; 1/2])
      as [mo|e] eqn:Hmo; [|contradiction].
    destruct (moments_precede_sampling cond_quiet inv_singular demo_source 1 2 2
                (BalanceGiven [1/2; 1/2]) (0, 0) 0 (0, 0) (Some pair_edges)
                _ _ _ _ pair_attributes) as (_ & H & _).
    exact (proj2 (H mo LinAlgError Hmo eq_refl)).
Defined.


(** * Further properties of the generator *)

(** ** The two ways of building the dependency graph *)

Lemma record_loop l : forall d idx,
  idx = length (E d) ->
  let st := fold_left (fun st edge => record_edge (fst edge) (snd edge) st) l (d, idx) in
  E st.1 = E d ++ l
  /\ st.2 = length (E d ++ l)
  /\ n_edges st.1 = n_edges d
  /\ G st.1 = fold_left (fun g e => add_edge (snd e) (fst e) g) l (G d)
  /\ (forall j, E_order st.1 !! j
        = if decide (length (E d) <= j < length (E d) + length l)%nat
          then l !! (j - length (E d))%nat else E_order d !! j)
  /\ (forall i, parent st.1 !! i
        = match last (filter (fun e => e.2 = i) l) with
          | Some e => Some e.1
          | None => parent d !! i
          end).
Proof.
  induction l as [|e l IH] using rev_ind; intros d idx Hidx.
  - simpl. rewrite app_nil_r. repeat split; try assumption; try reflexivity.
    intros j. simpl. rewrite decide_False by lia. reflexivity.
  - rewrite fold_left_app. cbn [fold_left].
    specialize (IH d idx Hidx). cbv zeta in IH.
    destruct (fold_left _ l (d, idx)) as [d1 idx1]. cbn [fst snd] in IH.
    destruct IH as (H1 & H2 & H3 & H4 & H5 & H6).
    destruct e as [p c].
    cbv zeta. unfold record_edge. cbn [fst snd E G parent E_order n_edges].
    split; [rewrite H1, app_assoc; reflexivity|].
    split; [rewrite H2, !length_app; simpl; lia|].
    split; [exact H3|].
    split; [rewrite fold_left_app, H4; reflexivity|].
    split.
    + intros j. subst idx1. rewrite !length_app. cbn [length].
      destruct (decide (j = length (E d) + length l)%nat) as [->|Hne].
      * rewrite lookup_insert_eq. rewrite decide_True by lia.
        rewrite lookup_app_r by lia.
        replace (length (E d) + length l - length (E d) - length l)%nat with 0%nat by lia.
        reflexivity.
      * rewrite lookup_insert_ne by lia. rewrite H5.
        destruct (decide (length (E d) <= j < length (E d) + length l)%nat).
        -- rewrite decide_True by lia. rewrite lookup_app_l by lia. reflexivity.
        -- rewrite decide_False by lia. reflexivity.
    + intros i. rewrite filter_app, last_app.
      destruct (decide (i = c)) as [->|Hne].
      * rewrite lookup_insert_eq. rewrite filter_cons_True by reflexivity.
        reflexivity.
      * rewrite lookup_insert_ne by congruence.
        rewrite filter_cons_False by (simpl; congruence). simpl. apply H6.
Qed.

(** X1: explicit mode records the listed edges as they come: [E] is the list,
    [E_order] enumerates it, [G] is built from it edge by edge, and the parent
    of a child is taken from the last listed edge that ends at it. *)
Theorem explicit_edges_recorded (edges_list : list (nat * nat)) :
  let d := _generate_edges_from_list edges_list in
  E d = edges_list
  /\ n_edges d = length edges_list
  /\ G d = graph_of edges_list
  /\ (forall j, E_order d !! j = edges_list !! j)
  /\ (forall i, parent d !! i
        = match last (filter (fun e => e.2 = i) edges_list) with
          | Some e => Some e.1
          | None => None
          end).
Proof.
  pose proof (record_loop edges_list deps_init 0%nat eq_refl) as H.
  cbv zeta in H. unfold _generate_edges_from_list.
  destruct (fold_left _ edges_list (deps_init, 0%nat)) as [d idx].
  cbn [fst snd] in H. destruct H as (H1 & H2 & H3 & H4 & H5 & H6).
  cbv zeta. unfold set_n_edges. cbn [E G parent E_order n_edges].
  simpl in H1. split; [exact H1|]. split; [rewrite H1; reflexivity|].
  split; [exact H4|]. split.
  - intros j. rewrite H5. simpl. rewrite Nat.sub_0_r.
    destruct (decide (0 <= j < length edges_list)%nat); [reflexivity|].
    rewrite lookup_empty. symmetry. apply lookup_ge_None_2. lia.
  - intros i. rewrite H6. simpl. rewrite lookup_empty. reflexivity.
Qed.



Lemma edges_loop_none s edge_prob len : forall b d idx pos,
  source_ok s -> edge_prob <= 0 ->
  fold_left (edges_step s edge_prob) (seq b len) (d, idx, pos)
  = (d, idx, (pos + len)%nat).
Proof.
  induction len as [|len IH]; intros b d idx pos Hs Hp.
  - simpl. rewrite Nat.add_0_r. reflexivity.
  - cbn [seq fold_left].
    assert (Hstep : edges_step s edge_prob (d, idx, pos) b = (d, idx, S pos)).
    { unfold edges_step, random. destruct Hs as [Hu _].
      destruct (Rlt_dec (uniform s pos) edge_prob) as [Hlt|_]; [|reflexivity].
      specialize (Hu pos). lra. }
    rewrite Hstep, IH by assumption. f_equal. lia.
Qed.

(** X2: in random mode with [edge_prob <= 0], as by default, no edge is
    recorded: the graph has no node at all, and only the [m] uniform draws are
    consumed. *)
Theorem random_edges_none (s : source) (m : nat) (edge_prob : R) (pos : nat) :
  source_ok s -> edge_prob <= 0 ->
  _generate_edges s m edge_prob pos = (deps_init, (pos + m)%nat).
Proof.
  intros Hs Hp. unfold _generate_edges.
  rewrite edges_loop_none by assumption. reflexivity.
Qed.

Lemma random_edges_none_witness :
  _generate_edges demo_source 3 0 0 = (deps_init, (0 + 3)%nat).
Proof. apply (random_edges_none demo_source 3 0 0 demo_source_ok). lra. Defined.

Lemma edges_step_full s edge_prob d idx pos b :
  source_ok s -> 1 <= edge_prob -> (0 < b)%nat ->
  edges_step s edge_prob (d, idx, pos) b
  = (record_edge (index s (S pos) b) b (d, idx), S (S pos)).
Proof.
  intros [Hu _] Hp Hb. unfold edges_step, random, choice.
  destruct (Rlt_dec (uniform s pos) edge_prob) as [_|Hn];
    [|specialize (Hu pos); lra].
  rewrite decide_True by exact Hb. reflexivity.
Qed.

Lemma edges_loop_full s edge_prob len : forall b d idx pos,
  source_ok s -> 1 <= edge_prob -> (0 < b)%nat ->
  map snd (E (fold_left (edges_step s edge_prob) (seq b len) (d, idx, pos)).1.1)
  = map snd (E d) ++ seq b len.
Proof.
  induction len as [|len IH]; intros b d idx pos Hs Hp Hb.
  - simpl. rewrite app_nil_r. reflexivity.
  - cbn [seq fold_left]. rewrite edges_step_full by assumption.
    unfold record_edge. rewrite IH by (assumption || lia).
    cbn [E]. rewrite map_app, <- app_assoc. reflexivity.
Qed.

Lemma connected_sym_graph_of El u v :
  connected (graph_of El) u v -> connected (graph_of El) v u.
Proof.
  induction 1 as [|u w v Huw _ IH]; [apply rtc_refl|].
  eapply rtc_r; [exact IH|].
  unfold adjacent in *. apply elem_of_neighbors_graph_of.
  apply elem_of_neighbors_graph_of in Huw. tauto.
Qed.

(** With [edge_prob >= 1] every source but the first draws a parent. *)
Lemma spanning_parents s m edge_prob pos :
  source_ok s -> 1 <= edge_prob ->
  let d := (_generate_edges s m edge_prob pos).1 in
  map snd (E d) = seq 1 (m - 1)
  /\ edges_inv m d (length (E d))
  /\ (forall i, (1 <= i < m)%nat -> exists p, (p, i) ∈ E d /\ (p < i)%nat).
Proof.
  intros Hs Hp.
  pose proof (edges_loop_inv s edge_prob m 0 deps_init 0 pos Hs edges_inv_init) as Hinv.
  cbv zeta in Hinv.
  assert (Hsnd : map snd (E (fold_left (edges_step s edge_prob) (seq 0 m)
                               (deps_init, 0%nat, pos)).1.1) = seq 1 (m - 1)).
  { destruct m as [|m]; [reflexivity|].
    cbn [seq fold_left].
    assert (Hstep0 : edges_step s edge_prob (deps_init, 0%nat, pos) 0
                     = (deps_init, 0%nat, S pos)).
    { unfold edges_step, random.
      destruct (Rlt_dec (uniform s pos) edge_prob); reflexivity. }
    rewrite Hstep0, edges_loop_full by (assumption || lia).
    simpl. rewrite Nat.sub_0_r. reflexivity. }
  unfold _generate_edges.
  destruct (fold_left (edges_step s edge_prob) (seq 0 m) (deps_init, 0%nat, pos))
    as [[d idx] pos'].
  cbn [fst snd] in *. unfold set_n_edges. cbn [E G parent n_edges].
  split; [exact Hsnd|].
  assert (Hinv' : edges_inv m {| G := G d; E := E d; parent := parent d;
                                 E_order := E_order d; n_edges := length (E d) |}
                    (length (E d))).
  { destruct Hinv as (H1 & H2 & H3 & H4 & H5 & H6).
    unfold edges_inv. cbn [E G parent E_order]. auto 10. }
  split; [exact Hinv'|].
  intros i Hi. destruct Hinv as (_ & _ & H3 & _).
  assert (Hin : i ∈ map snd (E d)) by (rewrite Hsnd; apply elem_of_seq; lia).
  apply list_elem_of_fmap in Hin as ([p c] & Hc & Hin). simpl in Hc. subst c.
  exists p. split; [exact Hin|]. apply H3 in Hin. lia.
Qed.

(** When every node but 0 has a smaller parent, every node is joined to
    node 0. *)
Lemma parents_connect (El : list (nat * nat)) (m : nat) :
  (forall i, (1 <= i < m)%nat -> exists p, (p, i) ∈ El /\ (p < i)%nat) ->
  forall i, (i < m)%nat -> connected (graph_of El) 0 i.
Proof.
  intros Hpar.
  assert (Hconn : forall n i, (i <= n)%nat -> (i < m)%nat ->
                    connected (graph_of El) 0 i).
  { induction n as [|n IHn]; intros i Hin Him.
    - replace i with 0%nat by lia. apply rtc_refl.
    - destruct (decide (i = 0%nat)) as [->|Hne]; [apply rtc_refl|].
      destruct (Hpar i ltac:(lia)) as (p & Hpi & Hlt).
      eapply rtc_r; [apply (IHn p); lia|].
      unfold adjacent. apply elem_of_neighbors_graph_of. left. exact Hpi. }
  intros i Hi. apply (Hconn i); lia.
Qed.

Lemma parents_nodes (El : list (nat * nat)) (m : nat) :
  (2 <= m)%nat ->
  (forall i, (1 <= i < m)%nat -> exists p, (p, i) ∈ El /\ (p < i)%nat) ->
  forall i, (i < m)%nat -> i ∈ dom (graph_of El).
Proof.
  intros Hm Hpar i Hi. apply elem_of_dom_graph_of.
  destruct (decide (i = 0%nat)) as [->|Hne].
  - destruct (Hpar 1%nat ltac:(lia)) as (p & Hp1 & Hlt).
    exists (p, 1%nat). split; [exact Hp1|]. left. simpl. lia.
  - destruct (Hpar i ltac:(lia)) as (p & Hpi & Hlt).
    exists (p, i). split; [exact Hpi|]. right. reflexivity.
Qed.

(** X3: in random mode with [edge_prob >= 1] the recorded edges form a
    spanning tree of the [m] sources: the children are 1, ..., m - 1 in this
    order, each with a parent of smaller index, and every source is a node of
    the graph, joined to node 0. *)
Theorem random_edges_spanning (s : source) (m : nat) (edge_prob : R) (pos : nat) :
  source_ok s -> 1 <= edge_prob ->
  let d := (_generate_edges s m edge_prob pos).1 in
  map snd (E d) = seq 1 (m - 1)
  /\ n_edges d = (m - 1)%nat
  /\ (forall i, (1 <= i < m)%nat ->
        exists p, parent d !! i = Some p /\ (p < i)%nat)
  /\ ((2 <= m)%nat -> forall i, (i < m)%nat ->
        i ∈ dom (G d) /\ connected (G d) 0 i).
Proof.
  intros Hs Hp d.
  destruct (spanning_parents s m edge_prob pos Hs Hp) as (Hsnd & Hinv & Hpar).
  fold d in Hsnd, Hinv, Hpar.
  destruct Hinv as (_ & _ & _ & H4 & _ & H6).
  split; [exact Hsnd|].
  split.
  { assert (Hn : n_edges d = length (E d))
      by (unfold d, _generate_edges;
          destruct (fold_left _ _ _) as [[d0 idx] pos']; reflexivity).
    rewrite Hn, <- (length_map snd (E d)), Hsnd. apply length_seq. }
  split.
  { intros i Hi. destruct (Hpar i Hi) as (p & Hin & Hlt).
    exists p. split; [apply H4; exact Hin|exact Hlt]. }
  intros Hm i Hi. rewrite H6. split.
  - exact (parents_nodes (E d) m Hm Hpar i Hi).
  - exact (parents_connect (E d) m Hpar i Hi).
Qed.

Lemma random_edges_spanning_witness :
  let d := (_generate_edges demo_source 3 1 0).1 in
  map snd (E d) = seq 1 (3 - 1)
  /\ n_edges d = (3 - 1)%nat
  /\ (forall i, (1 <= i < 3)%nat ->
        exists p, parent d !! i = Some p /\ (p < i)%nat)
  /\ ((2 <= 3)%nat -> forall i, (i < 3)%nat ->
        i ∈ dom (G d) /\ connected (G d) 0 i).
Proof. apply (random_edges_spanning demo_source 3 1 0 demo_source_ok). lra. Defined.

(** ** What the constructor needs of the graph *)

Lemma foldM_Ok_steps {A B} (f : A -> B -> result A) (l : list B) : forall a a',
  foldM f l a = Ok a' -> forall b, b ∈ l -> exists a0 a1, f a0 b = Ok a1.
Proof.
  induction l as [|b0 l IH]; intros a a' H b Hb.
  - apply elem_of_nil in Hb. contradiction.
  - simpl in H. apply bind_Ok_inv in H as (a1 & H1 & H2).
    apply elem_of_cons in Hb as [->|Hb]; [eauto|].
    exact (IH a1 a' H2 b Hb).
Qed.

Lemma naive_SPA_dom g El theta k i y o v :
  naive_SPA g El theta k i y o = Ok v -> i ∈ dom g.
Proof.
  unfold naive_SPA. intros H. apply bind_Ok_inv in H as (T & HT & _).
  unfold bfs_tree in HT. destruct (g !! i) eqn:Hi; [|discriminate].
  apply elem_of_dom. eauto.
Qed.

Lemma naive_SPA_missing g El theta k i y o :
  i ∉ dom g -> naive_SPA g El theta k i y o = Err KeyError.
Proof.
  intros Hi. unfold naive_SPA, bfs_tree.
  apply not_elem_of_dom in Hi. rewrite Hi. reflexivity.
Qed.

Lemma get_Z_dom g El theta k y z :
  get_Z g El theta k y = Ok z -> 0%nat ∈ dom g.
Proof.
  unfold get_Z. intros H. apply bind_Ok_inv in H as (v & Hv & _).
  exact (naive_SPA_dom _ _ _ _ _ _ _ _ Hv).
Qed.

Lemma P_vals_true_nodes g El theta m k t :
  P_vals_true g El theta m k = Ok t -> (1 <= k)%nat ->
  forall i, (i < m)%nat -> i ∈ dom g.
Proof.
  intros H Hk i Hi. unfold P_vals_true in H.
  destruct (foldM_Ok_steps _ _ _ _ H 1%nat) as (t0 & t1 & Hy).
  { apply elem_of_seq. lia. }
  apply bind_Ok_inv in Hy as (Z & _ & Hy).
  destruct (foldM_Ok_steps _ _ _ _ Hy i) as (t2 & t3 & Hi').
  { apply elem_of_seq. lia. }
  destruct (foldM_Ok_steps _ _ _ _ Hi' 0%nat) as (t4 & t5 & Hv).
  { apply elem_of_seq. lia. }
  apply bind_Ok_inv in Hv as (v & Hv & _).
  exact (naive_SPA_dom _ _ _ _ _ _ _ _ Hv).
Qed.

Lemma P_fours_true_nodes g El theta k a b c d v1 v2 v3 v4 y x :
  P_fours_true g El theta k a b c d v1 v2 v3 v4 y = Ok x ->
  0%nat ∈ dom g /\ a ∈ dom g.
Proof.
  unfold P_fours_true. intros H.
  apply bind_Ok_inv in H as (Z & HZ & H).
  apply bind_Ok_inv in H as (v & Hv & _).
  split; [exact (get_Z_dom _ _ _ _ _ _ HZ)|exact (naive_SPA_dom _ _ _ _ _ _ _ _ Hv)].
Qed.

Lemma moment_phase_nodes linalg_cond d theta m k p mo :
  moment_phase linalg_cond d theta m k p = Ok mo ->
  0%nat ∈ dom (G d) /\ 1%nat ∈ dom (G d)
  /\ ((1 <= k)%nat -> forall i, (i < m)%nat -> i ∈ dom (G d)).
Proof.
  unfold moment_phase. intros H.
  apply bind_Ok_inv in H as (p_solo & H1 & H).
  apply bind_Ok_inv in H as (p_joints & _ & H).
  apply bind_Ok_inv in H as (x & H3 & _).
  destruct (P_fours_true_nodes _ _ _ _ _ _ _ _ _ _ _ _ _ _ H3) as [H0 Ha].
  split; [exact H0|]. split; [exact Ha|].
  intros Hk. exact (P_vals_true_nodes _ _ _ _ _ _ H1 Hk).
Qed.

Lemma init_moments linalg_cond linalg_inv s n m k cb tr ep ter el gen :
  __init__ linalg_cond linalg_inv s n m k cb tr ep ter el = Ok gen ->
  exists mo pos,
    init_attributes s m k cb tr ep ter el
    = Ok (self_deps gen, self_theta gen, self_p gen, pos)
    /\ moment_phase linalg_cond (self_deps gen) (self_theta gen) m k (self_p gen)
       = Ok mo.
Proof.
  unfold __init__. intros H.
  apply bind_Ok_inv in H as ([[[d theta] p] pos] & Hattr & H).
  unfold _generate_label_matrix in H.
  apply bind_Ok_inv in H as (mo & Hmo & H).
  apply bind_Ok_inv in H as (sig_inv & _ & H).
  apply bind_Ok_inv in H as (st & _ & H).
  injection H as <-. cbn. eauto.
Qed.

(** X4: a constructed generator has nodes 0 and 1 in its graph and, when
    there is a class at all, every source: a source without an edge makes the
    engine raise, so that construction needs every source to have an edge. *)
Theorem constructed_nodes (linalg_cond : list (list R) -> result R)
    (linalg_inv : list (list R) -> result (list (list R))) (s : source)
    (n m k : nat) (class_balance : balance) (theta_range : R * R) (edge_prob : R)
    (theta_edge_range : R * R) (edges_list : option (list (nat * nat)))
    (gen : generator) :
  __init__ linalg_cond linalg_inv s n m k class_balance theta_range edge_prob
    theta_edge_range edges_list = Ok gen ->
  0%nat ∈ dom (G (self_deps gen))
  /\ 1%nat ∈ dom (G (self_deps gen))
  /\ ((1 <= k)%nat -> forall i, (i < m)%nat -> i ∈ dom (G (self_deps gen))).
Proof.
  intros H. destruct (init_moments _ _ _ _ _ _ _ _ _ _ _ _ H) as (mo & pos & _ & Hmo).
  exact (moment_phase_nodes _ _ _ _ _ _ _ Hmo).
Qed.

Lemma constructed_nodes_witness :
  exists gen,
    __init__ cond_quiet inv_quiet demo_source 1 2 2 (BalanceGiven [1/2; 1/2])
      (0, 0) 0 (0, 0) (Some pair_edges) = Ok gen
    /\ 0%nat ∈ dom (G (self_deps gen))
    /\ 1%nat ∈ dom (G (self_deps gen))
    /\ ((1 <= 2)%nat -> forall i, (i < 2)%nat -> i ∈ dom (G (self_deps gen))).
Proof.
  destruct pair_construction as (gen & Hgen & _). exists gen.
  split; [exact Hgen|].
  exact (constructed_nodes cond_quiet inv_quiet demo_source 1 2 2
           (BalanceGiven [1/2; 1/2]) (0, 0) 0 (0, 0) (Some pair_edges) gen Hgen).
Defined.

Lemma moment_phase_empty linalg_cond d theta m k p :
  G d = ∅ -> moment_phase linalg_cond d theta m k p = Err KeyError.
Proof.
  intros HG. unfold moment_phase. rewrite HG.
  assert (HZ : forall y, get_Z ∅ (E d) theta k y = Err KeyError).
  { intros y. unfold get_Z. rewrite naive_SPA_missing; [reflexivity|].
    rewrite dom_empty. apply not_elem_of_empty. }
  destruct k as [|k].
  - unfold P_vals_true, P_joints_true, P_fours_true. cbn [seq foldM].
    rewrite !bind_Ok, HZ. reflexivity.
  - unfold P_vals_true. cbn [seq foldM]. rewrite HZ. reflexivity.
Qed.

(** X5: in random mode with [edge_prob <= 0], which is the default, the
    constructor raises [KeyError], whatever the other arguments (but for
    [class_balance = None] with [k = 0], where [1/k] raises first). *)
Theorem default_construction_fails (linalg_cond : list (list R) -> result R)
    (linalg_inv : list (list R) -> result (list (list R))) (s : source)
    (n m k : nat) (class_balance : balance) (theta_range : R * R) (edge_prob : R)
    (theta_edge_range : R * R) :
  source_ok s -> edge_prob <= 0 ->
  class_balance <> BalanceNone \/ k <> 0%nat ->
  __init__ linalg_cond linalg_inv s n m k class_balance theta_range edge_prob
    theta_edge_range None = Err KeyError.
Proof.
  intros Hs Hp Hcb. unfold __init__, init_attributes, _generate_edges.
  rewrite edges_loop_none by assumption.
  change (set_n_edges deps_init) with deps_init.
  destruct (_generate_params s m k (E deps_init) theta_range theta_edge_range (0 + m))
    as [theta pos].
  assert (Hbal : exists p pos', class_balance_vector s k class_balance pos = Ok (p, pos')).
  { unfold class_balance_vector. destruct class_balance as [| |p0].
    - destruct (decide (k = 0%nat)) as [->|_]; [destruct Hcb; congruence|eauto].
    - destruct (random_vec s k pos). eauto.
    - eauto. }
  destruct Hbal as (p & pos' & ->). rewrite !bind_Ok. cbn [fst snd].
  unfold _generate_label_matrix. rewrite moment_phase_empty by reflexivity.
  reflexivity.
Qed.

Lemma default_construction_fails_witness :
  __init__ cond_quiet inv_quiet demo_source 10 5 2 BalanceRandom (1/10, 1) 0
    (1/10, 1) None = Err KeyError.
Proof.
  apply (default_construction_fails cond_quiet inv_quiet demo_source 10 5 2
           BalanceRandom (1/10, 1) 0 (1/10, 1) demo_source_ok).
  - lra.
  - left. discriminate.
Defined.
(** With three classes or more the flattened index [2 * m] lies below
    [m * k] and is decoded as node [m]: the entry of [O_true] at [(0, 2 * m)]
    runs the engine from node [m]. *)
Lemma O_entry_beyond_sources g El E_order theta m k p p_solo Z_vals sm :
  (3 <= k)%nat -> (1 <= m)%nat ->
  O_entry g El E_order theta m k p p_solo Z_vals 0 (2 * m) = Ok sm ->
  m ∈ dom g.
Proof.
  intros Hk Hm H. unfold O_entry, _get_node_index in H.
  rewrite decide_True in H by nia. rewrite decide_True in H by nia.
  rewrite !bind_Ok in H.
  replace (2 * m / 2)%nat with m in H by (rewrite Nat.mul_comm, Nat.div_mul; lia).
  change (0 / 2)%nat with 0%nat in H.
  replace (2 * m - 2 * m + 1)%nat with 1%nat in H by lia.
  cbn [od_set Nat.mul Nat.sub Nat.add od_consistent forallb od_get fst snd] in H.
  assert (Hm0 : Nat.eqb m 0 = false) by (apply Nat.eqb_neq; lia).
  rewrite Hm0 in H. cbn [andb] in H.
  unfold od_merge in H. cbn [fold_left od_set fst snd] in H.
  assert (H0m : Nat.eqb 0 m = false) by (apply Nat.eqb_neq; lia).
  rewrite H0m in H. unfold od_popitem in H.
  cbn [last removelast] in H. rewrite bind_Ok in H. cbn [fst snd] in H.
  destruct (foldM_Ok_steps _ _ _ _ H 1%nat) as (a0 & a1 & Hy).
  { apply elem_of_seq. lia. }
  cbn [length] in Hy. rewrite decide_False in Hy by lia.
  apply bind_Ok_inv in Hy as (v & Hv & _).
  exact (naive_SPA_dom _ _ _ _ _ _ _ _ Hv).
Qed.

Lemma true_O_beyond_sources g El E_order n_edges theta m k p p_solo O :
  _generate_true_O g El E_order n_edges theta m k p p_solo true = Ok O ->
  (3 <= k)%nat -> (1 <= m)%nat -> m ∈ dom g.
Proof.
  intros H Hk Hm. unfold _generate_true_O in H.
  apply bind_Ok_inv in H as (Z_vals & _ & H).
  assert (Hsz : (2 * m < moment_size n_edges m k true)%nat) by (unfold moment_size; nia).
  destruct (foldM_Ok_steps _ _ _ _ H 0%nat) as (a0 & a1 & H1).
  { apply elem_of_seq. lia. }
  destruct (foldM_Ok_steps _ _ _ _ H1 (2 * m)%nat) as (a2 & a3 & H2).
  { apply elem_of_seq. lia. }
  apply bind_Ok_inv in H2 as (sm & Hsm & _).
  exact (O_entry_beyond_sources _ _ _ _ _ _ _ _ _ _ Hk Hm Hsm).
Qed.

Lemma random_nodes_bound s m edge_prob pos x :
  source_ok s -> x ∈ dom (G (_generate_edges s m edge_prob pos).1) -> (x < m)%nat.
Proof.
  intros Hs. unfold _generate_edges.
  pose proof (edges_loop_inv s edge_prob m 0 deps_init 0 pos Hs edges_inv_init) as Hinv.
  cbv zeta in Hinv.
  destruct (fold_left (edges_step s edge_prob) (seq 0 m) (deps_init, 0%nat, pos))
    as [[d idx] pos'].
  cbn [fst snd] in *. unfold set_n_edges. cbn [G].
  destruct Hinv as (_ & _ & H3 & _ & _ & H6). rewrite H6.
  intros Hx. apply elem_of_dom_graph_of in Hx as ([p c] & Hin & Hx).
  apply H3 in Hin. simpl in Hx. lia.
Qed.

Lemma init_attributes_random s m k cb tr ep ter d theta p pos :
  init_attributes s m k cb tr ep ter None = Ok (d, theta, p, pos) ->
  d = (_generate_edges s m ep 0).1.
Proof.
  unfold init_attributes.
  destruct (_generate_edges s m ep 0) as [d0 pos0].
  destruct (_generate_params s m k (E d0) tr ter pos0) as [theta0 pos1].
  intros H. apply bind_Ok_inv in H as (bal & _ & H).
  injection H as <- _ _ _. reflexivity.
Qed.

Lemma random_mode_no_generator linalg_cond linalg_inv s n m k cb tr ep ter gen :
  source_ok s -> (3 <= k)%nat ->
  __init__ linalg_cond linalg_inv s n m k cb tr ep ter None <> Ok gen.
Proof.
  intros Hs Hk H.
  destruct (init_moments _ _ _ _ _ _ _ _ _ _ _ _ H) as (mo & pos & Hattr & Hmo).
  apply init_attributes_random in Hattr.
  destruct (decide (m = 0)%nat) as [->|Hm].
  - destruct (moment_phase_nodes _ _ _ _ _ _ _ Hmo) as (H0 & _).
    rewrite Hattr in H0. apply (random_nodes_bound s 0 ep 0 0 Hs) in H0. lia.
  - destruct (moment_phase_spec _ _ _ _ _ _ _ Hmo) as (_ & _ & _ & HO & _).
    apply true_O_beyond_sources in HO; [|exact Hk|lia].
    rewrite Hattr in HO. apply (random_nodes_bound s m ep 0 m Hs) in HO. lia.
Qed.

(** X6: in random mode with three classes or more the constructor always
    raises: the index arithmetic of [_get_node_index] is that of two classes
    and sends [_generate_true_O] to node [m], which random mode never
    creates. *)
Theorem random_mode_three_classes (linalg_cond : list (list R) -> result R)
    (linalg_inv : list (list R) -> result (list (list R))) (s : source)
    (n m k : nat) (class_balance : balance) (theta_range : R * R) (edge_prob : R)
    (theta_edge_range : R * R) :
  source_ok s -> (3 <= k)%nat ->
  exists e, __init__ linalg_cond linalg_inv s n m k class_balance theta_range
              edge_prob theta_edge_range None = Err e.
Proof.
  intros Hs Hk.
  destruct (__init__ linalg_cond linalg_inv s n m k class_balance theta_range
              edge_prob theta_edge_range None) as [gen|e] eqn:H; [|eauto].
  exfalso. exact (random_mode_no_generator _ _ _ _ _ _ _ _ _ _ _ Hs Hk H).
Qed.

(** X7: [HierarchicalMultiTaskTreeDepsGenerator] calls the single-task
    constructor in random mode with [k = 4]: its constructor always raises. *)
Theorem hierarchical_never_constructs (linalg_cond : list (list R) -> result R)
    (linalg_inv : list (list R) -> result (list (list R))) (s : source)
    (task_t : nat) (feasible_set : list (list nat))
    (n m : nat) (theta_range : R * R) (edge_prob : R) (theta_edge_range : R * R) :
  source_ok s ->
  exists e, Hierarchical__init__ linalg_cond linalg_inv s task_t feasible_set
              n m theta_range edge_prob theta_edge_range = Err e.
Proof.
  intros Hs. unfold Hierarchical__init__.
  destruct (__init__ linalg_cond linalg_inv s n m 4 BalanceRandom theta_range
              edge_prob theta_edge_range None) as [gen|e] eqn:H.
  - exfalso.
    eapply random_mode_no_generator; [exact Hs| |exact H]. lia.
  - exists e. reflexivity.
Qed.

Lemma random_mode_three_classes_witness :
  exists e, __init__ cond_quiet inv_quiet demo_source 10 5 3 BalanceRandom
              (1/10, 1) 1 (1/10, 1) None = Err e.
Proof.
  apply (random_mode_three_classes cond_quiet inv_quiet demo_source 10 5 3
           BalanceRandom (1/10, 1) 1 (1/10, 1) demo_source_ok).
  lia.
Defined.

Lemma hierarchical_never_constructs_witness :
  exists e, Hierarchical__init__ cond_quiet inv_quiet demo_source 3
              [[1; 1; 1]; [1; 1; 2]; [1; 2; 1]; [1; 2; 2]]%nat
              10 5 (0, 3/2) 1 (-1, 1) = Err e.
Proof.
  apply (hierarchical_never_constructs cond_quiet inv_quiet demo_source 3
           [[1; 1; 1]; [1; 1; 2]; [1; 2; 1]; [1; 2; 2]]%nat
           10 5 (0, 3/2) 1 (-1, 1) demo_source_ok).
Defined.

(** ** The scope of the fixed nodes in the engine *)

Lemma val_range_clamp k o o' node :
  clamp o node = clamp o' node -> val_range k o node = val_range k o' node.
Proof.
  unfold clamp, val_range. destruct o as [o|], o' as [o'|]; simpl.
  - intros ->. reflexivity.
  - intros ->. reflexivity.
  - intros <-. reflexivity.
  - reflexivity.
Qed.

Lemma grows_connected g vs T :
  grows g vs T -> forall c, c ∈ map snd T -> exists v, v ∈ vs /\ connected g v c.
Proof.
  induction 1 as [vs|vs p c0 T Hp Hc0 Hnb _ IH]; intros c Hc.
  - apply elem_of_nil in Hc. contradiction.
  - simpl in Hc. apply elem_of_cons in Hc as [->|Hc].
    + exists p. split; [exact Hp|]. apply rtc_once. exact Hnb.
    + destruct (IH c Hc) as (v & Hv & Hvc).
      apply elem_of_cons in Hv as [->|Hv].
      * exists p. split; [exact Hp|]. eapply rtc_l; [exact Hnb|exact Hvc].
      * exists v. split; assumption.
Qed.

Lemma bfs_tree_grows g i T : bfs_tree g i = Ok T -> grows g [i] T.
Proof.
  unfold bfs_tree. destruct (g !! i); [|discriminate]. intros [= <-].
  apply bfs_levels_grows. auto.
Qed.

(** The nodes for which the loops of [naive_SPA] compute a message lie
    below the root, in its component. *)
Lemma processed_nodes g k i T messages depths max_depth d nodes x :
  bfs_tree g i = Ok T ->
  fold_left (init_step k) (shortest_path_length T i) (∅, ∅, 0%nat)
  = (messages, depths, max_depth) ->
  (1 <= d)%nat -> depths !! d = Some nodes -> x ∈ nodes ->
  x <> i /\ connected g i x.
Proof.
  intros HT Hinit Hd Hnodes Hx. apply bfs_tree_grows in HT.
  pose proof (init_loop_spec k (shortest_path_length T i)) as Hspec.
  rewrite Hinit in Hspec. destruct Hspec as (_ & Hdep & _ & _).
  rewrite Hdep in Hnodes.
  assert (Hin : x ∈ nodes_at (shortest_path_length T i) d).
  { destruct (nodes_at (shortest_path_length T i) d); [discriminate|].
    injection Hnodes as <-. exact Hx. }
  apply elem_of_nodes_at in Hin.
  assert (Hdl0 : forall z, z ∈ map fst [(i, 0%nat)] <-> z ∈ [i]) by reflexivity.
  destruct (dist_list_spec g [i] T HT [(i, 0%nat)] Hdl0) as (_ & _ & _ & H4).
  apply H4 in Hin as [Hin|[Hin _]].
  - apply list_elem_of_singleton in Hin. injection Hin as _ Hd0. lia.
  - split.
    + intros ->. apply (grows_child_fresh g [i] T HT i Hin). left.
    + destruct (grows_connected g [i] T HT x Hin) as (v & Hv & Hvx).
      apply list_elem_of_singleton in Hv. subst v. exact Hvx.
Qed.

(** X8: [naive_SPA] reads [other_nodes] at the nodes of the root's component
    other than the root, and nowhere else: fixing the root itself, or a node
    of another component, changes nothing. *)
Theorem naive_SPA_clamp_scope (g : gmap nat (list nat)) (El : list (nat * nat))
    (theta : gmap tkey (list R)) (k i y : nat)
    (other_nodes other_nodes' : option (gmap nat nat)) :
  (forall x, x <> i -> connected g i x ->
     clamp other_nodes x = clamp other_nodes' x) ->
  naive_SPA g El theta k i y other_nodes = naive_SPA g El theta k i y other_nodes'.
Proof.
  intros Hagree. unfold naive_SPA.
  destruct (bfs_tree g i) as [T|e] eqn:HT; [|reflexivity]. rewrite !bind_Ok.
  destruct (fold_left (init_step k) (shortest_path_length T i) (∅, ∅, 0%nat))
    as [[messages depths] max_depth] eqn:Hinit.
  rewrite (foldM_ext_in (depth_step El theta k T y other_nodes depths)
             (depth_step El theta k T y other_nodes' depths)); [reflexivity|].
  intros msgs d Hd. apply elem_of_rev, elem_of_seq in Hd.
  unfold depth_step. destruct (depths !! d) as [nodes|] eqn:Hnodes; [|reflexivity].
  apply foldM_ext_in. intros msgs1 x Hx.
  destruct (processed_nodes g k i T messages depths max_depth d nodes x
              HT Hinit ltac:(lia) Hnodes Hx) as [Hne Hconn].
  unfold node_step. apply foldM_ext_in. intros msgs2 val_p _.
  unfold mess. rewrite (val_range_clamp k other_nodes other_nodes' x); [reflexivity|].
  apply Hagree; assumption.
Qed.

Lemma split_component x :
  connected (graph_of split_edges) 0 x -> x = 0%nat \/ x = 1%nat.
Proof.
  assert (Hgen : forall a b, connected (graph_of split_edges) a b ->
                   a = 0%nat \/ a = 1%nat -> b = 0%nat \/ b = 1%nat).
  { induction 1 as [|a b c Hab _ IH]; intros Ha; [exact Ha|].
    apply IH. unfold adjacent in Hab.
    apply elem_of_neighbors_graph_of in Hab. unfold split_edges in Hab.
    rewrite !elem_of_cons, !elem_of_nil in Hab.
    destruct Hab as [Hab|Hab]; repeat (destruct Hab as [Hab|Hab]);
      try contradiction; injection Hab as -> ->; lia. }
  intros H. apply (Hgen 0%nat x H). left. reflexivity.
Qed.

Lemma naive_SPA_clamp_scope_witness :
  naive_SPA (graph_of split_edges) split_edges split_theta 2 0 1
    (Some (<[0%nat := 1%nat]> (<[2%nat := 0%nat]> ∅)))
  = naive_SPA (graph_of split_edges) split_edges split_theta 2 0 1 None.
Proof.
  apply (naive_SPA_clamp_scope (graph_of split_edges) split_edges split_theta 2 0 1).
  intros x Hx Hconn. apply split_component in Hconn as [-> | ->]; [congruence|].
  reflexivity.
Defined.

(** ** The table of single-source probabilities *)

Lemma fold_insert_lookup {K A} `{Countable K} (F : K -> A) (l : list K) :
  forall (t0 : gmap K A) key,
  fold_left (fun t key => <[key := F key]> t) l t0 !! key
  = if decide (key ∈ l) then Some (F key) else t0 !! key.
Proof.
  induction l as [|key0 l IH] using rev_ind; intros t0 key.
  - rewrite decide_False by apply not_elem_of_nil. reflexivity.
  - rewrite fold_left_app. cbn [fold_left].
    destruct (decide (key = key0)) as [->|Hne].
    + rewrite lookup_insert_eq. rewrite decide_True; [reflexivity|].
      apply elem_of_app. right. left.
    + rewrite lookup_insert_ne by congruence. rewrite IH.
      destruct (decide (key ∈ l)) as [Hin|Hnin].
      * rewrite decide_True; [reflexivity|]. apply elem_of_app. left. exact Hin.
      * rewrite decide_False; [reflexivity|].
        rewrite elem_of_app, list_elem_of_singleton. tauto.
Qed.

Lemma elem_of_solo_keys m k i val y :
  (i, val, y) ∈ solo_keys m k <-> (i < m)%nat /\ (val <= k)%nat /\ (1 <= y <= k)%nat.
Proof.
  unfold solo_keys. rewrite elem_of_concat. split.
  - intros (l & Hin & Hl).
    apply list_elem_of_fmap in Hl as (y0 & -> & Hy0).
    apply elem_of_concat in Hin as (l & Hin & Hl).
    apply list_elem_of_fmap in Hl as (i0 & -> & Hi0).
    apply list_elem_of_fmap in Hin as (val0 & Heq & Hval0).
    injection Heq as -> -> ->.
    apply elem_of_seq in Hy0, Hi0, Hval0. lia.
  - intros (Hi & Hval & Hy).
    eexists. split; [|apply list_elem_of_fmap; exists y; split;
                       [reflexivity|apply elem_of_seq; lia]].
    apply elem_of_concat. eexists.
    split; [|apply list_elem_of_fmap; exists i; split;
              [reflexivity|apply elem_of_seq; lia]].
    apply list_elem_of_fmap. exists val. split; [reflexivity|apply elem_of_seq; lia].
Qed.

Section SoloTable.
Variable g : gmap nat (list nat).
Variable El : list (nat * nat).
Variable theta : gmap tkey (list R).
Variables m k : nat.

(** When the engine returns for every source and class, [P_vals_true]
    returns the table of the entries over [solo_keys]. *)
Lemma P_vals_true_forward :
  (forall y, (1 <= y <= k)%nat -> exists Z, get_Z g El theta k y = Ok Z) ->
  (forall i y, (i < m)%nat -> (1 <= y <= k)%nat ->
     exists v, naive_SPA g El theta k i y None = Ok v /\ (k < length v)%nat) ->
  P_vals_true g El theta m k
  = Ok (fold_left (fun t key => <[key := solo_entry g El theta k key]> t)
          (solo_keys m k) ∅).
Proof.
  intros HZ HV. unfold P_vals_true, solo_keys.
  rewrite fold_left_concat, fold_left_fmap.
  rewrite (foldM_ext_in _ (fun t y => Ok
             (fold_left (fun t key => <[key := solo_entry g El theta k key]> t)
                (concat (map (fun i => map (fun val => (i, val, y)) (seq 0 (k + 1)))
                           (seq 0 m))) t))); [apply foldM_pure|].
  intros t y Hy. apply elem_of_seq in Hy.
  destruct (HZ y ltac:(lia)) as [Z HZy]. rewrite HZy, bind_Ok.
  rewrite fold_left_concat, fold_left_fmap.
  rewrite (foldM_ext_in _ (fun t i => Ok
             (fold_left (fun t key => <[key := solo_entry g El theta k key]> t)
                (map (fun val => (i, val, y)) (seq 0 (k + 1))) t))); [apply foldM_pure|].
  intros t1 i Hi. apply elem_of_seq in Hi.
  destruct (HV i y ltac:(lia) ltac:(lia)) as (v & Hv & Hlen).
  rewrite fold_left_fmap.
  rewrite (foldM_ext_in _ (fun t val => Ok
             (<[(i, val, y) := solo_entry g El theta k (i, val, y)]> t)));
    [apply foldM_pure|].
  intros t2 val Hval. apply elem_of_seq in Hval.
  rewrite Hv, bind_Ok.
  destruct (lookup_lt_is_Some_2 v val ltac:(lia)) as [x Hx].
  unfold getitem. rewrite Hx, bind_Ok.
  unfold solo_entry. rewrite Hv, HZy.
  rewrite (nth_lookup_Some _ _ _ _ Hx). reflexivity.
Qed.

Lemma P_vals_true_steps t :
  P_vals_true g El theta m k = Ok t ->
  (forall y, (1 <= y <= k)%nat -> exists Z, get_Z g El theta k y = Ok Z)
  /\ (forall i y, (i < m)%nat -> (1 <= y <= k)%nat ->
        exists v, naive_SPA g El theta k i y None = Ok v /\ (k < length v)%nat).
Proof.
  intros H. unfold P_vals_true in H. split.
  - intros y Hy.
    destruct (foldM_Ok_steps _ _ _ _ H y) as (t0 & t1 & Hy').
    { apply elem_of_seq. lia. }
    apply bind_Ok_inv in Hy' as (Z & HZ & _). eauto.
  - intros i y Hi Hy.
    destruct (foldM_Ok_steps _ _ _ _ H y) as (t0 & t1 & Hy').
    { apply elem_of_seq. lia. }
    apply bind_Ok_inv in Hy' as (Z & _ & Hy').
    destruct (foldM_Ok_steps _ _ _ _ Hy' i) as (t2 & t3 & Hi').
    { apply elem_of_seq. lia. }
    destruct (foldM_Ok_steps _ _ _ _ Hi' k) as (t4 & t5 & Hv).
    { apply elem_of_seq. lia. }
    apply bind_Ok_inv in Hv as (v & Hv & Hx).
    apply bind_Ok_inv in Hx as (x & Hx & _).
    exists v. split; [exact Hv|].
    apply getitem_Ok in Hx. exact (lookup_lt_Some _ _ _ Hx).
Qed.
End SoloTable.

(** X9: after [P_vals_true] the table holds, under each key [(i, val, y)] with
    [i < m], [val <= k] and [1 <= y <= k], the entry [val] of
    [naive_SPA(i, y)] divided by [get_Z(y)], and nothing under any other
    key. *)
Theorem P_vals_true_table (g : gmap nat (list nat)) (El : list (nat * nat))
    (theta : gmap tkey (list R)) (m k : nat) (p_solo : gmap (nat * nat * nat) R) :
  P_vals_true g El theta m k = Ok p_solo ->
  (forall i val y, (i < m)%nat -> (val <= k)%nat -> (1 <= y <= k)%nat ->
     exists v x Z,
       naive_SPA g El theta k i y None = Ok v /\ v !! val = Some x
       /\ get_Z g El theta k y = Ok Z
       /\ p_solo !! (i, val, y) = Some (x / Z))
  /\ (forall i val y, ~ ((i < m)%nat /\ (val <= k)%nat /\ (1 <= y <= k)%nat) ->
        p_solo !! (i, val, y) = None).
Proof.
  intros H. destruct (P_vals_true_steps g El theta m k p_solo H) as [HZ HV].
  rewrite (P_vals_true_forward g El theta m k HZ HV) in H. injection H as <-.
  split.
  - intros i val y Hi Hval Hy.
    destruct (HV i y Hi Hy) as (v & Hv & Hlen). destruct (HZ y Hy) as [Z HZy].
    destruct (lookup_lt_is_Some_2 v val ltac:(lia)) as [x Hx].
    exists v, x, Z. repeat split; try assumption.
    rewrite fold_insert_lookup, decide_True by (apply elem_of_solo_keys; lia).
    unfold solo_entry. rewrite Hv, HZy, (nth_lookup_Some _ _ _ _ Hx). reflexivity.
  - intros i val y Hout.
    rewrite fold_insert_lookup, decide_False by (rewrite elem_of_solo_keys; exact Hout).
    apply lookup_empty.
Qed.
Lemma phi_pos theta y x v : 0 < phi theta y x v.
Proof. unfold phi. destruct (decide (0 < v)%nat); [apply exp_pos|lra]. Qed.

Lemma psi_pos El theta y a b va vb : 0 < psi El theta y a b va vb.
Proof.
  unfold psi. destruct (decide (0 < vb /\ 0 < va)%nat); [|lra].
  destruct (bool_decide ((a, b) ∈ El)); apply exp_pos.
Qed.

Lemma prodR_pos (l : list R) : Forall (fun x => 0 < x) l -> 0 < prodR l.
Proof.
  induction 1 as [|x l Hx _ IH]; simpl; [lra|].
  apply Rmult_lt_0_compat; assumption.
Qed.

Lemma sumR_nonneg (l : list R) : Forall (fun x => 0 < x) l -> 0 <= sumR l.
Proof. induction 1 as [|x l Hx _ IH]; simpl; lra. Qed.

Lemma sumR_pos (l : list R) : l <> [] -> Forall (fun x => 0 < x) l -> 0 < sumR l.
Proof.
  intros Hne H. destruct H as [|x l Hx Hl]; [congruence|].
  simpl. pose proof (sumR_nonneg l Hl). lra.
Qed.

Lemma Forall_map_pos {A} (f : A -> R) (l : list A) :
  (forall x, x ∈ l -> 0 < f x) -> Forall (fun x => 0 < x) (map f l).
Proof.
  intros H. apply Forall_forall. intros x Hx.
  apply list_elem_of_fmap in Hx as (a & -> & Ha). exact (H a Ha).
Qed.

Section Positive.
Variable El : list (nat * nat).
Variable theta : gmap tkey (list R).
Variables k y r : nat.
Variables T dl : list (nat * nat).
Variable messages : gmap nat (list R).
Hypothesis Hst : search_tree (graph_of El) r T dl.
Hypothesis Heq : equations_on El theta k y T (fun _ => True) messages.

Lemma messages_positive : forall par x vp,
  (par, x) ∈ T -> (vp <= k)%nat -> 0 < mget messages x vp.
Proof.
  destruct (dist_bounded El r T dl Hst) as [D HD].
  assert (Hind : forall n par x vp, (par, x) ∈ T -> (D - dist_of dl x <= n)%nat ->
                   (vp <= k)%nat -> 0 < mget messages x vp).
  { induction n as [|n IH]; intros par x vp Hpx Hn Hvp;
      rewrite (Heq par x vp I Hpx Hvp); unfold message_value;
      (apply sumR_pos; [rewrite Nat.add_1_r; discriminate|]);
      apply Forall_map_pos; intros v Hv; apply elem_of_seq in Hv;
      (apply Rmult_lt_0_compat;
        [apply Rmult_lt_0_compat; [apply phi_pos|apply psi_pos]|]);
      apply prodR_pos, Forall_map_pos; intros c Hc;
      apply elem_of_children in Hc;
      pose proof (st_edge _ _ _ _ Hst x c Hc) as Hdc;
      assert (Hcin : in_tree r T c)
        by (right; apply list_elem_of_fmap; exists (x, c); split; [reflexivity|exact Hc]);
      pose proof (HD c Hcin) as Hcb.
    - lia.
    - apply (IH x c v Hc); lia. }
  intros par x vp Hpx Hvp. apply (Hind (D - dist_of dl x)%nat par x vp Hpx); [lia|exact Hvp].
Qed.

Lemma root_value_positive v :
  (v <= k)%nat -> 0 < root_value theta y T messages r v.
Proof.
  intros Hv. unfold root_value. apply Rmult_lt_0_compat; [apply phi_pos|].
  apply prodR_pos, Forall_map_pos. intros c Hc. apply elem_of_children in Hc.
  exact (messages_positive r c v Hc Hv).
Qed.
End Positive.

Lemma naive_SPA_positive_run El theta k y r :
  theta_ok El theta k y (graph_of El) -> r ∈ dom (graph_of El) ->
  exists v,
    naive_SPA (graph_of El) El theta k r y None = Ok v
    /\ length v = (k + 1)%nat
    /\ Forall (fun x => 0 < x) v.
Proof.
  intros Hth Hr.
  destruct (naive_SPA_run (graph_of El) El theta k y r (graph_of_wf El) Hth)
    as (T & messages & HT & Hst & Htab & Heq & Hrun); [|exact Hr|].
  { intros u v Huv. apply elem_of_neighbors_graph_of. exact Huv. }
  eexists. split; [exact Hrun|]. split.
  - rewrite length_map, length_seq. reflexivity.
  - apply Forall_map_pos. intros v Hv. apply elem_of_seq in Hv.
    apply (root_value_positive El theta k y r T _ messages Hst Heq). lia.
Qed.



Lemma sumR_nth (v : list R) :
  sumR (map (fun i => nth i v 0) (seq 0 (length v))) = sumR v.
Proof.
  induction v as [|x v IH] using rev_ind; [reflexivity|].
  rewrite length_app, Nat.add_1_r, seq_S, map_app, !sumR_app. simpl.
  rewrite app_nth2, Nat.sub_diag by lia. simpl. f_equal.
  rewrite <- IH. apply sumR_map_ext_in. intros i Hi. apply elem_of_seq in Hi.
  apply app_nth1. lia.
Qed.

Section SoloNormalised.
Variable El : list (nat * nat).
Variable theta : gmap tkey (list R).
Variables m k : nat.
Hypothesis Hforest : forest_edges El.
Hypothesis Hth : forall y, (1 <= y <= k)%nat -> theta_ok El theta k y (graph_of El).
Hypothesis H0 : 0%nat ∈ dom (graph_of El).
Hypothesis Hconn : forall i, (i < m)%nat -> connected (graph_of El) 0 i.

Lemma solo_engine_ok i y :
  (i < m)%nat -> (1 <= y <= k)%nat ->
  exists v, naive_SPA (graph_of El) El theta k i y None = Ok v
            /\ length v = (k + 1)%nat /\ Forall (fun x => 0 < x) v.
Proof.
  intros Hi Hy. apply naive_SPA_positive_run; [apply Hth, Hy|].
  exact (connected_dom El 0 i (Hconn i Hi) H0).
Qed.

Lemma solo_Z_ok y :
  (1 <= y <= k)%nat ->
  exists v, naive_SPA (graph_of El) El theta k 0 y None = Ok v
            /\ get_Z (graph_of El) El theta k y = Ok (sumR v)
            /\ 0 < sumR v.
Proof.
  intros Hy.
  destruct (naive_SPA_positive_run El theta k y 0 (Hth y Hy) H0)
    as (v & Hv & Hlen & Hpos).
  exists v. split; [exact Hv|]. split; [unfold get_Z; rewrite Hv; reflexivity|].
  apply sumR_pos; [|exact Hpos]. destruct v; [simpl in Hlen; lia|discriminate].
Qed.

Lemma solo_forward_ok :
  P_vals_true (graph_of El) El theta m k
  = Ok (fold_left (fun t key => <[key := solo_entry (graph_of El) El theta k key]> t)
          (solo_keys m k) ∅).
Proof.
  apply P_vals_true_forward.
  - intros y Hy. destruct (solo_Z_ok y Hy) as (v & _ & Hz & _). eauto.
  - intros i y Hi Hy. destruct (solo_engine_ok i y Hi Hy) as (v & Hv & Hlen & _).
    exists v. split; [exact Hv|lia].
Qed.

Lemma solo_row_sum i y :
  (i < m)%nat -> (1 <= y <= k)%nat ->
  sumR (map (fun val =>
               dd_get (fold_left (fun t key =>
                         <[key := solo_entry (graph_of El) El theta k key]> t)
                         (solo_keys m k) ∅) (i, val, y))
          (seq 0 (k + 1))) = 1.
Proof.
  intros Hi Hy.
  destruct (solo_engine_ok i y Hi Hy) as (v & Hv & Hlen & _).
  destruct (solo_Z_ok y Hy) as (v0 & Hv0 & Hz & Hpos).
  pose proof (spa_connected El theta k y Hforest (Hth y Hy) 0 i v0 v
                (Hconn i Hi) Hv0 Hv) as Hsame.
  rewrite (sumR_map_ext_in _ (fun val => / sumR v0 * nth val v 0)).
  - rewrite <- sumR_scal_l. rewrite <- Hlen, sumR_nth, <- Hsame. field. lra.
  - intros val Hval. apply elem_of_seq in Hval.
    unfold dd_get, dd_read.
    rewrite fold_insert_lookup, decide_True by (apply elem_of_solo_keys; lia).
    unfold solo_entry. rewrite Hv, Hz. simpl. unfold Rdiv. ring.
Qed.
End SoloNormalised.


(** X13: the joint table is symmetric under the exchange of the two sources,
    and holds nothing for a source paired with itself. *)
Theorem P_joints_true_symmetric (g : gmap nat (list nat)) (El : list (nat * nat))
    (theta : gmap tkey (list R)) (m k : nat)
    (p_joints : gmap (nat * nat * nat * nat * nat) R) :
  P_joints_true g El theta m k = Ok p_joints ->
  (forall i vi j vj y, p_joints !! (j, vj, i, vi, y) = p_joints !! (i, vi, j, vj, y))
  /\ (forall i vi vj y, p_joints !! (i, vi, i, vj, y) = None).
Proof.
  set (Inv := fun t : gmap (nat * nat * nat * nat * nat) R =>
    (forall i vi j vj y, t !! (j, vj, i, vi, y) = t !! (i, vi, j, vj, y))
    /\ (forall i vi vj y, t !! (i, vi, i, vj, y) = None)).
  unfold P_joints_true. apply (foldM_invariant Inv).
  2:{ split; intros; rewrite !lookup_empty; reflexivity. }
  intros t0 y t0' Ht0 _ Hy. apply bind_Ok_inv in Hy as (Z & _ & Hy).
  revert Hy. apply (foldM_invariant Inv); [|exact Ht0].
  intros t1 i t1' Ht1 _. apply (foldM_invariant Inv); [|exact Ht1].
  intros t2 j t2' Ht2 Hj. apply elem_of_seq in Hj.
  apply (foldM_invariant Inv); [|exact Ht2].
  intros t3 val1 t3' Ht3 _. apply (foldM_invariant Inv); [|exact Ht3].
  intros t4 val2 t4' [Hsym Hdiag] _ Hstep.
  apply bind_Ok_inv in Hstep as (v & _ & Hstep).
  apply bind_Ok_inv in Hstep as (x & _ & Hstep).
  injection Hstep as <-.
  unfold dd_get, dd_read. rewrite lookup_insert_eq. cbn [dd_float].
  split.
  - intros a va b vb c.
    destruct (decide ((b, vb, a, va, c) = (j, val2, i, val1, y))) as [E1|N1].
    + injection E1 as -> -> -> -> ->. rewrite lookup_insert_eq.
      destruct (decide ((i, val1, j, val2, y) = (j, val2, i, val1, y))) as [E2|N2].
      * rewrite E2, lookup_insert_eq. reflexivity.
      * rewrite lookup_insert_ne by congruence. rewrite lookup_insert_eq. reflexivity.
    + rewrite (lookup_insert_ne _ (j, val2, i, val1, y) (b, vb, a, va, c)) by congruence.
      destruct (decide ((b, vb, a, va, c) = (i, val1, j, val2, y))) as [E3|N3].
      * injection E3 as -> -> -> -> ->. rewrite !lookup_insert_eq. reflexivity.
      * rewrite (lookup_insert_ne _ (i, val1, j, val2, y) (b, vb, a, va, c)) by congruence.
        rewrite !lookup_insert_ne by congruence. apply Hsym.
  - intros a va vb c.
    rewrite !lookup_insert_ne by (intros [=]; lia). apply Hdiag.
Qed.

Lemma chain_edges_range p c :
  (p, c) ∈ chain_edges -> (p < c)%nat /\ (p < 3)%nat /\ (c < 3)%nat.
Proof.
  intros H. unfold chain_edges in H.
  repeat (apply elem_of_cons in H as [H|H]; [injection H as -> ->; lia|]).
  apply elem_of_nil in H. contradiction.
Qed.

Lemma chain_forest : forest_edges chain_edges.
Proof.
  split.
  - apply (bool_decide_unpack _). vm_compute. exact I.
  - exists (fun n => n). intros p c H. apply chain_edges_range in H. lia.
Qed.

Lemma chain_theta_ok y :
  (1 <= y <= 2)%nat -> theta_ok chain_edges chain_theta 2 y (graph_of chain_edges).
Proof.
  intros Hy. unfold chain_theta. apply generate_params_theta_ok; [|exact Hy].
  intros p c H. apply chain_edges_range in H. lia.
Qed.

Lemma chain_nodes i : (i < 3)%nat -> connected (graph_of chain_edges) 0 i.
Proof.
  apply (parents_connect chain_edges 3). intros j Hj.
  destruct (decide (j = 1%nat)) as [->|Hne].
  - exists 0%nat. split; [left|lia].
  - replace j with 2%nat by lia. exists 1%nat. split; [right; left|lia].
Qed.

Lemma chain_root : 0%nat ∈ dom (graph_of chain_edges).
Proof. apply elem_of_dom_graph_of. exists (0, 1)%nat. split; [left|left; reflexivity]. Qed.




Lemma P_vals_true_table_witness :
  exists p_solo,
    P_vals_true (graph_of split_edges) split_edges
      (const_theta 5 2 split_edges (1/10)) 5 2 = Ok p_solo
    /\ (forall i val y, (i < 5)%nat -> (val <= 2)%nat -> (1 <= y <= 2)%nat ->
          exists v x Z,
            naive_SPA (graph_of split_edges) split_edges
              (const_theta 5 2 split_edges (1/10)) 2 i y None = Ok v
            /\ v !! val = Some x
            /\ get_Z (graph_of split_edges) split_edges
                 (const_theta 5 2 split_edges (1/10)) 2 y = Ok Z
            /\ p_solo !! (i, val, y) = Some (x / Z))
    /\ (forall i val y, ~ ((i < 5)%nat /\ (val <= 2)%nat /\ (1 <= y <= 2)%nat) ->
          p_solo !! (i, val, y) = None).
Proof.
  pose proof split_p_solo_sum as H.
  destruct (P_vals_true (graph_of split_edges) split_edges
              (const_theta 5 2 split_edges (1/10)) 5 2) as [p_solo|e] eqn:Hp;
    [|contradiction].
  exists p_solo. split; [reflexivity|].
  exact (P_vals_true_table (graph_of split_edges) split_edges
           (const_theta 5 2 split_edges (1/10)) 5 2 p_solo Hp).
Defined.

Lemma P_joints_true_symmetric_witness :
  exists p_joints,
    P_joints_true (graph_of split_edges) split_edges
      (const_theta 5 2 split_edges (1/10)) 5 2 = Ok p_joints
    /\ (forall i vi j vj y,
          p_joints !! (j, vj, i, vi, y) = p_joints !! (i, vi, j, vj, y))
    /\ (forall i vi vj y, p_joints !! (i, vi, i, vj, y) = None).
Proof.
  pose proof split_p_joints_sum as H.
  destruct (P_vals_true (graph_of split_edges) split_edges
              (const_theta 5 2 split_edges (1/10)) 5 2) as [p_solo|e];
    [|contradiction].
  destruct (P_joints_true (graph_of split_edges) split_edges
              (const_theta 5 2 split_edges (1/10)) 5 2) as [p_joints|e] eqn:Hp;
    [|contradiction].
  exists p_joints. split; [reflexivity|].
  exact (P_joints_true_symmetric (graph_of split_edges) split_edges
           (const_theta 5 2 split_edges (1/10)) 5 2 p_joints Hp).
Defined.

Lemma foldM_fmap {A B C} (f : A -> C -> result A) (h : B -> C) (l : list B) :
  forall a, foldM f (map h l) a = foldM (fun a b => f a (h b)) l a.
Proof.
  induction l as [|b l IH]; intros a; simpl; [reflexivity|].
  destruct (f a (h b)); simpl; [apply IH|reflexivity].
Qed.

Lemma foldM_concat {A B} (f : A -> B -> result A) (ls : list (list B)) :
  forall a, foldM f (concat ls) a = foldM (fun a l => foldM f l a) ls a.
Proof.
  induction ls as [|l ls IH]; intros a; simpl; [reflexivity|].
  rewrite foldM_app. destruct (foldM f l a); simpl; [apply IH|reflexivity].
Qed.

Lemma set2_lookup {A} (mu : list (list A)) r row v x :
  mu !! r = Some row ->
  set2 mu r v x = (row' ← setitem row v x; Ok (<[r := row']> mu)).
Proof.
  intros Hrow. unfold set2, getitem. rewrite Hrow, bind_Ok.
  destruct (setitem row v x); [|reflexivity]. rewrite !bind_Ok.
  unfold setitem. rewrite decide_True by exact (lookup_lt_Some _ _ _ Hrow).
  reflexivity.
Qed.

(** Writing the entries of one row, column by column. *)
Lemma set2_row_loop (F : nat -> R) (r : nat) (l : list nat) :
  forall (mu : list (list R)) row,
  mu !! r = Some row ->
  foldM (fun mu v => set2 mu r v (F v)) l mu
  = (row' ← foldM (fun row v => setitem row v (F v)) l row; Ok (<[r := row']> mu)).
Proof.
  induction l as [|v l IH]; intros mu row Hrow.
  - simpl. rewrite list_insert_id by exact Hrow. reflexivity.
  - cbn [foldM]. rewrite (set2_lookup mu r row v (F v) Hrow).
    destruct (setitem row v (F v)) as [row1|e] eqn:Hset; [|reflexivity].
    rewrite !bind_Ok.
    rewrite (IH _ row1).
    + destruct (foldM _ l row1); simpl; [|reflexivity].
      rewrite list_insert_insert_eq. reflexivity.
    + apply list_lookup_insert_eq. exact (lookup_lt_Some _ _ _ Hrow).
Qed.

Lemma write_row (f : nat -> R) (k r : nat) (mu : list (list R)) row :
  mu !! r = Some row -> length row = k ->
  foldM (fun mu y => set2 mu r (y - 1) (f y)) (seq 1 k) mu
  = Ok (<[r := map f (seq 1 k)]> mu).
Proof.
  intros Hrow Hlen.
  rewrite <- (fmap_S_seq 0 k).
  change (S <$> seq 0 k) with (map S (seq 0 k)). rewrite foldM_fmap.
  rewrite (foldM_ext_in _ (fun mu v => set2 mu r v (f (S v)))).
  2:{ intros a b _. simpl. rewrite Nat.sub_0_r. reflexivity. }
  rewrite (set2_row_loop (fun v => f (S v)) r (seq 0 k) mu row Hrow).
  pose proof (fill_vector (fun v => Ok (f (S v))) (fun v => f (S v)) k
                (fun v _ => eq_refl) 0 row Hlen ltac:(lia)) as Hfill.
  rewrite Nat.sub_0_r in Hfill. cbn [take app] in Hfill.
  rewrite (foldM_ext_in _ (fun acc v => x ← Ok (f (S v)); setitem acc v x))
    by reflexivity.
  rewrite Hfill, bind_Ok. rewrite map_map. reflexivity.
Qed.

(** Writing consecutive rows from the offset [off], with a running index. *)
Lemma write_rows {B} (body : list (list R) * nat -> B -> result (list (list R) * nat))
    (rowf : B -> list R) (mu0 : list (list R)) (l : list B) :
  forall off mu,
  (off + length l <= length mu)%nat ->
  (forall j, (off <= j)%nat -> mu !! j = mu0 !! j) ->
  (forall b mu' idx, b ∈ l -> (idx < length mu')%nat -> mu' !! idx = mu0 !! idx ->
     body (mu', idx) b = Ok (<[idx := rowf b]> mu', S idx)) ->
  foldM body l (mu, off)
  = Ok (take off mu ++ map rowf l ++ drop (off + length l) mu, (off + length l)%nat).
Proof.
  induction l as [|b l IH]; intros off mu Hlen Hrest Hbody.
  - simpl. rewrite Nat.add_0_r, take_drop. reflexivity.
  - cbn [foldM length] in *.
    rewrite (Hbody b mu off); [|left|lia|apply Hrest; lia]. rewrite bind_Ok.
    rewrite IH.
    + f_equal. f_equal; [|lia].
      rewrite (take_S_r _ off (rowf b))
        by (apply list_lookup_insert_eq; lia).
      rewrite take_insert_ge by lia.
      rewrite drop_insert_lt by lia.
      rewrite <- app_assoc. simpl.
      replace (S (off + length l))%nat with (off + S (length l))%nat by lia.
      reflexivity.
    + rewrite length_insert. lia.
    + intros j Hj. rewrite list_lookup_insert_ne by lia. apply Hrest. lia.
    + intros b' mu' idx Hb'. apply Hbody. right. exact Hb'.
Qed.

(** Writing rows at the indices given by [idxf], which follow the order of
    the list from the offset [off]. *)
Lemma write_rows_at {B} (body : list (list R) -> B -> result (list (list R)))
    (rowf : B -> list R) (idxf : B -> nat) (mu0 : list (list R)) (l : list B) :
  forall off mu,
  (off + length l <= length mu)%nat ->
  (forall j, (off <= j)%nat -> mu !! j = mu0 !! j) ->
  (forall j b, l !! j = Some b -> idxf b = (off + j)%nat) ->
  (forall b mu', b ∈ l -> (idxf b < length mu')%nat ->
     mu' !! idxf b = mu0 !! idxf b ->
     body mu' b = Ok (<[idxf b := rowf b]> mu')) ->
  foldM body l mu
  = Ok (take off mu ++ map rowf l ++ drop (off + length l) mu).
Proof.
  induction l as [|b l IH]; intros off mu Hlen Hrest Hidx Hbody.
  - simpl. rewrite Nat.add_0_r, take_drop. reflexivity.
  - cbn [foldM length] in *.
    assert (Hb : idxf b = off) by (rewrite (Hidx 0%nat b eq_refl); lia).
    rewrite (Hbody b mu); [|left|lia|rewrite Hb; apply Hrest; lia].
    rewrite bind_Ok, Hb. rewrite (IH (S off)).
    + f_equal.
      rewrite (take_S_r _ off (rowf b))
        by (apply list_lookup_insert_eq; lia).
      rewrite take_insert_ge by lia.
      rewrite drop_insert_lt by lia.
      rewrite <- app_assoc. simpl.
      replace (S (off + length l))%nat with (off + S (length l))%nat by lia.
      reflexivity.
    + rewrite length_insert. lia.
    + intros j Hj. rewrite list_lookup_insert_ne by lia. apply Hrest. lia.
    + intros j b' Hj. rewrite (Hidx (S j) b' Hj). lia.
    + intros b' mu' Hb'. apply Hbody. right. exact Hb'.
Qed.

Lemma solo_row_keys_S m k :
  solo_row_keys (S m) k = solo_row_keys m k ++ map (fun val1 => (m, val1)) (seq 1 k).
Proof.
  unfold solo_row_keys. rewrite seq_S, map_app, concat_app. simpl.
  rewrite app_nil_r. reflexivity.
Qed.

Lemma length_solo_row_keys m k : length (solo_row_keys m k) = (m * k)%nat.
Proof.
  induction m as [|m IH]; [reflexivity|].
  rewrite solo_row_keys_S, length_app, length_map, length_seq, IH. lia.
Qed.

Lemma solo_row_keys_lookup m k j i val1 :
  solo_row_keys m k !! j = Some (i, val1) ->
  (i * k + val1 - 1)%nat = j /\ (i < m)%nat /\ (1 <= val1 <= k)%nat.
Proof.
  induction m as [|m IH]; [discriminate|].
  rewrite solo_row_keys_S. intros H.
  apply lookup_app_Some in H as [H|[Hge H]].
  - apply IH in H. lia.
  - rewrite length_solo_row_keys in Hge, H.
    rewrite list_lookup_fmap in H.
    destruct (seq 1 k !! (j - m * k)%nat) as [v|] eqn:Hv; [|discriminate].
    injection H as <- <-. apply lookup_seq in Hv as [-> Hlt]. lia.
Qed.

Lemma length_joint_row_keys El k :
  length (joint_row_keys El k) = (length El * k ^ 2)%nat.
Proof.
  unfold joint_row_keys. induction El as [|e El IH]; [reflexivity|].
  cbn [map concat length]. rewrite length_app, IH. f_equal.
  assert (Hin : forall n, length (concat (map (fun val1 =>
             map (fun val2 => (e, val1, val2)) (seq 1 k)) (seq 1 n))) = (n * k)%nat).
  { induction n as [|n IHn]; [reflexivity|].
    rewrite seq_S, map_app, concat_app, length_app, IHn. simpl.
    rewrite app_nil_r, length_map, length_seq. lia. }
  rewrite Hin. simpl. lia.
Qed.

Lemma zeros_lookup sz k j :
  (j < sz)%nat -> zeros sz k !! j = Some (replicate k 0).
Proof. intros Hj. unfold zeros. apply lookup_replicate_2. exact Hj. Qed.

Section MuRows.
Variable El : list (nat * nat).
Variables m k : nat.
Variable p_solo : gmap (nat * nat * nat) R.
Variable p_joints : gmap (nat * nat * nat * nat * nat) R.

Lemma mu_solo_phase sz :
  (m * k <= sz)%nat ->
  foldM (fun mu i =>
           foldM (fun mu val1 =>
             foldM (fun mu y =>
               set2 mu (i * k + val1 - 1) (y - 1) (dd_get p_solo (i, val1, y)))
               (seq 1 k) mu)
             (seq 1 k) mu)
    (seq 0 m) (zeros sz k)
  = Ok (mu_rows_solo m k p_solo ++ zeros (sz - m * k) k).
Proof.
  intros Hsz.
  set (body := fun (mu : list (list R)) (key : nat * nat) =>
         foldM (fun mu y =>
                  set2 mu (key.1 * k + key.2 - 1) (y - 1)
                    (dd_get p_solo (key.1, key.2, y)))
           (seq 1 k) mu).
  transitivity (foldM body (solo_row_keys m k) (zeros sz k)).
  { unfold solo_row_keys. rewrite foldM_concat, foldM_fmap.
    apply foldM_ext_in. intros mu i _. rewrite foldM_fmap. reflexivity. }
  rewrite (write_rows_at body
             (fun key => map (fun y => dd_get p_solo (key.1, key.2, y)) (seq 1 k))
             (fun key => (key.1 * k + key.2 - 1)%nat)
             (zeros sz k) (solo_row_keys m k) 0 (zeros sz k)).
  - rewrite length_solo_row_keys. unfold zeros.
    rewrite take_0, drop_replicate. reflexivity.
  - rewrite length_solo_row_keys. unfold zeros. rewrite length_replicate. lia.
  - reflexivity.
  - intros j [i val1] Hj. apply solo_row_keys_lookup in Hj. simpl. lia.
  - intros [i val1] mu' _ Hlt Hrow. cbn [fst snd] in *.
    unfold body. cbn [fst snd].
    destruct (lookup_lt_is_Some_2 mu' _ Hlt) as [row Hrow'].
    apply (write_row _ k _ mu' row Hrow').
    rewrite Hrow' in Hrow. symmetry in Hrow.
    unfold zeros in Hrow. apply lookup_replicate in Hrow as [-> _].
    apply length_replicate.
Qed.

Lemma mu_joint_phase (mu : list (list R)) :
  length mu = (m * k + length El * k ^ 2)%nat ->
  Forall (fun row => length row = k) mu ->
  foldM (fun st e =>
           foldM (fun st val1 =>
             foldM (fun st val2 =>
               mu ← foldM (fun mu y =>
                      set2 mu st.2 (y - 1)
                        (dd_get p_joints (e.1, val1, e.2, val2, y)))
                      (seq 1 k) st.1;
               Ok (mu, S st.2))
               (seq 1 k) st)
             (seq 1 k) st)
    El (mu, (m * k)%nat)
  = Ok (take (m * k) mu ++ mu_rows_joint El k p_joints,
        (m * k + length El * k ^ 2)%nat).
Proof.
  intros Hlen Hrows.
  set (body := fun (st : list (list R) * nat) (key : nat * nat * nat * nat) =>
         mu ← foldM (fun mu y =>
                set2 mu st.2 (y - 1)
                  (dd_get p_joints (key.1.1.1, key.1.2, key.1.1.2, key.2, y)))
                (seq 1 k) st.1;
         Ok (mu, S st.2)).
  transitivity (foldM body (joint_row_keys El k) (mu, (m * k)%nat)).
  { unfold joint_row_keys. rewrite foldM_concat, foldM_fmap.
    apply foldM_ext_in. intros st e _. rewrite foldM_concat, foldM_fmap.
    apply foldM_ext_in. intros st1 val1 _. rewrite foldM_fmap. reflexivity. }
  rewrite (write_rows body
             (fun key => map (fun y =>
                dd_get p_joints (key.1.1.1, key.1.2, key.1.1.2, key.2, y)) (seq 1 k))
             mu (joint_row_keys El k) (m * k) mu).
  - rewrite length_joint_row_keys.
    rewrite (drop_ge mu) by lia. rewrite app_nil_r. reflexivity.
  - rewrite length_joint_row_keys. lia.
  - reflexivity.
  - intros key mu' idx _ Hlt Hrow. unfold body. cbn [fst snd].
    destruct (lookup_lt_is_Some_2 mu' _ Hlt) as [row Hrow'].
    rewrite (write_row _ k _ mu' row Hrow'); [reflexivity|].
    rewrite Hrow' in Hrow. symmetry in Hrow.
    exact (Forall_lookup_1 _ _ _ _ Hrows Hrow).
Qed.
End MuRows.

Lemma mu_rows_solo_shape m k p_solo :
  length (mu_rows_solo m k p_solo) = (m * k)%nat
  /\ Forall (fun row => length row = k) (mu_rows_solo m k p_solo).
Proof.
  unfold mu_rows_solo. split.
  - rewrite length_map. apply length_solo_row_keys.
  - apply Forall_forall. intros row Hrow.
    apply list_elem_of_fmap in Hrow as (key & -> & _).
    rewrite length_map. apply length_seq.
Qed.

(** X14: [_generate_true_mu] never raises, and fills [mu_true] row by row: the
    rows of the sources and label values, followed with [higher_order] by
    the rows of the edges and pairs of label values. *)
Theorem generate_true_mu_rows (El : list (nat * nat)) (m k : nat)
    (p_solo : gmap (nat * nat * nat) R)
    (p_joints : gmap (nat * nat * nat * nat * nat) R) :
  _generate_true_mu El (length El) m k p_solo p_joints true
  = Ok (mu_rows_solo m k p_solo ++ mu_rows_joint El k p_joints)
  /\ _generate_true_mu El (length El) m k p_solo p_joints false
     = Ok (mu_rows_solo m k p_solo).
Proof.
  destruct (mu_rows_solo_shape m k p_solo) as [Hlen Hrows].
  unfold _generate_true_mu, moment_size. split.
  - rewrite mu_solo_phase by lia. rewrite bind_Ok.
    rewrite (mu_joint_phase El m k p_joints).
    + rewrite bind_Ok. cbn [fst]. rewrite take_app_length' by (symmetry; exact Hlen).
      reflexivity.
    + rewrite length_app, Hlen. unfold zeros. rewrite length_replicate. lia.
    + apply Forall_app. split; [exact Hrows|].
      unfold zeros. apply Forall_replicate, length_replicate.
  - rewrite mu_solo_phase by lia. rewrite bind_Ok.
    rewrite Nat.sub_diag. unfold zeros. simpl. rewrite app_nil_r. reflexivity.
Qed.

Lemma joint_row_keys_two_cons e El :
  joint_row_keys (e :: El) 2
  = [(e, 1, 1); (e, 1, 2); (e, 2, 1); (e, 2, 2)]%nat ++ joint_row_keys El 2.
Proof. reflexivity. Qed.

Lemma joint_row_keys_two_lookup El : forall j e v1 v2,
  joint_row_keys El 2 !! j = Some (e, v1, v2) ->
  El !! (j / 4)%nat = Some e
  /\ v1 = ((j - 4 * (j / 4)) / 2 + 1)%nat
  /\ v2 = ((j - 4 * (j / 4)) mod 2 + 1)%nat.
Proof.
  induction El as [|e0 El IH]; intros j e v1 v2 H; [discriminate|].
  rewrite joint_row_keys_two_cons in H.
  destruct (decide (j < 4)%nat) as [Hlt|Hge].
  - rewrite lookup_app_l in H by (simpl; lia).
    rewrite (Nat.div_small j 4) by lia. rewrite Nat.mul_0_r, Nat.sub_0_r.
    destruct j as [|[|[|[|j]]]]; [| | | |lia];
      injection H as <- <- <-; repeat split; reflexivity.
  - rewrite lookup_app_r in H by (simpl; lia). cbn [length] in H.
    apply IH in H as (He & Hv1 & Hv2).
    assert (Hdiv : (j / 4 = S ((j - 4) / 4))%nat).
    { replace j with ((j - 4) + 1 * 4)%nat at 1 by lia.
      rewrite Nat.div_add by lia. lia. }
    rewrite Hdiv. split; [exact He|].
    replace (j - 4 * S ((j - 4) / 4))%nat with (j - 4 - 4 * ((j - 4) / 4))%nat by lia.
    split; assumption.
Qed.

(** X15: for two classes [_get_node_index] decodes the index of a row of
    [mu_true] into the sources and label values of that row, and raises
    [KeyError] beyond the last row. *)
Theorem get_node_index_decodes_rows (m : nat) (El : list (nat * nat))
    (E_order : gmap nat (nat * nat)) :
  (forall j, E_order !! j = El !! j) ->
  (forall j i val1, solo_row_keys m 2 !! j = Some (i, val1) ->
     _get_node_index m 2 E_order j = Ok [(i, val1)])
  /\ (forall j a b v1 v2,
        joint_row_keys El 2 !! j = Some ((a, b), v1, v2) -> a <> b ->
        _get_node_index m 2 E_order (m * 2 + j) = Ok [(a, v1); (b, v2)])
  /\ (forall idx, (m * 2 + 4 * length El <= idx)%nat ->
        _get_node_index m 2 E_order idx = Err KeyError).
Proof.
  intros Horder. split; [|split].
  - intros j i val1 Hj. apply solo_row_keys_lookup in Hj as (Hj & Hi & Hval).
    unfold _get_node_index. rewrite decide_True by lia.
    assert (Hdiv : (j / 2)%nat = i).
    { symmetry. apply (Nat.div_unique j 2 i (val1 - 1)); lia. }
    rewrite Hdiv. cbn [od_set]. repeat f_equal. lia.
  - intros j a b v1 v2 Hj Hab.
    apply joint_row_keys_two_lookup in Hj as (He & -> & ->).
    unfold _get_node_index. rewrite decide_False by lia.
    replace (m * 2 + j - m * 2)%nat with j by lia.
    rewrite Horder, He. cbn [fst snd od_set].
    assert (Hne : Nat.eqb a b = false) by (apply Nat.eqb_neq; exact Hab).
    rewrite Hne. reflexivity.
  - intros idx Hidx. unfold _get_node_index. rewrite decide_False by lia.
    rewrite Horder.
    rewrite (lookup_ge_None_2 El); [reflexivity|].
    apply Nat.div_le_lower_bound; lia.
Qed.

Lemma get_node_index_decodes_rows_witness :
  (forall j i val1, solo_row_keys 2 2 !! j = Some (i, val1) ->
     _get_node_index 2 2 (E_order pair_deps) j = Ok [(i, val1)])
  /\ (forall j a b v1 v2,
        joint_row_keys pair_edges 2 !! j = Some ((a, b), v1, v2) -> a <> b ->
        _get_node_index 2 2 (E_order pair_deps) (2 * 2 + j) = Ok [(a, v1); (b, v2)])
  /\ (forall idx, (2 * 2 + 4 * length pair_edges <= idx)%nat ->
        _get_node_index 2 2 (E_order pair_deps) idx = Err KeyError).
Proof.
  apply (get_node_index_decodes_rows 2 pair_edges (E_order pair_deps)).
  assert (Ho : E_order pair_deps = <[0%nat := (0, 1)%nat]> ∅)
    by (vm_compute; reflexivity).
  intros j. rewrite Ho. destruct j as [|j]; [reflexivity|].
  rewrite lookup_insert_ne by lia. rewrite lookup_empty. reflexivity.
Defined.


(** Writing a whole row from entries that can raise. *)
Lemma write_row_entries (f : nat -> result R) (F : nat -> R) (n r : nat)
    (mu : list (list R)) row :
  mu !! r = Some row -> length row = n ->
  (forall b, (b < n)%nat -> f b = Ok (F b)) ->
  foldM (fun mu b => sm ← f b; set2 mu r b sm) (seq 0 n) mu
  = Ok (<[r := map F (seq 0 n)]> mu).
Proof.
  intros Hrow Hlen Hf.
  rewrite (foldM_ext_in _ (fun mu b => set2 mu r b (F b))).
  2:{ intros a b Hb. apply elem_of_seq in Hb. rewrite Hf by lia. reflexivity. }
  rewrite (set2_row_loop F r (seq 0 n) mu row Hrow).
  pose proof (fill_vector (fun v => Ok (F v)) F n (fun v _ => eq_refl) 0 row Hlen
                ltac:(lia)) as Hfill.
  rewrite Nat.sub_0_r in Hfill. cbn [take app] in Hfill.
  rewrite (foldM_ext_in _ (fun acc v => x ← Ok (F v); setitem acc v x))
    by reflexivity.
  rewrite Hfill, bind_Ok. reflexivity.
Qed.

Section TrueO.
Variable g : gmap nat (list nat).
Variable El : list (nat * nat).
Variable E_order : gmap nat (nat * nat).
Variable n_edges : nat.
Variable theta : gmap tkey (list R).
Variables m k : nat.
Variable p : list R.
Variable p_solo : gmap (nat * nat * nat) R.
Variable higher_order : bool.

Let sz := moment_size n_edges m k higher_order.

(** Every cell of [O_true] holds the number computed for its pair of
    indices. *)
Lemma true_O_cells O :
  _generate_true_O g El E_order n_edges theta m k p p_solo higher_order = Ok O ->
  exists Z_vals,
    forall a b, (a < sz)%nat -> (b < sz)%nat ->
      exists sm,
        O_entry g El E_order theta m k p p_solo Z_vals a b = Ok sm
        /\ get2 O a b = Ok sm.
Proof.
  unfold _generate_true_O. fold sz. intros H.
  apply bind_Ok_inv in H as (Z_vals & _ & H). exists Z_vals.
  set (entry := O_entry g El E_order theta m k p p_solo Z_vals) in *.
  set (F := fun a b => match entry a b with Ok sm => sm | Err _ => 0 end).
  assert (Hentry : forall a b, (a < sz)%nat -> (b < sz)%nat -> entry a b = Ok (F a b)).
  { intros a b Ha Hb.
    destruct (foldM_Ok_steps _ _ _ _ H a) as (O0 & O1 & H1).
    { apply elem_of_seq. lia. }
    destruct (foldM_Ok_steps _ _ _ _ H1 b) as (O2 & O3 & H2).
    { apply elem_of_seq. lia. }
    apply bind_Ok_inv in H2 as (sm & Hsm & _).
    unfold F. rewrite Hsm. reflexivity. }
  rewrite (write_rows_at _ (fun a => map (F a) (seq 0 sz)) (fun a => a)
             (zeros sz sz) (seq 0 sz) 0 (zeros sz sz)) in H.
  - injection H as <-. intros a b Ha Hb. exists (F a b).
    split; [apply Hentry; assumption|].
    rewrite length_seq. unfold zeros. rewrite drop_replicate.
    rewrite Nat.sub_diag. cbn [replicate]. rewrite app_nil_r.
    unfold get2, getitem.
    rewrite list_lookup_fmap, lookup_seq_lt by exact Ha. simpl.
    rewrite list_lookup_fmap, lookup_seq_lt by exact Hb. reflexivity.
  - rewrite length_seq. unfold zeros. rewrite length_replicate. lia.
  - reflexivity.
  - intros j a Hj. apply lookup_seq in Hj. lia.
  - intros a O' Ha Hlt Hrow. apply elem_of_seq in Ha.
    destruct (lookup_lt_is_Some_2 O' _ Hlt) as [row Hrow'].
    apply (write_row_entries (entry a) (F a) sz a O' row Hrow').
    + rewrite Hrow' in Hrow. symmetry in Hrow.
      unfold zeros in Hrow. apply lookup_replicate in Hrow as [-> _].
      apply length_replicate.
    + intros b Hb. apply Hentry; lia.
Qed.
End TrueO.

Lemma od_set_same i v : od_set [(i, v)] i v = [(i, v)].
Proof. simpl. rewrite Nat.eqb_refl. reflexivity. Qed.

(** X16: the cells of [O_true]: 0 where the two indices give one source two
    different label values, and on the diagonal of a single source and label
    value the probability of that value, summed over the classes with the
    class balance. *)
Theorem true_O_entries (g : gmap nat (list nat)) (El : list (nat * nat))
    (E_order : gmap nat (nat * nat)) (n_edges : nat) (theta : gmap tkey (list R))
    (m k : nat) (p : list R) (p_solo : gmap (nat * nat * nat) R)
    (higher_order : bool) (O : list (list R)) :
  _generate_true_O g El E_order n_edges theta m k p p_solo higher_order = Ok O ->
  let sz := moment_size n_edges m k higher_order in
  (forall a b nodes_1 nodes_2, (a < sz)%nat -> (b < sz)%nat ->
     _get_node_index m k E_order a = Ok nodes_1 ->
     _get_node_index m k E_order b = Ok nodes_2 ->
     od_consistent nodes_1 nodes_2 = false ->
     get2 O a b = Ok 0)
  /\ (forall a i v, (a < sz)%nat ->
        _get_node_index m k E_order a = Ok [(i, v)] ->
        get2 O a a
        = Ok (sumR (map (fun y => dd_get p_solo (i, v, y) * nth (y - 1) p 0)
                      (seq 1 k)))).
Proof.
  intros H sz.
  destruct (true_O_cells g El E_order n_edges theta m k p p_solo higher_order O H)
    as [Z_vals Hcells].
  fold sz in Hcells. split.
  - intros a b nodes_1 nodes_2 Ha Hb H1 H2 Hincons.
    destruct (Hcells a b Ha Hb) as (sm & Hsm & Hget). rewrite Hget.
    unfold O_entry in Hsm. rewrite H1, H2, !bind_Ok, Hincons in Hsm.
    congruence.
  - intros a i v Ha Hidx.
    destruct (Hcells a a Ha Ha) as (sm & Hsm & Hget). rewrite Hget.
    unfold O_entry in Hsm. rewrite Hidx, !bind_Ok in Hsm.
    assert (Hcons : od_consistent [(i, v)] [(i, v)] = true).
    { simpl. rewrite !Nat.eqb_refl. reflexivity. }
    rewrite Hcons in Hsm. unfold od_merge in Hsm. cbn [fold_left fst snd] in Hsm.
    rewrite od_set_same in Hsm. unfold od_popitem in Hsm.
    cbn [last removelast] in Hsm. rewrite bind_Ok in Hsm. cbn [fst snd length] in Hsm.
    rewrite <- Hsm.
    assert (Hp : forall y, y ∈ seq 1 k -> getitem p (y - 1) = Ok (nth (y - 1) p 0)).
    { intros y Hy.
      destruct (foldM_Ok_steps _ _ _ _ Hsm y Hy) as (s0 & s1 & Hstep).
      rewrite decide_True in Hstep by reflexivity.
      apply bind_Ok_inv in Hstep as (py & Hpy & _).
      rewrite Hpy. apply getitem_Ok in Hpy.
      rewrite (nth_lookup_Some _ _ _ _ Hpy). reflexivity. }
    apply foldM_sum. intros acc y Hy.
    rewrite decide_True by reflexivity. rewrite (Hp y Hy). reflexivity.
Qed.

(** [get2] after [set2]. *)
Lemma get2_set2 {A} (M M' : list (list A)) r c x r' c' :
  set2 M r c x = Ok M' ->
  get2 M' r' c' = if decide (r' = r /\ c' = c) then Ok x else get2 M r' c'.
Proof.
  intros H. unfold set2 in H.
  apply bind_Ok_inv in H as (row & Hrow & H).
  apply bind_Ok_inv in H as (row' & Hrow' & H).
  apply getitem_Ok in Hrow. apply setitem_Ok in Hrow' as [-> Hc].
  apply setitem_Ok in H as [-> Hr].
  unfold get2, getitem.
  destruct (decide (r' = r)) as [->|Hne].
  - rewrite list_lookup_insert_eq by exact Hr. simpl.
    destruct (decide (c' = c)) as [->|Hnc].
    + rewrite list_lookup_insert_eq by exact Hc.
      rewrite decide_True by auto. reflexivity.
    + rewrite list_lookup_insert_ne by congruence.
      rewrite decide_False by tauto. rewrite Hrow. reflexivity.
  - rewrite list_lookup_insert_ne by congruence.
    rewrite decide_False by tauto. reflexivity.
Qed.

(** A loop of writes whose values are a function of the cell. *)
Lemma write_cells {A B} (n_rows n_cols : nat) (cellf : B -> nat * nat)
    (V : nat -> nat -> A) (l : list B) :
  (forall b, b ∈ l -> ((cellf b).1 < n_rows)%nat /\ ((cellf b).2 < n_cols)%nat) ->
  forall M : list (list A),
  matrix_ok n_rows n_cols (fun _ => True) M ->
  exists M',
    foldM (fun M b => set2 M (cellf b).1 (cellf b).2 (V (cellf b).1 (cellf b).2)) l M
    = Ok M'
    /\ matrix_ok n_rows n_cols (fun _ => True) M'
    /\ forall r c, get2 M' r c
         = if decide ((r, c) ∈ map cellf l) then Ok (V r c) else get2 M r c.
Proof.
  induction l as [|b l IH]; intros Hrange M HM.
  - exists M. split; [reflexivity|]. split; [exact HM|].
    intros r c. rewrite decide_False by apply not_elem_of_nil. reflexivity.
  - destruct (Hrange b ltac:(left)) as [Hr Hc].
    destruct HM as [Hlen Hrows].
    destruct (lookup_lt_is_Some_2 M (cellf b).1 ltac:(lia)) as [row Hrow].
    pose proof (Forall_lookup_1 _ _ _ _ Hrows Hrow) as [Hrl _].
    assert (Hset : exists M1, set2 M (cellf b).1 (cellf b).2
                                (V (cellf b).1 (cellf b).2) = Ok M1).
    { rewrite (set2_lookup M _ row _ _ Hrow). unfold setitem.
      rewrite decide_True by lia. rewrite bind_Ok. eauto. }
    destruct Hset as [M1 HM1].
    pose proof (set2_matrix_ok n_rows n_cols (fun _ => True) M M1 _ _ _
                  (conj Hlen Hrows) I HM1) as HM1ok.
    destruct (IH (fun b' Hb' => Hrange b' (list_elem_of_further _ _ _ Hb')) M1 HM1ok)
      as (M' & Hrun & HM' & Hget).
    exists M'. split; [cbn [foldM]; rewrite HM1, bind_Ok; exact Hrun|].
    split; [exact HM'|].
    intros r c. rewrite Hget. cbn [map].
    destruct (decide ((r, c) ∈ map cellf l)) as [Hin|Hnin].
    + rewrite decide_True by (right; exact Hin). reflexivity.
    + rewrite (get2_set2 M M1 _ _ _ r c HM1).
      destruct (decide (r = (cellf b).1 /\ c = (cellf b).2)) as [[-> ->]|Hne].
      * rewrite decide_True; [reflexivity|].
        rewrite <- surjective_pairing. left.
      * rewrite decide_False; [reflexivity|].
        intros Hin. apply elem_of_cons in Hin as [Heq|Hin]; [|contradiction].
        apply Hne. rewrite <- Heq. auto.
Qed.

Lemma sumR_INR {A} (f : A -> nat) (l : list A) :
  sumR (map (fun x => INR (f x)) l) = INR (sum_list (map f l)).
Proof.
  induction l as [|x l IH]; [reflexivity|].
  cbn [map sumR fold_right sum_list]. fold (sumR (map (fun x => INR (f x)) l)).
  rewrite IH, plus_INR. reflexivity.
Qed.

Lemma sum_list_indicator (v a len : nat) :
  sum_list (map (fun ly => if decide (v = ly) then 1 else 0)%nat (seq a len))
  = (if decide (a <= v < a + len)%nat then 1 else 0)%nat.
Proof.
  revert a. induction len as [|len IH]; intros a.
  - simpl. rewrite decide_False by lia. reflexivity.
  - cbn [seq map sum_list]. rewrite IH.
    destruct (decide (v = a)) as [->|Hne].
    + rewrite decide_False by lia. rewrite decide_True by lia. reflexivity.
    + destruct (decide (S a <= v < S a + len)%nat).
      * rewrite decide_True by lia. reflexivity.
      * rewrite decide_False by lia. reflexivity.
Qed.

Lemma sum_list_plus {A} (f h : A -> nat) (l : list A) :
  sum_list (map (fun x => f x + h x)%nat l)
  = (sum_list (map f l) + sum_list (map h l))%nat.
Proof. induction l as [|x l IH]; simpl; [reflexivity|rewrite IH; lia]. Qed.

Lemma column_count_cons row Ly j ly :
  column_count (row :: Ly) j ly
  = ((if decide (row !! j = Some ly) then 1 else 0) + column_count Ly j ly)%nat.
Proof.
  unfold column_count. destruct (decide (row !! j = Some ly)) as [H|H].
  - rewrite filter_cons_True by exact H. reflexivity.
  - rewrite filter_cons_False by exact H. reflexivity.
Qed.

Lemma column_count_le Ly j ly : (column_count Ly j ly <= length Ly)%nat.
Proof. unfold column_count. apply length_filter. Qed.

(** Over the label values the counts of a column add up to the number of
    rows. *)
Lemma column_counts_total (Ly : list (list nat)) (j k : nat) :
  (forall row, row ∈ Ly -> exists v, row !! j = Some v /\ (v <= k)%nat) ->
  sum_list (map (column_count Ly j) (seq 0 (k + 1))) = length Ly.
Proof.
  induction Ly as [|row Ly IH]; intros Hrows.
  - unfold column_count. simpl. induction (seq 0 (k + 1)); simpl; auto.
  - destruct (Hrows row ltac:(left)) as (v & Hv & Hle).
    rewrite (list_fmap_ext (column_count (row :: Ly) j)
               (fun ly => ((if decide (v = ly) then 1 else 0)
                           + column_count Ly j ly)%nat)).
    2:{ intros i ly _. rewrite column_count_cons, Hv.
        destruct (decide (v = ly)) as [->|Hne].
        - rewrite decide_True by reflexivity. reflexivity.
        - rewrite decide_False by congruence. reflexivity. }
    change (fmap ?f ?l) with (map f l).
    rewrite sum_list_plus, sum_list_indicator, decide_True by lia.
    rewrite IH; [reflexivity|].
    intros row' Hrow'. apply Hrows. right. exact Hrow'.
Qed.

Lemma rows_of_class_elem L Y y row :
  row ∈ rows_of_class L Y y -> row ∈ L.
Proof.
  unfold rows_of_class. intros H.
  apply list_elem_of_fmap in H as ([r yi] & -> & H).
  apply list_elem_of_filter in H as [_ H].
  apply elem_of_zip_l in H. exact H.
Qed.

Lemma rows_of_class_nonempty L Y y :
  length Y = length L -> y ∈ Y -> rows_of_class L Y y <> [].
Proof.
  intros Hlen Hy. apply list_elem_of_lookup in Hy as [i Hi].
  destruct (lookup_lt_is_Some_2 L i) as [row Hrow].
  { rewrite <- Hlen. exact (lookup_lt_Some _ _ _ Hi). }
  assert (Hin : (row, y) ∈ zip L Y).
  { apply list_elem_of_lookup. exists i. apply lookup_zip_with_Some.
    exists row, y. auto. }
  unfold rows_of_class. intros Hnil.
  apply fmap_nil_inv in Hnil.
  assert (Hf : (row, y) ∈ filter (fun ry : list nat * nat => ry.2 = y) (zip L Y)).
  { apply list_elem_of_filter. split; [reflexivity|exact Hin]. }
  rewrite Hnil in Hf. apply elem_of_nil in Hf. exact Hf.
Qed.

Lemma rows_of_class_empty L Y y : y ∉ Y -> rows_of_class L Y y = [].
Proof.
  intros Hy. unfold rows_of_class.
  rewrite (filter_none (fun ry : list nat * nat => ry.2 = y)); [reflexivity|].
  intros [row yi] Hin Heq. simpl in Heq. subst yi.
  apply elem_of_zip_r in Hin. contradiction.
Qed.

Lemma elem_of_c_prob_keys m k y ly j :
  (y, ly, j) ∈ c_prob_keys m k <-> (1 <= y <= k)%nat /\ (ly <= k)%nat /\ (j < m)%nat.
Proof.
  unfold c_prob_keys. rewrite elem_of_concat. split.
  - intros (l & Hin & Hl).
    apply list_elem_of_fmap in Hl as (y0 & -> & Hy0).
    apply elem_of_concat in Hin as (l & Hin & Hl).
    apply list_elem_of_fmap in Hl as (ly0 & -> & Hly0).
    apply list_elem_of_fmap in Hin as (j0 & Heq & Hj0).
    injection Heq as -> -> ->.
    apply elem_of_seq in Hy0, Hly0, Hj0. lia.
  - intros (Hy & Hly & Hj).
    eexists. split; [|apply list_elem_of_fmap; exists y; split;
                       [reflexivity|apply elem_of_seq; lia]].
    apply elem_of_concat. eexists.
    split; [|apply list_elem_of_fmap; exists ly; split;
              [reflexivity|apply elem_of_seq; lia]].
    apply list_elem_of_fmap. exists j. split; [reflexivity|apply elem_of_seq; lia].
Qed.

Lemma cell_decode k ly j :
  (ly <= k)%nat ->
  ((ly + j * (k + 1)) / (k + 1) = j /\ (ly + j * (k + 1)) mod (k + 1) = ly)%nat.
Proof.
  intros Hly. split.
  - rewrite Nat.div_add by lia. rewrite Nat.div_small by lia. reflexivity.
  - rewrite Nat.Div0.mod_add. apply Nat.mod_small. lia.
Qed.

Section ConditionalProbs.
Variable L : list (list nat).
Variable Y : list nat.
Variables n m k : nat.
Hypothesis HL : matrix_ok n m (fun v => (v <= k)%nat) L.
Hypothesis HY : length Y = n.

Let value (r c : nat) : fp :=
  count_ratio (column_count (rows_of_class L Y (c + 1)) (r / (k + 1)) (r mod (k + 1)))
    (length (rows_of_class L Y (c + 1))).

Lemma conditional_probs_cells :
  exists c_probs,
    _get_conditional_probs L Y m k = Ok c_probs
    /\ matrix_ok (m * (k + 1)) k (fun _ => True) c_probs
    /\ forall y ly j, (1 <= y <= k)%nat -> (ly <= k)%nat -> (j < m)%nat ->
         get2 c_probs (ly + j * (k + 1)) (y - 1)
         = Ok (count_ratio (column_count (rows_of_class L Y y) j ly)
                 (length (rows_of_class L Y y))).
Proof.
  destruct HL as [HLlen _].
  set (cellf := fun key : nat * nat * nat =>
                  ((key.1.2 + key.2 * (k + 1))%nat, (key.1.1 - 1)%nat)).
  destruct (write_cells (m * (k + 1)) k cellf value (c_prob_keys m k))
    with (M := replicate (m * (k + 1)) (replicate k (Fin 0)))
    as (c_probs & Hrun & Hshape & Hget).
  { intros [[y ly] j] Hin. apply elem_of_c_prob_keys in Hin. simpl. nia. }
  { split; [apply length_replicate|]. apply Forall_replicate.
    split; [apply length_replicate|]. apply Forall_replicate. exact I. }
  exists c_probs. split; [|split; [exact Hshape|]].
  - unfold _get_conditional_probs. rewrite decide_True by lia.
    rewrite <- Hrun. unfold c_prob_keys. rewrite foldM_concat, foldM_fmap.
    apply foldM_ext_in. intros c y Hy. apply elem_of_seq in Hy.
    rewrite foldM_concat, foldM_fmap.
    apply foldM_ext_in. intros c1 ly Hly. apply elem_of_seq in Hly.
    rewrite foldM_fmap.
    apply foldM_ext_in. intros c2 j Hj.
    unfold cellf, value. cbn [fst snd].
    destruct (cell_decode k ly j ltac:(lia)) as [-> ->].
    replace (y - 1 + 1)%nat with y by lia. reflexivity.
  - intros y ly j Hy Hly Hj.
    rewrite Hget. rewrite decide_True.
    + unfold value. destruct (cell_decode k ly j Hly) as [-> ->].
      replace (y - 1 + 1)%nat with y by lia. reflexivity.
    + apply list_elem_of_fmap. exists (y, ly, j).
      split; [reflexivity|]. apply elem_of_c_prob_keys. lia.
Qed.
End ConditionalProbs.

(** The ratios of a source and a class that occurs sum to 1. *)
Lemma class_ratios_sum (L : list (list nat)) (Y : list nat) (n m k : nat)
    (c : list (list fp)) :
  matrix_ok n m (fun v => (v <= k)%nat) L -> length Y = n ->
  (forall y ly j, (1 <= y <= k)%nat -> (ly <= k)%nat -> (j < m)%nat ->
     get2 c (ly + j * (k + 1)) (y - 1)
     = Ok (count_ratio (column_count (rows_of_class L Y y) j ly)
             (length (rows_of_class L Y y)))) ->
  forall j y, (j < m)%nat -> (1 <= y <= k)%nat -> y ∈ Y ->
    length (rows_of_class L Y y) <> 0%nat
    /\ sumR (map (fun ly => c_prob c (ly + j * (k + 1)) (y - 1)) (seq 0 (k + 1))) = 1.
Proof.
  intros HL HY Hget j y Hj Hy Hin.
  set (Ly := rows_of_class L Y y) in *.
  assert (Hne : length Ly <> 0%nat).
  { intros H0. apply length_zero_iff_nil in H0.
    apply (rows_of_class_nonempty L Y y); [destruct HL; lia|exact Hin|exact H0]. }
  split; [exact Hne|].
  assert (Hpos : 0 < INR (length Ly)) by (apply lt_0_INR; lia).
  rewrite (sumR_map_ext_in _
             (fun ly => / INR (length Ly) * INR (column_count Ly j ly))).
  2:{ intros ly Hly. apply elem_of_seq in Hly. unfold c_prob.
      rewrite (Hget y ly j Hy ltac:(lia) Hj). fold Ly.
      unfold count_ratio. rewrite decide_False by exact Hne.
      unfold Rdiv. ring. }
  rewrite <- sumR_scal_l, sumR_INR, column_counts_total.
  - field. lra.
  - intros row Hrow. apply rows_of_class_elem in Hrow.
    destruct HL as [_ Hrows].
    pose proof (proj1 (Forall_forall _ _) Hrows row Hrow) as [Hlen Hent].
    destruct (lookup_lt_is_Some_2 row j ltac:(lia)) as [v Hv].
    exists v. split; [exact Hv|].
    exact (Forall_lookup_1 _ _ _ _ Hent Hv).
Qed.


Lemma occurrences_cons w bag word :
  occurrences (w :: bag) word
  = ((if decide (w = word) then 1 else 0) + occurrences bag word)%nat.
Proof.
  unfold occurrences. destruct (decide (w = word)) as [H|H].
  - rewrite filter_cons_True by exact H. reflexivity.
  - rewrite filter_cons_False by exact H. reflexivity.
Qed.

Lemma count_word_lookup i (X : list (list R)) row w x :
  X !! i = Some row -> row !! w = Some x ->
  count_word i X w = Ok (<[i := <[w := x + 1]> row]> X).
Proof.
  intros Hrow Hx. unfold count_word, get2, getitem.
  rewrite Hrow, bind_Ok, Hx, bind_Ok.
  rewrite (set2_lookup X i row w (x + 1) Hrow). unfold setitem.
  rewrite decide_True by exact (lookup_lt_Some _ _ _ Hx). reflexivity.
Qed.

Lemma count_word_range i (X : list (list R)) row w :
  X !! i = Some row -> (length row <= w)%nat ->
  count_word i X w = Err IndexError.
Proof.
  intros Hrow Hw. unfold count_word, get2, getitem.
  rewrite Hrow, bind_Ok, (lookup_ge_None_2 row w Hw). reflexivity.
Qed.

(** Counting the tokens of one bag into its row. *)
Lemma count_bag (V i : nat) (bag : list nat) : forall (X : list (list R)) row,
  X !! i = Some row -> length row = V ->
  Forall (fun w => (w < V)%nat) bag ->
  foldM (count_word i) bag X
  = Ok (<[i := map (fun w => nth w row 0 + INR (occurrences bag w)) (seq 0 V)]> X).
Proof.
  induction bag as [|w bag IH]; intros X row Hrow Hlen Hbag.
  - assert (Hid : map (fun w => nth w row 0 + INR (occurrences [] w)) (seq 0 V) = row).
    { subst V. apply list_eq. intros j. rewrite list_lookup_fmap.
      destruct (decide (j < length row)%nat) as [Hj|Hj].
      + rewrite lookup_seq_lt by exact Hj. simpl.
        destruct (lookup_lt_is_Some_2 row j Hj) as [x Hx].
        rewrite Hx, (nth_lookup_Some _ _ _ _ Hx). f_equal. lra.
      + rewrite lookup_seq_ge by lia. rewrite lookup_ge_None_2 by lia. reflexivity. }
    rewrite Hid, list_insert_id by exact Hrow. reflexivity.
  - apply Forall_cons in Hbag as [Hw Hbag]. cbn [foldM].
    destruct (lookup_lt_is_Some_2 row w ltac:(lia)) as [x Hx].
    rewrite (count_word_lookup i X row w x Hrow Hx), bind_Ok.
    rewrite (IH _ (<[w := x + 1]> row)).
    + rewrite list_insert_insert_eq. f_equal. f_equal.
      apply list_eq. intros j. rewrite !list_lookup_fmap.
      destruct (decide (j < V)%nat) as [Hj|Hj].
      * rewrite lookup_seq_lt by exact Hj. simpl. f_equal.
        rewrite occurrences_cons.
        destruct (decide (w = j)) as [->|Hne].
        -- rewrite (nth_lookup_Some _ _ 0 (x + 1))
             by (apply list_lookup_insert_eq; lia).
           rewrite (nth_lookup_Some _ _ 0 x Hx).
           rewrite plus_INR. simpl. lra.
        -- assert (Hnth : nth j (<[w := x + 1]> row) 0 = nth j row 0).
           { destruct (lookup_lt_is_Some_2 row j ltac:(lia)) as [z Hz].
             rewrite (nth_lookup_Some _ _ 0 z)
               by (rewrite list_lookup_insert_ne by exact Hne; exact Hz).
             rewrite (nth_lookup_Some _ _ 0 z Hz). reflexivity. }
           rewrite Hnth. reflexivity.
      * rewrite lookup_seq_ge by lia. reflexivity.
    + apply list_lookup_insert_eq. exact (lookup_lt_Some _ _ _ Hrow).
    + rewrite length_insert. exact Hlen.
    + exact Hbag.
Qed.


Lemma occurrences_total (bag : list nat) (V : nat) :
  Forall (fun w => (w < V)%nat) bag ->
  sum_list (map (occurrences bag) (seq 0 V)) = length bag.
Proof.
  induction 1 as [|w bag Hw _ IH].
  - unfold occurrences. simpl. induction (seq 0 V); simpl; auto.
  - rewrite (list_fmap_ext (occurrences (w :: bag))
               (fun word => ((if decide (w = word) then 1 else 0)
                             + occurrences bag word)%nat)).
    2:{ intros i word _. apply occurrences_cons. }
    change (fmap ?f ?l) with (map f l).
    rewrite sum_list_plus, sum_list_indicator, decide_True by lia.
    rewrite IH. reflexivity.
Qed.

Lemma nth_replicate_0 (V w : nat) : nth w (replicate V 0) 0 = 0.
Proof.
  revert w. induction V as [|V IH]; intros [|w]; simpl; auto.
Qed.

Lemma map_zip_snd {A B C} (F : B -> C) (l2 : list B) : forall l1 : list A,
  (length l2 <= length l1)%nat ->
  map (fun ib : A * B => F ib.2) (zip l1 l2) = map F l2.
Proof.
  induction l2 as [|b l2 IH]; intros [|a l1] Hlen; simpl in *;
    [reflexivity|reflexivity|lia|].
  rewrite IH by lia. reflexivity.
Qed.

(** A token beyond the row stops the loop over a bag. *)
Lemma count_bag_range (V i : nat) (bag : list nat) : forall (X : list (list R)) row,
  X !! i = Some row -> length row = V ->
  ~ Forall (fun w => (w < V)%nat) bag ->
  foldM (count_word i) bag X = Err IndexError.
Proof.
  induction bag as [|w bag IH]; intros X row Hrow Hlen Hbag.
  - exfalso. apply Hbag. apply Forall_nil_2.
  - cbn [foldM]. destruct (decide (w < V)%nat) as [Hw|Hw].
    + destruct (lookup_lt_is_Some_2 row w ltac:(lia)) as [x Hx].
      rewrite (count_word_lookup i X row w x Hrow Hx), bind_Ok.
      apply (IH _ (<[w := x + 1]> row)).
      * apply list_lookup_insert_eq. exact (lookup_lt_Some _ _ _ Hrow).
      * rewrite length_insert. exact Hlen.
      * intros Hall. apply Hbag. apply Forall_cons_2; assumption.
    + rewrite (count_word_range i X row w Hrow) by lia. reflexivity.
Qed.

Lemma bags_loop_range (V : nat) (l : list (nat * list nat)) :
  forall X : list (list R),
  Forall (fun row => length row = V) X ->
  (forall ib, ib ∈ l -> (ib.1 < length X)%nat) ->
  ~ Forall (fun ib : nat * list nat => Forall (fun w => (w < V)%nat) ib.2) l ->
  foldM (fun X ib => foldM (count_word ib.1) ib.2 X) l X = Err IndexError.
Proof.
  induction l as [|[i bag] l IH]; intros X HX Hidx Hbad.
  - exfalso. apply Hbad. apply Forall_nil_2.
  - cbn [foldM fst snd].
    destruct (lookup_lt_is_Some_2 X i (Hidx (i, bag) ltac:(left))) as [row Hrow].
    pose proof (Forall_lookup_1 _ _ _ _ HX Hrow) as Hlen.
    destruct (decide (Forall (fun w => (w < V)%nat) bag)) as [Hbag|Hbag].
    + rewrite (count_bag V i bag X row Hrow Hlen Hbag), bind_Ok.
      apply IH.
      * apply Forall_insert; [exact HX|]. rewrite length_map. apply length_seq.
      * intros ib Hib. rewrite length_insert. apply Hidx. right. exact Hib.
      * intros Hall. apply Hbad. apply Forall_cons_2; assumption.
    + rewrite (count_bag_range V i bag X row Hrow Hlen Hbag). reflexivity.
Qed.

(** The matrix of counts, as a whole. *)
Lemma bags_to_counts_ok (bags : list (list nat)) (vocab_size : nat) :
  Forall (Forall (fun w => (w < vocab_size)%nat)) bags ->
  bags_to_counts bags vocab_size
  = Ok (map (fun bag => map (fun w => INR (occurrences bag w)) (seq 0 vocab_size))
          bags)
  /\ forall bag, bag ∈ bags ->
       sumR (map (fun w => INR (occurrences bag w)) (seq 0 vocab_size))
       = INR (length bag).
Proof.
  intros Hbags. split.
  - unfold bags_to_counts.
    set (X0 := replicate (length bags) (replicate vocab_size 0)).
    rewrite (write_rows_at _
               (fun ib : nat * list nat =>
                  map (fun w => INR (occurrences ib.2 w)) (seq 0 vocab_size))
               (fun ib => ib.1) X0 (zip (seq 0 (length bags)) bags) 0 X0).
    + f_equal. rewrite length_zip, length_seq, Nat.min_id.
      unfold X0. rewrite take_0, drop_replicate, Nat.sub_diag. cbn [replicate app].
      rewrite app_nil_r.
      apply (map_zip_snd (fun bag => map (fun w => INR (occurrences bag w))
                                       (seq 0 vocab_size))).
      rewrite length_seq. lia.
    + rewrite length_zip, length_seq, Nat.min_id.
      unfold X0. rewrite length_replicate. lia.
    + reflexivity.
    + intros j [i bag] Hj. apply lookup_zip_with_Some in Hj as (i' & bag' & Heq & Hi & _).
      injection Heq as -> ->. apply lookup_seq in Hi. simpl. lia.
    + intros [i bag] X' Hin Hlt Hrow. cbn [fst snd] in *.
      assert (Hi : (i < length bags)%nat).
      { apply elem_of_zip_l in Hin. apply elem_of_seq in Hin. lia. }
      assert (Hbag : Forall (fun w => (w < vocab_size)%nat) bag).
      { apply elem_of_zip_r in Hin.
        exact (proj1 (Forall_forall _ _) Hbags bag Hin). }
      unfold X0 in Hrow. rewrite lookup_replicate_2 in Hrow by exact Hi.
      rewrite (count_bag vocab_size i bag X' (replicate vocab_size 0) Hrow
                 (length_replicate _ _) Hbag).
      f_equal. f_equal. apply map_ext. intros w.
      rewrite nth_replicate_0. lra.
  - intros bag Hbag. rewrite sumR_INR. f_equal.
    apply occurrences_total.
    exact (proj1 (Forall_forall _ _) Hbags bag Hbag).
Qed.

(** X19: [bags_to_counts] returns the matrix of the numbers of occurrences: one
    row per bag, one column per word of the vocabulary; each row sums to the
    length of its bag. *)
Theorem bags_to_counts_counts (bags : list (list nat)) (vocab_size : nat) :
  Forall (Forall (fun w => (w < vocab_size)%nat)) bags ->
  exists X,
    bags_to_counts bags vocab_size = Ok X
    /\ matrix_ok (length bags) vocab_size (fun x => 0 <= x) X
    /\ (forall i bag w, bags !! i = Some bag -> (w < vocab_size)%nat ->
          get2 X i w = Ok (INR (occurrences bag w)))
    /\ (forall i bag row, bags !! i = Some bag -> X !! i = Some row ->
          sumR row = INR (length bag)).
Proof.
  intros Hbags. destruct (bags_to_counts_ok bags vocab_size Hbags) as [Hrun Hsum].
  eexists. split; [exact Hrun|]. split; [|split].
  - split; [apply length_map|].
    apply Forall_forall. intros row Hrow.
    apply list_elem_of_fmap in Hrow as (bag & -> & _).
    split; [rewrite length_map; apply length_seq|].
    apply Forall_forall. intros x Hx.
    apply list_elem_of_fmap in Hx as (w & -> & _). apply pos_INR.
  - intros i bag w Hi Hw. unfold get2, getitem.
    rewrite list_lookup_fmap, Hi. simpl.
    rewrite list_lookup_fmap, lookup_seq_lt by exact Hw. reflexivity.
  - intros i bag row Hi Hrow.
    rewrite list_lookup_fmap, Hi in Hrow. injection Hrow as <-.
    apply Hsum. exact (list_elem_of_lookup_2 _ _ _ Hi).
Qed.

(** X20: [bags_to_counts] raises [IndexError] as soon as a token lies outside the
    vocabulary. *)
Theorem bags_to_counts_out_of_vocab (bags : list (list nat)) (vocab_size : nat)
    (bag : list nat) (w : nat) :
  bag ∈ bags -> w ∈ bag -> (vocab_size <= w)%nat ->
  bags_to_counts bags vocab_size = Err IndexError.
Proof.
  intros Hbag Hw Hout. unfold bags_to_counts.
  apply (bags_loop_range vocab_size).
  - apply Forall_replicate, length_replicate.
  - intros [i b] Hin. apply elem_of_zip_l in Hin. apply elem_of_seq in Hin.
    rewrite length_replicate. simpl. lia.
  - intros Hall.
    assert (Hin : exists i, (i, bag) ∈ zip (seq 0 (length bags)) bags).
    { apply list_elem_of_lookup in Hbag as [i Hi]. exists i.
      apply list_elem_of_lookup. exists i. apply lookup_zip_with_Some.
      exists i, bag. split; [reflexivity|]. split; [|exact Hi].
      apply lookup_seq. split; [reflexivity|]. exact (lookup_lt_Some _ _ _ Hi). }
    destruct Hin as [i Hin].
    pose proof (proj1 (Forall_forall _ _) Hall (i, bag) Hin) as Hb. simpl in Hb.
    pose proof (proj1 (Forall_forall _ _) Hb w Hw) as Hlt. simpl in Hlt. lia.
Qed.

Lemma foldM_prefix_inv {A B} (Inv : list B -> A -> Prop) (f : A -> B -> result A)
    (l : list B) :
  (forall pre b a a1, Inv pre a -> b ∈ l -> f a b = Ok a1 -> Inv (pre ++ [b]) a1) ->
  forall a a', Inv [] a -> foldM f l a = Ok a' -> Inv l a'.
Proof.
  intros Hstep.
  assert (Hgen : forall l2 l1 a a', l = l1 ++ l2 -> Inv l1 a ->
                   foldM f l2 a = Ok a' -> Inv l a').
  { induction l2 as [|b l2 IH]; intros l1 a a' Hl Ha Hrun.
    - simpl in Hrun. injection Hrun as <-. rewrite Hl, app_nil_r. exact Ha.
    - simpl in Hrun. apply bind_Ok_inv in Hrun as (a1 & H1 & H2).
      apply (IH (l1 ++ [b]) a1 a'); [rewrite <- app_assoc; exact Hl| |exact H2].
      apply (Hstep l1 b a a1 Ha); [|exact H1].
      rewrite Hl. apply elem_of_app. right. left. }
  intros a a' Ha Hrun. exact (Hgen l [] a a' eq_refl Ha Hrun).
Qed.

Lemma choice_range_spec s lo hi size pos sizes pos' :
  source_ok s -> choice_range s lo hi size pos = Ok (sizes, pos') ->
  length sizes = size /\ Forall (fun x => (lo <= x < hi)%nat) sizes.
Proof.
  intros [_ Hidx] H. unfold choice_range in H.
  destruct (decide (hi <= lo)%nat) as [Hle|Hlt].
  - destruct (decide (size = 0)%nat) as [->|_]; [|discriminate].
    injection H as <- _. split; [reflexivity|apply Forall_nil_2].
  - injection H as <- _. split; [rewrite length_map; apply length_seq|].
    apply Forall_forall. intros x Hx.
    apply list_elem_of_fmap in Hx as (i & -> & _).
    pose proof (Hidx (pos + i)%nat (hi - lo)%nat ltac:(lia)). lia.
Qed.

Lemma choice_vec_p_spec s a size d pos x pos' :
  source_ok s -> choice_vec_p s a size d pos = Ok (x, pos') ->
  length x = size /\ Forall (fun w => (w < a)%nat) x.
Proof.
  intros [_ Hidx] H. unfold choice_vec_p in H.
  destruct d as [p|]; [|discriminate].
  destruct (decide (a = 0)%nat) as [|Ha]; [discriminate|].
  destruct (decide (length p = a)); [|discriminate].
  destruct (nonneg p); [|discriminate].
  destruct (Req_dec_T (sumR p) 1); [|discriminate].
  injection H as <- _. split; [rewrite length_map; apply length_seq|].
  apply Forall_forall. intros w Hw.
  apply list_elem_of_fmap in Hw as (i & -> & _). apply Hidx. lia.
Qed.

(** The stages of a run of [gaussian_bags_of_words] that returns. *)
Lemma gaussian_bags_stages (s : source) (normal : nat -> R)
    (set_iter : list nat -> list nat) (vocab : list String.string)
    (Y : list nat) (sigma : R) (bag_size : list nat) (pos : nat)
    (X : list (list nat)) (items : list String.string) (pos' : nat) :
  gaussian_bags_of_words s normal set_iter vocab Y sigma bag_size pos
  = Ok (X, items, pos') ->
  exists wd pos1 lo hi sizes pos2,
    list_min bag_size = Ok lo /\ list_max bag_size = Ok hi
    /\ choice_range s lo hi (length Y) pos1 = Ok (sizes, pos2)
    /\ foldM (make_bag s vocab wd) (zip Y sizes) ([], [], pos2) = Ok (X, items, pos').
Proof.
  intros H. unfold gaussian_bags_of_words in H.
  apply bind_Ok_inv in H as ([wd pos1] & _ & H).
  apply bind_Ok_inv in H as (lo & Hlo & H).
  apply bind_Ok_inv in H as (hi & Hhi & H).
  apply bind_Ok_inv in H as ([sizes pos2] & Hsizes & H). cbn [fst snd] in *.
  exists wd, pos1, lo, hi, sizes, pos2. auto.
Qed.

(** The loop over the rows makes one bag of the drawn length per label. *)
Lemma bags_loop_shape (s : source) (vocab : list String.string)
    (wd : gmap nat dist) (Y sizes : list nat) (lo hi pos2 : nat)
    (X : list (list nat)) (items : list String.string) (pos' : nat) :
  source_ok s -> length sizes = length Y ->
  Forall (fun len => (lo <= len < hi)%nat) sizes ->
  foldM (make_bag s vocab wd) (zip Y sizes) ([], [], pos2) = Ok (X, items, pos') ->
  length X = length Y /\ length items = length Y
  /\ Forall (fun bag => (lo <= length bag < hi)%nat
                        /\ Forall (fun w => (w < length vocab)%nat) bag) X.
Proof.
  intros Hs Hlen Hrange H.
  set (Inv := fun (pre : list (nat * nat))
                  (st : list (list nat) * list String.string * nat) =>
    length st.1.1 = length pre /\ length st.1.2 = length pre
    /\ Forall (fun bag => (lo <= length bag < hi)%nat
                          /\ Forall (fun w => (w < length vocab)%nat) bag) st.1.1).
  assert (Hfinal : Inv (zip Y sizes) (X, items, pos')).
  { revert H. apply (foldM_prefix_inv Inv).
    - intros pre [y len] st st1 (H1 & H2 & H3) Hin Hstep.
      unfold make_bag in Hstep. cbn [fst snd] in Hstep.
      apply bind_Ok_inv in Hstep as (d & _ & Hstep).
      apply bind_Ok_inv in Hstep as ([x pos3] & Hx & Hstep).
      apply bind_Ok_inv in Hstep as (words & _ & Hstep).
      injection Hstep as <-. cbn [fst snd].
      destruct (choice_vec_p_spec s _ _ _ _ _ _ Hs Hx) as [Hxl Hxr].
      unfold Inv. cbn [fst snd]. rewrite !length_app. cbn [length].
      split; [lia|]. split; [lia|].
      apply Forall_app. split; [exact H3|]. apply Forall_singleton.
      split; [|exact Hxr].
      apply elem_of_zip_r in Hin.
      pose proof (proj1 (Forall_forall _ _) Hrange len Hin) as Hb. simpl in Hb. lia.
    - unfold Inv. simpl. split; [reflexivity|]. split; [reflexivity|].
      apply Forall_nil_2. }
  destruct Hfinal as (H1 & H2 & H3). cbn [fst snd] in *.
  rewrite length_zip, Hlen, Nat.min_id in H1, H2. auto.
Qed.

(** X21: when [gaussian_bags_of_words] returns, there is one bag and one sentence
    per label, every bag has a length in [[min(bag_size), max(bag_size))] and
    holds indices into the vocabulary. *)
Theorem gaussian_bags_shape (s : source) (normal : nat -> R)
    (set_iter : list nat -> list nat) (vocab : list String.string)
    (Y : list nat) (sigma : R) (bag_size : list nat) (pos : nat)
    (X : list (list nat)) (items : list String.string) (pos' : nat) :
  source_ok s ->
  gaussian_bags_of_words s normal set_iter vocab Y sigma bag_size pos
  = Ok (X, items, pos') ->
  length X = length Y /\ length items = length Y
  /\ exists lo hi,
       list_min bag_size = Ok lo /\ list_max bag_size = Ok hi
       /\ Forall (fun bag => (lo <= length bag < hi)%nat
                             /\ Forall (fun w => (w < length vocab)%nat) bag) X.
Proof.
  intros Hs H.
  destruct (gaussian_bags_stages s normal set_iter vocab Y sigma bag_size pos
              X items pos' H)
    as (wd & pos1 & lo & hi & sizes & pos2 & Hlo & Hhi & Hsizes & Hloop).
  destruct (choice_range_spec s lo hi _ _ _ _ Hs Hsizes) as [Hlen Hrange].
  destruct (bags_loop_shape s vocab wd Y sizes lo hi pos2 X items pos'
              Hs Hlen Hrange Hloop) as (HX & HD & Hall).
  split; [exact HX|]. split; [exact HD|].
  exists lo, hi. auto.
Qed.

(** The labels sampled by a constructor that returns. *)
Lemma init_sampled linalg_cond linalg_inv s n m k cb tr ep ter el gen :
  source_ok s ->
  __init__ linalg_cond linalg_inv s n m k cb tr ep ter el = Ok gen ->
  matrix_ok n m (fun v => (v <= k)%nat) (self_L gen)
  /\ length (self_Y gen) = n
  /\ Forall (fun y => (1 <= y <= k)%nat) (self_Y gen).
Proof.
  intros Hs H. unfold __init__ in H.
  apply bind_Ok_inv in H as ([[[d theta] pv] pos] & _ & H).
  unfold _generate_label_matrix in H.
  apply bind_Ok_inv in H as (mo & _ & H).
  apply bind_Ok_inv in H as (sig_inv & _ & H).
  apply bind_Ok_inv in H as (st & Hst & H).
  injection H as <-. simpl.
  exact (sample_rows_ok s n m k (parent d) pv (mo_p_solo mo) (mo_p_joints mo) Hs
           _ _ _ _ (zero_matrix_ok n m k) (length_replicate n 0%nat) Hst).
Qed.

(** X22: [singletask_synthetic] returns as soon as the constructor and
    [gaussian_bags_of_words] do: the counting of the bags cannot raise,
    since every token is an index into the vocabulary.  There is one
    sentence and one row of counts per data point, and each row of counts
    sums to the length of its bag, between the bounds of [bag_size]. *)
Theorem singletask_synthetic_composes (linalg_cond : list (list R) -> result R)
    (linalg_inv : list (list R) -> result (list (list R))) (s : source)
    (normal : nat -> R) (set_iter : list nat -> list nat)
    (vocab : list String.string)
    (n m k : nat) (class_balance : balance) (theta_range : R * R) (edge_prob : R)
    (theta_edge_range : R * R) (edges_list : option (list (nat * nat)))
    (sigma : R) (bag_size : list nat) (pos : nat)
    (data : generator) (bags : list (list nat)) (D : list String.string)
    (pos' : nat) :
  source_ok s ->
  __init__ linalg_cond linalg_inv s n m k class_balance theta_range edge_prob
    theta_edge_range edges_list = Ok data ->
  gaussian_bags_of_words s normal set_iter vocab (self_Y data) sigma bag_size pos
  = Ok (bags, D, pos') ->
  exists X,
    singletask_synthetic s normal set_iter vocab linalg_cond linalg_inv n m k
      class_balance theta_range edge_prob theta_edge_range edges_list sigma
      bag_size pos
    = Ok (D, self_L data, X, self_Y data, E (self_deps data))
    /\ length D = n
    /\ matrix_ok n (length vocab) (fun x => 0 <= x) X
    /\ exists lo hi,
         list_min bag_size = Ok lo /\ list_max bag_size = Ok hi
         /\ Forall (fun row => INR lo <= sumR row < INR hi) X.
Proof.
  intros Hs Hdata Hbags.
  destruct (init_sampled _ _ _ _ _ _ _ _ _ _ _ _ Hs Hdata) as (_ & HY & _).
  destruct (gaussian_bags_stages s normal set_iter vocab _ sigma bag_size pos
              bags D pos' Hbags)
    as (wd & pos1 & lo & hi & sizes & pos2 & Hlo & Hhi & Hsizes & Hloop).
  destruct (choice_range_spec s lo hi _ _ _ _ Hs Hsizes) as [Hlen Hrange].
  destruct (bags_loop_shape s vocab wd _ sizes lo hi pos2 bags D pos'
              Hs Hlen Hrange Hloop) as (HX & HD & Hall).
  assert (Htok : Forall (Forall (fun w => (w < length vocab)%nat)) bags).
  { eapply Forall_impl; [exact Hall|]. intros bag [_ Hb]. exact Hb. }
  destruct (bags_to_counts_ok bags (length vocab) Htok) as [Hrun Hsum].
  eexists. split.
  { unfold singletask_synthetic. rewrite Hdata, bind_Ok, Hbags, bind_Ok.
    cbn [fst snd]. rewrite Hrun, bind_Ok. reflexivity. }
  split; [lia|]. split.
  { split; [rewrite length_map; lia|].
    apply Forall_forall. intros row Hrow.
    apply list_elem_of_fmap in Hrow as (bag & -> & _).
    split; [rewrite length_map; apply length_seq|].
    apply Forall_forall. intros x Hx.
    apply list_elem_of_fmap in Hx as (w & -> & _). apply pos_INR. }
  exists lo, hi. split; [exact Hlo|]. split; [exact Hhi|].
  apply Forall_forall. intros row Hrow.
  apply list_elem_of_fmap in Hrow as (bag & -> & Hbag).
  rewrite (Hsum bag Hbag).
  pose proof (proj1 (Forall_forall _ _) Hall bag Hbag) as [[Hl Hh] _].
  split; [apply le_INR; exact Hl|apply lt_INR; exact Hh].
Qed.


Lemma true_O_entries_witness :
  exists p_solo O,
    _generate_true_O (G pair_deps) (E pair_deps) (E_order pair_deps)
      (n_edges pair_deps) pair_theta 2 2 [1/2; 1/2] p_solo true = Ok O
    /\ let sz := moment_size (n_edges pair_deps) 2 2 true in
       (forall a b nodes_1 nodes_2, (a < sz)%nat -> (b < sz)%nat ->
          _get_node_index 2 2 (E_order pair_deps) a = Ok nodes_1 ->
          _get_node_index 2 2 (E_order pair_deps) b = Ok nodes_2 ->
          od_consistent nodes_1 nodes_2 = false ->
          get2 O a b = Ok 0)
       /\ (forall a i v, (a < sz)%nat ->
             _get_node_index 2 2 (E_order pair_deps) a = Ok [(i, v)] ->
             get2 O a a
             = Ok (sumR (map (fun y => dd_get p_solo (i, v, y)
                                       * nth (y - 1) [1/2; 1/2] 0)
                           (seq 1 2)))).
Proof.
  pose proof pair_moments as Hm.
  destruct (moment_phase cond_quiet pair_deps pair_theta 2 2 [1/2; 1/2])
    as [mo|e] eqn:Hmo; [|contradiction].
  destruct (moment_phase_spec _ _ _ _ _ _ _ Hmo) as (_ & _ & _ & HO & _).
  exists (mo_p_solo mo), (mo_O_true mo). split; [exact HO|].
  exact (true_O_entries _ _ _ _ _ _ _ _ _ _ _ HO).
Defined.


Lemma bags_to_counts_counts_witness :
  exists X,
    bags_to_counts [[0; 1; 1]; []]%nat 2 = Ok X
    /\ matrix_ok (length [[0; 1; 1]; []]%nat) 2 (fun x => 0 <= x) X
    /\ (forall i bag w, [[0; 1; 1]; []]%nat !! i = Some bag -> (w < 2)%nat ->
          get2 X i w = Ok (INR (occurrences bag w)))
    /\ (forall i bag row, [[0; 1; 1]; []]%nat !! i = Some bag -> X !! i = Some row ->
          sumR row = INR (length bag)).
Proof.
  apply (bags_to_counts_counts [[0; 1; 1]; []]%nat 2).
  apply Forall_cons_2; [|apply Forall_cons_2; [apply Forall_nil_2|apply Forall_nil_2]].
  repeat (apply Forall_cons_2; [lia|]). apply Forall_nil_2.
Defined.

Lemma bags_to_counts_out_of_vocab_witness :
  bags_to_counts [[0; 5]]%nat 2 = Err IndexError.
Proof.
  apply (bags_to_counts_out_of_vocab [[0; 5]]%nat 2 [0; 5]%nat 5).
  - left.
  - right. left.
  - lia.
Defined.

(** With the demo source a valid probability vector always yields the first
    alternative, for every draw. *)
Lemma choice_vec_p_demo a size p pos :
  a <> 0%nat -> length p = a -> Forall (fun x => 0 <= x) p -> sumR p = 1 ->
  choice_vec_p demo_source a size (Probs p) pos
  = Ok (map (fun _ => 0%nat) (seq 0 size), (pos + size)%nat).
Proof.
  intros Ha Hl Hp Hs. unfold choice_vec_p.
  rewrite decide_False by exact Ha. rewrite decide_True by exact Hl.
  rewrite (nonneg_Forall p Hp).
  destruct (Req_dec_T (sumR p) 1); [reflexivity|contradiction].
Qed.

Lemma make_distribution_demo pos :
  make_distribution demo_normal 1 2 pos = Ok (Probs [1 / 2; 1 / 2], (pos + 2)%nat).
Proof.
  unfold make_distribution, demo_normal.
  destruct (Rlt_dec 1 0) as [Hlt|_]; [lra|].
  cbn [seq map sumR fold_right].
  replace (Rabs (0 + 1 * 1)) with 1 by (rewrite Rabs_pos_eq; lra).
  destruct (Req_dec_T (1 + (1 + 0)) 0) as [H0|_]; [lra|].
  f_equal. f_equal. f_equal. f_equal; [lra|f_equal; lra].
Qed.

(** One label, two words, bags of one or two tokens. *)
Lemma demo_bags pos :
  exists D,
    gaussian_bags_of_words demo_source demo_normal remove_dups demo_vocab
      [1%nat] 1 [1; 3]%nat pos
    = Ok ([[0%nat]], D, (pos + 2 + 1 + 1)%nat).
Proof.
  unfold gaussian_bags_of_words.
  change (remove_dups [1%nat]) with [1%nat]. cbn [foldM fst snd].
  change (length demo_vocab) with 2%nat.
  rewrite make_distribution_demo, !bind_Ok. cbn [fst snd].
  change (list_min [1; 3]%nat) with (Ok 1%nat : result nat).
  change (list_max [1; 3]%nat) with (Ok 3%nat : result nat).
  rewrite !bind_Ok.
  change (choice_range demo_source 1 3 (length [1%nat]) (pos + 2))
    with (Ok ([1%nat], (pos + 2 + 1)%nat) : result (list nat * nat)).
  rewrite bind_Ok. cbn [zip zip_with foldM fst snd].
  unfold make_bag. cbn [fst snd].
  rewrite lookup_insert_eq, bind_Ok.
  change (length demo_vocab) with 2%nat.
  rewrite (choice_vec_p_demo 2 1 [1 / 2; 1 / 2]);
    [|lia|reflexivity
     |repeat (apply Forall_cons_2; [lra|]); apply Forall_nil_2
     |simpl; lra].
  rewrite bind_Ok. cbn [fst snd seq map foldM].
  change (getitem demo_vocab 0) with (Ok (hd String.EmptyString demo_vocab)).
  rewrite !bind_Ok. eexists. reflexivity.
Qed.

Lemma gaussian_bags_shape_witness :
  source_ok demo_source
  /\ exists X items pos',
       gaussian_bags_of_words demo_source demo_normal remove_dups demo_vocab
         [1%nat] 1 [1; 3]%nat 0 = Ok (X, items, pos')
       /\ length X = length [1%nat] /\ length items = length [1%nat]
       /\ exists lo hi,
            list_min [1; 3]%nat = Ok lo /\ list_max [1; 3]%nat = Ok hi
            /\ Forall (fun bag => (lo <= length bag < hi)%nat
                         /\ Forall (fun w => (w < length demo_vocab)%nat) bag) X.
Proof.
  split; [exact demo_source_ok|].
  destruct (demo_bags 0) as [D HD].
  exists [[0%nat]], D, (0 + 2 + 1 + 1)%nat. split; [exact HD|].
  exact (gaussian_bags_shape demo_source demo_normal remove_dups demo_vocab
           [1%nat] 1 [1; 3]%nat 0 _ _ _ demo_source_ok HD).
Defined.

Lemma singletask_synthetic_composes_witness :
  exists data D X,
    singletask_synthetic demo_source demo_normal remove_dups demo_vocab
      cond_quiet inv_quiet 1 2 2 (BalanceGiven [1/2; 1/2]) (0, 0) 0 (0, 0)
      (Some pair_edges) 1 [1; 3]%nat 0
    = Ok (D, self_L data, X, self_Y data, E (self_deps data))
    /\ length D = 1%nat
    /\ matrix_ok 1 (length demo_vocab) (fun x => 0 <= x) X
    /\ exists lo hi,
         list_min [1; 3]%nat = Ok lo /\ list_max [1; 3]%nat = Ok hi
         /\ Forall (fun row => INR lo <= sumR row < INR hi) X.
Proof.
  destruct pair_construction as (data & Hdata & _ & HY).
  destruct (demo_bags 0) as [D HD]. rewrite <- HY in HD.
  destruct (singletask_synthetic_composes cond_quiet inv_quiet demo_source
              demo_normal remove_dups demo_vocab 1 2 2 (BalanceGiven [1/2; 1/2])
              (0, 0) 0 (0, 0) (Some pair_edges) 1 [1; 3]%nat 0 data _ D _
              demo_source_ok Hdata HD) as (X & H).
  exists data, D, X. exact H.
Defined.





(** ** Runs of the engine with fixed nodes *)

Lemma val_range_le k o x v : clamp_ok k o -> v ∈ val_range k o x -> (v <= k)%nat.
Proof.
  intros Hcl Hv. unfold val_range in Hv. destruct o as [o|].
  - destruct (o !! x) as [w|] eqn:Hw.
    + apply list_elem_of_singleton in Hv. subst v. apply (Hcl x). exact Hw.
    + apply elem_of_seq in Hv. lia.
  - apply elem_of_seq in Hv. lia.
Qed.

Lemma val_range_free k o x : clamp o x = None -> val_range k o x = seq 0 (k + 1).
Proof.
  intros H. unfold val_range. destruct o as [o|]; [|reflexivity].
  simpl in H. rewrite H. reflexivity.
Qed.

Lemma val_range_fixed k o x v : clamp o x = Some v -> val_range k o x = [v].
Proof.
  intros H. unfold val_range. destruct o as [o|]; [|discriminate].
  simpl in H. rewrite H. reflexivity.
Qed.

Lemma depth_step_at_eq El theta k T y o depths messages d nodes :
  depths !! d = Some nodes ->
  depth_step El theta k T y o depths messages d
  = foldM (node_step El theta k T y o) nodes messages.
Proof. intros H. unfold depth_step. rewrite H. reflexivity. Qed.

Section EngineRunAt.
Variables (g : gmap nat (list nat)) (El : list (nat * nat)).
Variables (theta : gmap tkey (list R)) (k y r : nat).
Variables (T dl : list (nat * nat)).
Variable o : option (gmap nat nat).
Hypothesis Hwf : graph_wf g.
Hypothesis Hst : search_tree g r T dl.
Hypothesis Hth : theta_ok El theta k y g.
Hypothesis Hadj : forall u v, v ∈ neighbors g u -> (u, v) ∈ El \/ (v, u) ∈ El.
Hypothesis Hr : r ∈ dom g.
Hypothesis Hcl : clamp_ok k o.

Lemma mess_at_ok messages par x vp :
    table_ok k r T messages -> (par, x) ∈ T -> (vp <= k)%nat ->
    mess El theta k T y o messages x vp
    = Ok (message_value_at El theta k y T o messages par x vp).
Proof using Hwf Hth Hst Hr Hadj Hcl.
    intros Htab Hin Hvp. unfold mess, message_value_at.
    apply foldM_sum. intros acc v Hv. apply (val_range_le k o x v Hcl) in Hv.
    rewrite (mess_local_ok g El theta k y Hth x v)
      by (try apply (in_tree_dom g r T dl Hwf Hst Hr);
          try apply (in_tree_child r T par x Hin); lia).
    rewrite bind_Ok, (mess_edge_ok g El theta k y r T dl Hst Hth Hadj par) by (auto; lia).
    rewrite bind_Ok, (mess_prod_ok g k r T dl Hst messages par) by (auto; lia).
    reflexivity.
Qed.

Lemma message_value_at_ext messages messages' par x vp :
    (forall c, c ∈ children T x -> messages !! c = messages' !! c) ->
    message_value_at El theta k y T o messages par x vp
    = message_value_at El theta k y T o messages' par x vp.
Proof.
    intros Hext. unfold message_value_at. f_equal. apply map_ext. intros v.
    f_equal. f_equal. apply map_ext_in. intros c Hc. apply list_elem_of_In in Hc.
    unfold mget, message_at. rewrite (Hext c Hc). reflexivity.
Qed.

Lemma node_step_at_ok messages par x :
    table_ok k r T messages -> (par, x) ∈ T ->
    node_step El theta k T y o messages x
    = Ok (<[x := map (message_value_at El theta k y T o messages par x)
                   (seq 0 (k + 1))]> messages).
Proof using Hwf Hth Hst Hr Hadj Hcl.
    intros Htab Hin.
    set (F := message_value_at El theta k y T o messages par x).
    assert (Hself : x ∉ children T x).
    { rewrite elem_of_children. exact (grows_not_self _ _ _ _ (st_grows _ _ _ _ Hst)). }
    assert (Hloop : forall len j vec, len = (k + 1 - j)%nat ->
      length vec = (k + 1)%nat -> (j <= k + 1)%nat ->
      foldM (fun messages val_p =>
               x0 ← mess El theta k T y o messages x val_p;
               store_message messages x val_p x0)
        (seq j len) (<[x := vec]> messages)
      = Ok (<[x := take j vec ++ map F (seq j len)]> messages)).
    { induction len as [|len IH]; intros j vec Hlen Hvec Hj.
      - simpl. rewrite app_nil_r, take_ge by lia. reflexivity.
      - simpl.
        rewrite (mess_at_ok _ par) by (try apply table_ok_insert; auto; lia).
        rewrite bind_Ok.
        rewrite (message_value_at_ext _ messages).
        2:{ intros c Hc. rewrite lookup_insert_ne; [reflexivity|]. intros ->. auto. }
        fold F.
        rewrite (store_message_ok _ x vec) by (rewrite ?lookup_insert_eq; auto; lia).
        rewrite bind_Ok, insert_insert_eq.
        rewrite (IH (S j)) by (rewrite ?length_insert; lia).
        f_equal. f_equal. rewrite (take_S_r _ j (F j)).
        + rewrite take_insert_ge by lia. rewrite <- app_assoc. reflexivity.
        + apply list_lookup_insert_eq. lia. }
    destruct (Htab x (in_tree_child r T _ _ Hin)) as (vec & Hvec & Hlen).
    unfold node_step.
    rewrite <- (insert_id messages x vec Hvec) at 1.
    rewrite (Hloop (k + 1)%nat 0%nat vec) by (auto; lia).
    rewrite take_0. reflexivity.
Qed.

Lemma process_node_at (P : nat -> Prop) messages par x :
    table_ok k r T messages ->
    equations_at El theta k y T o P messages ->
    (par, x) ∈ T -> ~ P x -> (forall z, P z -> (z, x) ∉ T) ->
    exists messages',
      node_step El theta k T y o messages x = Ok messages'
      /\ table_ok k r T messages'
      /\ equations_at El theta k y T o (fun z => P z \/ z = x) messages'.
Proof using Hwf Hth Hst Hr Hadj Hcl.
    intros Htab Heq Hin HnP Hch.
    eexists. split; [apply (node_step_at_ok messages par x Htab Hin)|].
    split. { apply table_ok_insert; [exact Htab|]. rewrite length_map, length_seq. reflexivity. }
    intros par' z vp [Hz| ->] Hin' Hvp.
    - assert (Hne : z <> x) by (intros ->; contradiction).
      rewrite mget_insert_ne by exact Hne.
      rewrite (Heq par' z vp Hz Hin' Hvp). apply message_value_at_ext.
      intros c Hc. rewrite lookup_insert_ne; [reflexivity|].
      intros <-. apply elem_of_children in Hc. exact (Hch z Hz Hc).
    - rewrite (mget_insert_eq k) by exact Hvp.
      assert (par' = par).
      { exact (grows_parent_unique _ _ _ _ _ _ (st_grows _ _ _ _ Hst) Hin' Hin). }
      subst par'. apply message_value_at_ext.
      intros c Hc. rewrite lookup_insert_ne; [reflexivity|].
      intros <-. apply elem_of_children in Hc.
      exact (grows_not_self _ _ _ _ (st_grows _ _ _ _ Hst) Hc).
Qed.

Lemma equations_at_iff (P Q : nat -> Prop) messages :
    (forall z, Q z -> P z) ->
    equations_at El theta k y T o P messages -> equations_at El theta k y T o Q messages.
Proof. intros HPQ Heq par x vp Hx. apply Heq, HPQ, Hx. Qed.

Lemma level_at_ok d nodes : forall done messages,
    table_ok k r T messages ->
    equations_at El theta k y T o
      (fun z => (d < dist_of dl z)%nat \/ z ∈ done) messages ->
    NoDup (done ++ nodes) ->
    (forall x, x ∈ done ++ nodes -> dist_of dl x = d /\ x ∈ map snd T) ->
    exists messages',
      foldM (node_step El theta k T y o) nodes messages = Ok messages'
      /\ table_ok k r T messages'
      /\ equations_at El theta k y T o
           (fun z => (d < dist_of dl z)%nat \/ z ∈ done ++ nodes) messages'.
Proof using Hwf Hth Hst Hr Hadj Hcl.
    induction nodes as [|x nodes IH]; intros done messages Htab Heq Hnd Hall.
    - exists messages. rewrite app_nil_r. simpl. auto.
    - destruct (Hall x) as [Hdx Hx]; [apply elem_of_app; right; left|].
      apply list_elem_of_fmap in Hx as ([par x'] & Heqx & Hin). simpl in Heqx. subst x'.
      apply NoDup_app in Hnd as (Hnd1 & Hdisj & Hnd2).
      apply NoDup_cons in Hnd2 as [Hxn Hnd2].
      destruct (process_node_at _ messages par x Htab Heq Hin) as (m1 & Hm1 & Htab1 & Heq1).
      { intros [Hlt|Hd]; [lia|]. exact (Hdisj x Hd ltac:(left)). }
      { intros z [Hlt|Hd] Hzx; pose proof (st_edge _ _ _ _ Hst _ _ Hzx) as Hs; [lia|].
        destruct (Hall z) as [Hdz _]; [apply elem_of_app; left; exact Hd|]. lia. }
      destruct (IH (done ++ [x]) m1 Htab1) as (m2 & Hm2 & Htab2 & Heq2).
      + eapply equations_at_iff; [|exact Heq1]. intros z [Hz|Hz]; [left; left; exact Hz|].
        apply elem_of_app in Hz as [Hz|Hz]; [left; right; exact Hz|].
        apply list_elem_of_singleton in Hz. right. exact Hz.
      + rewrite <- app_assoc. simpl. apply NoDup_app. repeat split; try assumption.
        apply NoDup_cons. split; assumption.
      + intros z Hz. apply Hall. rewrite <- app_assoc in Hz. exact Hz.
      + exists m2. simpl. rewrite Hm1, bind_Ok. split; [exact Hm2|]. split; [exact Htab2|].
        rewrite <- app_assoc in Heq2. exact Heq2.
Qed.

Section LevelsAt.
Variable depths : gmap nat (list nat).
Variable max_depth : nat.
Hypothesis Hdepths : forall d,
      depths !! d = match nodes_at dl d with [] => None | l => Some l end.
Hypothesis Hmax : max_depth = 0%nat \/ exists x, (x, max_depth) ∈ dl.

Lemma levels_at_ok n : forall messages,
      (n <= max_depth)%nat ->
      table_ok k r T messages ->
      equations_at El theta k y T o (fun z => (n < dist_of dl z)%nat) messages ->
      exists messages',
        foldM (depth_step El theta k T y o depths) (rev (seq 1 n)) messages
        = Ok messages'
        /\ table_ok k r T messages'
        /\ equations_at El theta k y T o (fun z => (0 < dist_of dl z)%nat) messages'.
Proof using Hwf Hth Hst Hr Hadj Hcl Hmax Hdepths.
      induction n as [|n IH]; intros messages Hn Htab Heq.
      - exists messages. simpl. auto.
      - rewrite seq_S, rev_unit. simpl.
        destruct (depths_lookup g r T dl Hst depths max_depth Hdepths Hmax (S n))
          as [Hlook Hne]; [lia|].
        destruct (level_at_ok (S n) (nodes_at dl (S n)) [] messages Htab)
          as (m1 & Hm1 & Htab1 & Heq1).
        + eapply equations_at_iff; [|exact Heq]. intros z [Hz|Hz]; [exact Hz|].
          apply elem_of_nil in Hz. contradiction.
        + simpl. apply nodes_at_NoDup, (dl_NoDup g r T dl Hst).
        + simpl. intros x Hx. apply elem_of_nodes_at in Hx.
          pose proof (st_dist _ _ _ _ Hst _ _ Hx) as Hdx. split; [auto|].
          assert (Hxt : in_tree r T x).
          { apply (in_tree_dl g r T dl Hst), list_elem_of_fmap. exists (x, S n). auto. }
          destruct Hxt as [->|Hxt]; [|exact Hxt].
          rewrite (st_root _ _ _ _ Hst) in Hdx. discriminate.
        + destruct (IH m1) as (m2 & Hm2 & Htab2 & Heq2); [lia|exact Htab1| |].
          2:{ exists m2. split; [|auto].
              rewrite (depth_step_at_eq _ _ _ _ _ _ _ _ _ _ Hlook), Hm1, bind_Ok.
              exact Hm2. }
          eapply equations_at_iff; [|exact Heq1]. simpl. intros z Hz.
          destruct (decide (dist_of dl z = S n)) as [Hd|Hd]; [|left; lia].
          right. apply elem_of_nodes_at. rewrite <- Hd.
          destruct (decide (z ∈ map fst dl)) as [Hin|Hout].
          * apply dist_of_elem, Hin.
          * exfalso. clear -Hout Hd. induction dl as [|[a b] l IHl]; simpl in *.
            { discriminate. }
            { destruct (Nat.eqb_spec a z) as [->|Hne].
              - apply Hout. left.
              - apply IHl; [exact Hd|]. intros H. apply Hout. right. exact H. }
Qed.
End LevelsAt.
End EngineRunAt.

(** A run of [naive_SPA] with fixed nodes succeeds at every node of the
    graph when the fixed values are label values; it returns the root
    formula over a table of messages that satisfies the message equation at
    every node below the root. *)
Lemma naive_SPA_run_at g El theta k y r o :
  graph_wf g -> theta_ok El theta k y g ->
  (forall u v, v ∈ neighbors g u -> (u, v) ∈ El \/ (v, u) ∈ El) ->
  r ∈ dom g -> clamp_ok k o ->
  exists T messages,
    bfs_tree g r = Ok T
    /\ search_tree g r T (shortest_path_length T r)
    /\ table_ok k r T messages
    /\ equations_at El theta k y T o (fun _ => True) messages
    /\ naive_SPA g El theta k r y o
       = Ok (map (root_value theta y T messages r) (seq 0 (k + 1))).
Proof.
  intros Hwf Hth Hadj Hr Hcl.
  assert (HT : exists T, bfs_tree g r = Ok T).
  { unfold bfs_tree. apply elem_of_dom in Hr as [nb ->]. eauto. }
  destruct HT as [T HT].
  pose proof (bfs_tree_search_tree g r T Hwf HT) as Hst.
  set (dl := shortest_path_length T r) in *.
  pose proof (init_loop_spec k dl) as Hinit.
  destruct (fold_left (init_step k) dl (∅, ∅, 0%nat)) as [[messages0 depths] max_depth] eqn:Hfold.
  destruct Hinit as (Hm0 & Hdepths & Hbound & Hmax).
  assert (Htab0 : table_ok k r T messages0).
  { intros x Hx. exists (replicate (k + 1) 0). rewrite length_replicate. split; [|reflexivity].
    rewrite Hm0. rewrite decide_True; [reflexivity|].
    apply (in_tree_dl g r T dl Hst). exact Hx. }
  destruct (levels_at_ok g El theta k y r T dl o Hwf Hst Hth Hadj Hr Hcl depths max_depth
              Hdepths Hmax max_depth messages0) as (messages & Hloop & Htab & Heq).
  { lia. }
  { exact Htab0. }
  { intros par x vp Hlt Hin _. exfalso.
    assert (Hx : x ∈ map fst dl).
    { apply (in_tree_dl g r T dl Hst). right. apply list_elem_of_fmap. exists (par, x). auto. }
    apply dist_of_elem in Hx. apply Hbound in Hx. lia. }
  exists T, messages. split; [exact HT|]. split; [exact Hst|]. split; [exact Htab|].
  split.
  { intros par x vp _ Hin Hvp. apply (Heq par x vp); [|exact Hin|exact Hvp].
    rewrite (st_edge _ _ _ _ Hst _ _ Hin). lia. }
  unfold naive_SPA. rewrite HT, bind_Ok. fold dl. rewrite Hfold.
  rewrite Hloop, bind_Ok.
  apply (root_marginal_ok g El theta k y r T Hth Hr messages Htab).
Qed.

(** ** Tables of messages under two sets of fixed nodes *)

Section TablesAt.
Variable El : list (nat * nat).
Variable theta : gmap tkey (list R).
Variables k y r : nat.
Variables (T dl : list (nat * nat)).
Variables o o' : option (gmap nat nat).
Variables m m' : gmap nat (list R).
Hypothesis Hst : search_tree (graph_of El) r T dl.
Hypothesis Hcl : clamp_ok k o.
Hypothesis Heq : equations_at El theta k y T o (fun _ => True) m.
Hypothesis Heq' : equations_at El theta k y T o' (fun _ => True) m'.
Hypothesis Hsame : forall x, in_tree r T x -> x <> r -> clamp o x = clamp o' x.

(** The messages depend on the values fixed below the root only. *)
Lemma messages_unique x vp :
    in_tree r T x -> x <> r -> (vp <= k)%nat -> mget m x vp = mget m' x vp.
Proof using Hst Hcl Heq Heq' Hsame.
    destruct (dist_bounded El r T dl Hst) as [D HD].
    assert (Hgen : forall n x vp, (D - dist_of dl x < n)%nat ->
              in_tree r T x -> x <> r -> (vp <= k)%nat ->
              mget m x vp = mget m' x vp).
    { clear x vp. induction n as [|n IH]; intros x vp Hn Hx Hxr Hvp; [lia|].
      destruct (tree_parent r T x Hx Hxr) as [p Hp].
      rewrite (Heq p x vp I Hp Hvp), (Heq' p x vp I Hp Hvp).
      unfold message_value_at.
      rewrite <- (val_range_clamp k o o' x (Hsame x Hx Hxr)).
      apply sumR_map_ext_in. intros v Hv. apply (val_range_le k o x v Hcl) in Hv.
      f_equal. apply prodR_map_ext_in. intros c Hc. apply elem_of_children in Hc.
      assert (Hct : in_tree r T c) by exact (in_tree_child r T x c Hc).
      apply IH; [| exact Hct | | exact Hv].
      - pose proof (st_edge _ _ _ _ Hst _ _ Hc) as Hd. specialize (HD c Hct). lia.
      - intros ->. exact (tree_root_no_parent El r T dl Hst x Hc). }
    intros Hx Hxr Hvp. apply (Hgen (S (D - dist_of dl x))); auto.
Qed.

Lemma root_value_unique v :
    (v <= k)%nat -> root_value theta y T m r v = root_value theta y T m' r v.
Proof using Hst Hcl Heq Heq' Hsame.
    intros Hv. unfold root_value. f_equal. apply prodR_map_ext_in. intros c Hc.
    apply elem_of_children in Hc. apply messages_unique; [|intros ->|exact Hv].
    - exact (in_tree_child r T r c Hc).
    - exact (tree_root_no_parent El r T dl Hst r Hc).
Qed.
End TablesAt.

(** ** Moving the root along an edge, with fixed nodes *)

Section RerootAt.
Variable El : list (nat * nat).
Variable rank : nat -> nat.
Hypothesis Hchild : NoDup (map snd El).
Hypothesis Hrank : forall p c, (p, c) ∈ El -> (rank p < rank c)%nat.
Variable theta : gmap tkey (list R).
Variables k y : nat.
Variable o : option (gmap nat nat).
Hypothesis Hcl : clamp_ok k o.
Let g := graph_of El.

  (** The marginal at the root, unfolded along the edge to a neighbour
      [s] of the root. *)
Lemma root_value_expand_at r s T dl messages v :
    search_tree g r T dl ->
    equations_at El theta k y T o (fun _ => True) messages ->
    adjacent g r s -> (v <= k)%nat ->
    root_value theta y T messages r v
    = sumR (map (fun w =>
          phi theta y r v * phi theta y s w * psi El theta y r s v w
          * prodR (map (fun c => mget messages c v)
                     (filter (fun c => c <> s) (neighbors g r)))
          * prodR (map (fun c => mget messages c w)
                     (filter (fun c => c <> r) (neighbors g s))))
        (val_range k o s)).
Proof using Hchild Hrank.
    intros Hst Heq Hrs Hv. unfold root_value.
    assert (Hperm : children T r ≡ₚ s :: filter (fun c => c <> s) (neighbors g r)).
    { rewrite (children_root El rank Hchild Hrank r T dl Hst).
      apply extract_Permutation; [apply (proj2 (graph_of_wf El))|exact Hrs]. }
    assert (Hin : (r, s) ∈ T).
    { apply elem_of_children. rewrite Hperm. left. }
    rewrite (prodR_Permutation _ _ (Permutation_map (fun c => mget messages c v) Hperm)).
    simpl. rewrite (Heq r s v I Hin Hv). unfold message_value_at.
    set (PA := prodR (map (fun c => mget messages c v)
                        (filter (fun c => c <> s) (neighbors g r)))).
    transitivity ((phi theta y r v * PA) *
      sumR (map (fun w => phi theta y s w * psi El theta y r s v w
                          * prodR (map (fun c => mget messages c w) (children T s)))
              (val_range k o s))); [ring|].
    rewrite sumR_scal_l. apply sumR_map_ext_in. intros w _.
    rewrite (prodR_Permutation _ _
      (Permutation_map (fun c => mget messages c w)
         (children_node El rank Hchild Hrank r T dl Hst r s Hin))).
    fold g. ring.
Qed.

Variables (a b : nat) (Ta Tb dla dlb : list (nat * nat)).
Variables (ma mb : gmap nat (list R)).
Hypothesis Hab : adjacent g a b.
Hypothesis Hsta : search_tree g a Ta dla.
Hypothesis Hstb : search_tree g b Tb dlb.
Hypothesis Heqa : equations_at El theta k y Ta o (fun _ => True) ma.
Hypothesis Heqb : equations_at El theta k y Tb o (fun _ => True) mb.

Lemma messages_agree_at x vp :
    in_tree a Ta x -> x <> a -> x <> b -> (vp <= k)%nat ->
    mget ma x vp = mget mb x vp.
Proof using Hab Hsta Hstb Heqa Heqb Hchild Hrank Hcl.
    destruct (dist_bounded El a Ta dla Hsta) as [D HD].
    assert (Hgen : forall n x vp, (D - dist_of dla x < n)%nat ->
              in_tree a Ta x -> x <> a -> x <> b -> (vp <= k)%nat ->
              mget ma x vp = mget mb x vp).
    { clear x vp. induction n as [|n IH]; intros x vp Hn Hx Hxa Hxb Hvp; [lia|].
      destruct (tree_parent a Ta x Hx Hxa) as [p Hp].
      destruct (tree_parent b Tb x (tree_a_in_b El a b Ta Tb dla dlb Hab Hsta Hstb x Hx) Hxb)
        as [p' Hp'].
      assert (p' = p).
      { symmetry.
        exact (parents_agree El rank Hchild Hrank a b Ta Tb dla dlb Hab Hsta Hstb
                 x p p' Hxa Hxb Hp Hp'). }
      subst p'.
      rewrite (Heqa p x vp I Hp Hvp), (Heqb p x vp I Hp' Hvp).
      unfold message_value_at. apply sumR_map_ext_in. intros v Hv.
      apply (val_range_le k o x v Hcl) in Hv. f_equal.
      assert (Hperm : children Ta x ≡ₚ children Tb x).
      { rewrite (children_node El rank Hchild Hrank a Ta dla Hsta p x Hp).
        rewrite (children_node El rank Hchild Hrank b Tb dlb Hstb p x Hp').
        reflexivity. }
      rewrite <- (prodR_Permutation _ _ (Permutation_map (fun c => mget mb c v) Hperm)).
      apply prodR_map_ext_in. intros c Hc.
      assert (Hca : (x, c) ∈ Ta) by (apply elem_of_children; exact Hc).
      assert (Hcb : (x, c) ∈ Tb) by (apply elem_of_children; rewrite <- Hperm; exact Hc).
      assert (Hct : in_tree a Ta c).
      { right. apply list_elem_of_fmap. exists (x, c). auto. }
      apply IH; [| exact Hct | | | lia].
      - pose proof (st_edge _ _ _ _ Hsta _ _ Hca) as Hd. specialize (HD c Hct). lia.
      - intros ->. exact (tree_root_no_parent El a Ta dla Hsta x Hca).
      - intros ->. exact (tree_root_no_parent El b Tb dlb Hstb x Hcb). }
    intros Hx Hxa Hxb Hvp. apply (Hgen (S (D - dist_of dla x))); auto.
Qed.

Lemma side_agree_a_at v c :
    (v <= k)%nat -> c ∈ filter (fun c => c <> b) (neighbors g a) ->
    mget ma c v = mget mb c v.
Proof using Hab Hsta Hstb Heqa Heqb Hchild Hrank Hcl.
    intros Hv Hc. apply list_elem_of_filter in Hc as [Hcb Hc].
    apply messages_agree_at; [|intros ->|exact Hcb|exact Hv].
    - exact (st_closed _ _ _ _ Hsta a c ltac:(left; reflexivity) Hc).
    - apply elem_of_neighbors_graph_of in Hc.
      destruct Hc as [Hc|Hc]; exact (forest_no_loop El rank Hrank a Hc).
Qed.

Lemma side_agree_b_at v c :
    (v <= k)%nat -> c ∈ filter (fun c => c <> a) (neighbors g b) ->
    mget ma c v = mget mb c v.
Proof using Hab Hsta Hstb Heqa Heqb Hchild Hrank Hcl.
    intros Hv Hc. apply list_elem_of_filter in Hc as [Hca Hc].
    apply messages_agree_at; [|exact Hca|intros ->|exact Hv].
    - apply (st_closed _ _ _ _ Hsta b c); [|exact Hc].
      exact (st_closed _ _ _ _ Hsta a b ltac:(left; reflexivity) Hab).
    - apply elem_of_neighbors_graph_of in Hc.
      destruct Hc as [Hc|Hc]; exact (forest_no_loop El rank Hrank b Hc).
Qed.

  (** The two roots of an edge see the same total, each over the values
      that [other_nodes] leaves to it. *)
Lemma reroot_adjacent_at :
    sumR (map (root_value theta y Ta ma a) (val_range k o a))
    = sumR (map (root_value theta y Tb mb b) (val_range k o b)).
Proof using Hab Hsta Hstb Heqa Heqb Hchild Hrank Hcl.
    set (FA := fun v w =>
      phi theta y a v * phi theta y b w * psi El theta y a b v w
      * prodR (map (fun c => mget ma c v) (filter (fun c => c <> b) (neighbors g a)))
      * prodR (map (fun c => mget ma c w) (filter (fun c => c <> a) (neighbors g b)))).
    set (FB := fun w v =>
      phi theta y b w * phi theta y a v * psi El theta y b a w v
      * prodR (map (fun c => mget mb c w) (filter (fun c => c <> a) (neighbors g b)))
      * prodR (map (fun c => mget mb c v) (filter (fun c => c <> b) (neighbors g a)))).
    assert (HA : forall v, v ∈ val_range k o a ->
              root_value theta y Ta ma a v = sumR (map (FA v) (val_range k o b))).
    { intros v Hv. apply (val_range_le k o a v Hcl) in Hv.
      exact (root_value_expand_at a b Ta dla ma v Hsta Heqa Hab Hv). }
    assert (HB : forall w, w ∈ val_range k o b ->
              root_value theta y Tb mb b w = sumR (map (FB w) (val_range k o a))).
    { intros w Hw. apply (val_range_le k o b w Hcl) in Hw.
      exact (root_value_expand_at b a Tb dlb mb w Hstb Heqb
               (adjacent_sym El a b Hab) Hw). }
    rewrite (sumR_map_ext_in _ _ _ HA), (sumR_map_ext_in _ _ _ HB).
    rewrite (sumR_swap FA).
    apply sumR_map_ext_in. intros w Hw. apply sumR_map_ext_in. intros v Hv.
    apply (val_range_le k o b w Hcl) in Hw. apply (val_range_le k o a v Hcl) in Hv.
    unfold FA, FB.
    rewrite (psi_sym El rank Hrank theta y a b Hab v w).
    rewrite (prodR_map_ext_in (fun c => mget ma c v) (fun c => mget mb c v))
      by (intros c Hc; apply side_agree_a_at; [lia|exact Hc]).
    rewrite (prodR_map_ext_in (fun c => mget ma c w) (fun c => mget mb c w))
      by (intros c Hc; apply side_agree_b_at; [lia|exact Hc]).
    ring.
Qed.
End RerootAt.

Lemma nth_map_seq (F : nat -> R) (n v : nat) :
  (v < n)%nat -> nth v (map F (seq 0 n)) 0 = F v.
Proof.
  intros Hv. apply nth_lookup_Some with (i := v).
  rewrite list_lookup_fmap, lookup_seq_lt by exact Hv. reflexivity.
Qed.

Lemma graph_of_adj El u v :
  v ∈ neighbors (graph_of El) u -> (u, v) ∈ El \/ (v, u) ∈ El.
Proof. apply elem_of_neighbors_graph_of. Qed.

Section RootInvarianceAt.
Variable El : list (nat * nat).
Variable theta : gmap tkey (list R).
Variables k y : nat.
Hypothesis Hforest : forest_edges El.
Hypothesis Hth : theta_ok El theta k y (graph_of El).

Lemma spa_total_at o r :
    clamp_ok k o -> r ∈ dom (graph_of El) ->
    exists v, naive_SPA (graph_of El) El theta k r y o = Ok v
              /\ length v = (k + 1)%nat.
Proof using Hth.
    intros Hcl Hr.
    destruct (naive_SPA_run_at _ El theta k y r o (graph_of_wf El) Hth
                (graph_of_adj El) Hr Hcl) as (T & m & _ & _ & _ & _ & Hrun).
    eexists. split; [exact Hrun|]. rewrite length_map, length_seq. reflexivity.
Qed.

Lemma spa_adjacent_at o a b va vb :
    clamp_ok k o -> adjacent (graph_of El) a b ->
    naive_SPA (graph_of El) El theta k a y o = Ok va ->
    naive_SPA (graph_of El) El theta k b y o = Ok vb ->
    sumR (map (fun v => nth v va 0) (val_range k o a))
    = sumR (map (fun v => nth v vb 0) (val_range k o b)).
Proof using Hforest Hth.
    intros Hcl Hab Ha Hb. destruct Hforest as [Hchild [rank Hrank]].
    destruct (adjacent_dom El a b Hab) as [Hda Hdb].
    destruct (naive_SPA_run_at _ El theta k y a o (graph_of_wf El) Hth
                (graph_of_adj El) Hda Hcl) as (Ta & ma & _ & Hsta & _ & Heqa & Hra).
    destruct (naive_SPA_run_at _ El theta k y b o (graph_of_wf El) Hth
                (graph_of_adj El) Hdb Hcl) as (Tb & mb & _ & Hstb & _ & Heqb & Hrb).
    rewrite Hra in Ha. rewrite Hrb in Hb. injection Ha as <-. injection Hb as <-.
    rewrite (sumR_map_ext_in _ (root_value theta y Ta ma a)).
    2:{ intros v Hv. apply (val_range_le k o a v Hcl) in Hv.
        apply nth_map_seq. lia. }
    rewrite (sumR_map_ext_in _ (root_value theta y Tb mb b) (val_range k o b)).
    2:{ intros v Hv. apply (val_range_le k o b v Hcl) in Hv.
        apply nth_map_seq. lia. }
    exact (reroot_adjacent_at El rank Hchild Hrank theta k y o Hcl a b Ta Tb _ _ ma mb
             Hab Hsta Hstb Heqa Heqb).
Qed.

Lemma spa_connected_at o r r' v v' :
    clamp_ok k o -> connected (graph_of El) r r' ->
    naive_SPA (graph_of El) El theta k r y o = Ok v ->
    naive_SPA (graph_of El) El theta k r' y o = Ok v' ->
    sumR (map (fun x => nth x v 0) (val_range k o r))
    = sumR (map (fun x => nth x v' 0) (val_range k o r')).
Proof using Hforest Hth.
    intros Hcl Hc. revert v. induction Hc as [a|a b c Hab _ IH]; intros v Hv Hv'.
    - rewrite Hv in Hv'. injection Hv' as <-. reflexivity.
    - destruct (spa_total_at o b Hcl (proj2 (adjacent_dom El a b Hab))) as (vb & Hvb & _).
      rewrite (spa_adjacent_at o a b v vb Hcl Hab Hv Hvb). exact (IH vb Hvb Hv').
Qed.

(** The value fixed at the root itself is not read. *)
Lemma spa_root_clamp o o' r :
    clamp_ok k o -> clamp_ok k o' -> r ∈ dom (graph_of El) ->
    (forall x, x <> r -> clamp o x = clamp o' x) ->
    naive_SPA (graph_of El) El theta k r y o
    = naive_SPA (graph_of El) El theta k r y o'.
Proof using Hth.
    intros Hcl Hcl' Hr Hsame.
    destruct (naive_SPA_run_at _ El theta k y r o (graph_of_wf El) Hth
                (graph_of_adj El) Hr Hcl) as (T & m & HT & Hst & _ & Heq & Hrun).
    destruct (naive_SPA_run_at _ El theta k y r o' (graph_of_wf El) Hth
                (graph_of_adj El) Hr Hcl') as (T' & m' & HT' & _ & _ & Heq' & Hrun').
    rewrite HT in HT'. injection HT' as <-.
    rewrite Hrun, Hrun'. f_equal. apply map_ext_in. intros v Hv.
    apply list_elem_of_In, elem_of_seq in Hv.
    apply (root_value_unique El theta k y r T _ o o' m m' Hst Hcl Heq Heq');
      [|lia].
    intros x _ Hx. exact (Hsame x Hx).
Qed.
End RootInvarianceAt.

(** ** One fixed node *)

Lemma clamp_single j v2 x :
  clamp (Some (<[j := v2]> ∅)) x = if decide (x = j) then Some v2 else None.
Proof.
  unfold clamp. simpl. destruct (decide (x = j)) as [->|Hne].
  - apply lookup_insert_eq.
  - rewrite lookup_insert_ne by congruence. apply lookup_empty.
Qed.

Lemma clamp_pair i v1 j v2 x :
  clamp (Some (<[i := v1]> (<[j := v2]> ∅))) x
  = if decide (x = i) then Some v1
    else if decide (x = j) then Some v2 else None.
Proof.
  unfold clamp. simpl. destruct (decide (x = i)) as [->|Hi].
  - apply lookup_insert_eq.
  - rewrite lookup_insert_ne by congruence.
    destruct (decide (x = j)) as [->|Hj].
    + apply lookup_insert_eq.
    + rewrite lookup_insert_ne by congruence. apply lookup_empty.
Qed.

Lemma clamp_ok_none k : clamp_ok k None.
Proof. intros x v H. discriminate. Qed.

Lemma clamp_ok_single k j v : (v <= k)%nat -> clamp_ok k (Some (<[j := v]> ∅)).
Proof.
  intros Hv x w H. rewrite clamp_single in H.
  destruct (decide (x = j)); [|discriminate]. injection H as <-. exact Hv.
Qed.

Lemma clamp_ok_pair k i v1 j v2 :
  (v1 <= k)%nat -> (v2 <= k)%nat ->
  clamp_ok k (Some (<[i := v1]> (<[j := v2]> ∅))).
Proof.
  intros H1 H2 x w H. rewrite clamp_pair in H.
  destruct (decide (x = i)); [injection H as <-; exact H1|].
  destruct (decide (x = j)); [injection H as <-; exact H2|discriminate].
Qed.

Lemma connected_trans_sym El a b c :
  connected (graph_of El) a b -> connected (graph_of El) a c ->
  connected (graph_of El) b c.
Proof.
  intros Hab Hac. apply (rtc_trans b a c); [|exact Hac].
  apply connected_sym_graph_of. exact Hab.
Qed.

Section Joint.
Variable El : list (nat * nat).
Variable theta : gmap tkey (list R).
Variables k y : nat.
Hypothesis Hforest : forest_edges El.
Hypothesis Hth : theta_ok El theta k y (graph_of El).
Let g := graph_of El.

Lemma spa_entry_Ok o i v val :
    naive_SPA g El theta k i y o = Ok v -> spa_entry g El theta k y i o val = nth val v 0.
Proof. intros H. unfold spa_entry. rewrite H. reflexivity. Qed.

(** With one node fixed, the run from source [i] with [j] at [v2] and the
    run from [j] with [i] at [v1] meet at the entries [v1] and [v2]. *)
Lemma joint_symmetry i j v1 v2 :
    i <> j -> connected g i j -> i ∈ dom g -> (v1 <= k)%nat -> (v2 <= k)%nat ->
    spa_entry g El theta k y i (Some (<[j := v2]> ∅)) v1
    = spa_entry g El theta k y j (Some (<[i := v1]> ∅)) v2.
Proof using Hforest Hth.
    intros Hij Hc Hi H1 H2.
    pose proof (connected_dom El i j Hc Hi) as Hj.
    set (o2 := Some (<[i := v1]> (<[j := v2]> (∅ : gmap nat nat)))).
    assert (Hcl2 : clamp_ok k o2) by exact (clamp_ok_pair k i v1 j v2 H1 H2).
    destruct (spa_total_at El theta k y Hth o2 i Hcl2 Hi) as (vi & Hvi & _).
    destruct (spa_total_at El theta k y Hth o2 j Hcl2 Hj) as (vj & Hvj & _).
    pose proof (spa_connected_at El theta k y Hforest Hth o2 i j vi vj Hcl2 Hc Hvi Hvj)
      as Hsum.
    rewrite (val_range_fixed k o2 i v1) in Hsum
      by (unfold o2; rewrite clamp_pair, decide_True by reflexivity; reflexivity).
    rewrite (val_range_fixed k o2 j v2) in Hsum
      by (unfold o2; rewrite clamp_pair, decide_False by congruence;
          rewrite decide_True by reflexivity; reflexivity).
    simpl in Hsum.
    rewrite (spa_root_clamp El theta k y Hth o2 (Some (<[j := v2]> ∅)) i) in Hvi.
    2:{ exact Hcl2. }
    2:{ exact (clamp_ok_single k j v2 H2). }
    2:{ exact Hi. }
    2:{ intros x Hx. unfold o2. rewrite clamp_pair, clamp_single.
        rewrite decide_False by exact Hx. reflexivity. }
    rewrite (spa_root_clamp El theta k y Hth o2 (Some (<[i := v1]> ∅)) j) in Hvj.
    2:{ exact Hcl2. }
    2:{ exact (clamp_ok_single k i v1 H1). }
    2:{ exact Hj. }
    2:{ intros x Hx. unfold o2. rewrite clamp_pair, clamp_single.
        rewrite (decide_False (P := x = j)) by exact Hx.
        destruct (decide (x = i)); reflexivity. }
    rewrite (spa_entry_Ok _ _ _ _ Hvi), (spa_entry_Ok _ _ _ _ Hvj). lra.
Qed.

(** Summing the root's values out leaves the marginal of the fixed node. *)
Lemma joint_marginal_root i j v2 :
    i <> j -> connected g i j -> i ∈ dom g -> (v2 <= k)%nat ->
    sumR (map (spa_entry g El theta k y i (Some (<[j := v2]> ∅))) (seq 0 (k + 1)))
    = spa_entry g El theta k y j None v2.
Proof using Hforest Hth.
    intros Hij Hc Hi H2.
    pose proof (connected_dom El i j Hc Hi) as Hj.
    set (o := Some (<[j := v2]> (∅ : gmap nat nat))).
    assert (Hcl : clamp_ok k o) by exact (clamp_ok_single k j v2 H2).
    destruct (spa_total_at El theta k y Hth o i Hcl Hi) as (vi & Hvi & _).
    destruct (spa_total_at El theta k y Hth o j Hcl Hj) as (vj & Hvj & _).
    pose proof (spa_connected_at El theta k y Hforest Hth o i j vi vj Hcl Hc Hvi Hvj)
      as Hsum.
    rewrite (val_range_free k o i) in Hsum
      by (unfold o; rewrite clamp_single, decide_False by exact Hij; reflexivity).
    rewrite (val_range_fixed k o j v2) in Hsum
      by (unfold o; rewrite clamp_single, decide_True by reflexivity; reflexivity).
    simpl in Hsum.
    rewrite (spa_root_clamp El theta k y Hth o None j) in Hvj.
    2:{ exact Hcl. }
    2:{ exact (clamp_ok_none k). }
    2:{ exact Hj. }
    2:{ intros x Hx. unfold o. rewrite clamp_single, decide_False by exact Hx.
        reflexivity. }
    rewrite (spa_entry_Ok _ _ _ _ Hvj).
    rewrite (sumR_map_ext_in _ (fun v => nth v vi 0)).
    - lra.
    - intros v _. apply spa_entry_Ok. exact Hvi.
Qed.

(** Summing the fixed node's values out leaves the marginal of the root. *)
Lemma joint_marginal_fixed i j v1 :
    i <> j -> connected g i j -> i ∈ dom g -> (v1 <= k)%nat ->
    sumR (map (fun v2 => spa_entry g El theta k y i (Some (<[j := v2]> ∅)) v1)
            (seq 0 (k + 1)))
    = spa_entry g El theta k y i None v1.
Proof using Hforest Hth.
    intros Hij Hc Hi H1.
    pose proof (connected_dom El i j Hc Hi) as Hj.
    rewrite (sumR_map_ext_in _ (spa_entry g El theta k y j (Some (<[i := v1]> ∅)))).
    - apply joint_marginal_root; [congruence| |exact Hj|exact H1].
      apply connected_sym_graph_of. exact Hc.
    - intros v2 Hv2. apply elem_of_seq in Hv2.
      apply joint_symmetry; [exact Hij|exact Hc|exact Hi|exact H1|lia].
Qed.
End Joint.



(** ** Positivity with fixed nodes *)

Lemma val_range_nonempty k o x : val_range k o x <> [].
Proof.
  unfold val_range. destruct o as [o|]; [destruct (o !! x)|];
    rewrite ?Nat.add_1_r; discriminate.
Qed.

Lemma map_nonempty {A B} (f : A -> B) (l : list A) : l <> [] -> map f l <> [].
Proof. destruct l; [congruence|discriminate]. Qed.

Section PositiveAt.
Variable El : list (nat * nat).
Variable theta : gmap tkey (list R).
Variables k y r : nat.
Variables T dl : list (nat * nat).
Variable o : option (gmap nat nat).
Variable messages : gmap nat (list R).
Hypothesis Hst : search_tree (graph_of El) r T dl.
Hypothesis Heq : equations_at El theta k y T o (fun _ => True) messages.
Hypothesis Hcl : clamp_ok k o.

Lemma messages_positive_at : forall par x vp,
  (par, x) ∈ T -> (vp <= k)%nat -> 0 < mget messages x vp.
Proof using Hst Heq Hcl.
  destruct (dist_bounded El r T dl Hst) as [D HD].
  assert (Hind : forall n par x vp, (par, x) ∈ T -> (D - dist_of dl x <= n)%nat ->
                   (vp <= k)%nat -> 0 < mget messages x vp).
  { induction n as [|n IH]; intros par x vp Hpx Hn Hvp;
      rewrite (Heq par x vp I Hpx Hvp); unfold message_value_at;
      (apply sumR_pos; [apply map_nonempty, val_range_nonempty|]);
      apply Forall_map_pos; intros v Hv; apply (val_range_le k o x v Hcl) in Hv;
      (apply Rmult_lt_0_compat;
        [apply Rmult_lt_0_compat; [apply phi_pos|apply psi_pos]|]);
      apply prodR_pos, Forall_map_pos; intros c Hc;
      apply elem_of_children in Hc;
      pose proof (st_edge _ _ _ _ Hst x c Hc) as Hdc;
      assert (Hcin : in_tree r T c)
        by (right; apply list_elem_of_fmap; exists (x, c); split; [reflexivity|exact Hc]);
      pose proof (HD c Hcin) as Hcb.
    - lia.
    - apply (IH x c v Hc); lia. }
  intros par x vp Hpx Hvp. apply (Hind (D - dist_of dl x)%nat par x vp Hpx); [lia|exact Hvp].
Qed.

Lemma root_value_positive_at v :
  (v <= k)%nat -> 0 < root_value theta y T messages r v.
Proof using Hst Heq Hcl.
  intros Hv. unfold root_value. apply Rmult_lt_0_compat; [apply phi_pos|].
  apply prodR_pos, Forall_map_pos. intros c Hc. apply elem_of_children in Hc.
  exact (messages_positive_at r c v Hc Hv).
Qed.
End PositiveAt.

Lemma spa_entry_pos El theta k y r o v :
  theta_ok El theta k y (graph_of El) -> clamp_ok k o ->
  r ∈ dom (graph_of El) -> (v <= k)%nat ->
  0 < spa_entry (graph_of El) El theta k y r o v.
Proof.
  intros Hth Hcl Hr Hv.
  destruct (naive_SPA_run_at _ El theta k y r o (graph_of_wf El) Hth
              (graph_of_adj El) Hr Hcl) as (T & m & _ & Hst & _ & Heq & Hrun).
  unfold spa_entry. rewrite Hrun, nth_map_seq by lia.
  exact (root_value_positive_at El theta k y r T _ o m Hst Heq Hcl v Hv).
Qed.

(** ** The table of pairwise probabilities *)

Lemma elem_of_joint_keys m k a va b vb y :
  (a, va, b, vb, y) ∈ joint_keys m k
  <-> (a < m)%nat /\ (b < m)%nat /\ a <> b /\ (va <= k)%nat /\ (vb <= k)%nat
      /\ (1 <= y <= k)%nat.
Proof.
  unfold joint_keys. rewrite elem_of_concat. split.
  - intros (l & Hin & Hl).
    apply list_elem_of_fmap in Hl as (y0 & -> & Hy0).
    apply elem_of_concat in Hin as (l & Hin & Hl).
    apply list_elem_of_fmap in Hl as (i0 & -> & Hi0).
    apply elem_of_concat in Hin as (l & Hin & Hl).
    apply list_elem_of_fmap in Hl as (j0 & -> & Hj0).
    apply elem_of_concat in Hin as (l & Hin & Hl).
    apply list_elem_of_fmap in Hl as (val1 & -> & Hval1).
    apply elem_of_concat in Hin as (l & Hin & Hl).
    apply list_elem_of_fmap in Hl as (val2 & -> & Hval2).
    apply elem_of_seq in Hy0, Hi0, Hj0, Hval1, Hval2.
    apply elem_of_cons in Hin as [Heq|Hin].
    + injection Heq as -> -> -> -> ->. lia.
    + apply list_elem_of_singleton in Hin. injection Hin as -> -> -> -> ->. lia.
  - intros (Ha & Hb & Hab & Hva & Hvb & Hy).
    set (i := Nat.min a b). set (j := Nat.max a b).
    set (val1 := if decide (a < b)%nat then va else vb).
    set (val2 := if decide (a < b)%nat then vb else va).
    eexists. split; [|apply list_elem_of_fmap; exists y; split;
                       [reflexivity|apply elem_of_seq; lia]].
    apply elem_of_concat. eexists.
    split; [|apply list_elem_of_fmap; exists i; split;
              [reflexivity|apply elem_of_seq; unfold i; lia]].
    apply elem_of_concat. eexists.
    split; [|apply list_elem_of_fmap; exists j; split;
              [reflexivity|apply elem_of_seq; unfold i, j; lia]].
    apply elem_of_concat. eexists.
    split; [|apply list_elem_of_fmap; exists val1; split;
              [reflexivity|apply elem_of_seq; unfold val1;
               destruct (decide (a < b)%nat); lia]].
    apply elem_of_concat. eexists.
    split; [|apply list_elem_of_fmap; exists val2; split;
              [reflexivity|apply elem_of_seq; unfold val2;
               destruct (decide (a < b)%nat); lia]].
    unfold i, j, val1, val2. destruct (decide (a < b)%nat) as [Hlt|Hge].
    + rewrite Nat.min_l, Nat.max_r by lia. left.
    + rewrite Nat.min_r, Nat.max_l by lia. right. left.
Qed.

Section JointTable.
Variable g : gmap nat (list nat).
Variable El : list (nat * nat).
Variable theta : gmap tkey (list R).
Variables m k : nat.

(** When the engine returns for every source, fixed node and class,
    [P_joints_true] returns the table of the entries over [joint_keys]. *)
Lemma P_joints_true_forward :
  (forall y, (1 <= y <= k)%nat -> exists Z, get_Z g El theta k y = Ok Z) ->
  (forall i j val2 y, (i < j)%nat -> (j < m)%nat -> (val2 <= k)%nat ->
     (1 <= y <= k)%nat ->
     exists v, naive_SPA g El theta k i y (Some (<[j := val2]> ∅)) = Ok v
               /\ (k < length v)%nat) ->
  P_joints_true g El theta m k
  = Ok (fold_left (fun t key => <[key := joint_entry g El theta k key]> t)
          (joint_keys m k) ∅).
Proof.
  intros HZ HV. unfold P_joints_true, joint_keys.
  set (INS := fun (t : gmap (nat * nat * nat * nat * nat) R) key =>
                <[key := joint_entry g El theta k key]> t).
  rewrite fold_left_concat, fold_left_fmap.
  rewrite (foldM_ext_in _ (fun t y => Ok
    (fold_left INS
       (concat (map (fun i =>
          concat (map (fun j =>
            concat (map (fun val1 =>
              concat (map (fun val2 =>
                        [(i, val1, j, val2, y); (j, val2, i, val1, y)])
                        (seq 0 (k + 1))))
              (seq 0 (k + 1))))
            (seq (i + 1) (m - (i + 1)))))
          (seq 0 m))) t))); [apply foldM_pure|].
  intros t y Hy. apply elem_of_seq in Hy.
  destruct (HZ y ltac:(lia)) as [Z HZy]. rewrite HZy, bind_Ok.
  rewrite fold_left_concat, fold_left_fmap.
  rewrite (foldM_ext_in _ (fun t i => Ok
    (fold_left INS
       (concat (map (fun j =>
          concat (map (fun val1 =>
            concat (map (fun val2 =>
                      [(i, val1, j, val2, y); (j, val2, i, val1, y)])
                      (seq 0 (k + 1))))
            (seq 0 (k + 1))))
          (seq (i + 1) (m - (i + 1))))) t))); [apply foldM_pure|].
  intros t1 i Hi. apply elem_of_seq in Hi.
  rewrite fold_left_concat, fold_left_fmap.
  rewrite (foldM_ext_in _ (fun t j => Ok
    (fold_left INS
       (concat (map (fun val1 =>
          concat (map (fun val2 =>
                    [(i, val1, j, val2, y); (j, val2, i, val1, y)])
                    (seq 0 (k + 1))))
          (seq 0 (k + 1)))) t))); [apply foldM_pure|].
  intros t2 j Hj. apply elem_of_seq in Hj.
  rewrite fold_left_concat, fold_left_fmap.
  rewrite (foldM_ext_in _ (fun t val1 => Ok
    (fold_left INS
       (concat (map (fun val2 =>
                  [(i, val1, j, val2, y); (j, val2, i, val1, y)])
                  (seq 0 (k + 1)))) t))); [apply foldM_pure|].
  intros t3 val1 Hval1. apply elem_of_seq in Hval1.
  rewrite fold_left_concat, fold_left_fmap.
  rewrite (foldM_ext_in _ (fun t val2 => Ok
    (fold_left INS [(i, val1, j, val2, y); (j, val2, i, val1, y)] t)));
    [apply foldM_pure|].
  intros t4 val2 Hval2. apply elem_of_seq in Hval2. cbv zeta.
  destruct (HV i j val2 y ltac:(lia) ltac:(lia) ltac:(lia) ltac:(lia))
    as (v & Hv & Hlen).
  rewrite Hv, bind_Ok.
  destruct (lookup_lt_is_Some_2 v val1 ltac:(lia)) as [x Hx].
  unfold getitem. rewrite Hx, bind_Ok.
  unfold dd_get, dd_read. rewrite lookup_insert_eq. cbn [dd_float fold_left].
  unfold INS, joint_entry. rewrite HZy.
  rewrite (decide_True (P := (i < j)%nat)) by lia.
  rewrite (decide_False (P := (j < i)%nat)) by lia.
  unfold spa_entry. rewrite Hv, (nth_lookup_Some _ _ _ _ Hx). reflexivity.
Qed.
End JointTable.

Section JointConsistent.
Variable El : list (nat * nat).
Variable theta : gmap tkey (list R).
Variables m k : nat.
Hypothesis Hforest : forest_edges El.
Hypothesis Hth : forall y, (1 <= y <= k)%nat -> theta_ok El theta k y (graph_of El).
Hypothesis H0 : 0%nat ∈ dom (graph_of El).
Hypothesis Hconn : forall i, (i < m)%nat -> connected (graph_of El) 0 i.

Lemma joint_forward_ok :
  P_joints_true (graph_of El) El theta m k
  = Ok (fold_left (fun t key => <[key := joint_entry (graph_of El) El theta k key]> t)
          (joint_keys m k) ∅).
Proof using Hth H0 Hconn.
  apply P_joints_true_forward.
  - intros y Hy. destruct (solo_Z_ok El theta k (Hth) H0 y Hy) as (v & _ & Hz & _).
    eauto.
  - intros i j val2 y Hij Hj Hval2 Hy.
    destruct (spa_total_at El theta k y (Hth y Hy) (Some (<[j := val2]> ∅)) i
                (clamp_ok_single k j val2 Hval2)
                (connected_dom El 0 i (Hconn i ltac:(lia)) H0)) as (v & Hv & Hlen).
    exists v. split; [exact Hv|lia].
Qed.

Lemma solo_lookup j vj y :
  (j < m)%nat -> (vj <= k)%nat -> (1 <= y <= k)%nat ->
  fold_left (fun t key => <[key := solo_entry (graph_of El) El theta k key]> t)
    (solo_keys m k) (∅ : gmap (nat * nat * nat) R) !! (j, vj, y)
  = Some (solo_entry (graph_of El) El theta k (j, vj, y)).
Proof.
  intros Hj Hvj Hy.
  rewrite fold_insert_lookup, decide_True by (apply elem_of_solo_keys; lia).
  reflexivity.
Qed.

Lemma joint_lookup i vi j vj y :
  (i < m)%nat -> (j < m)%nat -> i <> j -> (vi <= k)%nat -> (vj <= k)%nat ->
  (1 <= y <= k)%nat ->
  fold_left (fun t key => <[key := joint_entry (graph_of El) El theta k key]> t)
    (joint_keys m k) (∅ : gmap (nat * nat * nat * nat * nat) R)
    !! (i, vi, j, vj, y)
  = Some (joint_entry (graph_of El) El theta k (i, vi, j, vj, y)).
Proof.
  intros Hi Hj Hij Hvi Hvj Hy.
  rewrite fold_insert_lookup, decide_True by (apply elem_of_joint_keys; lia).
  reflexivity.
Qed.

Lemma solo_entry_pos j vj y :
  (j < m)%nat -> (vj <= k)%nat -> (1 <= y <= k)%nat ->
  0 < solo_entry (graph_of El) El theta k (j, vj, y).
Proof using Hth H0 Hconn.
  intros Hj Hvj Hy.
  destruct (solo_Z_ok El theta k Hth H0 y Hy) as (v0 & _ & Hz & Hpos).
  destruct (solo_engine_ok El theta m k Hth H0 Hconn j y Hj Hy) as (v & Hv & Hlen & Hall).
  unfold solo_entry. rewrite Hv, Hz.
  destruct (lookup_lt_is_Some_2 v vj ltac:(lia)) as [x Hx].
  rewrite (nth_lookup_Some _ _ _ _ Hx).
  pose proof (Forall_lookup_1 _ _ _ _ Hall Hx) as Hxpos. simpl in Hxpos.
  apply Rdiv_lt_0_compat; assumption.
Qed.

Lemma joint_entry_pos i vi j vj y :
  (i < m)%nat -> (j < m)%nat -> (vi <= k)%nat -> (vj <= k)%nat ->
  (1 <= y <= k)%nat ->
  0 < joint_entry (graph_of El) El theta k (i, vi, j, vj, y).
Proof using Hth H0 Hconn.
  intros Hi Hj Hvi Hvj Hy.
  destruct (solo_Z_ok El theta k Hth H0 y Hy) as (v0 & _ & Hz & Hpos).
  pose proof (connected_dom El 0 i (Hconn i Hi) H0) as Hdi.
  pose proof (connected_dom El 0 j (Hconn j Hj) H0) as Hdj.
  unfold joint_entry. rewrite Hz.
  destruct (decide (i < j)%nat); apply Rdiv_lt_0_compat; try exact Hpos;
    apply spa_entry_pos; auto using clamp_ok_single.
Qed.

Lemma joint_entry_sum i j vj y :
  (i < m)%nat -> (j < m)%nat -> i <> j -> (vj <= k)%nat -> (1 <= y <= k)%nat ->
  sumR (map (fun vi => joint_entry (graph_of El) El theta k (i, vi, j, vj, y))
          (seq 0 (k + 1)))
  = solo_entry (graph_of El) El theta k (j, vj, y).
Proof using Hforest Hth H0 Hconn.
  intros Hi Hj Hij Hvj Hy.
  destruct (solo_Z_ok El theta k Hth H0 y Hy) as (v0 & _ & Hz & Hpos).
  destruct (solo_engine_ok El theta m k Hth H0 Hconn j y Hj Hy) as (v & Hv & _ & _).
  pose proof (connected_dom El 0 i (Hconn i Hi) H0) as Hdi.
  pose proof (connected_dom El 0 j (Hconn j Hj) H0) as Hdj.
  pose proof (connected_trans_sym El 0 i j (Hconn i Hi) (Hconn j Hj)) as Hcij.
  pose proof (connected_trans_sym El 0 j i (Hconn j Hj) (Hconn i Hi)) as Hcji.
  unfold solo_entry. rewrite Hv, Hz.
  rewrite <- (spa_entry_Ok El theta k y None j v vj Hv).
  destruct (decide (i < j)%nat) as [Hlt|Hge].
  - rewrite <- (joint_marginal_root El theta k y Hforest (Hth y Hy) i j vj
                  Hij Hcij Hdi Hvj).
    unfold Rdiv. rewrite Rmult_comm, sumR_scal_l.
    apply sumR_map_ext_in. intros vi Hvi.
    unfold joint_entry. rewrite Hz, decide_True by exact Hlt.
    unfold Rdiv. ring.
  - rewrite <- (joint_marginal_fixed El theta k y Hforest (Hth y Hy) j i vj
                  ltac:(congruence) Hcji Hdj Hvj).
    unfold Rdiv. rewrite Rmult_comm, sumR_scal_l.
    apply sumR_map_ext_in. intros vi Hvi.
    unfold joint_entry. rewrite Hz, decide_False by exact Hge.
    unfold Rdiv. ring.
Qed.

Lemma joint_row_sum i j vj y :
  (i < m)%nat -> (j < m)%nat -> i <> j -> (vj <= k)%nat -> (1 <= y <= k)%nat ->
  sumR (map (fun vi =>
               dd_get (fold_left (fun t key =>
                         <[key := joint_entry (graph_of El) El theta k key]> t)
                         (joint_keys m k) ∅) (i, vi, j, vj, y))
          (seq 0 (k + 1)))
  = dd_get (fold_left (fun t key =>
              <[key := solo_entry (graph_of El) El theta k key]> t)
              (solo_keys m k) ∅) (j, vj, y).
Proof using Hforest Hth H0 Hconn.
  intros Hi Hj Hij Hvj Hy.
  unfold dd_get at 2. unfold dd_read. rewrite solo_lookup by assumption.
  cbn [dd_float]. rewrite <- (joint_entry_sum i j vj y) by assumption.
  apply sumR_map_ext_in. intros vi Hvi. apply elem_of_seq in Hvi.
  unfold dd_get, dd_read. rewrite joint_lookup by (auto; lia). reflexivity.
Qed.

(** The conditional probabilities of a source given another one. *)
Lemma P_conditional_value i li j lj y :
  (i < m)%nat -> (j < m)%nat -> i <> j -> (li <= k)%nat -> (lj <= k)%nat ->
  (1 <= y <= k)%nat ->
  P_conditional
    (fold_left (fun t key => <[key := solo_entry (graph_of El) El theta k key]> t)
       (solo_keys m k) ∅)
    (fold_left (fun t key => <[key := joint_entry (graph_of El) El theta k key]> t)
       (joint_keys m k) ∅)
    i li j lj y
  = Ok (Fin (joint_entry (graph_of El) El theta k (i, li, j, lj, y)
             / solo_entry (graph_of El) El theta k (j, lj, y))).
Proof using Hth H0 Hconn.
  intros Hi Hj Hij Hli Hlj Hy. unfold P_conditional, dd_read.
  rewrite joint_lookup, solo_lookup by assumption. unfold true_div.
  pose proof (solo_entry_pos j lj y Hj Hlj Hy) as Hpos.
  destruct (Req_dec_T _ 0) as [Hz|_]; [lra|reflexivity].
Qed.

Lemma conditional_sum i j lj y :
  (i < m)%nat -> (j < m)%nat -> i <> j -> (lj <= k)%nat -> (1 <= y <= k)%nat ->
  sumR (map (fun li => joint_entry (graph_of El) El theta k (i, li, j, lj, y)
                       / solo_entry (graph_of El) El theta k (j, lj, y))
          (seq 0 (k + 1))) = 1.
Proof using Hforest Hth H0 Hconn.
  intros Hi Hj Hij Hlj Hy.
  pose proof (solo_entry_pos j lj y Hj Hlj Hy) as Hpos.
  rewrite (sumR_map_ext_in _
    (fun li => / solo_entry (graph_of El) El theta k (j, lj, y)
               * joint_entry (graph_of El) El theta k (i, li, j, lj, y))).
  - rewrite <- sumR_scal_l, (joint_entry_sum i j lj y) by assumption. field. lra.
  - intros li _. unfold Rdiv. ring.
Qed.
End JointConsistent.



(** ** Loops that cannot raise *)

Lemma foldM_total {A B} (Inv : A -> Prop) (f : A -> B -> result A) (l : list B) :
  (forall a b, Inv a -> b ∈ l -> exists a', f a b = Ok a' /\ Inv a') ->
  forall a, Inv a -> exists a', foldM f l a = Ok a' /\ Inv a'.
Proof.
  induction l as [|b l IH]; intros Hstep a Ha.
  - exists a. split; [reflexivity|exact Ha].
  - destruct (Hstep a b Ha ltac:(left)) as (a1 & H1 & Ha1).
    destruct (IH (fun a b Ha Hb => Hstep a b Ha ltac:(right; exact Hb)) a1 Ha1)
      as (a2 & H2 & Ha2).
    exists a2. split; [|exact Ha2]. simpl. rewrite H1. exact H2.
Qed.

Lemma set2_total {A} (n m : nat) (Q : A -> Prop) (M : list (list A)) (i j : nat)
    (x : A) :
  matrix_ok n m Q M -> (i < n)%nat -> (j < m)%nat -> Q x ->
  exists M', set2 M i j x = Ok M' /\ matrix_ok n m Q M'.
Proof.
  intros HM Hi Hj Hx. destruct HM as [Hlen Hrows].
  destruct (lookup_lt_is_Some_2 M i ltac:(lia)) as [row Hrow].
  pose proof (Forall_lookup_1 _ _ _ _ Hrows Hrow) as [Hrl Hrq].
  assert (Hset : set2 M i j x = Ok (<[i := <[j := x]> row]> M)).
  { unfold set2, getitem, setitem. rewrite Hrow, bind_Ok.
    rewrite decide_True by lia. rewrite bind_Ok.
    rewrite decide_True by lia. reflexivity. }
  eexists. split; [exact Hset|].
  exact (set2_matrix_ok n m Q M _ i j x (conj Hlen Hrows) Hx Hset).
Qed.

(** ** The decoded indices for two classes *)

Lemma od_set_Forall (Q : nat * nat -> Prop) (d : odict) key v :
  Forall Q d -> Q (key, v) -> Forall Q (od_set d key v).
Proof.
  intros Hd Hq. induction d as [|[k' v'] d IH]; simpl.
  - apply Forall_cons_2; [exact Hq|apply Forall_nil_2].
  - apply Forall_cons in Hd as [Hh Ht].
    destruct (Nat.eqb_spec k' key) as [->|Hne].
    + apply Forall_cons_2; [exact Hq|exact Ht].
    + apply Forall_cons_2; [exact Hh|exact (IH Ht)].
Qed.

Lemma od_set_nonempty (d : odict) key v : od_set d key v <> [].
Proof. destruct d as [|[k' v'] d]; simpl; [|destruct (k' =? key)]; discriminate. Qed.

Lemma od_merge_Forall (Q : nat * nat -> Prop) (d1 d2 : odict) :
  Forall Q d1 -> Forall Q d2 -> Forall Q (od_merge d1 d2).
Proof.
  unfold od_merge. revert d1. induction d2 as [|[k' v'] d2 IH]; intros d1 H1 H2.
  - exact H1.
  - apply Forall_cons in H2 as [Hh Ht]. simpl. apply IH; [|exact Ht].
    apply od_set_Forall; assumption.
Qed.

Lemma od_merge_nonempty (d1 d2 : odict) : d1 <> [] -> od_merge d1 d2 <> [].
Proof.
  unfold od_merge. revert d1. induction d2 as [|[k' v'] d2 IH]; intros d1 H1.
  - exact H1.
  - simpl. apply IH. apply od_set_nonempty.
Qed.

Lemma od_popitem_total (Q : nat * nat -> Prop) (d : odict) :
  d <> [] -> Forall Q d ->
  exists kv rest, od_popitem d = Ok (kv, rest) /\ Q kv /\ Forall Q rest.
Proof.
  intros Hne Hd. unfold od_popitem.
  destruct (exists_last Hne) as (rest & kv & ->).
  rewrite last_snoc, removelast_last.
  apply Forall_app in Hd as [Hrest Hkv]. apply Forall_cons in Hkv as [Hkv _].
  exists kv, rest. auto.
Qed.

Lemma clamp_ok_list k (nodes : odict) :
  Forall (fun kv : nat * nat => (kv.2 <= k)%nat) nodes ->
  clamp_ok k (Some (list_to_map nodes)).
Proof.
  intros Hall x v H. unfold clamp in H. simpl in H.
  apply elem_of_list_to_map_2 in H.
  exact (proj1 (Forall_forall _ _) Hall (x, v) H).
Qed.

Lemma get_node_index_total (m : nat) (El : list (nat * nat))
    (E_order : gmap nat (nat * nat)) (idx : nat) :
  (forall j, E_order !! j = El !! j) ->
  (idx < m * 2 + length El * 2 ^ 2)%nat ->
  exists nodes,
    _get_node_index m 2 E_order idx = Ok nodes
    /\ nodes <> []
    /\ Forall (fun kv : nat * nat =>
                 ((kv.1 < m)%nat
                  \/ exists e, e ∈ El /\ (kv.1 = e.1 \/ kv.1 = e.2))
                 /\ (1 <= kv.2 <= 2)%nat) nodes.
Proof.
  intros HE Hidx. unfold _get_node_index.
  destruct (decide (idx < m * 2)%nat) as [Hlt|Hge].
  - eexists. split; [reflexivity|]. split; [apply od_set_nonempty|].
    apply od_set_Forall; [apply Forall_nil_2|]. cbn [fst snd].
    pose proof (Nat.div_mod_eq idx 2) as Hdm.
    pose proof (Nat.mod_upper_bound idx 2 ltac:(lia)) as Hmod.
    split; [left; apply Nat.Div0.div_lt_upper_bound; lia|lia].
  - set (j := (idx - m * 2)%nat).
    pose proof (Nat.div_mod_eq j 4) as Hdm.
    pose proof (Nat.mod_upper_bound j 4 ltac:(lia)) as Hmod.
    assert (Hj : (j / 4 < length El)%nat).
    { apply Nat.Div0.div_lt_upper_bound. unfold j.
      change (2 ^ 2)%nat with 4%nat in Hidx. lia. }
    destruct (lookup_lt_is_Some_2 El (j / 4) Hj) as [e He].
    cbv zeta. fold j. rewrite HE, He.
    set (rem := (j - 4 * (j / 4))%nat).
    assert (Hrem : (rem < 4)%nat) by (unfold rem; lia).
    pose proof (Nat.div_mod_eq rem 2) as Hdm2.
    pose proof (Nat.mod_upper_bound rem 2 ltac:(lia)) as Hmod2.
    eexists. split; [reflexivity|]. split; [apply od_set_nonempty|].
    assert (Hin : e ∈ El) by exact (list_elem_of_lookup_2 _ _ _ He).
    apply od_set_Forall; [apply od_set_Forall; [apply Forall_nil_2|]|];
      cbn [fst snd].
    + split; [right; exists e; split; [exact Hin|left; reflexivity]|].
      assert (rem / 2 < 2)%nat by (apply Nat.Div0.div_lt_upper_bound; lia). lia.
    + split; [right; exists e; split; [exact Hin|right; reflexivity]|]. lia.
Qed.

(** ** The moment matrices of a tree, for two classes *)

Lemma true_mu_total El m k p_solo p_joints :
  exists mu, _generate_true_mu El (length El) m k p_solo p_joints true = Ok mu.
Proof.
  destruct (mu_rows_solo_shape m k p_solo) as [Hlen Hrows].
  unfold _generate_true_mu, moment_size.
  rewrite mu_solo_phase by lia. rewrite bind_Ok.
  rewrite (mu_joint_phase El m k p_joints).
  - rewrite bind_Ok. eauto.
  - rewrite length_app, Hlen. unfold zeros. rewrite length_replicate. lia.
  - apply Forall_app. split; [exact Hrows|].
    unfold zeros. apply Forall_replicate, length_replicate.
Qed.

Section TreeMoments.
Variable El : list (nat * nat).
Variable theta : gmap tkey (list R).
Variable m : nat.
Variable E_order : gmap nat (nat * nat).
Variable p : list R.
Hypothesis Hforest : forest_edges El.
Hypothesis Hth : forall y, (1 <= y <= 2)%nat -> theta_ok El theta 2 y (graph_of El).
Hypothesis H0 : 0%nat ∈ dom (graph_of El).
Hypothesis Hconn : forall i, (i < m)%nat -> connected (graph_of El) 0 i.
Hypothesis HE : forall j, E_order !! j = El !! j.
Hypothesis Hp : length p = 2%nat.

Lemma node_dom x :
  (x < m)%nat \/ (exists e, e ∈ El /\ (x = e.1 \/ x = e.2)) ->
  x ∈ dom (graph_of El).
Proof using All.
  intros [Hx|Hx].
  - exact (connected_dom El 0 x (Hconn x Hx) H0).
  - apply elem_of_dom_graph_of. exact Hx.
Qed.

Lemma Z_vals_total :
  exists Zv : gmap nat R,
    foldM (fun Z_vals y =>
             Z ← get_Z (graph_of El) El theta 2 y; Ok (<[y := Z]> Z_vals))
      (seq 1 2) (∅ : gmap nat R) = Ok Zv
    /\ forall y, (1 <= y <= 2)%nat -> exists Z, Zv !! y = Some Z.
Proof using All.
  destruct (solo_Z_ok El theta 2 Hth H0 1 ltac:(lia)) as (v1 & _ & Hz1 & _).
  destruct (solo_Z_ok El theta 2 Hth H0 2 ltac:(lia)) as (v2 & _ & Hz2 & _).
  eexists. split.
  - cbn [seq foldM]. rewrite Hz1, bind_Ok, Hz2, bind_Ok. reflexivity.
  - intros y Hy. assert (y = 1 \/ y = 2)%nat as [-> | ->] by lia.
    + rewrite lookup_insert_ne by lia. rewrite lookup_insert_eq. eauto.
    + rewrite lookup_insert_eq. eauto.
Qed.

Lemma O_entry_total p_solo Zv a b :
  (forall y, (1 <= y <= 2)%nat -> exists Z, Zv !! y = Some Z) ->
  (a < m * 2 + length El * 2 ^ 2)%nat -> (b < m * 2 + length El * 2 ^ 2)%nat ->
  exists sm, O_entry (graph_of El) El E_order theta m 2 p p_solo Zv a b = Ok sm.
Proof using All.
  intros HZ Ha Hb. unfold O_entry.
  destruct (get_node_index_total m El E_order a HE Ha) as (n1 & -> & Hne1 & Hall1).
  destruct (get_node_index_total m El E_order b HE Hb) as (n2 & -> & _ & Hall2).
  rewrite !bind_Ok. destruct (od_consistent n1 n2); [|eauto].
  destruct (od_popitem_total _ (od_merge n1 n2) (od_merge_nonempty n1 n2 Hne1)
              (od_merge_Forall _ n1 n2 Hall1 Hall2))
    as (nv & nodes & -> & [Hnv Hval] & Hrest).
  rewrite bind_Ok. cbn [fst snd].
  destruct (foldM_total (fun _ : R => True)
    (fun sm y =>
      if decide (length nodes = 0)%nat then
        let x := dd_get p_solo (nv.1, nv.2, y) in
        py ← getitem p (y - 1);
        Ok (sm + x * py)
      else
        v ← naive_SPA (graph_of El) El theta 2 nv.1 y (Some (list_to_map nodes));
        x ← getitem v nv.2;
        Z ← match Zv !! y with Some Z => Ok Z | None => Err KeyError end;
        py ← getitem p (y - 1);
        Ok (sm + x / Z * py)) (seq 1 2)) with (a := 0) as (sm & Hsm & _);
    [|exact I|exists sm; exact Hsm].
  intros acc y _ Hy. apply elem_of_seq in Hy.
  destruct (lookup_lt_is_Some_2 p (y - 1) ltac:(lia)) as [py Hpy].
  destruct (decide (length nodes = 0)%nat).
  - cbv zeta. unfold getitem. rewrite Hpy, bind_Ok. eauto.
  - destruct (spa_total_at El theta 2 y (Hth y ltac:(lia))
                (Some (list_to_map nodes)) nv.1) as (v & Hv & Hlen).
    { apply clamp_ok_list. eapply Forall_impl; [exact Hrest|].
      intros kv [_ Hkv]. lia. }
    { exact (node_dom _ Hnv). }
    rewrite Hv, bind_Ok.
    destruct (lookup_lt_is_Some_2 v nv.2 ltac:(lia)) as [x Hx].
    destruct (HZ y ltac:(lia)) as [Z HZy].
    unfold getitem. rewrite Hx, bind_Ok, HZy, bind_Ok, Hpy, bind_Ok. eauto.
Qed.

Lemma true_O_total p_solo :
  exists O,
    _generate_true_O (graph_of El) El E_order (length El) theta m 2 p p_solo true
    = Ok O.
Proof using All.
  unfold _generate_true_O.
  destruct Z_vals_total as (Zv & -> & HZ). rewrite bind_Ok. cbv zeta.
  unfold moment_size.
  set (sz := (m * 2 + length El * 2 ^ 2)%nat).
  destruct (foldM_total (matrix_ok sz sz (fun _ : R => True))
    (fun O idx1 =>
       foldM (fun O idx2 =>
                sm ← O_entry (graph_of El) El E_order theta m 2 p p_solo Zv idx1 idx2;
                set2 O idx1 idx2 sm) (seq 0 sz) O) (seq 0 sz))
    with (a := zeros sz sz) as (O & HO & _);
    [|apply zeros_ok|exists O; exact HO].
  intros O1 a HO1 Ha. apply elem_of_seq in Ha.
  apply (foldM_total (matrix_ok sz sz (fun _ : R => True))); [|exact HO1].
  intros O2 b HO2 Hb. apply elem_of_seq in Hb.
  destruct (O_entry_total p_solo Zv a b HZ) as [sm ->]; [unfold sz in *; lia..|].
  rewrite bind_Ok. apply (set2_total sz sz); [exact HO2|lia|lia|exact I].
Qed.

Lemma P_fours_total :
  (2 <= m)%nat ->
  exists x, P_fours_true (graph_of El) El theta 2 1 2 3 4 1 1 1 1 1 = Ok x.
Proof using All.
  intros Hm. unfold P_fours_true.
  destruct (solo_Z_ok El theta 2 Hth H0 1 ltac:(lia)) as (v1 & _ & -> & _).
  rewrite bind_Ok. cbv zeta.
  destruct (spa_total_at El theta 2 1 (Hth 1%nat ltac:(lia))
              (Some (<[4%nat := 1%nat]> (<[3%nat := 1%nat]> (<[2%nat := 1%nat]> ∅))))
              1) as (v & -> & Hlen).
  { intros x w H. unfold clamp in H. simpl in H.
    rewrite !lookup_insert_Some, lookup_empty in H.
    destruct H as [[_ <-]|[_ [[_ <-]|[_ [[_ <-]|[_ H]]]]]]; try lia. discriminate. }
  { exact (connected_dom El 0 1 (Hconn 1%nat ltac:(lia)) H0). }
  rewrite bind_Ok.
  destruct (lookup_lt_is_Some_2 v 1 ltac:(lia)) as [x Hx].
  unfold getitem. rewrite Hx, bind_Ok. eauto.
Qed.
End TreeMoments.

(** On a tree of sources with two classes the moment phase raises only
    what [np.linalg.cond] raises. *)
Lemma tree_moment_phase (linalg_cond : list (list R) -> result R) (d : deps)
    (theta : gmap tkey (list R)) (m : nat) (p : list R) :
  tree_deps m d -> (2 <= m)%nat -> length p = 2%nat ->
  (forall y, (1 <= y <= 2)%nat -> theta_ok (E d) theta 2 y (graph_of (E d))) ->
  exists O mu sig,
    moment_phase linalg_cond d theta m 2 p
    = (_ ← linalg_cond O;
       _ ← linalg_cond sig;
       Ok {| mo_p_solo :=
               fold_left (fun t key =>
                            <[key := solo_entry (graph_of (E d)) (E d) theta 2 key]> t)
                 (solo_keys m 2) ∅;
             mo_p_joints :=
               fold_left (fun t key =>
                            <[key := joint_entry (graph_of (E d)) (E d) theta 2 key]> t)
                 (joint_keys m 2) ∅;
             mo_mu_true := mu; mo_O_true := O; mo_sig := sig |}).
Proof.
  intros (Hforest & Hrange & Hpar & HE & Hn & HG & H0 & Hconn) Hm Hp Hth.
  unfold moment_phase. rewrite HG, Hn.
  rewrite (solo_forward_ok (E d) theta m 2 Hth H0 Hconn), bind_Ok.
  rewrite (joint_forward_ok (E d) theta m 2 Hth H0 Hconn), bind_Ok.
  destruct (P_fours_total (E d) theta m (E_order d) p Hforest Hth H0 Hconn HE Hp Hm)
    as [x ->].
  rewrite bind_Ok.
  match goal with |- context [_generate_true_mu _ _ _ _ ?ps ?pj true] =>
    destruct (true_mu_total (E d) m 2 ps pj) as [mu ->];
    destruct (true_O_total (E d) theta m (E_order d) p Hforest Hth H0 Hconn HE Hp ps)
      as [O ->]
  end.
  rewrite !bind_Ok. unfold sigma_matrix. rewrite decide_True by exact Hp.
  exists O, mu. eexists. rewrite bind_Ok. reflexivity.
Qed.

(** ** The sampling loops on a tree, for two classes *)

Lemma choice_p_total (s : source) (a : nat) (p : list R) (pos : nat) :
  a <> 0%nat -> length p = a -> Forall (fun x => 0 <= x) p -> sumR p = 1 ->
  choice_p s a p pos = Ok (index s pos a, S pos).
Proof.
  intros Ha Hlen Hall Hsum. unfold choice_p.
  rewrite decide_False by exact Ha. rewrite decide_True by exact Hlen.
  rewrite (nonneg_Forall p Hall).
  destruct (Req_dec_T (sumR p) 1) as [_|Hne]; [reflexivity|contradiction].
Qed.

Lemma label_distribution_two (y : nat) (prob_y prob_0 : R) :
  (1 <= y <= 2)%nat -> 0 <= prob_y -> 0 <= prob_0 -> prob_y + prob_0 <= 1 ->
  exists pv,
    label_distribution 2 y prob_y prob_0 = Ok pv
    /\ length pv = 3%nat /\ Forall (fun x => 0 <= x) pv /\ sumR pv = 1.
Proof.
  intros Hy Hpy Hp0 Hle. unfold label_distribution.
  change (IZR (Z.of_nat 2 - 1)) with 1.
  assert (y = 1 \/ y = 2)%nat as [-> | ->] by lia.
  - eexists. split; [reflexivity|]. split; [reflexivity|]. split.
    + repeat (apply Forall_cons_2; [lra|]). apply Forall_nil_2.
    + simpl. lra.
  - eexists. split; [reflexivity|]. split; [reflexivity|]. split.
    + repeat (apply Forall_cons_2; [lra|]). apply Forall_nil_2.
    + simpl. lra.
Qed.

Lemma get2_total {A} (n m : nat) (Q : A -> Prop) (M : list (list A)) (i j : nat) :
  matrix_ok n m Q M -> (i < n)%nat -> (j < m)%nat ->
  exists x, get2 M i j = Ok x /\ Q x.
Proof.
  intros [Hlen Hrows] Hi Hj.
  destruct (lookup_lt_is_Some_2 M i ltac:(lia)) as [row Hrow].
  pose proof (Forall_lookup_1 _ _ _ _ Hrows Hrow) as [Hrl Hrq].
  destruct (lookup_lt_is_Some_2 row j ltac:(lia)) as [x Hx].
  exists x. split; [|exact (Forall_lookup_1 _ _ _ _ Hrq Hx)].
  unfold get2, getitem. rewrite Hrow, bind_Ok, Hx. reflexivity.
Qed.

Section TreeSampling.
Variable s : source.
Variables n m : nat.
Variable El : list (nat * nat).
Variable theta : gmap tkey (list R).
Variable parent : gmap nat nat.
Variable p : list R.
Hypothesis Hs : source_ok s.
Hypothesis Hforest : forest_edges El.
Hypothesis Hth : forall y, (1 <= y <= 2)%nat -> theta_ok El theta 2 y (graph_of El).
Hypothesis H0 : 0%nat ∈ dom (graph_of El).
Hypothesis Hconn : forall i, (i < m)%nat -> connected (graph_of El) 0 i.
Hypothesis Hrange : forall q c, (q, c) ∈ El -> (q < m)%nat /\ (c < m)%nat.
Hypothesis Hpar : forall i q, parent !! i = Some q <-> (q, i) ∈ El.
Hypothesis Hp : dist_ok 2 p.

Let ps : gmap (nat * nat * nat) R :=
  fold_left (fun t key => <[key := solo_entry (graph_of El) El theta 2 key]> t)
    (solo_keys m 2) ∅.
Let pj : gmap (nat * nat * nat * nat * nat) R :=
  fold_left (fun t key => <[key := joint_entry (graph_of El) El theta 2 key]> t)
    (joint_keys m 2) ∅.

Lemma solo_entry_sum j y :
  (j < m)%nat -> (1 <= y <= 2)%nat ->
  solo_entry (graph_of El) El theta 2 (j, 0%nat, y)
  + solo_entry (graph_of El) El theta 2 (j, 1%nat, y)
  + solo_entry (graph_of El) El theta 2 (j, 2%nat, y) = 1.
Proof using All.
  intros Hj Hy.
  pose proof (solo_row_sum El theta m 2 Hforest Hth H0 Hconn j y Hj Hy) as Hsum.
  cbn [seq map Nat.add sumR foldr] in Hsum. unfold dd_get, dd_read in Hsum.
  rewrite !(solo_lookup El theta m 2) in Hsum by lia.
  cbn [dd_float] in Hsum. lra.
Qed.

Lemma sample_probs_total L i j y :
  matrix_ok n m (fun v => (v <= 2)%nat) L ->
  (i < n)%nat -> (j < m)%nat -> (1 <= y <= 2)%nat ->
  exists prob_y prob_0,
    sample_probs parent ps pj L i j y = Ok (Fin prob_y, Fin prob_0)
    /\ 0 <= prob_y /\ 0 <= prob_0 /\ prob_y + prob_0 <= 1.
Proof using All.
  intros HL Hi Hj Hy. unfold sample_probs.
  destruct (parent !! j) as [q|] eqn:Hq.
  - apply Hpar in Hq. destruct (Hrange q j Hq) as [Hqm _].
    assert (Hjq : j <> q).
    { intros ->. destruct Hforest as [_ [rank Hrank]].
      exact (forest_no_loop El rank Hrank q Hq). }
    destruct (get2_total n m _ L i q HL Hi Hqm) as (l & -> & Hl).
    rewrite bind_Ok. unfold ps, pj.
    rewrite (P_conditional_value El theta m 2 Hth H0 Hconn) by (auto; lia).
    rewrite !bind_Ok.
    rewrite (P_conditional_value El theta m 2 Hth H0 Hconn) by (auto; lia).
    rewrite bind_Ok.
    pose proof (conditional_sum El theta m 2 Hforest Hth H0 Hconn j q l y
                  Hj Hqm Hjq Hl Hy) as Hsum.
    cbn [seq map Nat.add sumR foldr] in Hsum.
    pose proof (solo_entry_pos El theta m 2 Hth H0 Hconn q l y Hqm Hl Hy) as Hsp.
    pose proof (joint_entry_pos El theta m 2 Hth H0 Hconn j 0 q l y
                  Hj Hqm ltac:(lia) Hl Hy) as H0p.
    pose proof (joint_entry_pos El theta m 2 Hth H0 Hconn j 1 q l y
                  Hj Hqm ltac:(lia) Hl Hy) as H1p.
    pose proof (joint_entry_pos El theta m 2 Hth H0 Hconn j 2 q l y
                  Hj Hqm ltac:(lia) Hl Hy) as H2p.
    pose proof (Rdiv_lt_0_compat _ _ H0p Hsp) as Hd0.
    pose proof (Rdiv_lt_0_compat _ _ H1p Hsp) as Hd1.
    pose proof (Rdiv_lt_0_compat _ _ H2p Hsp) as Hd2.
    eexists. eexists. split; [reflexivity|].
    assert (y = 1 \/ y = 2)%nat as [-> | ->] by lia; lra.
  - pose proof (solo_entry_sum j y Hj Hy) as Hsum.
    pose proof (solo_entry_pos El theta m 2 Hth H0 Hconn j 0 y Hj ltac:(lia) Hy) as H0p.
    pose proof (solo_entry_pos El theta m 2 Hth H0 Hconn j 1 y Hj ltac:(lia) Hy) as H1p.
    pose proof (solo_entry_pos El theta m 2 Hth H0 Hconn j 2 y Hj ltac:(lia) Hy) as H2p.
    eexists. eexists. split; [reflexivity|].
    unfold dd_get, dd_read, ps. rewrite !(solo_lookup El theta m 2) by lia.
    cbn [dd_float].
    assert (y = 1 \/ y = 2)%nat as [-> | ->] by lia; lra.
Qed.

Lemma sample_entry_total i y st j :
  matrix_ok n m (fun v => (v <= 2)%nat) st.1 ->
  (i < n)%nat -> (j < m)%nat -> (1 <= y <= 2)%nat ->
  exists st',
    sample_entry s 2 parent ps pj i y st j = Ok st'
    /\ matrix_ok n m (fun v => (v <= 2)%nat) st'.1.
Proof using All.
  intros HL Hi Hj Hy. unfold sample_entry.
  destruct (sample_probs_total st.1 i j y HL Hi Hj Hy)
    as (prob_y & prob_0 & -> & Hpy & Hp0 & Hle).
  rewrite bind_Ok.
  destruct (label_distribution_two y prob_y prob_0 Hy Hpy Hp0 Hle)
    as (pv & -> & Hlen & Hall & Hsum).
  rewrite bind_Ok.
  rewrite (choice_p_total s (2 + 1) pv st.2 ltac:(lia) Hlen Hall Hsum), bind_Ok.
  cbn [fst snd].
  pose proof (proj2 Hs st.2 (2 + 1)%nat ltac:(lia)) as Hidx.
  assert (Hdrawn : (index s st.2 (2 + 1) <= 2)%nat) by lia.
  destruct (set2_total n m (fun v => (v <= 2)%nat) st.1 i j (index s st.2 (2 + 1))
              HL Hi Hj Hdrawn) as (L' & -> & HL').
  rewrite bind_Ok. eexists. split; [reflexivity|exact HL'].
Qed.

Lemma sample_row_total st i :
  matrix_ok n m (fun v => (v <= 2)%nat) st.1.1 -> length st.1.2 = n ->
  (i < n)%nat ->
  exists st',
    sample_row s m 2 parent p ps pj st i = Ok st'
    /\ matrix_ok n m (fun v => (v <= 2)%nat) st'.1.1 /\ length st'.1.2 = n.
Proof using All.
  intros HL HY Hi. destruct st as [[L Y] pos]. cbn [fst snd] in HL, HY.
  unfold sample_row. destruct Hp as (Hlen & Hall & Hsum).
  rewrite (choice_p_total s 2 p pos ltac:(lia) Hlen Hall Hsum), bind_Ok.
  cbn [fst snd].
  pose proof (proj2 Hs pos 2%nat ltac:(lia)) as Hidx.
  unfold setitem. rewrite decide_True by lia. rewrite bind_Ok.
  destruct (foldM_total (fun st : list (list nat) * nat =>
                           matrix_ok n m (fun v => (v <= 2)%nat) st.1)
              (sample_entry s 2 parent ps pj i (index s pos 2 + 1)) (seq 0 m))
    with (a := (L, S pos)) as (st' & -> & HL'); [|exact HL|].
  - intros st j Hst Hj. apply elem_of_seq in Hj.
    apply sample_entry_total; [exact Hst|exact Hi|lia|lia].
  - rewrite bind_Ok. eexists. split; [reflexivity|]. cbn [fst snd].
    split; [exact HL'|]. rewrite length_insert. exact HY.
Qed.

Lemma sample_rows_total L Y pos :
  matrix_ok n m (fun v => (v <= 2)%nat) L -> length Y = n ->
  exists st, sample_rows s n m 2 parent p ps pj L Y pos = Ok st.
Proof using All.
  intros HL HY. unfold sample_rows.
  destruct (foldM_total (fun st : list (list nat) * list nat * nat =>
                           matrix_ok n m (fun v => (v <= 2)%nat) st.1.1
                           /\ length st.1.2 = n)
              (sample_row s m 2 parent p ps pj) (seq 0 n))
    with (a := (L, Y, pos)) as (st & Hst & _); [|split; assumption|eauto].
  intros st i [H1 H2] Hi. apply elem_of_seq in Hi.
  apply sample_row_total; [exact H1|exact H2|lia].
Qed.
End TreeSampling.

(** ** The constructor on a tree of sources, for two classes *)

Lemma connected_root_dom El i :
  connected (graph_of El) 0 i -> i <> 0%nat -> 0%nat ∈ dom (graph_of El).
Proof.
  intros Hc Hi. destruct Hc as [|a b c Hab _]; [congruence|].
  exact (proj1 (adjacent_dom El a b Hab)).
Qed.

Lemma explicit_tree_deps m l :
  (2 <= m)%nat -> tree_list m l -> tree_deps m (_generate_edges_from_list l).
Proof.
  intros Hm (Hforest & Hrange & Hconn).
  pose proof (record_loop l deps_init 0%nat eq_refl) as H.
  cbv zeta in H. unfold _generate_edges_from_list.
  destruct (fold_left _ l (deps_init, 0%nat)) as [d idx].
  cbn [fst snd] in H. destruct H as (H1 & H2 & H3 & H4 & H5 & H6).
  unfold tree_deps, set_n_edges. cbn [E G parent E_order n_edges].
  simpl in H1. rewrite H1.
  split; [exact Hforest|]. split; [exact Hrange|]. split.
  { intros i q. rewrite H6. simpl. rewrite lookup_empty.
    destruct (last (filter (fun e : nat * nat => e.2 = i) l)) as [e|] eqn:Hlast.
    - apply last_Some_elem_of in Hlast.
      apply list_elem_of_filter in Hlast as [Hei Hel].
      destruct e as [q' i']. simpl in Hei. subst i'. simpl. split.
      + intros [= <-]. exact Hel.
      + intros Hq. f_equal.
        exact (NoDup_snd_unique l q' q i (proj1 Hforest) Hel Hq).
    - split; [discriminate|]. intros Hq. exfalso.
      apply last_None in Hlast.
      assert (Hin : (q, i) ∈ filter (fun e : nat * nat => e.2 = i) l)
        by (apply list_elem_of_filter; split; [reflexivity|exact Hq]).
      rewrite Hlast in Hin. apply elem_of_nil in Hin. exact Hin. }
  split.
  { intros j. rewrite H5. simpl. rewrite Nat.sub_0_r.
    destruct (decide (0 <= j < length l)%nat); [reflexivity|].
    rewrite lookup_empty. symmetry. apply lookup_ge_None_2. lia. }
  split; [reflexivity|]. split; [exact H4|]. split; [|exact Hconn].
  exact (connected_root_dom l 1 (Hconn 1%nat ltac:(lia)) ltac:(lia)).
Qed.

Lemma random_tree_deps s m edge_prob pos :
  source_ok s -> 1 <= edge_prob -> (2 <= m)%nat ->
  tree_deps m (_generate_edges s m edge_prob pos).1.
Proof.
  intros Hs Hep Hm.
  pose proof (spanning_parents s m edge_prob pos Hs Hep) as H. cbv zeta in H.
  assert (Hn : n_edges (_generate_edges s m edge_prob pos).1
               = length (E (_generate_edges s m edge_prob pos).1)).
  { unfold _generate_edges.
    destruct (fold_left _ (seq 0 m) (deps_init, 0%nat, pos)) as [[d0 idx] pos0].
    reflexivity. }
  set (d := (_generate_edges s m edge_prob pos).1) in *.
  destruct H as (_ & (_ & Hnd & Hrange & Hpar & HE & HG) & Hparents).
  split.
  { split; [exact Hnd|]. exists (fun x => x). intros q c Hqc.
    apply Hrange in Hqc. lia. }
  split; [intros q c Hqc; apply Hrange in Hqc; lia|].
  split; [exact Hpar|]. split; [exact HE|]. split; [exact Hn|].
  split; [exact HG|]. split.
  - exact (parents_nodes (E d) m Hm Hparents 0%nat ltac:(lia)).
  - exact (parents_connect (E d) m Hparents).
Qed.

Lemma class_balance_total s cb pos :
  source_ok s -> balance_ok s 2 cb ->
  exists p pos', class_balance_vector s 2 cb pos = Ok (p, pos') /\ dist_ok 2 p.
Proof.
  intros Hs Hcb. destruct cb as [| |p]; simpl in Hcb.
  - eexists. eexists. split; [reflexivity|]. split; [reflexivity|]. split.
    + simpl. repeat (apply Forall_cons_2; [lra|]). apply Forall_nil_2.
    + simpl. lra.
  - specialize (Hcb pos). unfold class_balance_vector, random_vec in *.
    cbn [fst seq map sumR foldr] in *.
    pose proof (proj1 Hs pos) as H1. pose proof (proj1 Hs (S pos)) as H2.
    eexists. eexists. split; [reflexivity|]. split; [reflexivity|]. split.
    + repeat (apply Forall_cons_2; [apply Rmult_le_pos;
               [lra|left; apply Rinv_0_lt_compat; lra]|]).
      apply Forall_nil_2.
    + cbn [sumR foldr]. field. lra.
  - eexists. eexists. split; [reflexivity|exact Hcb].
Qed.

(** On a tree of sources, [_generate_label_matrix] raises only what
    [np.linalg.cond] and [np.linalg.inv] raise. *)
Lemma label_matrix_total (linalg_cond : list (list R) -> result R)
    (linalg_inv : list (list R) -> result (list (list R))) (s : source)
    (d : deps) (theta : gmap tkey (list R)) (n m : nat) (p : list R) (pos : nat) :
  source_ok s -> tree_deps m d -> (2 <= m)%nat -> dist_ok 2 p ->
  (forall y, (1 <= y <= 2)%nat -> theta_ok (E d) theta 2 y (graph_of (E d))) ->
  (exists gen,
     _generate_label_matrix linalg_cond linalg_inv s d theta n m 2 p pos = Ok gen)
  \/ (exists e M,
        _generate_label_matrix linalg_cond linalg_inv s d theta n m 2 p pos = Err e
        /\ (linalg_cond M = Err e \/ linalg_inv M = Err e)).
Proof.
  intros Hs Htree Hm Hp Hth. unfold _generate_label_matrix. cbv zeta.
  destruct (tree_moment_phase linalg_cond d theta m p Htree Hm (proj1 Hp) Hth)
    as (O & mu & sig & ->).
  destruct Htree as (Hforest & Hrange & Hpar & HE & Hn & HG & H0 & Hconn).
  destruct (linalg_cond O) as [c1|e] eqn:Hc1;
    [|right; exists e, O; split; [reflexivity|left; exact Hc1]].
  rewrite bind_Ok.
  destruct (linalg_cond sig) as [c2|e] eqn:Hc2;
    [|right; exists e, sig; split; [reflexivity|left; exact Hc2]].
  rewrite !bind_Ok. cbn [mo_sig mo_p_solo mo_p_joints].
  destruct (linalg_inv sig) as [sig_inv|e] eqn:Hinv;
    [|right; exists e, sig; split; [reflexivity|right; exact Hinv]].
  rewrite bind_Ok.
  destruct (sample_rows_total s n m (E d) theta (parent d) p Hs Hforest Hth H0 Hconn
              Hrange Hpar Hp (replicate n (replicate m 0%nat)) (replicate n 0%nat) pos
              (zero_matrix_ok n m 2) (length_replicate n 0%nat)) as [st ->].
  rewrite bind_Ok. left. eauto.
Qed.


(** ** Examples on the chain and on the pair *)





Lemma pair_tree : tree_list 2 pair_edges.
Proof.
  assert (Hin : forall p c, (p, c) ∈ pair_edges -> p = 0%nat /\ c = 1%nat).
  { intros p c H. apply list_elem_of_singleton in H. injection H as -> ->. auto. }
  split; [split|split].
  - apply (bool_decide_unpack _). vm_compute. exact I.
  - exists (fun x => x). intros p c H. apply Hin in H. lia.
  - intros p c H. apply Hin in H. lia.
  - apply (parents_connect pair_edges 2). intros i Hi.
    exists 0%nat. assert (i = 1)%nat as -> by lia. split; [left|lia].
Qed.

Lemma half_dist : dist_ok 2 [1/2; 1/2].
Proof.
  split; [reflexivity|]. split.
  - repeat (apply Forall_cons_2; [lra|]). apply Forall_nil_2.
  - simpl. lra.
Qed.


(** ** Bags of one fixed size *)

Lemma make_distribution_cases (normal : nat -> R) (sigma : R) (num_words pos : nat) :
  make_distribution normal sigma num_words pos = Err ValueError
  \/ exists d, make_distribution normal sigma num_words pos
               = Ok (d, (pos + num_words)%nat).
Proof.
  unfold make_distribution. destruct (Rlt_dec sigma 0); [left; reflexivity|].
  right. eexists. reflexivity.
Qed.

Lemma word_dists_loop (normal : nat -> R) (vocab : list String.string) (sigma : R)
    (l : list nat) :
  forall st : gmap nat dist * nat,
  (exists st', foldM (fun st y =>
                       d ← make_distribution normal sigma (length vocab) st.2;
                       Ok (<[y := d.1]> st.1, d.2)) l st = Ok st')
  \/ foldM (fun st y =>
              d ← make_distribution normal sigma (length vocab) st.2;
              Ok (<[y := d.1]> st.1, d.2)) l st = Err ValueError.
Proof.
  induction l as [|y l IH]; intros st; [left; eexists; reflexivity|].
  cbn [foldM].
  destruct (make_distribution_cases normal sigma (length vocab) st.2) as [H|[d H]];
    rewrite H; [right; reflexivity|].
  rewrite !bind_Ok. apply IH.
Qed.

(** X29: [gaussian_bags_of_words] cannot make bags of one fixed size: when
    the smallest and the largest entry of [bag_size] are equal and [Y] is
    not empty, it raises [ValueError], because the sizes are drawn from the
    empty range [range(min, max)]. *)
Theorem gaussian_bags_fixed_size (s : source) (normal : nat -> R)
    (set_iter : list nat -> list nat) (vocab : list String.string)
    (Y : list nat) (sigma : R) (bag_size : list nat) (pos size : nat) :
  Y <> [] ->
  list_min bag_size = Ok size -> list_max bag_size = Ok size ->
  gaussian_bags_of_words s normal set_iter vocab Y sigma bag_size pos
  = Err ValueError.
Proof.
  intros HY Hmin Hmax. unfold gaussian_bags_of_words.
  destruct (word_dists_loop normal vocab sigma (set_iter Y) (∅, pos))
    as [[wd Hwd]|Hwd]; rewrite Hwd; [|reflexivity].
  rewrite bind_Ok, Hmin, bind_Ok, Hmax, bind_Ok.
  unfold choice_range. rewrite decide_True by lia.
  rewrite decide_False; [reflexivity|].
  intros Hlen. apply length_zero_iff_nil in Hlen. contradiction.
Qed.

Lemma gaussian_bags_fixed_size_witness :
  gaussian_bags_of_words demo_source demo_normal remove_dups demo_vocab
    [1%nat] 1 [3%nat; 3%nat] 0 = Err ValueError.
Proof.
  apply (gaussian_bags_fixed_size demo_source demo_normal remove_dups demo_vocab
           [1%nat] 1 [3%nat; 3%nat] 0 3); [discriminate|reflexivity|reflexivity].
Defined.
